(** * A shallow embedding of RedBlackTree.h

    The class template [RedBlackTree<Key, Value>] is instantiated at
    [Key = Value = int]; keys are only ever compared, so they are modelled as
    [Z].  Nodes live in a heap addressed by pointers, exactly as the C++ nodes
    live in the free store; [Node*] is [option ptr] with [None] for [nullptr].
    Member functions are computations in a state-and-failure monad over the
    tree object (its heap and its [root] field).  Loops and recursive helpers
    take a fuel argument. *)

From stdpp Require Import gmap list sorting.
From Stdlib Require Import ZArith Lia.

Local Open Scope Z_scope.

(** ** Data model *)

Abbreviation ptr := positive.

Inductive Color := RED | BLACK.

Global Instance Color_eq_dec : EqDecision Color.
Proof. solve_decision. Defined.

Record Node := mkNode {
  key : Z;
  value : Z;
  color : Color;
  parent : option ptr;
  left : option ptr;
  right : option ptr
}.

(** The tree object: the free store holding its nodes, the [root] field, and
    two ghost counters recording how many times the rotation primitives and
    [transplant] have been entered. *)
Record RedBlackTree := mkTree {
  heap : gmap ptr Node;
  root : option ptr;
  rotations : nat;
  transplants : nat
}.

Definition empty_tree : RedBlackTree := mkTree ∅ None 0 0.

(** ** The monad of member functions *)

Inductive Error := DuplicateKey | KeyNotFound.

Inductive Res (A : Type) :=
| Done (a : A) (s : RedBlackTree)
| Throw (e : Error) (s : RedBlackTree)
| Fault
| OutOfFuel.
Arguments Done {A} a s.
Arguments Throw {A} e s.
Arguments Fault {A}.
Arguments OutOfFuel {A}.

Definition M (A : Type) : Type := RedBlackTree → Res A.

Definition ret {A} (a : A) : M A := λ s, Done a s.

Definition bind {A B} (m : M A) (f : A → M B) : M B :=
  λ s, match m s with
       | Done a s' => f a s'
       | Throw e s' => Throw e s'
       | Fault => Fault
       | OutOfFuel => OutOfFuel
       end.

Declare Scope rbt_scope.
Delimit Scope rbt_scope with rbt.
Notation "x ← m ; k" := (bind m (λ x, k))
  (at level 20, m at level 100, k at level 200, only parsing) : rbt_scope.
Notation "m ;; k" := (bind m (λ _, k))
  (at level 100, k at level 200, only parsing, right associativity) : rbt_scope.
Local Open Scope rbt_scope.

Definition throw {A} (e : Error) : M A := λ s, Throw e s.
Definition fault {A} : M A := λ _, Fault.
Definition out_of_fuel {A} : M A := λ _, OutOfFuel.

(** Reading a field through a [Node*]: dereferencing [nullptr] or a pointer
    to a released node is a fault. *)
Definition get {A} (f : Node → A) (x : option ptr) : M A :=
  λ s, match x with
       | None => Fault
       | Some p => match heap s !! p with
                   | Some n => Done (f n) s
                   | None => Fault
                   end
       end.

Definition modify (f : Node → Node) (x : option ptr) : M unit :=
  λ s, match x with
       | None => Fault
       | Some p => match heap s !! p with
                   | Some n => Done tt (mkTree (<[p := f n]> (heap s)) (root s)
                                               (rotations s) (transplants s))
                   | None => Fault
                   end
       end.

Definition set_color (x : option ptr) (c : Color) : M unit :=
  modify (λ n, mkNode (key n) (value n) c (parent n) (left n) (right n)) x.
Definition set_parent (x : option ptr) (p : option ptr) : M unit :=
  modify (λ n, mkNode (key n) (value n) (color n) p (left n) (right n)) x.
Definition set_left (x : option ptr) (l : option ptr) : M unit :=
  modify (λ n, mkNode (key n) (value n) (color n) (parent n) l (right n)) x.
Definition set_right (x : option ptr) (r : option ptr) : M unit :=
  modify (λ n, mkNode (key n) (value n) (color n) (parent n) (left n) r) x.

Definition get_root : M (option ptr) := λ s, Done (root s) s.
Definition set_root (r : option ptr) : M unit :=
  λ s, Done tt (mkTree (heap s) r (rotations s) (transplants s)).

(** [new Node(k, v)]: a RED node without links at an unused address. *)
Definition new_node (k v : Z) : M (option ptr) :=
  λ s, let p := fresh (dom (heap s)) in
       Done (Some p) (mkTree (<[p := mkNode k v RED None None None]> (heap s))
                             (root s) (rotations s) (transplants s)).

(** [delete p]: releasing a pointer that is not allocated is a fault. *)
Definition delete_node (x : option ptr) : M unit :=
  λ s, match x with
       | None => Done tt s
       | Some p => match heap s !! p with
                   | Some _ => Done tt (mkTree (delete p (heap s)) (root s)
                                               (rotations s) (transplants s))
                   | None => Fault
                   end
       end.

Definition count_rotation : M unit :=
  λ s, Done tt (mkTree (heap s) (root s) (S (rotations s)) (transplants s)).
Definition count_transplant : M unit :=
  λ s, Done tt (mkTree (heap s) (root s) (rotations s) (S (transplants s))).

Definition is_null (x : option ptr) : bool :=
  match x with None => true | Some _ => false end.
Definition ptr_eqb (x y : option ptr) : bool := bool_decide (x = y).
Definition Color_eqb (a b : Color) : bool :=
  match a, b with
  | RED, RED | BLACK, BLACK => true
  | _, _ => false
  end.
Definition is_red (c : Color) : bool := Color_eqb c RED.
Definition is_black (c : Color) : bool := Color_eqb c BLACK.

(** ** Structural primitives *)

(** [transplant(u, v)] *)
Definition transplant (u v : option ptr) : M unit :=
  count_transplant;;
  up ← get parent u;
  (if is_null up then set_root v
   else upl ← get left up;
        if ptr_eqb u upl then set_left up v else set_right up v);;
  if is_null v then ret tt
  else up' ← get parent u; set_parent v up'.

(** [leftRotate(x)] *)
Definition leftRotate (x : option ptr) : M unit :=
  count_rotation;;
  y ← get right x;
  if is_null y then ret tt
  else
    yl ← get left y;
    set_right x yl;;
    yl' ← get left y;
    (if is_null yl' then ret tt else set_parent yl' x);;
    xp ← get parent x;
    set_parent y xp;;
    xp' ← get parent x;
    (if is_null xp' then set_root y
     else xpl ← get left xp';
          if ptr_eqb x xpl then set_left xp' y else set_right xp' y);;
    set_left y x;;
    set_parent x y.

(** [rightRotate(y)] *)
Definition rightRotate (y : option ptr) : M unit :=
  count_rotation;;
  x ← get left y;
  if is_null x then ret tt
  else
    xr ← get right x;
    set_left y xr;;
    xr' ← get right x;
    (if is_null xr' then ret tt else set_parent xr' y);;
    yp ← get parent y;
    set_parent x yp;;
    yp' ← get parent y;
    (if is_null yp' then set_root x
     else ypr ← get right yp';
          if ptr_eqb y ypr then set_right yp' x else set_left yp' x);;
    set_right x y;;
    set_parent y x.

(** ** Queries *)

(** [search(key)] *)
Fixpoint search_loop (fuel : nat) (k : Z) (current : option ptr) : M (option ptr) :=
  match fuel with
  | O => out_of_fuel
  | S fuel =>
    if is_null current then ret None
    else
      ck ← get key current;
      if k <? ck then l ← get left current; search_loop fuel k l
      else if k >? ck then r ← get right current; search_loop fuel k r
      else ret current
  end.

Definition search (fuel : nat) (k : Z) : M (option ptr) :=
  current ← get_root; search_loop fuel k current.

(** [minimum(node)] *)
Fixpoint minimum_loop (fuel : nat) (node : option ptr) : M (option ptr) :=
  match fuel with
  | O => out_of_fuel
  | S fuel =>
    l ← get left node;
    if is_null l then ret node else minimum_loop fuel l
  end.

Definition minimum (fuel : nat) (node : option ptr) : M (option ptr) :=
  if is_null node then ret None else minimum_loop fuel node.

(** [maximum(node)] *)
Fixpoint maximum_loop (fuel : nat) (node : option ptr) : M (option ptr) :=
  match fuel with
  | O => out_of_fuel
  | S fuel =>
    r ← get right node;
    if is_null r then ret node else maximum_loop fuel r
  end.

Definition maximum (fuel : nat) (node : option ptr) : M (option ptr) :=
  if is_null node then ret None else maximum_loop fuel node.

(** [successor(node)] *)
Fixpoint successor_loop (fuel : nat) (node y : option ptr) : M (option ptr) :=
  match fuel with
  | O => out_of_fuel
  | S fuel =>
    if is_null y then ret y
    else
      yr ← get right y;
      if ptr_eqb node yr then yp ← get parent y; successor_loop fuel y yp
      else ret y
  end.

Definition successor (fuel : nat) (node : option ptr) : M (option ptr) :=
  if is_null node then ret None
  else
    r ← get right node;
    if negb (is_null r) then minimum fuel r
    else y ← get parent node; successor_loop fuel node y.

(** [predecessor(node)] *)
Fixpoint predecessor_loop (fuel : nat) (node y : option ptr) : M (option ptr) :=
  match fuel with
  | O => out_of_fuel
  | S fuel =>
    if is_null y then ret y
    else
      yl ← get left y;
      if ptr_eqb node yl then yp ← get parent y; predecessor_loop fuel y yp
      else ret y
  end.

Definition predecessor (fuel : nat) (node : option ptr) : M (option ptr) :=
  if is_null node then ret None
  else
    l ← get left node;
    if negb (is_null l) then maximum fuel l
    else y ← get parent node; predecessor_loop fuel node y.

(** [inOrderHelper(node, visit)]: the visit action is modelled by collecting
    the visited node handles in order. *)
Fixpoint inOrderHelper (fuel : nat) (node : option ptr) : M (list ptr) :=
  match fuel with
  | O => out_of_fuel
  | S fuel =>
    match node with
    | None => ret []
    | Some p =>
      l ← get left node;
      vl ← inOrderHelper fuel l;
      r ← get right node;
      vr ← inOrderHelper fuel r;
      ret (vl ++ p :: vr)
    end
  end.

Definition inOrderTraversal (fuel : nat) : M (list ptr) :=
  r ← get_root; inOrderHelper fuel r.

(** The keys printed by the in-order traversal of main.cpp. *)
Fixpoint keys_of (ps : list ptr) : M (list Z) :=
  match ps with
  | [] => ret []
  | p :: ps => k ← get key (Some p); ks ← keys_of ps; ret (k :: ks)
  end.

Definition inOrderKeys (fuel : nat) : M (list Z) :=
  ps ← inOrderTraversal fuel; keys_of ps.

(** [validateHelper(node, blackCount, pathBlackCount)]: the reference
    parameter [pathBlackCount] is threaded through the result. *)
Fixpoint validateHelper (fuel : nat) (node : option ptr) (blackCount : Z)
    (pathBlackCount : Z) : M (bool * Z) :=
  match fuel with
  | O => out_of_fuel
  | S fuel =>
    if is_null node then
      if pathBlackCount =? -1 then ret (true, blackCount)
      else ret (blackCount =? pathBlackCount, pathBlackCount)
    else
      c ← get color node;
      bad ← (if is_red c then
               l ← get left node;
               lbad ← (if is_null l then ret false
                       else lc ← get color l; ret (negb (is_black lc)));
               if (lbad : bool) then ret true
               else
                 r ← get right node;
                 if is_null r then ret false
                 else rc ← get color r; ret (negb (is_black rc))
             else ret false);
      if (bad : bool) then ret (false, pathBlackCount)
      else
        c' ← get color node;
        let blackCount := if is_black c' then blackCount + 1 else blackCount in
        l ← get left node;
        resl ← validateHelper fuel l blackCount pathBlackCount;
        let pathBlackCount := snd resl in
        if fst resl then
          r ← get right node;
          validateHelper fuel r blackCount pathBlackCount
        else ret (false, pathBlackCount)
  end.

(** [validate()] *)
Definition validate (fuel : nat) : M bool :=
  r ← get_root;
  if is_null r then ret true
  else
    c ← get color r;
    if negb (is_black c) then ret false
    else
      r' ← get_root;
      res ← validateHelper fuel r' 0 (-1);
      ret (fst res).

(** ** Insertion *)

(** The boolean connectives of the loop guards, with C++ short-circuit
    evaluation. *)
Definition and_then (a b : M bool) : M bool :=
  x ← a; if (x : bool) then b else ret false.
Definition or_else (a b : M bool) : M bool :=
  x ← a; if (x : bool) then ret true else b.

Definition color_is (c : Color) (x : option ptr) : M bool :=
  xc ← get color x; ret (Color_eqb xc c).
Definition non_null (x : option ptr) : M bool := ret (negb (is_null x)).
Definition null (x : option ptr) : M bool := ret (is_null x).

(** [z->parent->parent] *)
Definition grandparent (z : option ptr) : M (option ptr) :=
  zp ← get parent z; get parent zp.

(** The loop of [insertFixup(z)]. *)
Fixpoint insertFixup_loop (fuel : nat) (z : option ptr) : M unit :=
  match fuel with
  | O => out_of_fuel
  | S fuel =>
    r ← get_root;
    continue ← and_then (ret (negb (ptr_eqb z r)))
                        (zp ← get parent z; color_is RED zp);
    if (continue : bool) then
      zp ← get parent z;
      zpp ← grandparent z;
      zppl ← get left zpp;
      if ptr_eqb zp zppl then
        zpp ← grandparent z;
        y ← get right zpp;
        yred ← and_then (non_null y) (color_is RED y);
        if (yred : bool) then
          zp ← get parent z;
          set_color zp BLACK;;
          set_color y BLACK;;
          zpp ← grandparent z;
          set_color zpp RED;;
          zpp ← grandparent z;
          insertFixup_loop fuel zpp
        else
          zp ← get parent z;
          zpr ← get right zp;
          z ← (if ptr_eqb z zpr then
                 zp ← get parent z;
                 leftRotate zp;;
                 ret zp
               else ret z);
          zp ← get parent z;
          set_color zp BLACK;;
          zpp ← grandparent z;
          set_color zpp RED;;
          zpp ← grandparent z;
          rightRotate zpp;;
          insertFixup_loop fuel z
      else
        zpp ← grandparent z;
        y ← get left zpp;
        yred ← and_then (non_null y) (color_is RED y);
        if (yred : bool) then
          zp ← get parent z;
          set_color zp BLACK;;
          set_color y BLACK;;
          zpp ← grandparent z;
          set_color zpp RED;;
          zpp ← grandparent z;
          insertFixup_loop fuel zpp
        else
          zp ← get parent z;
          zpl ← get left zp;
          z ← (if ptr_eqb z zpl then
                 zp ← get parent z;
                 rightRotate zp;;
                 ret zp
               else ret z);
          zp ← get parent z;
          set_color zp BLACK;;
          zpp ← grandparent z;
          set_color zpp RED;;
          zpp ← grandparent z;
          leftRotate zpp;;
          insertFixup_loop fuel z
    else ret tt
  end.

(** [insertFixup(z)] *)
Definition insertFixup (fuel : nat) (z : option ptr) : M unit :=
  insertFixup_loop fuel z;;
  r ← get_root;
  set_color r BLACK.

(** The descent loop of [insert]: returns the final [y]. *)
Fixpoint insert_loop (fuel : nat) (k : Z) (y x : option ptr) : M (option ptr) :=
  match fuel with
  | O => out_of_fuel
  | S fuel =>
    if is_null x then ret y
    else
      let y := x in
      xk ← get key x;
      if k <? xk then l ← get left x; insert_loop fuel k y l
      else if k >? xk then r ← get right x; insert_loop fuel k y r
      else throw DuplicateKey
  end.

(** [insert(key, value)] *)
Definition insert (fuel : nat) (k v : Z) : M unit :=
  newNode ← new_node k v;
  x ← get_root;
  y ← insert_loop fuel k None x;
  set_parent newNode y;;
  (if is_null y then set_root newNode
   else yk ← get key y;
        if k <? yk then set_left y newNode else set_right y newNode);;
  insertFixup fuel newNode.

(** ** Deletion *)

(** [ (a == nullptr || a->color == BLACK) ] *)
Definition null_or_black (a : option ptr) : M bool :=
  or_else (null a) (color_is BLACK a).

(** The loop of [deleteFixup(x, parent)]; it returns the final [x]. *)
Fixpoint deleteFixup_loop (fuel : nat) (x parent_ : option ptr) : M (option ptr) :=
  match fuel with
  | O => out_of_fuel
  | S fuel =>
    r ← get_root;
    continue ← and_then (ret (negb (ptr_eqb x r))) (null_or_black x);
    if (continue : bool) then
      pl ← (if is_null parent_ then ret None else get left parent_);
      if ptr_eqb x pl then
        w ← get right parent_;
        wred ← and_then (non_null w) (color_is RED w);
        w ← (if (wred : bool) then
               set_color w BLACK;;
               set_color parent_ RED;;
               leftRotate parent_;;
               get right parent_
             else ret w);
        both ← or_else (null w)
                 (and_then (wl ← get left w; null_or_black wl)
                           (wr ← get right w; null_or_black wr));
        if (both : bool) then
          (if is_null w then ret tt else set_color w RED);;
          let x := parent_ in
          xp ← get parent x;
          deleteFixup_loop fuel x xp
        else
          far ← (wr ← get right w; null_or_black wr);
          w ← (if (far : bool) then
                 wl ← get left w;
                 (if is_null wl then ret tt else set_color wl BLACK);;
                 set_color w RED;;
                 rightRotate w;;
                 get right parent_
               else ret w);
          (if is_null w then ret tt
           else pc ← get color parent_; set_color w pc);;
          set_color parent_ BLACK;;
          has ← and_then (non_null w) (wr ← get right w; non_null wr);
          (if (has : bool) then wr ← get right w; set_color wr BLACK
           else ret tt);;
          leftRotate parent_;;
          get_root
      else
        w ← get left parent_;
        wred ← and_then (non_null w) (color_is RED w);
        w ← (if (wred : bool) then
               set_color w BLACK;;
               set_color parent_ RED;;
               rightRotate parent_;;
               get left parent_
             else ret w);
        both ← or_else (null w)
                 (and_then (wl ← get left w; null_or_black wl)
                           (wr ← get right w; null_or_black wr));
        if (both : bool) then
          (if is_null w then ret tt else set_color w RED);;
          let x := parent_ in
          xp ← get parent x;
          deleteFixup_loop fuel x xp
        else
          far ← (wl ← get left w; null_or_black wl);
          w ← (if (far : bool) then
                 wr ← get right w;
                 (if is_null wr then ret tt else set_color wr BLACK);;
                 set_color w RED;;
                 leftRotate w;;
                 get left parent_
               else ret w);
          (if is_null w then ret tt
           else pc ← get color parent_; set_color w pc);;
          set_color parent_ BLACK;;
          has ← and_then (non_null w) (wl ← get left w; non_null wl);
          (if (has : bool) then wl ← get left w; set_color wl BLACK
           else ret tt);;
          rightRotate parent_;;
          get_root
    else ret x
  end.

(** [deleteFixup(x, parent)] *)
Definition deleteFixup (fuel : nat) (x parent_ : option ptr) : M unit :=
  x ← deleteFixup_loop fuel x parent_;
  if is_null x then ret tt else set_color x BLACK.

(** The three ways [remove] unlinks [z]; each yields [x], [fixupParent] and
    [yOriginalColor]. *)
Definition remove_unlink (fuel : nat) (z : option ptr) : M (option ptr * option ptr * Color) :=
  let y := z in
  yOriginalColor ← get color y;
  zl ← get left z;
  if is_null zl then
    x ← get right z;
    fixupParent ← get parent z;
    zr ← get right z;
    transplant z zr;;
    ret (x, fixupParent, yOriginalColor)
  else
    zr ← get right z;
    if is_null zr then
      x ← get left z;
      fixupParent ← get parent z;
      zl ← get left z;
      transplant z zl;;
      ret (x, fixupParent, yOriginalColor)
    else
      zr ← get right z;
      y ← minimum fuel zr;
      yOriginalColor ← get color y;
      x ← get right y;
      yp ← get parent y;
      fixupParent ← (if ptr_eqb yp z then ret y else get parent y);
      yp ← get parent y;
      (if negb (ptr_eqb yp z) then
         yr ← get right y;
         transplant y yr;;
         zr ← get right z;
         set_right y zr;;
         yr ← get right y;
         (if is_null yr then ret tt else set_parent yr y)
       else ret tt);;
      transplant z y;;
      zl ← get left z;
      set_left y zl;;
      yl ← get left y;
      (if is_null yl then ret tt else set_parent yl y);;
      zc ← get color z;
      set_color y zc;;
      ret (x, fixupParent, yOriginalColor)
  .

(** [remove(key)] *)
Definition remove (fuel : nat) (k : Z) : M unit :=
  z ← search fuel k;
  if is_null z then throw KeyNotFound
  else
    res ← remove_unlink fuel z;
    let '(x, fixupParent, yOriginalColor) := res in
    delete_node z;;
    if is_black yOriginalColor then deleteFixup fuel x fixupParent
    else ret tt.

(** ** Teardown *)

(** [destroy(node)] *)
Fixpoint destroy (fuel : nat) (node : option ptr) : M unit :=
  match fuel with
  | O => out_of_fuel
  | S fuel =>
    if is_null node then ret tt
    else
      l ← get left node;
      destroy fuel l;;
      r ← get right node;
      destroy fuel r;;
      delete_node node
  end.

(** [~RedBlackTree()] *)
Definition destructor (fuel : nat) : M unit :=
  r ← get_root; destroy fuel r.

(** ** The run of main.cpp *)

(** The insertions of main.cpp; the strings stored as values are replaced by
    the keys. *)
Definition insert_all (fuel : nat) (ks : list Z) : M unit :=
  foldr (λ k rest, insert fuel k k;; rest) (ret tt) ks.

(** What main.cpp prints, the pre-order and post-order listings apart: the
    keys of the first in-order traversal, the value found under 15, the
    result of [validate], and the keys of the traversal after [remove(20)]. *)
Definition main_run : M (list Z * option Z * bool * list Z) :=
  insert_all 10 [10; 20; 30; 15; 25; 5; 1];;
  ks ← inOrderKeys 10;
  node ← search 10 15;
  found ← (if is_null node then ret None else v ← get value node; ret (Some v));
  ok ← validate 10;
  remove 10 20;;
  ks' ← inOrderKeys 10;
  ret (ks, found, ok, ks').

(** * Abstraction: the tree a heap represents *)

(** A binary tree whose nodes carry their address. *)
Inductive tree :=
| E
| N (p : ptr) (c : Color) (k v : Z) (l r : tree).

Definition rp (t : tree) : option ptr :=
  match t with E => None | N p _ _ _ _ _ => Some p end.

Fixpoint ptrs (t : tree) : list ptr :=
  match t with
  | E => []
  | N p _ _ _ l r => ptrs l ++ p :: ptrs r
  end.

Fixpoint tree_size (t : tree) : nat :=
  match t with
  | E => 0
  | N _ _ _ _ l r => S (tree_size l + tree_size r)
  end.

(** [repr h par t]: the heap [h] holds the cells of [t], whose root has
    parent link [par]. *)
Fixpoint repr (h : gmap ptr Node) (par : option ptr) (t : tree) : Prop :=
  match t with
  | E => True
  | N p c k v l r =>
    h !! p = Some (mkNode k v c par (rp l) (rp r))
    ∧ repr h (Some p) l ∧ repr h (Some p) r
  end.

(** One-hole contexts, innermost frame first. *)
Inductive frame :=
| FL (p : ptr) (c : Color) (k v : Z) (r : tree)
| FR (p : ptr) (c : Color) (k v : Z) (l : tree).

Definition fptr (f : frame) : ptr :=
  match f with FL p _ _ _ _ | FR p _ _ _ _ => p end.
Definition fcolor (f : frame) : Color :=
  match f with FL _ c _ _ _ | FR _ c _ _ _ => c end.
Definition fsib (f : frame) : tree :=
  match f with FL _ _ _ _ t | FR _ _ _ _ t => t end.

Definition fill (f : frame) (t : tree) : tree :=
  match f with
  | FL p c k v r => N p c k v t r
  | FR p c k v l => N p c k v l t
  end.

Fixpoint plug (cs : list frame) (t : tree) : tree :=
  match cs with
  | [] => t
  | f :: cs => plug cs (fill f t)
  end.

Definition cpar (top : option ptr) (cs : list frame) : option ptr :=
  match cs with [] => top | f :: _ => Some (fptr f) end.

(** [repr_ctx h top cs child]: the heap holds the cells of the frames of
    [cs]; the hole is filled by [child] and the outermost frame has parent
    link [top]. *)
Fixpoint repr_ctx (h : gmap ptr Node) (top : option ptr) (cs : list frame)
    (child : option ptr) : Prop :=
  match cs with
  | [] => True
  | FL p c k v r :: cs' =>
    h !! p = Some (mkNode k v c (cpar top cs') child (rp r))
    ∧ repr h (Some p) r ∧ repr_ctx h top cs' (Some p)
  | FR p c k v l :: cs' =>
    h !! p = Some (mkNode k v c (cpar top cs') (rp l) child)
    ∧ repr h (Some p) l ∧ repr_ctx h top cs' (Some p)
  end.

Fixpoint ctx_ptrs (cs : list frame) : list ptr :=
  match cs with
  | [] => []
  | f :: cs' => fptr f :: ptrs (fsib f) ++ ctx_ptrs cs'
  end.

(** The pointer stored where the whole of [cs], filled with [child], hangs. *)
Fixpoint croot (cs : list frame) (child : option ptr) : option ptr :=
  match cs with
  | [] => child
  | f :: cs' => croot cs' (Some (fptr f))
  end.

(** The tree object [s] represents [t] and has entered a rotation [n]
    times. *)
Definition St (s : RedBlackTree) (t : tree) (n : nat) : Prop :=
  repr (heap s) None t ∧ root s = rp t ∧ NoDup (ptrs t) ∧ rotations s = n.

(** [runs m s Q]: from [s], [m] returns normally in a state satisfying [Q]. *)
Definition runs {A} (m : M A) (s : RedBlackTree) (Q : A → RedBlackTree → Prop) : Prop :=
  ∃ a s', m s = Done a s' ∧ Q a s'.

(** ** What the operations do to the represented tree *)

Definition tcol (t : tree) : Color :=
  match t with E => BLACK | N _ c _ _ _ _ => c end.

Definition blacken (t : tree) : tree :=
  match t with E => E | N p _ k v l r => N p BLACK k v l r end.

Definition redden (t : tree) : tree :=
  match t with E => E | N p _ k v l r => N p RED k v l r end.

(** The path [insert]'s descent follows; [None] on a duplicate key. *)
Fixpoint descend (k : Z) (t : tree) (cs : list frame) : option (list frame) :=
  match t with
  | E => Some cs
  | N p c k' v l r =>
    if k <? k' then descend k l (FL p c k' v r :: cs)
    else if k >? k' then descend k r (FR p c k' v l :: cs)
    else None
  end.

(** The tree after the loop of [insertFixup] started at the root of [tz]
    below [cs], with the number of rotations performed. *)
Fixpoint fix_ins (cs : list frame) (tz : tree) : option (tree * nat) :=
  match cs with
  | [] => Some (tz, 0%nat)
  | FL p RED kp vp s :: FL g cg kg vg u :: cs' =>
    match tcol u with
    | RED => fix_ins cs' (N g RED kg vg (N p BLACK kp vp tz s) (blacken u))
    | BLACK => Some (plug cs' (N p BLACK kp vp tz (N g RED kg vg s u)), 1%nat)
    end
  | FR p RED kp vp s :: FL g cg kg vg u :: cs' =>
    match tcol u with
    | RED => fix_ins cs' (N g RED kg vg (N p BLACK kp vp s tz) (blacken u))
    | BLACK =>
      match tz with
      | N z _ kz vz a b =>
        Some (plug cs' (N z BLACK kz vz (N p RED kp vp s a) (N g RED kg vg b u)), 2%nat)
      | E => None
      end
    end
  | FR p RED kp vp s :: FR g cg kg vg u :: cs' =>
    match tcol u with
    | RED => fix_ins cs' (N g RED kg vg (blacken u) (N p BLACK kp vp s tz))
    | BLACK => Some (plug cs' (N p BLACK kp vp (N g RED kg vg u s) tz), 1%nat)
    end
  | FL p RED kp vp s :: FR g cg kg vg u :: cs' =>
    match tcol u with
    | RED => fix_ins cs' (N g RED kg vg (blacken u) (N p BLACK kp vp tz s))
    | BLACK =>
      match tz with
      | N z _ kz vz a b =>
        Some (plug cs' (N z BLACK kz vz (N g RED kg vg u a) (N p RED kp vp b s)), 2%nat)
      | E => None
      end
    end
  | [FL _ RED _ _ _] | [FR _ RED _ _ _] => None
  | FL _ BLACK _ _ _ :: _ | FR _ BLACK _ _ _ :: _ => Some (plug cs tz, 0%nat)
  end.

(** The tree [insert] builds when it allocates the node at [newNode]. *)
Definition ins_tree (newNode : ptr) (k v : Z) (t : tree) : option (tree * nat) :=
  match descend k t [] with
  | None => None
  | Some cs =>
    match fix_ins cs (N newNode RED k v E E) with
    | None => None
    | Some (t', n) => Some (blacken t', n)
    end
  end.

(** The position [search] reaches. *)
Fixpoint find (k : Z) (t : tree) (cs : list frame) : option (list frame * tree) :=
  match t with
  | E => None
  | N p c k' v l r =>
    if k <? k' then find k l (FL p c k' v r :: cs)
    else if k >? k' then find k r (FR p c k' v l :: cs)
    else Some (cs, t)
  end.

(** The path to the leftmost node. *)
Fixpoint min_ctx (t : tree) (cs : list frame) : list frame * tree :=
  match t with
  | N p c k v (N _ _ _ _ _ _ as l) r => min_ctx l (FL p c k v r :: cs)
  | _ => (cs, t)
  end.

(** The path to the rightmost node. *)
Fixpoint max_ctx (t : tree) (cs : list frame) : list frame * tree :=
  match t with
  | N p c k v l (N _ _ _ _ _ _ as r) => max_ctx r (FR p c k v l :: cs)
  | _ => (cs, t)
  end.

(** What [remove] leaves once [z], the root of [tz] below [cs], is unlinked:
    the position of [x] and the colour that was removed. *)
Definition unlink (cs : list frame) (tz : tree) : option (list frame * tree * Color) :=
  match tz with
  | E => None
  | N z cz kz vz E r => Some (cs, r, cz)
  | N z cz kz vz l E => Some (cs, l, cz)
  | N z cz kz vz l r =>
    match min_ctx r [] with
    | (csy, N y cy ky vy _ yr) => Some (csy ++ FR y cz ky vy l :: cs, yr, cy)
    | (_, E) => None
    end
  end.

(** One round of the left-hand cases 2 to 4 of [deleteFixup] at parent
    [p] with sibling [w]: either the deficit moves up to [p] ([inl]), or the
    subtree is repaired ([inr]). *)
Definition del_left (p : ptr) (cp : Color) (kp vp : Z) (tx w : tree) : option (tree + tree) :=
  match w with
  | E => None
  | N pw cw kw vw wl wr =>
    match tcol wl, tcol wr with
    | BLACK, BLACK => Some (inl (N p cp kp vp tx (N pw RED kw vw wl wr)))
    | _, RED =>
      Some (inr (N pw cp kw vw (N p BLACK kp vp tx wl) (blacken wr)))
    | RED, BLACK =>
      match wl with
      | N pl _ kl vl la lb =>
        Some (inr (N pl cp kl vl (N p BLACK kp vp tx la)
                                 (N pw BLACK kw vw lb wr)))
      | E => None
      end
    end
  end.

Definition del_right (p : ptr) (cp : Color) (kp vp : Z) (w tx : tree) : option (tree + tree) :=
  match w with
  | E => None
  | N pw cw kw vw wl wr =>
    match tcol wl, tcol wr with
    | BLACK, BLACK => Some (inl (N p cp kp vp (N pw RED kw vw wl wr) tx))
    | RED, _ =>
      Some (inr (N pw cp kw vw (blacken wl) (N p BLACK kp vp wr tx)))
    | BLACK, RED =>
      match wr with
      | N pr _ kr vr ra rb =>
        Some (inr (N pr cp kr vr (N pw BLACK kw vw wl ra)
                                 (N p BLACK kp vp rb tx)))
      | E => None
      end
    end
  end.

(** The tree after [deleteFixup] started at the root of [tx] below [cs]. *)
Fixpoint fix_del (cs : list frame) (tx : tree) : option tree :=
  match cs with
  | [] => Some (blacken tx)
  | f :: cs' =>
    match tcol tx with
    | RED => Some (plug cs (blacken tx))
    | BLACK =>
      match f with
      | FL p cp kp vp w =>
        match w with
        | N pw RED kw vw wl wr =>
          match del_left p RED kp vp tx wl with
          | Some (inl tx') => Some (plug (FL pw BLACK kw vw wr :: cs') (blacken tx'))
          | Some (inr t') => Some (blacken (plug (FL pw BLACK kw vw wr :: cs') t'))
          | None => None
          end
        | _ =>
          match del_left p cp kp vp tx w with
          | Some (inl tx') => fix_del cs' tx'
          | Some (inr t') => Some (blacken (plug cs' t'))
          | None => None
          end
        end
      | FR p cp kp vp w =>
        match tx, w with
        | E, E => None
        | _, N pw RED kw vw wl wr =>
          match del_right p RED kp vp wr tx with
          | Some (inl tx') => Some (plug (FR pw BLACK kw vw wl :: cs') (blacken tx'))
          | Some (inr t') => Some (blacken (plug (FR pw BLACK kw vw wl :: cs') t'))
          | None => None
          end
        | _, _ =>
          match del_right p cp kp vp w tx with
          | Some (inl tx') => fix_del cs' tx'
          | Some (inr t') => Some (blacken (plug cs' t'))
          | None => None
          end
        end
      end
    end
  end.

(** The tree [remove] leaves. *)
Definition del_tree (k : Z) (t : tree) : option tree :=
  match find k t [] with
  | None => None
  | Some (cs, tz) =>
    match unlink cs tz with
    | None => None
    | Some (cx, tx, BLACK) => fix_del cx tx
    | Some (cx, tx, RED) => Some (plug cx tx)
    end
  end.

(** ** Invariants of the represented tree *)

Definition black (c : Color) : nat :=
  match c with BLACK => 1%nat | RED => 0%nat end.

(** Black nodes on the leftmost path. *)
Fixpoint bh (t : tree) : nat :=
  match t with
  | E => 0%nat
  | N _ c _ _ l _ => (black c + bh l)%nat
  end.

(** Both subtrees of every node have the same black height. *)
Fixpoint balanced (t : tree) : Prop :=
  match t with
  | E => True
  | N _ _ _ _ l r => bh l = bh r ∧ balanced l ∧ balanced r
  end.

(** No red node has a red child. *)
Fixpoint nrr (t : tree) : Prop :=
  match t with
  | E => True
  | N _ c _ _ l r =>
    (c = RED → tcol l = BLACK ∧ tcol r = BLACK) ∧ nrr l ∧ nrr r
  end.

Definition rbt (t : tree) : Prop := tcol t = BLACK ∧ nrr t ∧ balanced t.

(** The number of black nodes on each path from the root to an absent
    child, leftmost path first. *)
Fixpoint black_paths (t : tree) : list nat :=
  match t with
  | E => [0%nat]
  | N _ c _ _ l r => map (λ n, (black c + n)%nat) (black_paths l ++ black_paths r)
  end.

(** Keys in in-order. *)
Fixpoint inorder (t : tree) : list Z :=
  match t with
  | E => []
  | N _ _ k _ l r => inorder l ++ k :: inorder r
  end.

(** Binary-search-tree order. *)
Fixpoint ordered (t : tree) : Prop :=
  match t with
  | E => True
  | N _ _ k _ l r =>
    Forall (λ x, x < k) (inorder l) ∧ Forall (λ x, k < x) (inorder r)
    ∧ ordered l ∧ ordered r
  end.

(** In-order keys around the hole of a context. *)
Fixpoint ctx_before (cs : list frame) : list Z :=
  match cs with
  | [] => []
  | FL _ _ _ _ _ :: cs' => ctx_before cs'
  | FR _ _ k _ l :: cs' => ctx_before cs' ++ inorder l ++ [k]
  end.

Fixpoint ctx_after (cs : list frame) : list Z :=
  match cs with
  | [] => []
  | FL _ _ k _ r :: cs' => k :: inorder r ++ ctx_after cs'
  | FR _ _ _ _ _ :: cs' => ctx_after cs'
  end.

(** A context is balanced for a hole of black height [n]. *)
Fixpoint cbal (cs : list frame) (n : nat) : Prop :=
  match cs with
  | [] => True
  | f :: cs' =>
    bh (fsib f) = n ∧ balanced (fsib f) ∧ cbal cs' (black (fcolor f) + n)
  end.

(** A context has no red-red edge when its hole is filled by a root of
    colour [c]. *)
Fixpoint cnrr (cs : list frame) (c : Color) : Prop :=
  match cs with
  | [] => True
  | f :: cs' =>
    (fcolor f = RED → c = BLACK ∧ tcol (fsib f) = BLACK)
    ∧ nrr (fsib f) ∧ cnrr cs' (fcolor f)
  end.

(** The colour of the root once a context is filled by a root of colour
    [c]. *)
Fixpoint ctop (cs : list frame) (c : Color) : Color :=
  match cs with
  | [] => c
  | f :: cs' => ctop cs' (fcolor f)
  end.

(** What the fixups assume of the context above them, for a hole of black
    height [n]. *)
Definition cvalid (cs : list frame) (n : nat) : Prop :=
  cbal cs n ∧ cnrr cs BLACK ∧ ctop cs BLACK = BLACK.

(** Invariant of a tree object. *)
Definition Inv (s : RedBlackTree) (t : tree) : Prop :=
  (∃ n, St s t n) ∧ rbt t ∧ ordered t.

(** ** Sequences of operations *)

Inductive Op := Insert (k v : Z) | Remove (k : Z).

Definition apply_op (fuel : nat) (op : Op) : M unit :=
  match op with
  | Insert k v => insert fuel k v
  | Remove k => remove fuel k
  end.

(** The states after each operation of a sequence; an operation that throws
    is ignored, and the sequence goes on from the state it left. *)
Fixpoint run (fuel : nat) (ops : list Op) (s : RedBlackTree) : option (list RedBlackTree) :=
  match ops with
  | [] => Some []
  | op :: ops =>
    match apply_op fuel op s with
    | Done _ s' | Throw _ s' =>
      match run fuel ops s' with
      | Some l => Some (s' :: l)
      | None => None
      end
    | _ => None
    end
  end.

(** The side on which [insert] links the new node agrees with the last
    comparison of the descent. *)
Definition side_ok (k : Z) (cs : list frame) : Prop :=
  match cs with
  | [] => True
  | FL _ _ ky _ _ :: _ => (k <? ky) = true
  | FR _ _ ky _ _ :: _ => (k <? ky) = false
  end.


(** The last statement of [deleteFixup]. *)
Definition final_black (x : option ptr) : M unit :=
  if is_null x then ret tt else set_color x BLACK.


(** The keys around a hole bound what can be found in it. *)
Definition bounded (k : Z) (cs : list frame) : Prop :=
  Forall (λ x, x < k) (ctx_before cs) ∧ Forall (λ x, k < x) (ctx_after cs).


(** The nearest enclosing node that has the hole in its left subtree: where
    the climb of [successor] stops. *)
Fixpoint up_from_right (cs : list frame) : option (ptr * Z) :=
  match cs with
  | [] => None
  | FL p _ k _ _ :: _ => Some (p, k)
  | FR _ _ _ _ _ :: cs' => up_from_right cs'
  end.

(** The nearest enclosing node that has the hole in its right subtree: where
    the climb of [predecessor] stops. *)
Fixpoint up_from_left (cs : list frame) : option (ptr * Z) :=
  match cs with
  | [] => None
  | FR p _ k _ _ :: _ => Some (p, k)
  | FL _ _ _ _ _ :: cs' => up_from_left cs'
  end.

Definition node_key (t : tree) : option (ptr * Z) :=
  match t with E => None | N p _ k _ _ _ => Some (p, k) end.

Definition succ_of (cs : list frame) (tx : tree) : option (ptr * Z) :=
  match tx with
  | E => None
  | N x c k v l E => up_from_right cs
  | N x c k v l r => node_key (min_ctx r (FR x c k v l :: cs)).2
  end.

Definition pred_of (cs : list frame) (tx : tree) : option (ptr * Z) :=
  match tx with
  | E => None
  | N x c k v E r => up_from_left cs
  | N x c k v l r => node_key (max_ctx l (FL x c k v r :: cs)).2
  end.

Definition is_successor (s : RedBlackTree) (keys : list Z) (k : Z) (res : option ptr) : Prop :=
  match res with
  | Some y => ∃ nd, heap s !! y = Some nd ∧ k < key nd ∧ key nd ∈ keys
                    ∧ ∀ k', k' ∈ keys → k < k' → key nd ≤ k'
  | None => ∀ k', k' ∈ keys → k' ≤ k
  end.

Definition is_predecessor (s : RedBlackTree) (keys : list Z) (k : Z) (res : option ptr) : Prop :=
  match res with
  | Some y => ∃ nd, heap s !! y = Some nd ∧ key nd < k ∧ key nd ∈ keys
                    ∧ ∀ k', k' ∈ keys → k' < k → k' ≤ key nd
  | None => ∀ k', k' ∈ keys → k ≤ k'
  end.

(** [outcome r P]: the state left by a call that returned or threw
    satisfies [P]. *)
Definition outcome {A} (r : Res A) (P : RedBlackTree → Prop) : Prop :=
  match r with
  | Done _ s' | Throw _ s' => P s'
  | Fault | OutOfFuel => True
  end.

Definition keeps {A} (R : RedBlackTree → RedBlackTree → Prop) (m : M A) : Prop :=
  ∀ s, outcome (m s) (R s).

(** The counters of entered primitives never decrease. *)
Definition counters_le (s s' : RedBlackTree) : Prop :=
  (rotations s ≤ rotations s')%nat ∧ (transplants s ≤ transplants s')%nat.

(** The root reference differs only if a rotation or a transplant was
    entered in between. *)
Definition root_by_primitives (s s' : RedBlackTree) : Prop :=
  counters_le s s'
  ∧ (root s' ≠ root s →
     (rotations s < rotations s')%nat ∨ (transplants s < transplants s')%nat).

(** The same cells are allocated, and each has its key, value and colour. *)
Definition same_data (s s' : RedBlackTree) : Prop :=
  ∀ p, match heap s !! p, heap s' !! p with
       | Some a, Some b => key b = key a ∧ value b = value a ∧ color b = color a
       | None, None => True
       | _, _ => False
       end.

Class Quiet (R : RedBlackTree → RedBlackTree → Prop) : Prop := {
  quiet_refl : ∀ s, R s s;
  quiet_trans : ∀ s1 s2 s3, R s1 s2 → R s2 s3 → R s1 s3;
  quiet_heap : ∀ s h, (∀ p, match heap s !! p, h !! p with
                            | Some a, Some b => key b = key a ∧ value b = value a
                                                ∧ color b = color a
                            | None, None => True
                            | _, _ => False
                            end) →
                      R s (mkTree h (root s) (rotations s) (transplants s))
}.

(** Insertion of a list of key-value pairs, first pair first. *)
Definition insert_pairs (fuel : nat) (kvs : list (Z * Z)) : M unit :=
  foldr (λ kv rest, insert fuel kv.1 kv.2;; rest) (ret tt) kvs.

(** A tree object of two nodes, as two insertions leave it. *)
Definition two_nodes : RedBlackTree :=
  mkTree (<[2%positive := mkNode 20 20 RED (Some 1%positive) None None]>
          (<[1%positive := mkNode 10 10 BLACK None None (Some 2%positive)]> ∅))
         (Some 1%positive) 0 0.

Definition two_tree : tree := N 1 BLACK 10 10 E (N 2 RED 20 20 E E).

(** A correctly coloured tree object whose keys are out of order: the left
    child of the root holds the larger key. *)
Definition unordered_state : RedBlackTree :=
  mkTree (<[2%positive := mkNode 5 0 RED (Some 1%positive) None None]>
          (<[1%positive := mkNode 1 0 BLACK None (Some 2%positive) None]> ∅))
         (Some 1%positive) 0 0.

Definition unordered_tree : tree := N 1 BLACK 1 0 (N 2 RED 5 0 E E) E.

(** The states of the run [insert(1,1); insert(1,2); ~RedBlackTree()]. *)
Definition leak_s1 : RedBlackTree :=
  mkTree (<[1%positive := mkNode 1 1 BLACK None None None]> ∅) (Some 1%positive) 0 0.

Definition leak_s2 : RedBlackTree :=
  mkTree (<[2%positive := mkNode 1 2 RED None None None]> (heap leak_s1))
         (Some 1%positive) 0 0.

Definition leak_s3 : RedBlackTree :=
  mkTree (<[2%positive := mkNode 1 2 RED None None None]> ∅) (Some 1%positive) 0 0.

(** ** Auxiliary notions of the proofs *)

(** No address of [l1] occurs in [l2]. *)
Definition disj (l1 l2 : list ptr) : Prop := ∀ x, x ∈ l1 → x ∉ l2.

(** A marker that protects a hypothesis from being decomposed. *)
Definition kept (P : Prop) : Prop := P.

(** * Further code: lookups, teardown, copies, traversals *)

(** Address, key and value of each node, in in-order. *)
Fixpoint nodes (t : tree) : list (ptr * Z * Z) :=
  match t with
  | E => []
  | N p _ k v l r => nodes l ++ (p, k, v) :: nodes r
  end.

Fixpoint nodes_before (cs : list frame) : list (ptr * Z * Z) :=
  match cs with
  | [] => []
  | FL _ _ _ _ _ :: cs' => nodes_before cs'
  | FR p _ k v l :: cs' => nodes_before cs' ++ nodes l ++ [(p, k, v)]
  end.

Fixpoint nodes_after (cs : list frame) : list (ptr * Z * Z) :=
  match cs with
  | [] => []
  | FL p _ k v r :: cs' => (p, k, v) :: nodes r ++ nodes_after cs'
  | FR _ _ _ _ _ :: cs' => nodes_after cs'
  end.

(** The key-value pairs of a tree, in in-order. *)
Definition bindings (t : tree) : list (Z * Z) :=
  (λ x, (x.1.2, x.2)) <$> nodes t.

(** The lookup of main.cpp: [search(key)], then [node->value] if a node
    was found. *)
Definition value_at (fuel : nat) (k : Z) : M (option Z) :=
  node ← search fuel k;
  if is_null node then ret None else v ← get value node; ret (Some v).

(** The same addresses are allocated. *)
Definition same_dom (s s' : RedBlackTree) : Prop :=
  dom (heap s') = dom (heap s).

(** Every cell that was allocated still is, with its key and value. *)
Definition data_kept (s s' : RedBlackTree) : Prop :=
  ∀ p nd, heap s !! p = Some nd →
          ∃ nd', heap s' !! p = Some nd' ∧ key nd' = key nd ∧ value nd' = value nd.

(** The allocated cells are the nodes of the tree. *)
Definition tight (s : RedBlackTree) (t : tree) : Prop :=
  dom (heap s) = list_to_set (ptrs t).

(** A sequence of operations, given up at the first one that throws. *)
Fixpoint run_all (fuel : nat) (ops : list Op) : M unit :=
  match ops with
  | [] => ret tt
  | op :: ops => apply_op fuel op;; run_all fuel ops
  end.

(** What [destroy] leaves of a state [s]. *)
Definition released (ps : list ptr) (s s' : RedBlackTree) : Prop :=
  (∀ q, q ∈ ps → heap s' !! q = None)
  ∧ (∀ q, q ∉ ps → heap s' !! q = heap s !! q)
  ∧ root s' = root s ∧ rotations s' = rotations s ∧ transplants s' = transplants s.

(** A sequence of operations that all succeed. *)
Definition five_ops : list Op :=
  [Insert 10 1; Insert 20 2; Insert 30 3; Remove 20; Insert 5 4].

(** [new Node(k, v, c, p)]: a node of the given colour and parent link,
    without children, at an unused address. *)
Definition new_node_at (k v : Z) (c : Color) (p : option ptr) : M (option ptr) :=
  λ s, let a := fresh (dom (heap s)) in
       Done (Some a) (mkTree (<[a := mkNode k v c p None None]> (heap s))
                             (root s) (rotations s) (transplants s)).

(** [clone(node, parent)] *)
Fixpoint clone (fuel : nat) (node parent_ : option ptr) : M (option ptr) :=
  match fuel with
  | O => out_of_fuel
  | S fuel =>
    if is_null node then ret None
    else
      k ← get key node;
      v ← get value node;
      c ← get color node;
      newNode ← new_node_at k v c parent_;
      nl ← get left node;
      l ← clone fuel nl newNode;
      set_left newNode l;;
      nr ← get right node;
      r ← clone fuel nr newNode;
      set_right newNode r;;
      ret newNode
  end.

(** The copy constructor, run on the tree object [other]: it returns the
    new tree object, which shares the free store with [other]. *)
Definition copy_constructor (fuel : nat) : M RedBlackTree :=
  r ← get_root;
  r' ← clone fuel r None;
  λ s, Done (mkTree (heap s) r' 0 0) s.

(** [swap(other)], for the root reference [other] of the other object: it
    returns the root that object has afterwards. *)
Definition swap (other : option ptr) : M (option ptr) :=
  r ← get_root; set_root other;; ret r.

(** [operator=(RedBlackTree other)] called with an lvalue whose root is
    [arg]: the parameter is copy-constructed from the argument, the roots are
    swapped, and the parameter is destroyed when the function returns. *)
Definition copy_assign (fuel : nat) (arg : option ptr) : M unit :=
  other ← clone fuel arg None;
  other ← swap other;
  destroy fuel other.

(** A heap that holds the nodes of two tree objects of one node each; the
    tree object itself is the one rooted at address 1. *)
Definition two_objects : RedBlackTree :=
  mkTree (<[2%positive := mkNode 20 20 BLACK None None None]>
          (<[1%positive := mkNode 10 10 BLACK None None None]> ∅))
         (Some 1%positive) 0 0.

(** Two trees that differ in the addresses of their nodes only. *)
Fixpoint same_shape (t t' : tree) : Prop :=
  match t, t' with
  | E, E => True
  | N _ c k v l r, N _ c' k' v' l' r' =>
    c = c' ∧ k = k' ∧ v = v' ∧ same_shape l l' ∧ same_shape r r'
  | _, _ => False
  end.

(** What [clone] leaves of a state [s] when it has built [u']. *)
Definition cloned (u' : tree) (s s' : RedBlackTree) : Prop :=
  NoDup (ptrs u')
  ∧ (∀ q, q ∈ ptrs u' → heap s !! q = None)
  ∧ (∀ q, q ∉ ptrs u' → heap s' !! q = heap s !! q)
  ∧ root s' = root s ∧ rotations s' = rotations s ∧ transplants s' = transplants s.

(** The root of [t] is a node that is not black. *)
Definition not_black (t : tree) : bool :=
  match t with E => false | N _ c _ _ _ _ => negb (is_black c) end.

(** What [validateHelper] computes on a tree: its result and the final
    [pathBlackCount]. *)
Fixpoint vh (t : tree) (bc pbc : Z) : bool * Z :=
  match t with
  | E => if pbc =? -1 then (true, bc) else (bc =? pbc, pbc)
  | N _ c _ _ l r =>
    if is_red c && (not_black l || not_black r) then (false, pbc)
    else
      let bc' := if is_black c then bc + 1 else bc in
      let resl := vh l bc' pbc in
      if resl.1 then vh r bc' resl.2 else (false, resl.2)
  end.

(** [preOrderHelper(node, visit)]: as for [inOrderHelper], the visit action
    is modelled by collecting the visited node handles in order. *)
Fixpoint preOrderHelper (fuel : nat) (node : option ptr) : M (list ptr) :=
  match fuel with
  | O => out_of_fuel
  | S fuel =>
    match node with
    | None => ret []
    | Some p =>
      l ← get left node;
      vl ← preOrderHelper fuel l;
      r ← get right node;
      vr ← preOrderHelper fuel r;
      ret (p :: vl ++ vr)
    end
  end.

Definition preOrderTraversal (fuel : nat) : M (list ptr) :=
  r ← get_root; preOrderHelper fuel r.

(** [postOrderHelper(node, visit)] *)
Fixpoint postOrderHelper (fuel : nat) (node : option ptr) : M (list ptr) :=
  match fuel with
  | O => out_of_fuel
  | S fuel =>
    match node with
    | None => ret []
    | Some p =>
      l ← get left node;
      vl ← postOrderHelper fuel l;
      r ← get right node;
      vr ← postOrderHelper fuel r;
      ret (vl ++ vr ++ [p])
    end
  end.

Definition postOrderTraversal (fuel : nat) : M (list ptr) :=
  r ← get_root; postOrderHelper fuel r.

(** Node addresses in pre-order and in post-order. *)
Fixpoint preorder (t : tree) : list ptr :=
  match t with
  | E => []
  | N p _ _ _ l r => p :: preorder l ++ preorder r
  end.

Fixpoint postorder (t : tree) : list ptr :=
  match t with
  | E => []
  | N p _ _ _ l r => postorder l ++ postorder r ++ [p]
  end.

(** Nodes on the longest path from the root to an absent child. *)
Fixpoint height (t : tree) : nat :=
  match t with
  | E => 0%nat
  | N _ _ _ _ l r => S (Nat.max (height l) (height r))
  end.

(** What an operation does to the map from keys to values: [insert] does
    not overwrite, an operation that throws changes nothing. *)
Definition apply_model (m : gmap Z Z) (op : Op) : gmap Z Z :=
  match op with
  | Insert k v => match m !! k with Some _ => m | None => <[k := v]> m end
  | Remove k => delete k m
  end.

(** The tree [t] holds the bindings of the map [m]. *)
Definition agrees (t : tree) (m : gmap Z Z) : Prop :=
  ∀ k v, (∃ p, (p, k, v) ∈ nodes t) ↔ m !! k = Some v.

(** ** insert and remove over their callees

    The bodies of [insertFixup], [insert], [deleteFixup] and [remove] once
    more, word for word, except that the calls of [leftRotate], [rightRotate]
    and [transplant] go to the parameters [leftRotate'], [rightRotate'] and
    [transplant'].  At the three primitives themselves these are the
    functions above; at other callees they show what the code does outside
    the primitives. *)
Section Callees.
Variable leftRotate' rightRotate' : option ptr → M unit.
Variable transplant' : option ptr → option ptr → M unit.








End Callees.

(** The root reference is the one it was. *)
Definition same_root (s s' : RedBlackTree) : Prop := root s' = root s.


(** [through_primitives m s]: run from [s], [m] is a sequence of reads and
    writes of node fields, allocations, releases, reads of the root
    reference and calls of [leftRotate], [rightRotate] and [transplant]; it
    makes no assignment to the root reference of its own. *)
Inductive through_primitives : ∀ {A : Type}, M A → RedBlackTree → Prop :=
  | tp_ret {A} (a : A) s : through_primitives (ret a) s
  | tp_throw {A} e s : through_primitives (throw (A:=A) e) s
  | tp_out_of_fuel {A} s : through_primitives (out_of_fuel (A:=A)) s
  | tp_get {A} (f : Node → A) x s : through_primitives (get f x) s
  | tp_modify f x s : through_primitives (modify f x) s
  | tp_get_root s : through_primitives get_root s
  | tp_new_node k v s : through_primitives (new_node k v) s
  | tp_delete_node x s : through_primitives (delete_node x) s
  | tp_leftRotate x s : through_primitives (leftRotate x) s
  | tp_rightRotate y s : through_primitives (rightRotate y) s
  | tp_transplant u v s : through_primitives (transplant u v) s
  | tp_bind {A B} (m : M A) (f : A → M B) s :
      through_primitives m s →
      (∀ a s', m s = Done a s' → through_primitives (f a) s') →
      through_primitives (bind m f) s.

(** * RBTree.h: the implementation on shared pointers

    [RBTree<T>] is instantiated at [T = int].  Its nodes hold [data] only;
    they are modelled by the same cells, with [data] in the field [key] (and
    a copy of it in [value], which no function of this module reads).  A
    [std::shared_ptr<Node>] is modelled like a [Node*]: dereferencing a null
    one is a fault.  The release of nodes by reference counting is not
    modelled: cells stay allocated. *)
Module RBTree.

(** [leftRotate(x)]: it does not test whether [x] has a right child. *)
Definition leftRotate (x : option ptr) : M unit :=
  y ← get right x;
  yl ← get left y;
  set_right x yl;;
  yl' ← get left y;
  (if is_null yl' then ret tt else set_parent yl' x);;
  xp ← get parent x;
  set_parent y xp;;
  xp' ← get parent x;
  (if is_null xp' then set_root y
   else xpl ← get left xp';
        if ptr_eqb x xpl then set_left xp' y else set_right xp' y);;
  set_left y x;;
  set_parent x y.

(** [rightRotate(x)] *)
Definition rightRotate (x : option ptr) : M unit :=
  y ← get left x;
  yr ← get right y;
  set_left x yr;;
  yr' ← get right y;
  (if is_null yr' then ret tt else set_parent yr' x);;
  xp ← get parent x;
  set_parent y xp;;
  xp' ← get parent x;
  (if is_null xp' then set_root y
   else xpr ← get right xp';
        if ptr_eqb x xpr then set_right xp' y else set_left xp' y);;
  set_right y x;;
  set_parent x y.

(** The loop of [insertFixup(z)]. *)
Fixpoint insertFixup_loop (fuel : nat) (z : option ptr) : M unit :=
  match fuel with
  | O => out_of_fuel
  | S fuel =>
    continue ← (zp ← get parent z; and_then (non_null zp) (color_is RED zp));
    if (continue : bool) then
      zp ← get parent z;
      zpp ← grandparent z;
      zppl ← get left zpp;
      if ptr_eqb zp zppl then
        zpp ← grandparent z;
        y ← get right zpp;
        yred ← and_then (non_null y) (color_is RED y);
        if (yred : bool) then
          zp ← get parent z;
          set_color zp BLACK;;
          set_color y BLACK;;
          zpp ← grandparent z;
          set_color zpp RED;;
          zpp ← grandparent z;
          insertFixup_loop fuel zpp
        else
          zp ← get parent z;
          zpr ← get right zp;
          z ← (if ptr_eqb z zpr then
                 zp ← get parent z;
                 leftRotate zp;;
                 ret zp
               else ret z);
          zp ← get parent z;
          set_color zp BLACK;;
          zpp ← grandparent z;
          set_color zpp RED;;
          zpp ← grandparent z;
          rightRotate zpp;;
          insertFixup_loop fuel z
      else
        zpp ← grandparent z;
        y ← get left zpp;
        yred ← and_then (non_null y) (color_is RED y);
        if (yred : bool) then
          zp ← get parent z;
          set_color zp BLACK;;
          set_color y BLACK;;
          zpp ← grandparent z;
          set_color zpp RED;;
          zpp ← grandparent z;
          insertFixup_loop fuel zpp
        else
          zp ← get parent z;
          zpl ← get left zp;
          z ← (if ptr_eqb z zpl then
                 zp ← get parent z;
                 rightRotate zp;;
                 ret zp
               else ret z);
          zp ← get parent z;
          set_color zp BLACK;;
          zpp ← grandparent z;
          set_color zpp RED;;
          zpp ← grandparent z;
          leftRotate zpp;;
          insertFixup_loop fuel z
    else ret tt
  end.

(** [insertFixup(z)] *)
Definition insertFixup (fuel : nat) (z : option ptr) : M unit :=
  insertFixup_loop fuel z;;
  r ← get_root;
  set_color r BLACK.

(** [transplant(u, v)] *)
Definition transplant (u v : option ptr) : M unit :=
  up ← get parent u;
  (if is_null up then set_root v
   else upl ← get left up;
        if ptr_eqb u upl then set_left up v else set_right up v);;
  if is_null v then ret tt
  else up' ← get parent u; set_parent v up'.

(** The loop of [removeFixup(x)]; it returns the final [x].  The parent of
    [x] is read through [x]. *)
Fixpoint removeFixup_loop (fuel : nat) (x : option ptr) : M (option ptr) :=
  match fuel with
  | O => out_of_fuel
  | S fuel =>
    r ← get_root;
    continue ← and_then (ret (negb (ptr_eqb x r))) (null_or_black x);
    if (continue : bool) then
      xp ← get parent x;
      xpl ← get left xp;
      if ptr_eqb x xpl then
        xp ← get parent x;
        w ← get right xp;
        wred ← color_is RED w;
        w ← (if (wred : bool) then
               set_color w BLACK;;
               xp ← get parent x;
               set_color xp RED;;
               xp ← get parent x;
               leftRotate xp;;
               xp ← get parent x;
               get right xp
             else ret w);
        both ← and_then (wl ← get left w; null_or_black wl)
                        (wr ← get right w; null_or_black wr);
        if (both : bool) then
          set_color w RED;;
          xp ← get parent x;
          removeFixup_loop fuel xp
        else
          far ← (wr ← get right w; null_or_black wr);
          w ← (if (far : bool) then
                 wl ← get left w;
                 (if is_null wl then ret tt else set_color wl BLACK);;
                 set_color w RED;;
                 rightRotate w;;
                 xp ← get parent x;
                 get right xp
               else ret w);
          xp ← get parent x;
          pc ← get color xp;
          set_color w pc;;
          xp ← get parent x;
          set_color xp BLACK;;
          wr ← get right w;
          (if is_null wr then ret tt else set_color wr BLACK);;
          xp ← get parent x;
          leftRotate xp;;
          r ← get_root;
          removeFixup_loop fuel r
      else
        xp ← get parent x;
        w ← get left xp;
        wred ← color_is RED w;
        w ← (if (wred : bool) then
               set_color w BLACK;;
               xp ← get parent x;
               set_color xp RED;;
               xp ← get parent x;
               rightRotate xp;;
               xp ← get parent x;
               get left xp
             else ret w);
        both ← and_then (wl ← get left w; null_or_black wl)
                        (wr ← get right w; null_or_black wr);
        if (both : bool) then
          set_color w RED;;
          xp ← get parent x;
          removeFixup_loop fuel xp
        else
          far ← (wl ← get left w; null_or_black wl);
          w ← (if (far : bool) then
                 wr ← get right w;
                 (if is_null wr then ret tt else set_color wr BLACK);;
                 set_color w RED;;
                 leftRotate w;;
                 xp ← get parent x;
                 get left xp
               else ret w);
          xp ← get parent x;
          pc ← get color xp;
          set_color w pc;;
          xp ← get parent x;
          set_color xp BLACK;;
          wl ← get left w;
          (if is_null wl then ret tt else set_color wl BLACK);;
          xp ← get parent x;
          rightRotate xp;;
          r ← get_root;
          removeFixup_loop fuel r
    else ret x
  end.

(** [removeFixup(x)] *)
Definition removeFixup (fuel : nat) (x : option ptr) : M unit :=
  x ← removeFixup_loop fuel x;
  if is_null x then ret tt else set_color x BLACK.

(** [minimum(node)]: it does not test [node]. *)
Fixpoint minimum (fuel : nat) (node : option ptr) : M (option ptr) :=
  match fuel with
  | O => out_of_fuel
  | S fuel =>
    l ← get left node;
    if is_null l then ret node else minimum fuel l
  end.

(** The first part of [remove(NodePtr z)], up to the test of
    [originalColor]: it yields [x] and [originalColor]. *)
Definition unlink_node (fuel : nat) (z : option ptr) : M (option ptr * Color) :=
  let y := z in
  originalColor ← get color y;
  zl ← get left z;
  if is_null zl then
    x ← get right z;
    zr ← get right z;
    transplant z zr;;
    ret (x, originalColor)
  else
    zr ← get right z;
    if is_null zr then
      x ← get left z;
      zl ← get left z;
      transplant z zl;;
      ret (x, originalColor)
    else
      zr ← get right z;
      y ← minimum fuel zr;
      originalColor ← get color y;
      x ← get right y;
      yp ← get parent y;
      (if ptr_eqb yp z then
         (if is_null x then ret tt else set_parent x y)
       else
         yr ← get right y;
         transplant y yr;;
         zr ← get right z;
         set_right y zr;;
         yr ← get right y;
         set_parent yr y);;
      transplant z y;;
      zl ← get left z;
      set_left y zl;;
      yl ← get left y;
      set_parent yl y;;
      zc ← get color z;
      set_color y zc;;
      ret (x, originalColor).

(** [remove(NodePtr z)] *)
Definition remove_node (fuel : nat) (z : option ptr) : M unit :=
  res ← unlink_node fuel z;
  if is_black res.2 then removeFixup fuel res.1 else ret tt.

(** The loop of [remove(T data)]. *)
Fixpoint remove_loop (fuel : nat) (data : Z) (z : option ptr) : M unit :=
  match fuel with
  | O => out_of_fuel
  | S fuel' =>
    if is_null z then ret tt
    else
      zd ← get key z;
      if zd =? data then remove_node fuel z
      else if data <? zd then l ← get left z; remove_loop fuel' data l
      else r ← get right z; remove_loop fuel' data r
  end.

(** [remove(T data)]: a key that is not found is passed over in silence. *)
Definition remove (fuel : nat) (data : Z) : M unit :=
  z ← get_root; remove_loop fuel data z.

(** The loop of [search(T data)]. *)
Fixpoint search_loop (fuel : nat) (data : Z) (node : option ptr) : M (option ptr) :=
  match fuel with
  | O => out_of_fuel
  | S fuel =>
    continue ← and_then (non_null node) (nd ← get key node; ret (negb (nd =? data)));
    if (continue : bool) then
      nd ← get key node;
      if data <? nd then l ← get left node; search_loop fuel data l
      else r ← get right node; search_loop fuel data r
    else ret node
  end.

(** [search(T data)] *)
Definition search (fuel : nat) (data : Z) : M (option ptr) :=
  node ← get_root; search_loop fuel data node.

(** The descent loop of [insert(T data)]: equal keys go to the right. *)
Fixpoint insert_loop (fuel : nat) (z y x : option ptr) : M (option ptr) :=
  match fuel with
  | O => out_of_fuel
  | S fuel =>
    if is_null x then ret y
    else
      let y := x in
      zd ← get key z;
      xd ← get key x;
      if zd <? xd then l ← get left x; insert_loop fuel z y l
      else r ← get right x; insert_loop fuel z y r
  end.

(** [insert(T data)]: no key is refused. *)
Definition insert (fuel : nat) (data : Z) : M unit :=
  z ← new_node data data;
  x ← get_root;
  y ← insert_loop fuel z None x;
  set_parent z y;;
  (if is_null y then set_root z
   else zd ← get key z;
        yd ← get key y;
        if zd <? yd then set_left y z else set_right y z);;
  insertFixup fuel z.

(** The path the descent of [insert] follows in the represented tree. *)
Fixpoint descend (k : Z) (t : tree) (cs : list frame) : list frame :=
  match t with
  | E => cs
  | N p c k' v l r =>
    if k <? k' then descend k l (FL p c k' v r :: cs)
    else descend k r (FR p c k' v l :: cs)
  end.

(** The tree [insert] builds when it allocates the node at [newNode]. *)
Definition ins_tree (newNode : ptr) (k : Z) (t : tree) : option tree :=
  match fix_ins (descend k t []) (N newNode RED k k E E) with
  | None => None
  | Some (t', _) => Some (blacken t')
  end.

(** Equal keys may meet: the in-order sequence is ascending, not strictly. *)
Definition sorted (t : tree) : Prop := StronglySorted Z.le (inorder t).

Definition Inv (s : RedBlackTree) (t : tree) : Prop :=
  (∃ n, St s t n) ∧ rbt t ∧ sorted t.

(** A run of insertions, as the test programs make them. *)
Definition insert_all (fuel : nat) (ks : list Z) : M unit :=
  foldr (λ k rest, insert fuel k;; rest) (ret tt) ks.

(** The tree object [insert(1); insert(2); insert(3); insert(4)] builds:
    2 is the black root, 1 and 3 are black, 4 is red below 3. *)
Definition four_nodes : RedBlackTree :=
  mkTree (<[4%positive := mkNode 4 4 RED (Some 3%positive) None None]>
          (<[3%positive := mkNode 3 3 BLACK (Some 2%positive) None (Some 4%positive)]>
           (<[2%positive := mkNode 2 2 BLACK None (Some 1%positive) (Some 3%positive)]>
            (<[1%positive := mkNode 1 1 BLACK (Some 2%positive) None None]> ∅))))
         (Some 2%positive) 0 0.

Definition four_tree : tree :=
  N 2 BLACK 2 2 (N 1 BLACK 1 1 E E) (N 3 BLACK 3 3 E (N 4 RED 4 4 E E)).

End RBTree.


(** * Proofs *)

(** ** Contexts *)

Lemma plug_app cs1 cs2 t : plug (cs1 ++ cs2) t = plug cs2 (plug cs1 t).
Proof. revert t. induction cs1 as [|f cs1 IH]; intros t; simpl; [done|]. apply IH. Qed.

Lemma repr_plug h top cs t :
  repr h top (plug cs t) ↔ repr_ctx h top cs (rp t) ∧ repr h (cpar top cs) t.
Proof.
  revert t. induction cs as [|f cs IH]; intros t; simpl; [tauto|].
  rewrite IH. destruct f; simpl; tauto.
Qed.

Lemma ptrs_plug cs t : ptrs (plug cs t) ≡ₚ ptrs t ++ ctx_ptrs cs.
Proof.
  revert t. induction cs as [|f cs IH]; intros t; simpl.
  - by rewrite app_nil_r.
  - rewrite IH. destruct f; simpl; solve_Permutation.
Qed.

(** ** Reasoning about runs *)

Lemma runs_bind {A B} (m : M A) (f : A → M B) s Q :
  runs m s (λ a s', runs (f a) s' Q) → runs (bind m f) s Q.
Proof.
  intros (a & s' & Hm & b & s'' & Hf & HQ). exists b, s''. unfold bind. by rewrite Hm.
Qed.

Lemma runs_ret {A} (a : A) s (Q : A → RedBlackTree → Prop) : Q a s → runs (ret a) s Q.
Proof. intros. by exists a, s. Qed.

Lemma runs_conseq {A} (m : M A) s (Q Q' : A → RedBlackTree → Prop) :
  runs m s Q → (∀ a s', Q a s' → Q' a s') → runs m s Q'.
Proof. intros (a & s' & Hm & HQ) H. exists a, s'. eauto. Qed.

Lemma runs_get {A} (f : Node → A) p s n (Q : A → RedBlackTree → Prop) :
  heap s !! p = Some n → Q (f n) s → runs (get f (Some p)) s Q.
Proof. intros H HQ. exists (f n), s. unfold get. by rewrite H. Qed.

Lemma runs_modify f p s n (Q : unit → RedBlackTree → Prop) :
  heap s !! p = Some n →
  Q tt (mkTree (<[p := f n]> (heap s)) (root s) (rotations s) (transplants s)) →
  runs (modify f (Some p)) s Q.
Proof. intros H HQ. eexists _, _. unfold modify. rewrite H. eauto. Qed.

Lemma runs_get_root s (Q : option ptr → RedBlackTree → Prop) :
  Q (root s) s → runs get_root s Q.
Proof. intros. by eexists _, _. Qed.

Lemma runs_set_root r s (Q : unit → RedBlackTree → Prop) :
  Q tt (mkTree (heap s) r (rotations s) (transplants s)) → runs (set_root r) s Q.
Proof. intros. by eexists _, _. Qed.

Lemma runs_count_rotation s (Q : unit → RedBlackTree → Prop) :
  Q tt (mkTree (heap s) (root s) (S (rotations s)) (transplants s)) →
  runs count_rotation s Q.
Proof. intros. by eexists _, _. Qed.

Lemma runs_count_transplant s (Q : unit → RedBlackTree → Prop) :
  Q tt (mkTree (heap s) (root s) (rotations s) (S (transplants s))) →
  runs count_transplant s Q.
Proof. intros. by eexists _, _. Qed.

Lemma ptr_eqb_refl x : ptr_eqb x x = true.
Proof. unfold ptr_eqb. by rewrite bool_decide_eq_true. Qed.

Lemma ptr_eqb_ne x y : x ≠ y → ptr_eqb x y = false.
Proof. unfold ptr_eqb. by rewrite bool_decide_eq_false. Qed.

Lemma ptr_eqb_Some_ne (p q : ptr) : p ≠ q → ptr_eqb (Some p) (Some q) = false.
Proof. intros. apply ptr_eqb_ne. congruence. Qed.

Lemma ptr_eqb_Some_None (p : ptr) : ptr_eqb (Some p) None = false.
Proof. by apply ptr_eqb_ne. Qed.

Lemma ptr_eqb_None_Some (p : ptr) : ptr_eqb None (Some p) = false.
Proof. by apply ptr_eqb_ne. Qed.

(** ** Distinctness of the addresses of a tree *)

Lemma NoDup_app_disj (l1 l2 : list ptr) :
  NoDup (l1 ++ l2) → NoDup l1 ∧ disj l1 l2 ∧ NoDup l2.
Proof. by rewrite NoDup_app. Qed.

Lemma NoDup_cons_inv (x : ptr) l : NoDup (x :: l) → (x ∉ l) ∧ NoDup l.
Proof. by rewrite NoDup_cons. Qed.

Lemma notin_cons_inv (x y : ptr) l : x ∉ (y :: l) → x ≠ y ∧ (x ∉ l).
Proof. by rewrite not_elem_of_cons. Qed.

Lemma notin_app_inv (x : ptr) l1 l2 : x ∉ (l1 ++ l2) → (x ∉ l1) ∧ (x ∉ l2).
Proof. by rewrite not_elem_of_app. Qed.

Lemma disj_cons_l x l1 l2 : disj (x :: l1) l2 → (x ∉ l2) ∧ disj l1 l2.
Proof. unfold disj. intros H. split; [apply H; left|]. intros y Hy. apply H. by right. Qed.

Lemma disj_app_l l1 l1' l2 : disj (l1 ++ l1') l2 → disj l1 l2 ∧ disj l1' l2.
Proof. unfold disj. intros H. split; intros y Hy; apply H; set_solver. Qed.

Lemma disj_cons_r x l1 l2 : disj l1 (x :: l2) → (x ∉ l1) ∧ disj l1 l2.
Proof. unfold disj. intros H. split; [|set_solver]. intros Hx. apply (H x Hx). left. Qed.

Lemma disj_app_r l1 l2 l2' : disj l1 (l2 ++ l2') → disj l1 l2 ∧ disj l1 l2'.
Proof. unfold disj. intros H. split; intros y Hy; specialize (H y Hy); set_solver. Qed.

Lemma disj_nil_l l : disj [] l.
Proof. intros x Hx. inversion Hx. Qed.

Ltac nd_split :=
  repeat match goal with
  | H : NoDup (_ ++ _) |- _ => apply NoDup_app_disj in H; destruct H as (? & ? & ?)
  | H : NoDup (_ :: _) |- _ => apply NoDup_cons_inv in H; destruct H as (? & ?)
  | H : NoDup [] |- _ => clear H
  | H : _ ∉ _ :: _ |- _ => apply notin_cons_inv in H; destruct H as (? & ?)
  | H : _ ∉ _ ++ _ |- _ => apply notin_app_inv in H; destruct H as (? & ?)
  | H : _ ∉ [] |- _ => clear H
  | H : disj (_ :: _) _ |- _ => apply disj_cons_l in H; destruct H as (? & ?)
  | H : disj (_ ++ _) _ |- _ => apply disj_app_l in H; destruct H as (? & ?)
  | H : disj _ (_ :: _) |- _ => apply disj_cons_r in H; destruct H as (? & ?)
  | H : disj _ (_ ++ _) |- _ => apply disj_app_r in H; destruct H as (? & ?)
  | H : disj [] _ |- _ => clear H
  | H : disj _ [] |- _ => clear H
  end.

Ltac nd := first [ assumption | apply not_eq_sym; assumption | congruence ].

Lemma rp_in_ptrs t p : rp t = Some p → p ∈ ptrs t.
Proof. destruct t; simpl; [done|]. intros [= ->]. set_solver. Qed.

Lemma ptr_eqb_rp_r x t : x ∉ ptrs t → ptr_eqb (Some x) (rp t) = false.
Proof. intros H. apply ptr_eqb_ne. intros Heq. symmetry in Heq. by apply rp_in_ptrs in Heq. Qed.

Lemma ptr_eqb_rp_l x t : x ∉ ptrs t → ptr_eqb (rp t) (Some x) = false.
Proof. intros H. apply ptr_eqb_ne. intros Heq. by apply rp_in_ptrs in Heq. Qed.

(** ** Frame lemmas *)

Lemma repr_insert_ne h par t p n :
  p ∉ ptrs t → repr h par t → repr (<[p := n]> h) par t.
Proof.
  revert par. induction t as [|q c k v l IHl r IHr]; intros par Hp; simpl; [done|].
  simpl in Hp. apply notin_app_inv in Hp as [Hl Hp]. apply notin_cons_inv in Hp as [Hq Hr].
  intros (Hc & H1 & H2). rewrite lookup_insert_ne by done. auto.
Qed.

Lemma repr_ctx_insert_ne h top cs ch p n :
  p ∉ ctx_ptrs cs → repr_ctx h top cs ch → repr_ctx (<[p := n]> h) top cs ch.
Proof.
  revert ch. induction cs as [|f cs IH]; intros ch Hp; simpl; [done|].
  simpl in Hp. apply notin_cons_inv in Hp as [Hq Hp]. apply notin_app_inv in Hp as [Hs Hp].
  destruct f; simpl in *; intros (Hc & H1 & H2); rewrite lookup_insert_ne by done;
    auto using repr_insert_ne.
Qed.

Lemma repr_delete_ne h par t p :
  p ∉ ptrs t → repr h par t → repr (delete p h) par t.
Proof.
  revert par. induction t as [|q c k v l IHl r IHr]; intros par Hp; simpl; [done|].
  simpl in Hp. apply notin_app_inv in Hp as [Hl Hp]. apply notin_cons_inv in Hp as [Hq Hr].
  intros (Hc & H1 & H2). rewrite lookup_delete_ne by done. auto.
Qed.

Lemma repr_ctx_delete_ne h top cs ch p :
  p ∉ ctx_ptrs cs → repr_ctx h top cs ch → repr_ctx (delete p h) top cs ch.
Proof.
  revert ch. induction cs as [|f cs IH]; intros ch Hp; simpl; [done|].
  simpl in Hp. apply notin_cons_inv in Hp as [Hq Hp]. apply notin_app_inv in Hp as [Hs Hp].
  destruct f; simpl in *; intros (Hc & H1 & H2); rewrite lookup_delete_ne by done;
    auto using repr_delete_ne.
Qed.

(** Symbolic execution. *)
Ltac hlookup :=
  cbn [heap];
  repeat first [ rewrite lookup_insert_eq
               | rewrite lookup_insert_ne by nd
               | rewrite lookup_delete_ne by nd ];
  first [ reflexivity | eassumption ].

Ltac hframe :=
  cbn [heap];
  repeat first [ apply repr_insert_ne; [nd|]
               | apply repr_ctx_insert_ne; [nd|]
               | apply repr_delete_ne; [nd|]
               | apply repr_ctx_delete_ne; [nd|] ];
  first [ assumption | exact I ].

Ltac wp_simpl :=
  cbn beta;
  cbn [heap root rotations transplants key value color parent left right
       is_null rp cpar fptr fcolor fsib negb andb orb fst snd].

Ltac wp_step :=
  lazymatch goal with
  | |- runs (bind _ _) _ _ => apply runs_bind
  | |- runs (ret _) _ _ => apply runs_ret
  | |- runs (get _ (Some _)) _ _ => eapply runs_get; [hlookup|]
  | |- runs (modify _ (Some _)) _ _ => eapply runs_modify; [hlookup|]
  | |- runs (set_color _ _) _ _ => unfold set_color
  | |- runs (set_parent _ _) _ _ => unfold set_parent
  | |- runs (set_left _ _) _ _ => unfold set_left
  | |- runs (set_right _ _) _ _ => unfold set_right
  | |- runs get_root _ _ => apply runs_get_root
  | |- runs (set_root _) _ _ => apply runs_set_root
  | |- runs count_rotation _ _ => apply runs_count_rotation
  | |- runs count_transplant _ _ => apply runs_count_transplant
  | |- runs (if ptr_eqb ?x ?x then _ else _) _ _ => rewrite (ptr_eqb_refl x)
  | |- runs (if ptr_eqb (Some ?x) (Some ?y) then _ else _) _ _ =>
      rewrite (ptr_eqb_Some_ne x y) by nd
  | |- runs (if ptr_eqb (Some ?x) (rp ?t) then _ else _) _ _ =>
      rewrite (ptr_eqb_rp_r x t) by nd
  | |- runs (if ptr_eqb (rp ?t) (Some ?x) then _ else _) _ _ =>
      rewrite (ptr_eqb_rp_l x t) by nd
  | |- runs (if ptr_eqb (Some ?x) None then _ else _) _ _ => rewrite (ptr_eqb_Some_None x)
  | |- runs (if ptr_eqb None (Some ?x) then _ else _) _ _ => rewrite (ptr_eqb_None_Some x)
  end; wp_simpl.

Ltac wp := wp_simpl; repeat wp_step.


Lemma rp_fill f t : rp (fill f t) = Some (fptr f).
Proof. by destruct f. Qed.

Lemma rp_plug cs t : rp (plug cs t) = croot cs (rp t).
Proof.
  revert t. induction cs as [|f cs IH]; intros t; simpl; [done|].
  by rewrite IH, rp_fill.
Qed.

Lemma St_plug s cs t n :
  St s (plug cs t) n ↔
  repr_ctx (heap s) None cs (rp t) ∧ repr (heap s) (cpar None cs) t ∧
  root s = croot cs (rp t) ∧ NoDup (ptrs t ++ ctx_ptrs cs) ∧ rotations s = n.
Proof. unfold St. rewrite repr_plug, rp_plug, ptrs_plug. tauto. Qed.

Lemma NoDup_perm (l k : list ptr) : l ≡ₚ k → NoDup l → NoDup k.
Proof. by intros ->. Qed.

Lemma NoDup_sub (l k : list ptr) : l ⊆+ k → NoDup k → NoDup l.
Proof.
  intros Hsub Hk. apply submseteq_Permutation in Hsub as [k' Hk'].
  rewrite Hk' in Hk. by apply NoDup_app in Hk as [? _].
Qed.

Ltac st_cbn :=
  cbn [repr repr_ctx rp cpar fptr fcolor fsib croot ptrs ctx_ptrs fill
       heap root rotations transplants].
Tactic Notation "st_cbn" "in" hyp(H) :=
  cbn [repr repr_ctx rp cpar fptr fcolor fsib croot ptrs ctx_ptrs fill
       heap root rotations transplants] in H.

Ltac st_elim H :=
  lazymatch type of H with
  | St _ (plug _ _) _ => idtac
  | St ?s ?t ?n => change (St s (plug [] t) n) in H
  end;
  apply St_plug in H; st_cbn in H;
  let Hnd := fresh "Hnd" in
  let Hnd' := fresh "Hnd" in
  destruct H as (? & ? & ? & Hnd & ?);
  pose proof (Hnd : kept _) as Hnd';
  repeat match goal with H : _ ∧ _ |- _ => destruct H end; nd_split.

Ltac st_intro :=
  lazymatch goal with
  | |- St _ (plug _ _) _ => idtac
  | |- St ?s ?t ?n => change (St s (plug [] t) n)
  end;
  apply St_plug; st_cbn;
  repeat match goal with |- _ ∧ _ => split end;
  first [ exact I
        | reflexivity
        | assumption
        | hlookup
        | hframe
        | match goal with
          | H : kept (NoDup ?l) |- NoDup ?k =>
            first [ apply (NoDup_perm l k); [solve_Permutation | exact H]
                  | apply (NoDup_sub k l); [solve_submseteq | exact H] ]
          end
        | idtac ].

Lemma leftRotate_spec cs x cx kx vx a y cy ky vy b c s n :
  St s (plug cs (N x cx kx vx a (N y cy ky vy b c))) n →
  runs (leftRotate (Some x)) s (λ _ s',
    St s' (plug cs (N y cy ky vy (N x cx kx vx a b) c)) (S n)).
Proof.
  destruct s as [h r nr nt]. intros H. unfold leftRotate.
  destruct b as [|pb cb kb vb bl br]; destruct cs as [|[pp cp kp vp sp|pp cp kp vp sp] cs];
    st_elim H; subst; wp; st_intro.
Qed.

Lemma rightRotate_spec cs x cx kx vx a y cy ky vy b c s n :
  St s (plug cs (N y cy ky vy (N x cx kx vx a b) c)) n →
  runs (rightRotate (Some y)) s (λ _ s',
    St s' (plug cs (N x cx kx vx a (N y cy ky vy b c))) (S n)).
Proof.
  destruct s as [h r nr nt]. intros H. unfold rightRotate.
  destruct b as [|pb cb kb vb bl br]; destruct cs as [|[pp cp kp vp sp|pp cp kp vp sp] cs];
    st_elim H; subst; wp; st_intro.
Qed.

(** ** Recolouring and the loop of insertFixup *)

Lemma set_color_spec cs p c0 k v l r c s n :
  St s (plug cs (N p c0 k v l r)) n →
  runs (set_color (Some p) c) s (λ _ s', St s' (plug cs (N p c k v l r)) n).
Proof.
  destruct s as [h rt nr nt]. intros H.
  destruct cs as [|[pp cp kp vp sp|pp cp kp vp sp] cs]; st_elim H; subst; wp; st_intro.
Qed.

Lemma croot_in cs p q : croot cs (Some p) = Some q → q = p ∨ q ∈ ctx_ptrs cs.
Proof.
  revert p. induction cs as [|f cs IH]; intros p; simpl.
  - intros [= ->]. by left.
  - intros H. apply IH in H as [->|H]; right; set_solver.
Qed.

Lemma ptr_eqb_croot z p cs :
  z ≠ p → z ∉ ctx_ptrs cs → ptr_eqb (Some z) (croot cs (Some p)) = false.
Proof.
  intros H1 H2. apply ptr_eqb_ne. intros Heq. symmetry in Heq.
  apply croot_in in Heq as [->|?]; done.
Qed.

Ltac wp_read_step :=
  lazymatch goal with
  | |- runs (bind _ _) _ _ => apply runs_bind
  | |- runs (ret _) _ _ => apply runs_ret
  | |- runs (get _ (Some _)) _ _ => eapply runs_get; [hlookup|]
  | |- runs (get_root) ?s _ =>
      apply runs_get_root;
      try match goal with H : root s = _ |- _ => rewrite H end
  | |- runs (and_then _ _) _ _ => unfold and_then
  | |- runs (or_else _ _) _ _ => unfold or_else
  | |- runs (color_is _ _) _ _ => unfold color_is
  | |- runs (non_null _) _ _ => unfold non_null
  | |- runs (null _) _ _ => unfold null
  | |- runs (null_or_black _) _ _ => unfold null_or_black
  | |- runs (grandparent _) _ _ => unfold grandparent
  | |- runs (if ptr_eqb ?x ?x then _ else _) _ _ => rewrite (ptr_eqb_refl x)
  | |- runs (if negb (ptr_eqb ?x ?x) then _ else _) _ _ => rewrite (ptr_eqb_refl x)
  | |- runs (if ptr_eqb (Some ?x) (Some ?y) then _ else _) _ _ =>
      rewrite (ptr_eqb_Some_ne x y) by nd
  | |- runs (if ptr_eqb (Some ?x) (rp ?t) then _ else _) _ _ =>
      rewrite (ptr_eqb_rp_r x t) by nd
  | |- runs (if ptr_eqb (rp ?t) (Some ?x) then _ else _) _ _ =>
      rewrite (ptr_eqb_rp_l x t) by nd
  | |- runs (if ptr_eqb (Some ?x) None then _ else _) _ _ => rewrite (ptr_eqb_Some_None x)
  | |- runs (if ptr_eqb None (Some ?x) then _ else _) _ _ => rewrite (ptr_eqb_None_Some x)
  | |- runs (if negb (ptr_eqb (Some ?z) (croot ?cs (Some ?p))) then _ else _) _ _ =>
      rewrite (ptr_eqb_croot z p cs) by nd
  | |- runs (if negb (ptr_eqb (Some ?x) (Some ?y)) then _ else _) _ _ =>
      rewrite (ptr_eqb_Some_ne x y) by nd
  | |- runs (bind (ret (negb (ptr_eqb (Some ?z) (croot ?cs (Some ?p))))) _) _ _ =>
      rewrite (ptr_eqb_croot z p cs) by nd
  | |- runs (bind (ret (negb (ptr_eqb (Some ?x) (Some ?y)))) _) _ _ =>
      rewrite (ptr_eqb_Some_ne x y) by nd
  | |- runs (bind (ret (negb (ptr_eqb ?x ?x))) _) _ _ => rewrite (ptr_eqb_refl x)
  end; wp_simpl.

Ltac wp_simpl2 :=
  cbn beta;
  cbn [heap root rotations transplants key value color parent left right
       is_null rp cpar fptr fcolor fsib negb andb orb fst snd
       Color_eqb is_red is_black].
Ltac wpr := wp_simpl2; repeat (wp_read_step; wp_simpl2).

Tactic Notation "wp_apply" uconstr(lem) "using" hyp(H) "as" ident(H') :=
  lazymatch goal with |- runs (bind _ _) _ _ => apply runs_bind | _ => idtac end;
  eapply runs_conseq; [eapply lem; exact H | intros [] ? H'; wp_simpl].

Ltac cells H := let C := fresh "C" in pose proof H as C; st_elim C.


Lemma St_count s t n n' : St s t n → n = n' → St s t n'.
Proof. by intros ? <-. Qed.

Ltac wp_loop IH cs H :=
  eapply runs_conseq;
  [ eapply (IH cs); [exact H | first [eassumption | reflexivity] | simpl in *; lia]
  | cbn beta; intros [] ? ?; eapply St_count; [eassumption | lia] ].

Lemma insertFixup_loop_sim fuel : ∀ cs z cz kz vz a b s n t' m,
  St s (plug cs (N z cz kz vz a b)) n →
  fix_ins cs (N z cz kz vz a b) = Some (t', m) →
  (length cs < fuel)%nat →
  runs (insertFixup_loop fuel (Some z)) s (λ _ s', St s' t' (n + m)).
Proof.
  induction fuel as [|fuel IH]; intros cs z cz kz vz a b s n t' m S0 Hfix Hfuel; [lia|].
  cbn [insertFixup_loop].
  destruct cs as [|f cs].
  { simpl in Hfix. injection Hfix as <- <-. cells S0. wpr. by rewrite Nat.add_0_r. }
  destruct f as [p [] kp vp sb|p [] kp vp sb].
  - destruct cs as [|[g cg kg vg u|g cg kg vg u] cs]; [done|..].
    + destruct u as [|pu [] ku vu ul ur].
      * simpl in Hfix. injection Hfix as <- <-. cells S0. wpr.
        wp_apply (set_color_spec (FL g cg kg vg E :: cs)) using S0 as S1. cells S1. wpr.
        wp_apply (set_color_spec cs) using S1 as S2. cells S2. wpr.
        wp_apply (rightRotate_spec cs) using S2 as S3.
        wp_loop IH (FL p BLACK kp vp (N g RED kg vg sb E) :: cs) S3.
      * cbn [fix_ins tcol blacken] in Hfix. cells S0. wpr.
        wp_apply (set_color_spec (FL g cg kg vg _ :: cs)) using S0 as S1. cells S1. wpr.
        wp_apply (set_color_spec (FR g cg kg vg _ :: cs)) using S1 as S2. cells S2. wpr.
        wp_apply (set_color_spec cs) using S2 as S3. cells S3. wpr.
        wp_loop IH cs S3.
      * simpl in Hfix. injection Hfix as <- <-. cells S0. wpr.
        wp_apply (set_color_spec (FL g cg kg vg _ :: cs)) using S0 as S1. cells S1. wpr.
        wp_apply (set_color_spec cs) using S1 as S2. cells S2. wpr.
        wp_apply (rightRotate_spec cs) using S2 as S3.
        wp_loop IH (FL p BLACK kp vp (N g RED kg vg sb (N pu BLACK ku vu ul ur)) :: cs) S3.
    + destruct u as [|pu [] ku vu ul ur].
      * simpl in Hfix. injection Hfix as <- <-. cells S0. wpr.
        wp_apply (rightRotate_spec (FR g cg kg vg _ :: cs)) using S0 as S1. cells S1. wpr.
        wp_apply (set_color_spec (FR g cg kg vg _ :: cs)) using S1 as S2. cells S2. wpr.
        wp_apply (set_color_spec cs) using S2 as S3. cells S3. wpr.
        wp_apply (leftRotate_spec cs) using S3 as S4.
        wp_loop IH (FR z BLACK kz vz (N g RED kg vg E a) :: cs) S4.
      * cbn [fix_ins tcol blacken] in Hfix. cells S0. wpr.
        wp_apply (set_color_spec (FR g cg kg vg _ :: cs)) using S0 as S1. cells S1. wpr.
        wp_apply (set_color_spec (FL g cg kg vg _ :: cs)) using S1 as S2. cells S2. wpr.
        wp_apply (set_color_spec cs) using S2 as S3. cells S3. wpr.
        wp_loop IH cs S3.
      * simpl in Hfix. injection Hfix as <- <-. cells S0. wpr.
        wp_apply (rightRotate_spec (FR g cg kg vg _ :: cs)) using S0 as S1. cells S1. wpr.
        wp_apply (set_color_spec (FR g cg kg vg _ :: cs)) using S1 as S2. cells S2. wpr.
        wp_apply (set_color_spec cs) using S2 as S3. cells S3. wpr.
        wp_apply (leftRotate_spec cs) using S3 as S4.
        wp_loop IH (FR z BLACK kz vz (N g RED kg vg (N pu BLACK ku vu ul ur) a) :: cs) S4.
  - cbn [fix_ins] in Hfix. injection Hfix as <- <-.
    destruct cs as [|f cs]; cells S0; wpr; by rewrite Nat.add_0_r.
  - destruct cs as [|[g cg kg vg u|g cg kg vg u] cs]; [done|..].
    + destruct u as [|pu [] ku vu ul ur].
      * simpl in Hfix. injection Hfix as <- <-. cells S0. wpr.
        wp_apply (leftRotate_spec (FL g cg kg vg _ :: cs)) using S0 as S1. cells S1. wpr.
        wp_apply (set_color_spec (FL g cg kg vg _ :: cs)) using S1 as S2. cells S2. wpr.
        wp_apply (set_color_spec cs) using S2 as S3. cells S3. wpr.
        wp_apply (rightRotate_spec cs) using S3 as S4.
        wp_loop IH (FL z BLACK kz vz (N g RED kg vg b E) :: cs) S4.
      * cbn [fix_ins tcol blacken] in Hfix. cells S0. wpr.
        wp_apply (set_color_spec (FL g cg kg vg _ :: cs)) using S0 as S1. cells S1. wpr.
        wp_apply (set_color_spec (FR g cg kg vg _ :: cs)) using S1 as S2. cells S2. wpr.
        wp_apply (set_color_spec cs) using S2 as S3. cells S3. wpr.
        wp_loop IH cs S3.
      * simpl in Hfix. injection Hfix as <- <-. cells S0. wpr.
        wp_apply (leftRotate_spec (FL g cg kg vg _ :: cs)) using S0 as S1. cells S1. wpr.
        wp_apply (set_color_spec (FL g cg kg vg _ :: cs)) using S1 as S2. cells S2. wpr.
        wp_apply (set_color_spec cs) using S2 as S3. cells S3. wpr.
        wp_apply (rightRotate_spec cs) using S3 as S4.
        wp_loop IH (FL z BLACK kz vz (N g RED kg vg b (N pu BLACK ku vu ul ur)) :: cs) S4.
    + destruct u as [|pu [] ku vu ul ur].
      * simpl in Hfix. injection Hfix as <- <-. cells S0. wpr.
        wp_apply (set_color_spec (FR g cg kg vg _ :: cs)) using S0 as S1. cells S1. wpr.
        wp_apply (set_color_spec cs) using S1 as S2. cells S2. wpr.
        wp_apply (leftRotate_spec cs) using S2 as S3.
        wp_loop IH (FR p BLACK kp vp (N g RED kg vg E sb) :: cs) S3.
      * cbn [fix_ins tcol blacken] in Hfix. cells S0. wpr.
        wp_apply (set_color_spec (FR g cg kg vg _ :: cs)) using S0 as S1. cells S1. wpr.
        wp_apply (set_color_spec (FL g cg kg vg _ :: cs)) using S1 as S2. cells S2. wpr.
        wp_apply (set_color_spec cs) using S2 as S3. cells S3. wpr.
        wp_loop IH cs S3.
      * simpl in Hfix. injection Hfix as <- <-. cells S0. wpr.
        wp_apply (set_color_spec (FR g cg kg vg _ :: cs)) using S0 as S1. cells S1. wpr.
        wp_apply (set_color_spec cs) using S1 as S2. cells S2. wpr.
        wp_apply (leftRotate_spec cs) using S2 as S3.
        wp_loop IH (FR p BLACK kp vp (N g RED kg vg (N pu BLACK ku vu ul ur) sb) :: cs) S3.
  - cbn [fix_ins] in Hfix. injection Hfix as <- <-.
    destruct cs as [|f cs]; cells S0; wpr; by rewrite Nat.add_0_r.
Qed.

(** ** insertFixup and insert *)

Lemma ctx_ind2 (P : list frame → Prop) :
  P [] → (∀ f, P [f]) → (∀ f g cs, P cs → P (f :: g :: cs)) → ∀ cs, P cs.
Proof.
  intros H0 H1 H2 cs.
  assert (P cs ∧ ∀ f, P (f :: cs)) as [? _]; [|done].
  induction cs as [|g cs [IH1 IH2]]; split; auto.
Qed.

Lemma fix_ins_nonempty cs z cz kz vz a b t' m :
  fix_ins cs (N z cz kz vz a b) = Some (t', m) → t' ≠ E.
Proof.
  revert z cz kz vz a b. induction cs as [|f|f g cs IH] using ctx_ind2; intros z cz kz vz a b.
  - simpl. by intros [= <- <-].
  - destruct f as [? [] ? ? ?|? [] ? ? ?]; simpl; try done; by intros [= <- <-].
  - assert (∀ t, t ≠ E → plug cs t ≠ E) as Hplug.
    { clear. induction cs as [|f cs IH]; simpl; [done|]. intros t _. apply IH. by destruct f. }
    destruct f as [? [] ? ? ?|? [] ? ? ?], g as [? ? ? ? u|? ? ? ? u];
      cbn [fix_ins]; try destruct (tcol u); try apply IH;
      intros [= <- <-]; try apply Hplug; try done; by destruct cs as [|[] ?].
Qed.

Lemma insertFixup_sim fuel cs z cz kz vz a b s n t' m :
  St s (plug cs (N z cz kz vz a b)) n →
  fix_ins cs (N z cz kz vz a b) = Some (t', m) →
  (length cs < fuel)%nat →
  runs (insertFixup fuel (Some z)) s (λ _ s', St s' (blacken t') (n + m)).
Proof.
  intros S0 Hfix Hfuel. unfold insertFixup. apply runs_bind.
  eapply runs_conseq; [by eapply insertFixup_loop_sim|]. cbn beta. intros [] s1 S1.
  pose proof (fix_ins_nonempty _ _ _ _ _ _ _ _ _ Hfix) as Hne.
  destruct t' as [|r cr kr vr tl tr]; [done|]. clear Hne.
  pose proof S1 as C1. destruct C1 as (_ & Hroot & _). cbn in Hroot.
  wpr. wp_apply (set_color_spec []) using S1 as S2. done.
Qed.

(** ** Descent and linking *)

Lemma St_cell s cs p c k v l r n :
  St s (plug cs (N p c k v l r)) n →
  heap s !! p = Some (mkNode k v c (cpar None cs) (rp l) (rp r)).
Proof. intros H. apply St_plug in H. simpl in H. tauto. Qed.

Lemma get_eq {A} (f : Node → A) p s n :
  heap s !! p = Some n → get f (Some p) s = Done (f n) s.
Proof. intros H. unfold get. by rewrite H. Qed.

Lemma insert_loop_sim k t : ∀ cs fuel s n,
  St s (plug cs t) n → (tree_size t < fuel)%nat →
  insert_loop fuel k (cpar None cs) (rp t) s =
    match descend k t cs with
    | Some cs' => Done (cpar None cs') s
    | None => Throw DuplicateKey s
    end.
Proof.
  induction t as [|p c k' v l IHl r IHr]; intros cs fuel s n H Hfuel;
    (destruct fuel as [|fuel]; [simpl in Hfuel; lia|]).
  - done.
  - cbn [insert_loop descend rp is_null]. unfold bind at 1.
    rewrite (get_eq _ _ _ _ (St_cell _ _ _ _ _ _ _ _ _ H)). cbn [key].
    simpl in Hfuel. destruct (k <? k').
    + unfold bind. rewrite (get_eq _ _ _ _ (St_cell _ _ _ _ _ _ _ _ _ H)). cbn [left].
      apply (IHl (FL p c k' v r :: cs) fuel s n H). lia.
    + destruct (k >? k'); [|done].
      unfold bind. rewrite (get_eq _ _ _ _ (St_cell _ _ _ _ _ _ _ _ _ H)). cbn [right].
      apply (IHr (FR p c k' v l :: cs) fuel s n H). lia.
Qed.

Lemma descend_side k t : ∀ cs cs',
  descend k t cs = Some cs' → side_ok k cs → side_ok k cs'.
Proof.
  induction t as [|p c k' v l IHl r IHr]; intros cs cs'; simpl.
  - by intros [= <-].
  - destruct (k <? k') eqn:Hlt; [intros H _; by eapply IHl|].
    destruct (k >? k'); [|done]. intros H _. by eapply IHr.
Qed.

Lemma descend_length k t : ∀ cs cs',
  descend k t cs = Some cs' → (length cs' ≤ tree_size t + length cs)%nat.
Proof.
  induction t as [|p c k' v l IHl r IHr]; intros cs cs'; simpl.
  - intros [= <-]. lia.
  - destruct (k <? k'); [intros H; apply IHl in H; simpl in H; lia|].
    destruct (k >? k'); [|done]. intros H; apply IHr in H; simpl in H; lia.
Qed.

Lemma descend_plug k t : ∀ cs cs',
  descend k t cs = Some cs' → plug cs' E = plug cs t.
Proof.
  induction t as [|p c k' v l IHl r IHr]; intros cs cs'; simpl.
  - by intros [= <-].
  - destruct (k <? k'); [intros H; by apply IHl in H|].
    destruct (k >? k'); [|done]. intros H; by apply IHr in H.
Qed.

Lemma repr_ptrs_alloc h par t q : repr h par t → q ∈ ptrs t → is_Some (h !! q).
Proof.
  revert par. induction t as [|p c k v l IHl r IHr]; intros par; simpl; [set_solver|].
  intros (Hc & Hl & Hr). rewrite elem_of_app, elem_of_cons. intros [?|[->|?]]; eauto.
Qed.

Lemma St_ptrs_alloc s t n q : St s t n → q ∈ ptrs t → is_Some (heap s !! q).
Proof. intros (H & _). by eapply repr_ptrs_alloc. Qed.

Lemma St_alloc s t n p nd :
  St s t n → heap s !! p = None →
  St (mkTree (<[p := nd]> (heap s)) (root s) (rotations s) (transplants s)) t n.
Proof.
  intros H Hp. assert (p ∉ ptrs t) as Hnotin.
  { intros Hin. eapply St_ptrs_alloc in Hin as [? Hin]; [|done]. congruence. }
  destruct H as (H1 & H2 & H3 & H4). repeat split; try done.
  cbn. by apply repr_insert_ne.
Qed.

Lemma link_spec {B} (K : M B) Q s cs n p k v :
  St s (plug cs E) n →
  heap s !! p = Some (mkNode k v RED None None None) →
  p ∉ ptrs (plug cs E) → side_ok k cs →
  (∀ s', St s' (plug cs (N p RED k v E E)) n → runs K s' Q) →
  runs (set_parent (Some p) (cpar None cs);;
        (if is_null (cpar None cs) then set_root (Some p)
         else yk ← get key (cpar None cs);
              if k <? yk then set_left (cpar None cs) (Some p)
              else set_right (cpar None cs) (Some p));;
        K) s Q.
Proof.
  destruct s as [h rt nr nt]. intros H Hp Hnotin Hside HK.
  rewrite ptrs_plug in Hnotin. cbn [heap] in Hp.
  destruct cs as [|[pp cp kp vp sp|pp cp kp vp sp] cs]; cbn in Hside, Hnotin;
    pose proof (Hnotin : kept _) as Hni;
    st_elim H; nd_split; subst; wp; try rewrite Hside; wp; apply HK; st_intro.
  all: unfold kept in *; simpl in *; by apply NoDup_cons.
Qed.

Lemma insert_sim fuel k v s t n t' m :
  St s t n →
  ins_tree (fresh (dom (heap s))) k v t = Some (t', m) →
  (tree_size t < fuel)%nat →
  runs (insert fuel k v) s (λ _ s', St s' t' (n + m)).
Proof.
  intros S0 Hins Hfuel. unfold ins_tree in Hins.
  destruct (descend k t []) as [cs|] eqn:Hd; [|done].
  set (p := fresh (dom (heap s))) in *.
  destruct (fix_ins cs (N p RED k v E E)) as [[t1 m1]|] eqn:Hfix; [|done].
  injection Hins as <- <-.
  assert (heap s !! p = None) as Hp.
  { apply not_elem_of_dom. apply is_fresh. }
  unfold insert. apply runs_bind. unfold new_node at 1. eexists _, _. split; [reflexivity|].
  fold p. apply (St_alloc _ _ _ p (mkNode k v RED None None None)) in S0 as S1; [|done].
  set (s1 := mkTree _ _ _ _) in *.
  apply runs_bind, runs_get_root. apply runs_bind.
  pose proof (insert_loop_sim k t [] fuel s1 n S1 Hfuel) as Hloop.
  rewrite Hd in Hloop. cbn [cpar] in Hloop.
  pose proof S1 as (? & Hroot & ?). rewrite Hroot.
  eexists _, _. split; [exact Hloop|].
  pose proof (descend_plug _ _ _ _ Hd) as Hplug. simpl in Hplug.
  assert (St s1 (plug cs E) n) as S2 by (rewrite Hplug; done).
  rewrite <- Hplug in *.
  cbn beta. apply (link_spec _ _ _ _ n _ _ v); [done| | | |].
  - subst s1. cbn. by rewrite lookup_insert_eq.
  - intros Hin. eapply (St_ptrs_alloc s) in Hin as [? Hin]; [|eassumption].
    congruence.
  - by eapply descend_side.
  - intros s3 S3. eapply insertFixup_sim; [done..|].
    apply descend_length in Hd. simpl in Hd. lia.
Qed.


(** ** search and minimum *)

Lemma search_loop_sim k t : ∀ cs fuel s n,
  St s (plug cs t) n → (tree_size t < fuel)%nat →
  search_loop fuel k (rp t) s =
    Done (match find k t cs with Some (_, tz) => rp tz | None => None end) s.
Proof.
  induction t as [|p c k' v l IHl r IHr]; intros cs fuel s n H Hfuel;
    (destruct fuel as [|fuel]; [simpl in Hfuel; lia|]).
  - done.
  - cbn [search_loop find rp is_null]. unfold bind at 1.
    rewrite (get_eq _ _ _ _ (St_cell _ _ _ _ _ _ _ _ _ H)). cbn [key].
    simpl in Hfuel. destruct (k <? k').
    + unfold bind. rewrite (get_eq _ _ _ _ (St_cell _ _ _ _ _ _ _ _ _ H)). cbn [left].
      apply (IHl (FL p c k' v r :: cs) fuel s n H). lia.
    + destruct (k >? k'); [|done].
      unfold bind. rewrite (get_eq _ _ _ _ (St_cell _ _ _ _ _ _ _ _ _ H)). cbn [right].
      apply (IHr (FR p c k' v l :: cs) fuel s n H). lia.
Qed.

Lemma find_plug k t : ∀ cs cs' tz,
  find k t cs = Some (cs', tz) → plug cs' tz = plug cs t ∧ ∃ z c v l r, tz = N z c k v l r.
Proof.
  induction t as [|p c k' v l IHl r IHr]; intros cs cs' tz; simpl; [done|].
  destruct (k <? k') eqn:H1; [intros H; by apply IHl in H|].
  destruct (k >? k') eqn:H2; [intros H; by apply IHr in H|].
  intros [= <- <-]. split; [done|]. assert (k = k') as -> by lia. eauto 10.
Qed.

Lemma find_length k t : ∀ cs cs' tz,
  find k t cs = Some (cs', tz) → (length cs' + tree_size tz ≤ length cs + tree_size t)%nat.
Proof.
  induction t as [|p c k' v l IHl r IHr]; intros cs cs' tz; simpl; [done|].
  destruct (k <? k') eqn:H1; [intros H; apply IHl in H; simpl in H; lia|].
  destruct (k >? k') eqn:H2; [intros H; apply IHr in H; simpl in H; lia|].
  intros [= <- <-]. simpl. lia.
Qed.

Lemma min_ctx_spec t : ∀ cs cs' ty,
  t ≠ E → min_ctx t cs = (cs', ty) →
  ∃ csy y cy ky vy yr,
    cs' = csy ++ cs ∧ ty = N y cy ky vy E yr ∧ t = plug csy ty
    ∧ (length csy < tree_size t)%nat.
Proof.
  induction t as [|p c k v l IHl r _]; intros cs cs' ty Hne; [done|].
  destruct l as [|pl cl kl vl ll lr].
  - simpl. intros [= <- <-]. exists [], p, c, k, v, r. repeat split; simpl; lia.
  - intros H. change (min_ctx (N pl cl kl vl ll lr) (FL p c k v r :: cs) = (cs', ty)) in H.
    apply IHl in H as (csy & y & cy & ky & vy & yr & -> & -> & Hp & Hlen); [|done].
    exists (csy ++ [FL p c k v r]), y, cy, ky, vy, yr.
    rewrite <- app_assoc. repeat split; [|rewrite length_app; simpl in *; lia].
    rewrite plug_app. simpl. by rewrite <- Hp.
Qed.

Lemma minimum_loop_sim t : ∀ cs fuel s n,
  t ≠ E → St s (plug cs t) n → (tree_size t < fuel)%nat →
  minimum_loop fuel (rp t) s = Done (rp (min_ctx t cs).2) s.
Proof.
  induction t as [|p c k v l IHl r _]; intros cs fuel s n Hne H Hfuel; [done|].
  destruct fuel as [|fuel]; [simpl in Hfuel; lia|].
  cbn [minimum_loop rp]. unfold bind.
  rewrite (get_eq _ _ _ _ (St_cell _ _ _ _ _ _ _ _ _ H)). cbn [left].
  destruct l as [|pl cl kl vl ll lr]; [done|].
  cbn [rp is_null]. change (rp (min_ctx _ cs).2) with
    (rp (min_ctx (N pl cl kl vl ll lr) (FL p c k v r :: cs)).2).
  apply (IHl (FL p c k v r :: cs) fuel s n); [done|exact H|simpl in *; lia].
Qed.

(** ** Unlinking a node *)

Lemma repr_delete_inv h par t u : repr (delete u h) par t → repr h par t ∧ u ∉ ptrs t.
Proof.
  revert par. induction t as [|p c k v l IHl r IHr]; intros par; simpl; [set_solver|].
  intros (Hc & Hl & Hr). apply lookup_delete_Some in Hc as [Hne Hc].
  apply IHl in Hl as [? ?]. apply IHr in Hr as [? ?].
  repeat split; try done.
  rewrite elem_of_app, elem_of_cons. intros [?|[?|?]]; done.
Qed.

Lemma St_delete_inv h r nr nt u t n :
  St (mkTree (delete u h) r nr nt) t n → St (mkTree h r nr nt) t n ∧ u ∉ ptrs t.
Proof.
  intros (H1 & H2 & H3 & H4). cbn in *. apply repr_delete_inv in H1 as [? ?].
  by repeat split.
Qed.

Lemma splice_spec cs u cu ku vu ur s n :
  St s (plug cs (N u cu ku vu E ur)) n →
  runs (transplant (Some u) (rp ur)) s (λ _ s',
    heap s' !! u = Some (mkNode ku vu cu (cpar None cs) None (rp ur))
    ∧ St (mkTree (delete u (heap s')) (root s') (rotations s') (transplants s'))
         (plug cs ur) n).
Proof.
  destruct s as [h rt nr nt]. intros H. unfold transplant.
  destruct ur as [|pr cr kr vr rl rr]; destruct cs as [|[pp cp kp vp sp|pp cp kp vp sp] cs];
    st_elim H; subst; wp; (split; [hlookup|]); st_intro.
Qed.

Lemma min_ctx_app t : ∀ cs, min_ctx t cs = ((min_ctx t []).1 ++ cs, (min_ctx t []).2).
Proof.
  induction t as [|p c k v l IHl r _]; intros cs; [done|].
  destruct l as [|pl cl kl vl ll lr]; [done|].
  change (min_ctx (N p c k v (N pl cl kl vl ll lr) r) cs)
    with (min_ctx (N pl cl kl vl ll lr) (FL p c k v r :: cs)).
  change (min_ctx (N p c k v (N pl cl kl vl ll lr) r) [])
    with (min_ctx (N pl cl kl vl ll lr) [FL p c k v r]).
  rewrite (IHl (FL p c k v r :: cs)), (IHl [FL p c k v r]). cbn [fst snd].
  by rewrite <- app_assoc.
Qed.

Lemma ctx_ptrs_app cs1 cs2 : ctx_ptrs (cs1 ++ cs2) = ctx_ptrs cs1 ++ ctx_ptrs cs2.
Proof.
  induction cs1 as [|f cs1 IH]; simpl; [done|]. by rewrite IH, <- app_assoc.
Qed.

Lemma plug_cons_N f cs t : ∃ p c k v l r, plug (f :: cs) t = N p c k v l r.
Proof.
  revert f t. induction cs as [|g cs IH]; intros f t.
  - destruct f; simpl; eauto 10.
  - destruct (IH g (fill f t)) as (p & c & k & v & l & r & H). eauto 10.
Qed.

Ltac wpd_step :=
  first [ wp_step
        | wp_read_step
        | lazymatch goal with
          | |- runs (transplant _ _) _ _ => unfold transplant
          | |- runs (delete_node _) _ _ => fail
          end ].
Ltac wpd := wp_simpl2; repeat (wpd_step; wp_simpl2).

Lemma unlink_sim fuel cs z cz kz vz l r s n cx tx c :
  St s (plug cs (N z cz kz vz l r)) n →
  unlink cs (N z cz kz vz l r) = Some (cx, tx, c) →
  (tree_size r < fuel)%nat →
  runs (remove_unlink fuel (Some z)) s (λ res s',
    res = (rp tx, cpar None cx, c) ∧ is_Some (heap s' !! z) ∧
    St (mkTree (delete z (heap s')) (root s') (rotations s') (transplants s'))
       (plug cx tx) n).
Proof.
  intros S0 Hun Hfuel. unfold remove_unlink.
  destruct l as [|pl cl kl vl ll lr].
  { (* no left child *)
    cbn in Hun. injection Hun as <- <- <-. destruct s as [h rt nr nt].
    destruct r as [|pr cr kr vr rl rr]; destruct cs as [|[pp cp kp vp sp|pp cp kp vp sp] cs];
      st_elim S0; subst; wpd; (split; [done|]); (split; [eexists; hlookup|]); st_intro. }
  destruct r as [|pr cr kr vr rl rr].
  { (* no right child *)
    cbn in Hun. injection Hun as <- <- <-. destruct s as [h rt nr nt].
    destruct cs as [|[pp cp kp vp sp|pp cp kp vp sp] cs];
      st_elim S0; subst; wpd; (split; [done|]); (split; [eexists; hlookup|]); st_intro. }
  (* two children: the successor y takes the place of z *)
  set (l := N pl cl kl vl ll lr) in *. set (r := N pr cr kr vr rl rr) in *.
  assert (r ≠ E) as Hr by done.
  destruct (min_ctx r []) as [csy ty] eqn:Hmin.
  destruct (min_ctx_spec r [] csy ty Hr Hmin)
    as (csy' & y & cy & ky & vy & yr & Hcs & -> & Hplug & Hlen).
  rewrite app_nil_r in Hcs. subst csy'.
  assert (unlink cs (N z cz kz vz l r) = Some (csy ++ FR y cz ky vy l :: cs, yr, cy)) as Hun'.
  { unfold unlink, l. fold r. by rewrite Hmin. }
  rewrite Hun' in Hun. injection Hun as <- <- <-. clear Hun'.
  pose proof (minimum_loop_sim r (FR z cz kz vz l :: cs) fuel s n Hr S0 Hfuel) as Hmin_run.
  rewrite min_ctx_app, Hmin in Hmin_run. cbn [fst snd rp] in Hmin_run.
  pose proof (St_cell _ _ _ _ _ _ _ _ _ S0) as Hz.
  assert (St s (plug (csy ++ FR z cz kz vz l :: cs) (N y cy ky vy E yr)) n) as S0'.
  { rewrite plug_app. cbn [plug fill]. by rewrite <- Hplug. }
  pose proof (St_cell _ _ _ _ _ _ _ _ _ S0') as Hy.
  subst l r. cbn [rp] in *. wpr. unfold minimum. wpr.
  eexists _, _. split; [exact Hmin_run|]. wpr.
  destruct csy as [|f csy].
  - (* y is the right child of z *)
    cbn in Hplug. injection Hplug as -> -> -> -> -> ->.
    cbn [app cpar fptr] in *. wpr. clear S0' Hy Hz Hmin_run.
    destruct s as [h rt nr nt].
    destruct cs as [|[pp cp kp vp sp|pp cp kp vp sp] cs];
      st_elim S0; subst; wpd; (split; [done|]); (split; [eexists; hlookup|]); st_intro.
  - (* y lies deeper: it is spliced out first *)
    cbn [app cpar] in *.
    assert (z ≠ y ∧ fptr f ≠ z) as [Hzy Hfz].
    { destruct S0' as (_ & _ & Hnd & _). rewrite ptrs_plug in Hnd.
      simpl in Hnd. rewrite ctx_ptrs_app in Hnd. simpl in Hnd. nd_split. done. }
    wpr. clear Hmin_run.
    wp_apply (splice_spec (f :: csy ++ FR z cz kz vz _ :: cs)) using S0' as S1.
    destruct S1 as [Hy1 S1]. destruct s' as [h1 r1 nr1 nt1]. cbn [heap root rotations transplants] in *.
    apply St_delete_inv in S1 as [S1 Hy_notin].
    change (f :: csy ++ FR z cz kz vz (N pl cl kl vl ll lr) :: cs)
      with ((f :: csy) ++ FR z cz kz vz (N pl cl kl vl ll lr) :: cs) in *.
    rewrite !plug_app in *. destruct (plug_cons_N f csy yr) as (q & cq & kq & vq & ql & qr & Hq).
    rewrite Hq in *. cbn [plug fill] in *.
    rewrite ptrs_plug in Hy_notin. cbn [ptrs] in Hy_notin.
    assert (kept (NoDup (y :: ptrs (N z cz kz vz (N pl cl kl vl ll lr) (N q cq kq vq ql qr))
                           ++ ctx_ptrs cs))) as Hk.
    { apply NoDup_cons. split; [done|]. destruct S1 as (_ & _ & Hnd & _).
      by rewrite ptrs_plug in Hnd. }
    clear S0 S0' Hy Hz Hplug Hlen Hfuel.
    destruct cs as [|[pp cp kp vp sp|pp cp kp vp sp] cs];
      cbn [ctx_ptrs fptr fsib ptrs] in Hy_notin;
      st_elim S1; nd_split; subst; wpd; (split; [done|]); (split; [eexists; hlookup|]);
      rewrite plug_app; cbn [plug fill]; rewrite Hq; st_intro.
Qed.

(** ** The loop of deleteFixup *)

(** Locating a node of an explicit tree: the context leading to it. *)
Ltac find_in t p acc :=
  match t with
  | N p _ _ _ _ _ => constr:(acc)
  | N ?q ?c ?k ?v ?l ?r => find_in l p constr:(FL q c k v r :: acc)
  | N ?q ?c ?k ?v ?l ?r => find_in r p constr:(FR q c k v l :: acc)
  end.

Ltac find_ctx T p :=
  match T with
  | plug ?cs ?t => find_in t p cs
  | plug (FL ?q ?c ?k ?v ?r :: ?cs) ?t => find_ctx constr:(plug cs (N q c k v t r)) p
  | plug (FR ?q ?c ?k ?v ?l :: ?cs) ?t => find_ctx constr:(plug cs (N q c k v l t)) p
  | N _ _ _ _ _ _ => find_in T p constr:(@nil frame)
  end.

(** Extracting the cells of a state while the goal is folded away. *)
Ltac hide_goal tac :=
  match goal with
  | |- ?G => let g := fresh "goal" in set (g := G); tac; subst g
  end.

Ltac st_elim_light H :=
  lazymatch type of H with
  | St _ (plug _ _) _ => idtac
  | St ?s ?t ?n => change (St s (plug [] t) n) in H
  end;
  apply St_plug in H; st_cbn in H;
  let Hnd := fresh "Hnd" in
  destruct H as (? & ? & ? & Hnd & ?); clear Hnd;
  repeat match goal with H : _ ∧ _ |- _ => destruct H end.

Ltac cells_full H := hide_goal ltac:(cells H).
Ltac cells_light H :=
  hide_goal ltac:(let C := fresh "C" in pose proof H as C; st_elim_light C).

Ltac wp_write_step :=
  lazymatch goal with
  | |- runs (bind (set_color (Some _) _) _) _ _ => apply runs_bind
  | |- runs (bind (leftRotate (Some _)) _) _ _ => apply runs_bind
  | |- runs (bind (rightRotate (Some _)) _) _ _ => apply runs_bind
  | |- runs (set_color (Some ?p) ?c) ?s _ =>
    lazymatch goal with
    | H : St s ?T _ |- _ =>
      let cs := find_ctx T p in
      eapply runs_conseq; [eapply (set_color_spec cs); exact H|];
      let s' := fresh "s" in let S' := fresh "S" in
      intros [] s' S'; cbn beta; clear H; cells_light S'
    end
  | |- runs (leftRotate (Some ?p)) ?s _ =>
    lazymatch goal with
    | H : St s ?T _ |- _ =>
      let cs := find_ctx T p in
      eapply runs_conseq; [eapply (leftRotate_spec cs); exact H|];
      let s' := fresh "s" in let S' := fresh "S" in
      intros [] s' S'; cbn beta; clear H; cells_light S'
    end
  | |- runs (rightRotate (Some ?p)) ?s _ =>
    lazymatch goal with
    | H : St s ?T _ |- _ =>
      let cs := find_ctx T p in
      eapply runs_conseq; [eapply (rightRotate_spec cs); exact H|];
      let s' := fresh "s" in let S' := fresh "S" in
      intros [] s' S'; cbn beta; clear H; cells_light S'
    end
  end.

Ltac wp_root_step :=
  lazymatch goal with
  | |- runs (bind get_root _) ?s _ =>
    apply runs_bind, runs_get_root;
    match goal with H : root s = _ |- _ => rewrite H end
  end.

Lemma final_black_root s t n :
  St s t n → runs (final_black (root s)) s (λ _ s', St s' (blacken t) n).
Proof.
  intros S0. pose proof S0 as (_ & Hroot & _). rewrite Hroot. unfold final_black.
  destruct t as [|p c k v l r]; cbn; [by apply runs_ret|].
  eapply runs_conseq; [by eapply (set_color_spec [])|]. by intros [] ? ?.
Qed.


Lemma ptr_eqb_None_croot cs p : ptr_eqb None (croot cs (Some p)) = false.
Proof.
  apply ptr_eqb_ne. revert p. induction cs as [|f cs IH]; intros p; simpl; [done|]. apply IH.
Qed.

Ltac wpa_step :=
  lazymatch goal with
  | |- runs get_root _ _ => fail
  | |- context [ptr_eqb None (croot ?cs (Some ?p))] => rewrite (ptr_eqb_None_croot cs p)
  | |- runs (bind get_root _) _ _ => wp_root_step
  | |- runs (final_black (Some _)) _ _ => unfold final_black
  | |- runs (final_black None) _ _ => unfold final_black
  | |- runs (final_black (rp (N _ _ _ _ _ _))) _ _ => unfold final_black
  | |- runs (final_black (rp E)) _ _ => unfold final_black
  | _ => first [wp_read_step | wp_write_step]
  end.
Ltac wpa := wp_simpl2; repeat (wpa_step; wp_simpl2).

Ltac fix_del_cbn H :=
  cbn [fix_del tcol del_left del_right blacken] in H;
  try discriminate H;
  try (injection H as <-).

Ltac fuel_lia :=
  match goal with
  | H : (length _ + 1 < _)%nat |- _ => clear -H; simpl in *; lia
  end.

Ltac fin_break :=
  lazymatch goal with
  | |- runs get_root ?s _ =>
    apply runs_get_root; eapply runs_conseq;
    [ eapply final_black_root; eassumption
    | cbn beta; intros [] ? ?; eexists; eassumption ]
  end.

Ltac fin_exit := eexists; eassumption.

Ltac fin_loop IH :=
  lazymatch goal with
  | Hf : fix_del ?cs' ?tx' = Some _, HS : St ?s _ _
    |- runs (deleteFixup_loop _ _ _) ?s _ =>
    eapply (IH cs' tx'); [exact HS | exact Hf | fuel_lia]
  end.

Ltac fin_again :=
  lazymatch goal with
  | |- runs (deleteFixup_loop ?fuel _ _) _ _ =>
    destruct fuel as [|?]; [exfalso; fuel_lia|];
    cbn [deleteFixup_loop]; wpa; fin_exit
  end.

Ltac fin IH := first [fin_exit | fin_break | fin_loop IH | fin_again].

Lemma deleteFixup_loop_sim fuel : ∀ cs tx s n t',
  St s (plug cs tx) n →
  fix_del cs tx = Some t' →
  (length cs + 1 < fuel)%nat →
  runs (deleteFixup_loop fuel (rp tx) (cpar None cs)) s (λ x s',
    runs (final_black x) s' (λ _ s'', ∃ n', St s'' t' n')).
Proof.
  induction fuel as [|fuel IH]; intros cs tx s n t' S0 Hfix Hfuel; [lia|].
  cbn [deleteFixup_loop].
  destruct cs as [|f cs].
  { fix_del_cbn Hfix. destruct tx as [|x cx kx vx a b]; cells S0; wpa; fin IH. }
  destruct tx as [|x [] kx vx a b]; destruct f as [p cp kp vp w|p cp kp vp w].
  3,4: solve [fix_del_cbn Hfix; cells_full S0; wpa; fin IH].
  all: destruct w as [|pw [] kw vw wl wr].
  all: try solve [fix_del_cbn Hfix].
  (* x absent, left side *)
  - destruct wl as [|pl cl kl vl la lb]; [solve [fix_del_cbn Hfix]|].
    destruct la as [|? [] ? ? ? ?], lb as [|? [] ? ? ? ?];
      fix_del_cbn Hfix; cells_full S0; wpa; fin IH.
  - destruct wl as [|? [] ? ? ? ?], wr as [|? [] ? ? ? ?];
      fix_del_cbn Hfix; cells_full S0; wpa; fin IH.
  (* x absent, right side *)
  - destruct wr as [|pr cr kr vr ra rb]; [solve [fix_del_cbn Hfix]|].
    destruct ra as [|? [] ? ? ? ?], rb as [|? [] ? ? ? ?];
      fix_del_cbn Hfix; cells_full S0; wpa; fin IH.
  - destruct wl as [|? [] ? ? ? ?], wr as [|? [] ? ? ? ?];
      fix_del_cbn Hfix; cells_full S0; wpa; fin IH.
  (* x black, left side *)
  - destruct wl as [|pl cl kl vl la lb]; [solve [fix_del_cbn Hfix]|].
    destruct la as [|? [] ? ? ? ?], lb as [|? [] ? ? ? ?];
      fix_del_cbn Hfix; cells_full S0; wpa; fin IH.
  - destruct wl as [|? [] ? ? ? ?], wr as [|? [] ? ? ? ?];
      fix_del_cbn Hfix; cells_full S0; wpa; fin IH.
  (* x black, right side *)
  - destruct wr as [|pr cr kr vr ra rb]; [solve [fix_del_cbn Hfix]|].
    destruct ra as [|? [] ? ? ? ?], rb as [|? [] ? ? ? ?];
      fix_del_cbn Hfix; cells_full S0; wpa; fin IH.
  - destruct wl as [|? [] ? ? ? ?], wr as [|? [] ? ? ? ?];
      fix_del_cbn Hfix; cells_full S0; wpa; fin IH.
Qed.

(** ** deleteFixup and remove *)

Lemma deleteFixup_sim fuel cs tx s n t' :
  St s (plug cs tx) n →
  fix_del cs tx = Some t' →
  (length cs + 1 < fuel)%nat →
  runs (deleteFixup fuel (rp tx) (cpar None cs)) s (λ _ s', ∃ n', St s' t' n').
Proof.
  intros S0 Hfix Hfuel. unfold deleteFixup. apply runs_bind.
  by apply (deleteFixup_loop_sim fuel cs tx s n t').
Qed.

Lemma runs_eq {A} (m : M A) s a s' (Q : A → RedBlackTree → Prop) :
  m s = Done a s' → Q a s' → runs m s Q.
Proof. intros. by exists a, s'. Qed.

Lemma unlink_length cs z cz kz vz l r cx tx c :
  unlink cs (N z cz kz vz l r) = Some (cx, tx, c) →
  (length cx ≤ length cs + tree_size l + tree_size r)%nat.
Proof.
  destruct l as [|pl cl kl vl ll lr]; [cbn; intros [= <- <- <-]; lia|].
  destruct r as [|pr cr kr vr rl rr]; [cbn; intros [= <- <- <-]; lia|].
  set (l := N pl cl kl vl ll lr). set (r := N pr cr kr vr rl rr).
  destruct (min_ctx r []) as [csy ty] eqn:Hmin.
  destruct (min_ctx_spec r [] csy ty ltac:(done) Hmin)
    as (csy' & y & cy & ky & vy & yr & Hcs & -> & Hplug & Hlen).
  rewrite app_nil_r in Hcs. subst csy'.
  unfold unlink, l. fold r. rewrite Hmin. intros [= <- <- <-].
  rewrite length_app. simpl length. fold r in Hlen. simpl tree_size at 1. lia.
Qed.

Lemma remove_sim fuel k s t n t' :
  St s t n →
  del_tree k t = Some t' →
  (tree_size t < fuel)%nat →
  runs (remove fuel k) s (λ _ s', ∃ n', St s' t' n').
Proof.
  intros S0 Hdel Hfuel. unfold del_tree in Hdel.
  destruct (find k t []) as [[cs tz]|] eqn:Hfind; [|done].
  destruct (find_plug _ _ _ _ _ Hfind) as (Hplug & z & cz & vz & l & r & ->).
  pose proof (find_length _ _ _ _ _ Hfind) as Hlen. simpl in Hplug, Hlen.
  destruct (unlink cs (N z cz k vz l r)) as [[[cx tx] c]|] eqn:Hun; [|done].
  pose proof (unlink_length _ _ _ _ _ _ _ _ _ _ Hun) as Hlen'.
  unfold remove, search. apply runs_bind, runs_bind, runs_get_root.
  pose proof (search_loop_sim k t [] fuel s n S0 Hfuel) as Hs.
  rewrite Hfind in Hs. cbn [rp] in Hs.
  pose proof S0 as (? & Hroot & ?). rewrite Hroot.
  eapply runs_eq; [exact Hs|]. cbn [is_null].
  assert (St s (plug cs (N z cz k vz l r)) n) as S1 by (by rewrite Hplug).
  apply runs_bind. eapply runs_conseq.
  { eapply unlink_sim; [exact S1|exact Hun|lia]. }
  cbn beta. intros res s1 (-> & [nz Hz] & S2). cbv beta iota.
  apply runs_bind. unfold delete_node at 1. exists tt. eexists. rewrite Hz. split; [done|].
  destruct c.
  - apply runs_ret. injection Hdel as <-. eauto.
  - cbn [is_black Color_eqb]. eapply deleteFixup_sim; [exact S2|exact Hdel|].
    destruct l, r; simpl in *; lia.
Qed.

Lemma remove_absent fuel k s t n :
  St s t n → find k t [] = None → (tree_size t < fuel)%nat →
  remove fuel k s = Throw KeyNotFound s.
Proof.
  intros S0 Hfind Hfuel. unfold remove, search, bind, get_root.
  pose proof (search_loop_sim k t [] fuel s n S0 Hfuel) as Hs.
  rewrite Hfind in Hs. destruct S0 as (_ & -> & _). by rewrite Hs.
Qed.

Lemma insert_dup fuel k v s t n :
  St s t n → descend k t [] = None → (tree_size t < fuel)%nat →
  insert fuel k v s =
    Throw DuplicateKey
      (mkTree (<[fresh (dom (heap s)) := mkNode k v RED None None None]> (heap s))
              (root s) (rotations s) (transplants s)).
Proof.
  intros S0 Hd Hfuel.
  set (p := fresh (dom (heap s))).
  assert (heap s !! p = None) as Hp by (apply not_elem_of_dom, is_fresh).
  apply (St_alloc _ _ _ p (mkNode k v RED None None None)) in S0 as S1; [|done].
  pose proof (insert_loop_sim k t [] fuel _ n S1 Hfuel) as Hloop.
  rewrite Hd in Hloop. cbn [cpar] in Hloop.
  unfold insert, bind, new_node, get_root. cbv zeta. fold p. cbn [root].
  destruct S1 as (_ & Hroot & _). cbn [root] in Hroot. rewrite Hroot in Hloop |- *. by rewrite Hloop.
Qed.

(** * Properties of the represented tree *)

(** ** Colours and black heights under contexts *)

Lemma nrr_plug cs t : nrr (plug cs t) ↔ nrr t ∧ cnrr cs (tcol t).
Proof.
  revert t. induction cs as [|f cs IH]; intros t; simpl; [tauto|].
  rewrite IH. destruct f; simpl; tauto.
Qed.

Lemma balanced_plug cs t : balanced (plug cs t) ↔ balanced t ∧ cbal cs (bh t).
Proof.
  revert t. induction cs as [|f cs IH]; intros t; simpl; [tauto|].
  rewrite IH. destruct f as [p c k v r|p c k v l]; simpl; [|split].
  - intuition congruence.
  - intros ((? & ? & ?) & ?). repeat split; try done; congruence.
  - intros (? & ? & ? & ?). repeat split; try done; congruence.
Qed.

Lemma tcol_plug cs t : tcol (plug cs t) = ctop cs (tcol t).
Proof.
  revert t. induction cs as [|f cs IH]; intros t; simpl; [done|].
  rewrite IH. by destruct f.
Qed.

Lemma cnrr_black cs c : cnrr cs c → cnrr cs BLACK.
Proof. destruct cs as [|f cs]; simpl; [done|]. tauto. Qed.

Lemma tcol_blacken t : tcol (blacken t) = BLACK.
Proof. by destruct t. Qed.

Lemma bh_blacken t : tcol t = BLACK → bh (blacken t) = bh t.
Proof. destruct t; simpl; [done|]. by intros ->. Qed.

Lemma balanced_blacken t : balanced (blacken t) ↔ balanced t.
Proof. by destruct t. Qed.

Lemma nrr_blacken t : nrr t → nrr (blacken t).
Proof. destruct t; simpl; [done|]. intros (? & ? & ?). by repeat split. Qed.

Lemma blacken_plug cs t :
  cs ≠ [] → ctop cs BLACK = BLACK → blacken (plug cs t) = plug cs t.
Proof.
  intros Hne Htop. pose proof (tcol_plug cs t) as Hc.
  destruct cs as [|f cs]; [done|]. simpl in *. rewrite Htop in Hc.
  destruct (plug cs (fill f t)); simpl in *; [done|]. by subst.
Qed.

Lemma ctop_black cs c : ctop cs c = BLACK → ctop cs BLACK = BLACK.
Proof. by destruct cs. Qed.

Lemma cbal_eq cs n m : cbal cs n → n = m → cbal cs m.
Proof. by intros ? <-. Qed.

(** The root is black, no red node has a red child and the tree is balanced,
    once a valid context is filled with a suitable tree and the root is
    forced black. *)
Lemma rbt_blacken_plug cs t :
  nrr t → balanced t → cbal cs (bh t) → cnrr cs (tcol t) → ctop cs BLACK = BLACK →
  rbt (blacken (plug cs t)).
Proof.
  intros Hn Hb Hcb Hcn Htop. destruct cs as [|f cs].
  - simpl. split; [apply tcol_blacken|]. split; [by apply nrr_blacken|].
    by apply balanced_blacken.
  - rewrite blacken_plug by done. split; [|split].
    + rewrite tcol_plug. simpl in *. done.
    + apply nrr_plug. done.
    + apply balanced_plug. done.
Qed.

Lemma rbt_plug cs t :
  cs ≠ [] →
  nrr t → balanced t → cbal cs (bh t) → cnrr cs (tcol t) → ctop cs BLACK = BLACK →
  rbt (plug cs t).
Proof.
  intros Hne Hn Hb Hcb Hcn Htop. rewrite <- (blacken_plug cs t) by done.
  by apply rbt_blacken_plug.
Qed.

Ltac rb_simpl :=
  cbn [nrr balanced bh tcol black cbal cnrr ctop fsib fcolor blacken redden
       fix_ins fix_del del_left del_right plug fill] in *.

Ltac rb_step :=
  match goal with
  | H : _ ∧ _ |- _ => destruct H
  | H : ?x = ?x → _ |- _ => specialize (H eq_refl)
  | H : ?P → _, H' : ?P |- _ => specialize (H H')
  | H : RED = BLACK → _ |- _ => clear H
  | H : BLACK = RED → _ |- _ => clear H
  | H : RED = BLACK |- _ => discriminate H
  | H : BLACK = RED |- _ => discriminate H
  | |- _ ∧ _ => split
  | |- _ → _ => intro
  | H : tcol ?t = _ |- context [tcol ?t] => rewrite H
  end.

Ltac rb_crush :=
  rb_simpl; repeat (first [rb_step | progress subst | progress rb_simpl]);
  try done; try lia; try congruence;
  try match goal with
      | H : cbal ?cs ?n |- cbal ?cs ?m => apply (cbal_eq cs n m H); lia
      | H : cnrr ?cs _ |- cnrr ?cs BLACK => exact (cnrr_black _ _ H)
      | H : ctop ?cs _ = BLACK |- ctop ?cs BLACK = BLACK => exact (ctop_black _ _ H)
      end;
  eauto.

(** ** The loop of insertFixup restores the colour invariants *)

Lemma fix_ins_rbt cs : ∀ z kz vz a b,
  nrr (N z RED kz vz a b) → balanced (N z RED kz vz a b) →
  cvalid cs (bh (N z RED kz vz a b)) →
  ∃ t' m, fix_ins cs (N z RED kz vz a b) = Some (t', m) ∧ (m ≤ 2)%nat
          ∧ rbt (blacken t').
Proof.
  induction cs as [|f|f g cs IH] using ctx_ind2; intros z kz vz a b Hn Hb (Hcb & Hcn & Htop).
  - eexists _, _. split; [reflexivity|]. split; [lia|].
    by apply (rbt_blacken_plug []).
  - destruct f as [p [] kp vp s|p [] kp vp s]; try done;
      (eexists _, _; split; [reflexivity|]; split; [lia|]);
      apply (rbt_blacken_plug [_]); rb_crush.
  - destruct f as [p [] kp vp s|p [] kp vp s]; destruct g as [pg cg kg vg u|pg cg kg vg u].
    all: try (eexists _, _; split; [reflexivity|]; split; [lia|];
              apply (rbt_blacken_plug (_ :: _ :: cs)); rb_crush; fail).
    all: destruct cg; [exfalso; rb_crush|].
    all: destruct u as [|pu [] ku vu ul ur]; cbn [fix_ins tcol blacken].
    all: try solve [ apply IH; unfold cvalid; rb_crush
               | eexists _, _; split; [reflexivity|]; split; [lia|];
                 apply (rbt_blacken_plug cs); rb_crush ].
Qed.

(** ** deleteFixup restores the colour invariants *)

Ltac del_finish IH :=
  cbn [fix_del del_left del_right tcol];
  first
  [ apply IH; unfold cvalid; rb_crush; fail
  | eexists; split; [reflexivity|];
    first [ apply rbt_blacken_plug | apply rbt_plug ]; rb_crush; fail ].

Lemma fix_del_rbt cs : ∀ tx,
  balanced tx → nrr (blacken tx) → cvalid cs (S (bh tx)) →
  ∃ t', fix_del cs tx = Some t' ∧ rbt t'.
Proof.
  induction cs as [|f cs IH]; intros tx Hb Hn (Hcb & Hcn & Htop).
  { eexists. split; [reflexivity|]. split; [apply tcol_blacken|].
    split; [done|]. by apply balanced_blacken. }
  destruct tx as [|x [] kx vx a b].
  2:{ eexists. split; [reflexivity|]. apply rbt_plug; rb_crush. }
  all: destruct f as [p cp kp vp w|p cp kp vp w].
  all: (destruct w as [|pw [] kw vw wl wr]; [exfalso; rb_crush| |]).
  (* x absent, left: red sibling, black sibling *)
  - destruct wl as [|pl cl kl vl la lb]; [exfalso; rb_crush|].
    destruct la as [|? [] ? ? ? ?], lb as [|? [] ? ? ? ?]; destruct cp;
      try (exfalso; rb_crush; fail); del_finish IH.
  - destruct wl as [|? [] ? ? ? ?], wr as [|? [] ? ? ? ?];
      try (exfalso; rb_crush; fail); del_finish IH.
  (* x absent, right *)
  - destruct wr as [|pr cr kr vr ra rb]; [exfalso; rb_crush|].
    destruct ra as [|? [] ? ? ? ?], rb as [|? [] ? ? ? ?]; destruct cp;
      try (exfalso; rb_crush; fail); del_finish IH.
  - destruct wl as [|? [] ? ? ? ?], wr as [|? [] ? ? ? ?];
      try (exfalso; rb_crush; fail); del_finish IH.
  (* x black, left *)
  - destruct wl as [|pl cl kl vl la lb]; [exfalso; rb_crush|].
    destruct la as [|? [] ? ? ? ?], lb as [|? [] ? ? ? ?]; destruct cp;
      try (exfalso; rb_crush; fail); del_finish IH.
  - destruct wl as [|? [] ? ? ? ?], wr as [|? [] ? ? ? ?];
      try (exfalso; rb_crush; fail); del_finish IH.
  (* x black, right *)
  - destruct wr as [|pr cr kr vr ra rb]; [exfalso; rb_crush|].
    destruct ra as [|? [] ? ? ? ?], rb as [|? [] ? ? ? ?]; destruct cp;
      try (exfalso; rb_crush; fail); del_finish IH.
  - destruct wl as [|? [] ? ? ? ?], wr as [|? [] ? ? ? ?];
      try (exfalso; rb_crush; fail); del_finish IH.
Qed.

(** ** Unlinking leaves a tree that deleteFixup can repair *)

Lemma rbt_plug_iff cs t :
  rbt (plug cs t) ↔
  ctop cs (tcol t) = BLACK ∧ (nrr t ∧ cnrr cs (tcol t)) ∧ (balanced t ∧ cbal cs (bh t)).
Proof. unfold rbt. by rewrite tcol_plug, nrr_plug, balanced_plug. Qed.

(** The tree around the removed node, seen with the removed node still in
    place above what replaced it. *)
Lemma removed_node_valid cx y c k v tx :
  rbt (plug cx (N y c k v E tx)) →
  match c with
  | RED => rbt (plug cx tx)
  | BLACK => balanced tx ∧ nrr (blacken tx) ∧ cvalid cx (S (bh tx))
  end.
Proof.
  rewrite rbt_plug_iff. intros (Htop & (Hn & Hcn) & (Hb & Hcb)).
  destruct c.
  - rewrite rbt_plug_iff. rb_crush.
  - unfold cvalid. rb_crush. by apply nrr_blacken.
Qed.

Lemma unlink_rbt cs z cz kz vz l r :
  rbt (plug cs (N z cz kz vz l r)) →
  ∃ cx tx c, unlink cs (N z cz kz vz l r) = Some (cx, tx, c) ∧
    match c with
    | RED => rbt (plug cx tx)
    | BLACK => balanced tx ∧ nrr (blacken tx) ∧ cvalid cx (S (bh tx))
    end.
Proof.
  intros Hrb. destruct l as [|pl cl kl vl ll lr].
  { eexists _, _, _. split; [reflexivity|]. by eapply removed_node_valid. }
  destruct r as [|pr cr kr vr rl rr].
  { eexists _, _, _. split; [reflexivity|]. apply (removed_node_valid cs z cz kz vz).
    revert Hrb. rewrite !rbt_plug_iff. rb_crush. }
  set (l := N pl cl kl vl ll lr) in *. set (r := N pr cr kr vr rl rr) in *.
  destruct (min_ctx r []) as [csy ty] eqn:Hmin.
  destruct (min_ctx_spec r [] csy ty ltac:(done) Hmin)
    as (csy' & y & cy & ky & vy & yr & Hcs & -> & Hplug & Hlen).
  rewrite app_nil_r in Hcs. subst csy'.
  exists (csy ++ FR y cz ky vy l :: cs), yr, cy. split.
  { unfold unlink, l. fold r. by rewrite Hmin. }
  apply (removed_node_valid _ y cy ky vy). rewrite plug_app. cbn [plug fill].
  rewrite <- Hplug. revert Hrb. rewrite !rbt_plug_iff. done.
Qed.

(** ** In-order keys *)

Lemma inorder_plug cs t :
  inorder (plug cs t) = ctx_before cs ++ inorder t ++ ctx_after cs.
Proof.
  revert t. induction cs as [|f cs IH]; intros t; simpl.
  - by rewrite app_nil_r.
  - rewrite IH. destruct f; simpl; by rewrite <- ?app_assoc.
Qed.

Lemma inorder_blacken t : inorder (blacken t) = inorder t.
Proof. by destruct t. Qed.

Ltac io_crush :=
  repeat (rewrite ?inorder_plug, ?inorder_blacken; cbn [inorder ctx_before ctx_after app fill];
          rewrite <- ?app_assoc; cbn [app]);
  try done.

Lemma fix_ins_inorder cs : ∀ tz t' m,
  fix_ins cs tz = Some (t', m) → inorder t' = inorder (plug cs tz).
Proof.
  induction cs as [|f|f g cs IH] using ctx_ind2; intros tz t' m.
  - simpl. by intros [= <- <-].
  - destruct f as [? [] ? ? ?|? [] ? ? ?]; simpl; try done; by intros [= <- <-].
  - destruct f as [p [] kp vp s|p [] kp vp s], g as [pg cg kg vg u|pg cg kg vg u];
      cbn [fix_ins]; try (intros [= <- <-]; io_crush; fail).
    all: destruct (tcol u); try (intros H; apply IH in H; rewrite H; io_crush; fail).
    all: try (intros [= <- <-]; io_crush; fail).
    all: destruct tz as [|z cz kz vz a b]; [done|]; intros [= <- <-]; io_crush.
Qed.

Lemma del_left_inorder p cp kp vp tx w :
  match del_left p cp kp vp tx w with
  | Some (inl t) | Some (inr t) => inorder t = inorder (N p cp kp vp tx w)
  | None => True
  end.
Proof.
  destruct w as [|pw cw kw vw wl wr]; [done|]. cbn [del_left].
  destruct (tcol wl), (tcol wr); try destruct wl; io_crush.
Qed.

Lemma del_right_inorder p cp kp vp w tx :
  match del_right p cp kp vp w tx with
  | Some (inl t) | Some (inr t) => inorder t = inorder (N p cp kp vp w tx)
  | None => True
  end.
Proof.
  destruct w as [|pw cw kw vw wl wr]; [done|]. cbn [del_right].
  destruct (tcol wl), (tcol wr); try destruct wr; io_crush.
Qed.

Lemma fix_del_inorder cs : ∀ tx t',
  fix_del cs tx = Some t' → inorder t' = inorder (plug cs tx).
Proof.
  induction cs as [|f cs IH]; intros tx t'.
  - simpl. intros [= <-]. io_crush.
  - cbn [fix_del]. destruct (tcol tx); [intros [= <-]; destruct f; io_crush|].
    destruct f as [p cp kp vp w|p cp kp vp w].
    + destruct w as [|pw [] kw vw wl wr].
      * simpl. done.
      * pose proof (del_left_inorder p RED kp vp tx wl) as Hd.
        destruct (del_left p RED kp vp tx wl) as [[t1|t1]|]; [| |done];
          intros [= <-]; io_crush; rewrite Hd; io_crush.
      * pose proof (del_left_inorder p cp kp vp tx (N pw BLACK kw vw wl wr)) as Hd.
        destruct (del_left p cp kp vp tx (N pw BLACK kw vw wl wr)) as [[t1|t1]|]; [| |done].
        -- intros H. apply IH in H. rewrite H. io_crush. rewrite Hd. io_crush.
        -- intros [= <-]. io_crush. rewrite Hd. io_crush.
    + assert (∀ t'',
        match w with
        | N pw RED kw vw wl wr =>
          match del_right p RED kp vp wr tx with
          | Some (inl tx') => Some (plug (FR pw BLACK kw vw wl :: cs) (blacken tx'))
          | Some (inr t') => Some (blacken (plug (FR pw BLACK kw vw wl :: cs) t'))
          | None => None
          end
        | _ =>
          match del_right p cp kp vp w tx with
          | Some (inl tx') => fix_del cs tx'
          | Some (inr t') => Some (blacken (plug cs t'))
          | None => None
          end
        end = Some t'' → inorder t'' = inorder (plug (FR p cp kp vp w :: cs) tx)) as Hgen.
      { intros t''. destruct w as [|pw [] kw vw wl wr].
        * simpl. done.
        * pose proof (del_right_inorder p RED kp vp wr tx) as Hd.
          destruct (del_right p RED kp vp wr tx) as [[t1|t1]|]; [| |done];
            intros [= <-]; io_crush; rewrite Hd; io_crush.
        * pose proof (del_right_inorder p cp kp vp (N pw BLACK kw vw wl wr) tx) as Hd.
          destruct (del_right p cp kp vp (N pw BLACK kw vw wl wr) tx) as [[t1|t1]|]; [| |done].
          -- intros H. apply IH in H. rewrite H. io_crush. rewrite Hd. io_crush.
          -- intros [= <-]. io_crush. rewrite Hd. io_crush. }
      destruct tx as [|x cx kx vx a b]; destruct w as [|pw [] kw vw wl wr];
        try done; apply Hgen.
Qed.

Lemma min_ctx_before t : ∀ cs, ctx_before (min_ctx t cs).1 = ctx_before cs.
Proof.
  induction t as [|p c k v l IHl r _]; intros cs; [done|].
  destruct l as [|pl cl kl vl ll lr]; [done|].
  change (min_ctx (N p c k v (N pl cl kl vl ll lr) r) cs)
    with (min_ctx (N pl cl kl vl ll lr) (FL p c k v r :: cs)).
  by rewrite IHl.
Qed.

Lemma unlink_inorder cs z cz kz vz l r cx tx c :
  unlink cs (N z cz kz vz l r) = Some (cx, tx, c) →
  inorder (plug cx tx) = ctx_before cs ++ inorder l ++ inorder r ++ ctx_after cs.
Proof.
  destruct l as [|pl cl kl vl ll lr]; [cbn; intros [= <- <- <-]; io_crush|].
  destruct r as [|pr cr kr vr rl rr].
  { cbn. intros [= <- <- <-]. io_crush. }
  set (l := N pl cl kl vl ll lr). set (r := N pr cr kr vr rl rr).
  destruct (min_ctx r []) as [csy ty] eqn:Hmin.
  destruct (min_ctx_spec r [] csy ty ltac:(done) Hmin)
    as (csy' & y & cy & ky & vy & yr & Hcs & -> & Hplug & Hlen).
  rewrite app_nil_r in Hcs. subst csy'.
  pose proof (min_ctx_before r []) as Hb. rewrite Hmin in Hb. simpl in Hb.
  unfold unlink, l. fold r. rewrite Hmin. intros [= <- <- <-].
  rewrite plug_app. cbn [plug fill]. rewrite Hplug.
  rewrite !inorder_plug. cbn [inorder]. rewrite !inorder_plug, Hb. io_crush.
Qed.

(** ** Search-tree order *)

Lemma ordered_sorted t : ordered t ↔ StronglySorted Z.lt (inorder t).
Proof.
  induction t as [|p c k v l IHl r IHr]; simpl.
  - split; [constructor|done].
  - rewrite IHl, IHr, StronglySorted_app, StronglySorted_cons, !Forall_forall. split.
    + intros (Hl & Hr & Sl & Sr). repeat split; try done.
      intros x y Hx Hy. apply elem_of_cons in Hy as [->|Hy]; [by apply Hl|].
      specialize (Hl x Hx). specialize (Hr y Hy). lia.
    + intros (Hlr & Sl & Hr & Sr). repeat split; try done.
      intros x Hx. apply Hlr; [done|]. by left.
Qed.

Lemma sorted_app3 (l1 l2 l3 : list Z) :
  StronglySorted Z.lt (l1 ++ l2 ++ l3) → StronglySorted Z.lt (l1 ++ l3).
Proof.
  rewrite !StronglySorted_app. intros (H1 & S1 & H2 & S2 & S3).
  repeat split; try done. intros x y Hx Hy. apply H1; [done|]. set_solver.
Qed.

Lemma descend_bounded k t : ∀ cs cs',
  ordered t → descend k t cs = Some cs' → bounded k cs → bounded k cs'.
Proof.
  induction t as [|p c k' v l IHl r IHr]; intros cs cs'; simpl.
  - by intros _ [= <-].
  - intros (Hl & Hr & Ol & Or). destruct (k <? k') eqn:H1.
    { intros H [Hb Ha]. eapply IHl; [done..|]. split; simpl; [done|].
      constructor; [lia|]. apply Forall_app. split; [|done].
      eapply Forall_impl; [exact Hr|]. simpl. lia. }
    destruct (k >? k') eqn:H2; [|done].
    intros H [Hb Ha]. eapply IHr; [done..|]. split; simpl; [|done].
    rewrite !Forall_app. repeat split; [done| |constructor; [lia|done]].
    eapply Forall_impl; [exact Hl|]. simpl. lia.
Qed.

Lemma find_bounded k t : ∀ cs cs' tz,
  ordered t → find k t cs = Some (cs', tz) → bounded k cs → bounded k cs' ∧ ordered tz.
Proof.
  induction t as [|p c k' v l IHl r IHr]; intros cs cs' tz; simpl; [done|].
  intros (Hl & Hr & Ol & Or). destruct (k <? k') eqn:H1.
  { intros H [Hb Ha]. eapply IHl; [done..|]. split; simpl; [done|].
    constructor; [lia|]. apply Forall_app. split; [|done].
    eapply Forall_impl; [exact Hr|]. simpl. lia. }
  destruct (k >? k') eqn:H2.
  { intros H [Hb Ha]. eapply IHr; [done..|]. split; simpl; [|done].
    rewrite !Forall_app. repeat split; [done| |constructor; [lia|done]].
    eapply Forall_impl; [exact Hl|]. simpl. lia. }
  intros [= <- <-] ?. split; [done|]. simpl. done.
Qed.

Lemma descend_find k t : ∀ cs, descend k t cs = None ↔ is_Some (find k t cs).
Proof.
  induction t as [|p c k' v l IHl r IHr]; intros cs; simpl.
  - split; [done|]. by intros [? ?].
  - destruct (k <? k'); [apply IHl|]. destruct (k >? k'); [apply IHr|].
    split; [eauto|done].
Qed.

Lemma find_elem_of k t : ∀ cs, is_Some (find k t cs) → k ∈ inorder t.
Proof.
  induction t as [|p c k' v l IHl r IHr]; intros cs; simpl; [by intros [? ?]|].
  destruct (k <? k') eqn:H1; [intros H; apply IHl in H; set_solver|].
  destruct (k >? k') eqn:H2; [intros H; apply IHr in H; set_solver|].
  intros _. assert (k = k') as -> by lia. set_solver.
Qed.

Lemma find_None k t : ∀ cs, ordered t → find k t cs = None → k ∉ inorder t.
Proof.
  induction t as [|p c k' v l IHl r IHr]; intros cs; simpl; [set_solver|].
  intros (Hl & Hr & Ol & Or). rewrite Forall_forall in Hl, Hr.
  rewrite elem_of_app, elem_of_cons.
  destruct (k <? k') eqn:H1.
  { intros H [?|[?|Hk]]; [by eapply IHl|lia|]. apply Hr in Hk. lia. }
  destruct (k >? k') eqn:H2; [|done].
  intros H [Hk|[?|?]]; [|lia|by eapply IHr]. apply Hl in Hk. lia.
Qed.

Lemma find_iff k t : ordered t → (is_Some (find k t []) ↔ k ∈ inorder t).
Proof.
  intros Ho. split; [apply find_elem_of|]. intros Hk.
  destruct (find k t []) eqn:Hf; [done|]. by apply find_None in Hf.
Qed.

Lemma sorted_insert (l1 l2 : list Z) k :
  StronglySorted Z.lt (l1 ++ l2) → Forall (λ x, x < k) l1 → Forall (λ x, k < x) l2 →
  StronglySorted Z.lt (l1 ++ k :: l2).
Proof.
  rewrite !StronglySorted_app, StronglySorted_cons, !Forall_forall.
  intros (H12 & S1 & S2) H1 H2. repeat split; try done.
  intros x y Hx Hy. apply elem_of_cons in Hy as [->|Hy]; [by apply H1|by apply H12].
Qed.

Lemma sorted_middle (l1 l2 : list Z) k x :
  StronglySorted Z.lt (l1 ++ k :: l2) → (x ∈ l1 ++ l2 ↔ x ≠ k ∧ x ∈ l1 ++ k :: l2).
Proof.
  rewrite !StronglySorted_app, StronglySorted_cons, !Forall_forall.
  intros (H12 & S1 & H2 & S2). rewrite !elem_of_app, elem_of_cons. split.
  - intros [H|H]; (split; [|tauto]); intros ->.
    + assert (k < k); [|lia]. apply H12; [done|]. by left.
    + specialize (H2 k H). lia.
  - tauto.
Qed.

(** ** What insert and remove do to a red-black search tree *)

Lemma ins_tree_spec p k v t :
  rbt t → ordered t → k ∉ inorder t →
  ∃ t' m, ins_tree p k v t = Some (t', m) ∧ (m ≤ 2)%nat ∧ rbt t' ∧ ordered t'
          ∧ ∀ x, x ∈ inorder t' ↔ x = k ∨ x ∈ inorder t.
Proof.
  intros Hrb Ho Hk. unfold ins_tree.
  destruct (descend k t []) as [cs|] eqn:Hd.
  2:{ apply descend_find, find_elem_of in Hd. done. }
  pose proof (descend_plug _ _ _ _ Hd) as Hplug. simpl in Hplug.
  pose proof (descend_bounded _ _ _ _ Ho Hd) as [Hb Ha]; [by split; constructor|].
  rewrite <- Hplug in Hrb, Ho |- *. apply rbt_plug_iff in Hrb as (Htop & (_ & Hcn) & (_ & Hcb)).
  destruct (fix_ins_rbt cs p k v E E) as (t1 & m & Hfix & Hm & Hrb1).
  { by simpl. } { by simpl. } { by split. }
  rewrite Hfix. exists (blacken t1), m. split; [done|]. split; [done|]. split; [done|].
  apply fix_ins_inorder in Hfix. rewrite ordered_sorted in Ho |- *.
  rewrite inorder_blacken, Hfix. rewrite !inorder_plug in *. simpl in *.
  split; [by apply sorted_insert|]. intros x.
  rewrite !elem_of_app, !elem_of_cons, ?elem_of_nil. tauto.
Qed.

Lemma del_tree_spec k t :
  rbt t → ordered t → k ∈ inorder t →
  ∃ t', del_tree k t = Some t' ∧ rbt t' ∧ ordered t'
        ∧ ∀ x, x ∈ inorder t' ↔ x ≠ k ∧ x ∈ inorder t.
Proof.
  intros Hrb Ho Hk. unfold del_tree.
  apply find_iff in Hk as [[cs tz] Hf]; [|done]. rewrite Hf.
  destruct (find_plug _ _ _ _ _ Hf) as (Hplug & z & cz & vz & l & r & ->).
  simpl in Hplug. rewrite <- Hplug in *.
  destruct (unlink_rbt _ _ _ _ _ _ _ Hrb) as (cx & tx & c & Hun & Hc).
  rewrite Hun. apply unlink_inorder in Hun as Hio.
  assert (StronglySorted Z.lt (inorder (plug cx tx)) ∧
          ∀ x, x ∈ inorder (plug cx tx) ↔ x ≠ k ∧ x ∈ inorder (plug cs (N z cz k vz l r)))
    as [Hs Hm].
  { apply ordered_sorted in Ho.
    assert (inorder (plug cs (N z cz k vz l r))
            = (ctx_before cs ++ inorder l) ++ k :: (inorder r ++ ctx_after cs)) as ->.
    { rewrite inorder_plug. simpl. by rewrite <- !app_assoc. }
    assert (inorder (plug cx tx)
            = (ctx_before cs ++ inorder l) ++ (inorder r ++ ctx_after cs)) as ->.
    { rewrite Hio. by rewrite <- !app_assoc. }
    rewrite inorder_plug in Ho. simpl in Ho. rewrite <- !app_assoc in Ho. simpl in Ho.
    rewrite app_assoc in Ho.
    split; [by apply (sorted_app3 _ [k])|]. intros x. by apply sorted_middle. }
  destruct c.
  - eexists. split; [done|]. split; [done|]. by rewrite ordered_sorted.
  - destruct Hc as (Hb & Hn & Hv). destruct (fix_del_rbt cx tx Hb Hn Hv) as (t' & Hfix & Hrb').
    exists t'. split; [done|]. split; [done|].
    apply fix_del_inorder in Hfix. rewrite ordered_sorted, Hfix. done.
Qed.

(** ** validate and the in-order traversal *)

Lemma validateHelper_sim t : ∀ fuel par s bc pbc (Q : bool * Z → RedBlackTree → Prop),
  repr (heap s) par t → (tree_size t < fuel)%nat → nrr t → balanced t →
  0 ≤ bc → pbc = -1 ∨ pbc = bc + Z.of_nat (bh t) →
  Q (true, bc + Z.of_nat (bh t)) s →
  runs (validateHelper fuel (rp t) bc pbc) s Q.
Proof.
  induction t as [|p c k v l IHl r IHr]; intros fuel par s bc pbc Q Hr Hfuel Hn Hb Hbc Hp HQ;
    (destruct fuel as [|fuel]; [simpl in Hfuel; lia|]).
  - cbn [validateHelper rp is_null bh] in *. rewrite Z.add_0_r in *.
    destruct Hp as [-> | ->]; [by apply runs_ret|].
    destruct (bc =? -1) eqn:H1; [lia|]. apply runs_ret. by rewrite Z.eqb_refl.
  - cbn [validateHelper rp is_null]. destruct Hr as (Hc & Hl & Hrr).
    destruct Hn as (Hcol & Hnl & Hnr). destruct Hb as (Hbh & Hbl & Hbr).
    simpl in Hfuel.
    assert (∀ Q' : bool → RedBlackTree → Prop, Q' false s →
      runs (if is_red c
        then bind (get left (Some p)) (λ l0,
               bind (if is_null l0 then ret false
                     else bind (get color l0) (λ lc, ret (negb (is_black lc))))
                 (λ lbad : bool, if lbad then ret true
                    else bind (get right (Some p)) (λ r0,
                           if is_null r0 then ret false
                           else bind (get color r0) (λ rc, ret (negb (is_black rc))))))
        else ret false) s Q') as Hbad.
    { intros Q' HQ'. destruct c; [|by apply runs_ret].
      destruct Hcol as [Hcl Hcr]; [done|].
      destruct l as [|pl cl kl vl ll lr], r as [|pr cr kr vr rl rr];
        simpl in Hl, Hrr, Hcl, Hcr; subst; destruct_and?; wpr; done. }
    wpr. apply Hbad. wpr.
    apply (IHl fuel (Some p)); [done|lia|done|done|destruct c; simpl; lia| |].
    { destruct Hp as [-> | ->]; [by left|right]. simpl. destruct c; simpl; lia. }
    wpr. apply (IHr fuel (Some p)); [done|lia|done|done|destruct c; simpl; lia| |].
    { right. rewrite Hbh. done. }
    replace (bc + Z.of_nat (bh (N p c k v l r)))
      with ((if is_black c then bc + 1 else bc) + Z.of_nat (bh r)) in HQ; [done|].
    simpl. rewrite <- Hbh. destruct c; simpl; lia.
Qed.

Lemma runs_inv {A} (m : M A) s (x : A) :
  runs m s (λ a s', a = x ∧ s' = s) → m s = Done x s.
Proof. by intros (a & s' & -> & -> & ->). Qed.

Lemma validate_sim fuel s t n :
  St s t n → rbt t → (tree_size t < fuel)%nat → validate fuel s = Done true s.
Proof.
  intros (Hr & Hroot & _) (Hc & Hn & Hb) Hfuel. apply runs_inv. unfold validate.
  apply runs_bind, runs_get_root. rewrite Hroot.
  destruct t as [|p c k v l r]; [by apply runs_ret|].
  simpl in Hc. subst c. pose proof Hr as (Hcell & _).
  cbn [rp is_null]. wpr.
  eapply (validateHelper_sim (N p BLACK k v l r)); [done..|lia|by left|].
  wpr. done.
Qed.

Lemma inOrderHelper_sim t : ∀ fuel par s (Q : list ptr → RedBlackTree → Prop),
  repr (heap s) par t → (tree_size t < fuel)%nat →
  Q (ptrs t) s → runs (inOrderHelper fuel (rp t)) s Q.
Proof.
  induction t as [|p c k v l IHl r IHr]; intros fuel par s Q Hr Hfuel HQ;
    (destruct fuel as [|fuel]; [simpl in Hfuel; lia|]).
  - by apply runs_ret.
  - destruct Hr as (Hc & Hl & Hrr). simpl in Hfuel.
    cbn [inOrderHelper rp]. wpr. apply (IHl fuel (Some p)); [done|lia|].
    wpr. apply (IHr fuel (Some p)); [done|lia|]. by apply runs_ret.
Qed.

Lemma keys_of_sim t : ∀ par s (Q : list Z → RedBlackTree → Prop) ps ks,
  repr (heap s) par t →
  (∀ Q', Q' ks s → runs (keys_of ps) s Q') →
  Q (inorder t ++ ks) s → runs (keys_of (ptrs t ++ ps)) s Q.
Proof.
  induction t as [|p c k v l IHl r IHr]; intros par s Q ps ks Hr Hps HQ.
  - simpl. by apply Hps.
  - destruct Hr as (Hc & Hl & Hrr). simpl. rewrite <- !app_assoc. simpl.
    simpl in HQ. rewrite <- app_assoc in HQ. simpl in HQ.
    eapply (IHl _ _ _ _ (k :: inorder r ++ ks)); [done| |done].
    intros Q' HQ'. cbn [keys_of]. wpr.
    eapply (IHr _ _ _ _ ks); [done|done|]. by apply runs_ret.
Qed.

Lemma inOrderKeys_sim fuel s t n :
  St s t n → (tree_size t < fuel)%nat → inOrderKeys fuel s = Done (inorder t) s.
Proof.
  intros (Hr & Hroot & _) Hfuel. apply runs_inv. unfold inOrderKeys, inOrderTraversal.
  apply runs_bind, runs_bind, runs_get_root. rewrite Hroot.
  eapply inOrderHelper_sim; [done..|].
  rewrite <- (app_nil_r (ptrs t)).
  eapply (keys_of_sim t _ _ _ [] []); [done| |by rewrite app_nil_r].
  intros Q' HQ'. by apply runs_ret.
Qed.

(** ** The invariant of the tree object is preserved *)

Lemma inorder_length t : length (inorder t) = tree_size t.
Proof.
  induction t as [|p c k v l IHl r IHr]; simpl; [done|].
  rewrite length_app. simpl. lia.
Qed.

Lemma ins_tree_perm p k v t t' m :
  ins_tree p k v t = Some (t', m) → inorder t' ≡ₚ k :: inorder t.
Proof.
  unfold ins_tree. destruct (descend k t []) as [cs|] eqn:Hd; [|done].
  destruct (fix_ins cs (N p RED k v E E)) as [[t1 m1]|] eqn:Hfix; [|done].
  intros [= <- <-]. apply fix_ins_inorder in Hfix. apply descend_plug in Hd.
  simpl in Hd. rewrite inorder_blacken, Hfix, <- Hd, !inorder_plug. simpl.
  by rewrite Permutation_middle.
Qed.

Lemma del_tree_perm k t t' :
  del_tree k t = Some t' → inorder t ≡ₚ k :: inorder t'.
Proof.
  unfold del_tree. destruct (find k t []) as [[cs tz]|] eqn:Hf; [|done].
  destruct (find_plug _ _ _ _ _ Hf) as (Hplug & z & cz & vz & l & r & ->).
  simpl in Hplug. destruct (unlink cs (N z cz k vz l r)) as [[[cx tx] c]|] eqn:Hun; [|done].
  apply unlink_inorder in Hun. intros Ht'.
  assert (inorder t' = inorder (plug cx tx)) as ->.
  { destruct c; [by injection Ht' as <-|]. by apply fix_del_inorder. }
  rewrite Hun, <- Hplug, inorder_plug. simpl. rewrite <- !app_assoc. simpl.
  solve_Permutation.
Qed.

Lemma insert_ok fuel k v s t :
  Inv s t → k ∉ inorder t → (tree_size t < fuel)%nat →
  ∃ s' t', insert fuel k v s = Done tt s' ∧ Inv s' t'
           ∧ inorder t' ≡ₚ k :: inorder t
           ∧ (rotations s' ≤ rotations s + 2)%nat.
Proof.
  intros ([n S0] & Hrb & Ho) Hk Hfuel.
  destruct (ins_tree_spec (fresh (dom (heap s))) k v t Hrb Ho Hk)
    as (t' & m & Hins & Hm & Hrb' & Ho' & _).
  destruct (insert_sim fuel k v s t n t' m S0 Hins Hfuel) as ([] & s' & Hrun & S1).
  exists s', t'. split; [done|]. split; [by split; eauto|].
  split; [by eapply ins_tree_perm|].
  destruct S0 as (_ & _ & _ & ->). destruct S1 as (_ & _ & _ & ->). lia.
Qed.

Lemma insert_dup_ok fuel k v s t :
  Inv s t → k ∈ inorder t → (tree_size t < fuel)%nat →
  ∃ s', insert fuel k v s = Throw DuplicateKey s' ∧ Inv s' t
        ∧ root s' = root s
        ∧ heap s' = <[fresh (dom (heap s)) := mkNode k v RED None None None]> (heap s)
        ∧ heap s !! fresh (dom (heap s)) = None.
Proof.
  intros ([n S0] & Hrb & Ho) Hk Hfuel.
  apply find_iff in Hk; [|done]. apply descend_find in Hk.
  rewrite (insert_dup fuel k v s t n S0 Hk Hfuel).
  assert (heap s !! fresh (dom (heap s)) = None) as Hp by (apply not_elem_of_dom, is_fresh).
  eexists. split; [done|]. split; [|done].
  split; [|done]. exists n. by apply St_alloc.
Qed.

Lemma remove_ok fuel k s t :
  Inv s t → k ∈ inorder t → (tree_size t < fuel)%nat →
  ∃ s' t', remove fuel k s = Done tt s' ∧ Inv s' t' ∧ inorder t ≡ₚ k :: inorder t'.
Proof.
  intros ([n S0] & Hrb & Ho) Hk Hfuel.
  destruct (del_tree_spec k t Hrb Ho Hk) as (t' & Hdel & Hrb' & Ho' & _).
  destruct (remove_sim fuel k s t n t' S0 Hdel Hfuel) as ([] & s' & Hrun & n' & S1).
  exists s', t'. split; [done|]. split; [by split; eauto|]. by eapply del_tree_perm.
Qed.

Lemma remove_absent_ok fuel k s t :
  Inv s t → k ∉ inorder t → (tree_size t < fuel)%nat →
  remove fuel k s = Throw KeyNotFound s.
Proof.
  intros ([n S0] & Hrb & Ho) Hk Hfuel. eapply remove_absent; [done| |done].
  destruct (find k t []) eqn:Hf; [|done]. exfalso. apply Hk. eapply find_elem_of. by rewrite Hf.
Qed.

Lemma search_found fuel k s t :
  Inv s t → k ∈ inorder t → (tree_size t < fuel)%nat →
  ∃ p n, search fuel k s = Done (Some p) s ∧ heap s !! p = Some n ∧ key n = k.
Proof.
  intros ([n S0] & Hrb & Ho) Hk Hfuel.
  apply find_iff in Hk as [[cs tz] Hf]; [|done].
  destruct (find_plug _ _ _ _ _ Hf) as (Hplug & z & cz & vz & l & r & ->). simpl in Hplug.
  pose proof (search_loop_sim k t [] fuel s n S0 Hfuel) as Hs. rewrite Hf in Hs.
  rewrite <- Hplug in S0. pose proof (St_cell _ _ _ _ _ _ _ _ _ S0) as Hz.
  exists z. eexists. split; [|split; [exact Hz|done]].
  unfold search, bind, get_root. destruct S0 as (_ & -> & _). by rewrite Hplug.
Qed.

Lemma search_absent fuel k s t :
  Inv s t → k ∉ inorder t → (tree_size t < fuel)%nat →
  search fuel k s = Done None s.
Proof.
  intros ([n S0] & Hrb & Ho) Hk Hfuel.
  pose proof (search_loop_sim k t [] fuel s n S0 Hfuel) as Hs.
  destruct (find k t []) as [[cs tz]|] eqn:Hf.
  { exfalso. apply Hk. eapply find_elem_of. by rewrite Hf. }
  unfold search, bind, get_root. destruct S0 as (_ & -> & _). done.
Qed.

Lemma Inv_empty : Inv empty_tree E.
Proof.
  split; [exists 0%nat; repeat split; constructor|]. split; [by repeat split|done].
Qed.

Lemma elem_of_dec_Z (k : Z) (l : list Z) : k ∈ l ∨ k ∉ l.
Proof. destruct (decide (k ∈ l)); auto. Qed.

(** Every operation keeps the invariant, whether it returns or throws. *)
Lemma apply_op_ok fuel op s t :
  Inv s t → (tree_size t < fuel)%nat →
  ∃ s' t', (apply_op fuel op s = Done tt s' ∨ ∃ e, apply_op fuel op s = Throw e s')
           ∧ Inv s' t' ∧ (tree_size t' ≤ S (tree_size t))%nat.
Proof.
  intros HI Hfuel. destruct op as [k v|k]; simpl.
  - destruct (elem_of_dec_Z k (inorder t)) as [Hk|Hk].
    + destruct (insert_dup_ok fuel k v s t HI Hk Hfuel) as (s' & Hrun & HI' & _).
      exists s', t. split; [right; eauto|]. split; [done|lia].
    + destruct (insert_ok fuel k v s t HI Hk Hfuel) as (s' & t' & Hrun & HI' & Hp & _).
      exists s', t'. split; [by left|]. split; [done|].
      apply Permutation_length in Hp. simpl in Hp. rewrite !inorder_length in Hp. lia.
  - destruct (elem_of_dec_Z k (inorder t)) as [Hk|Hk].
    + destruct (remove_ok fuel k s t HI Hk Hfuel) as (s' & t' & Hrun & HI' & Hp).
      exists s', t'. split; [by left|]. split; [done|].
      apply Permutation_length in Hp. simpl in Hp. rewrite !inorder_length in Hp. lia.
    + rewrite (remove_absent_ok fuel k s t HI Hk Hfuel).
      exists s, t. split; [right; eauto|]. split; [done|lia].
Qed.

Lemma run_ok fuel ops : ∀ s t,
  Inv s t → (tree_size t + length ops < fuel)%nat →
  ∃ states, run fuel ops s = Some states ∧ length states = length ops
            ∧ Forall (λ s', ∃ t', Inv s' t' ∧ (tree_size t' < fuel)%nat) states.
Proof.
  induction ops as [|op ops IH]; intros s t HI Hfuel.
  - exists []. by repeat split.
  - simpl in Hfuel.
    destruct (apply_op_ok fuel op s t HI) as (s' & t' & Hrun & HI' & Hsz); [lia|].
    destruct (IH s' t' HI') as (states & Hst & Hlen & Hall); [lia|].
    exists (s' :: states). split.
    { simpl. destruct Hrun as [-> | [e ->]]; by rewrite Hst. }
    split; [simpl; lia|]. constructor; [|done]. exists t'. split; [done|lia].
Qed.

(** ** successor and predecessor *)

Lemma ptrs_locate x t :
  x ∈ ptrs t → ∃ cs c k v l r, t = plug cs (N x c k v l r).
Proof.
  induction t as [|p c k v l IHl r IHr]; simpl; [by intros ?%elem_of_nil|].
  rewrite elem_of_app, elem_of_cons. intros [H|[->|H]].
  - destruct (IHl H) as (cs & c' & k' & v' & l' & r' & ->).
    exists (cs ++ [FL p c k v r]), c', k', v', l', r'. by rewrite plug_app.
  - by exists [], c, k, v, l, r.
  - destruct (IHr H) as (cs & c' & k' & v' & l' & r' & ->).
    exists (cs ++ [FR p c k v l]), c', k', v', l', r'. by rewrite plug_app.
Qed.

Lemma plug_size cs : ∀ t, (length cs + tree_size t ≤ tree_size (plug cs t))%nat.
Proof.
  induction cs as [|f cs IH]; intros t; simpl; [lia|].
  specialize (IH (fill f t)). destruct f; simpl in *; lia.
Qed.

Lemma successor_loop_sim cs : ∀ fuel s n x c k v l r,
  St s (plug cs (N x c k v l r)) n → (length cs < fuel)%nat →
  successor_loop fuel (Some x) (cpar None cs) s = Done (fst <$> up_from_right cs) s.
Proof.
  induction cs as [|f cs IH]; intros fuel s n x c k v l r H Hfuel;
    (destruct fuel as [|fuel]; [simpl in Hfuel; lia|]); [done|].
  simpl in Hfuel. destruct f as [p pc pk pv pr|p pc pk pv pl].
  - cbn [plug fill] in H. pose proof (St_cell _ _ _ _ _ _ _ _ _ H) as Hp.
    cbn [successor_loop cpar fptr is_null]. unfold bind.
    rewrite (get_eq _ _ _ _ Hp). cbn [right up_from_right].
    rewrite ptr_eqb_rp_r; [done|].
    apply St_plug in H as (_ & _ & _ & Hnd & _). simpl in Hnd.
    apply NoDup_app_disj in Hnd as [Hnd _].
    rewrite <- app_assoc in Hnd. apply NoDup_app_disj in Hnd as (_ & _ & Hnd).
    simpl in Hnd. apply NoDup_cons_inv in Hnd as [Hx _].
    intros Hin. apply Hx. rewrite !elem_of_app, elem_of_cons. tauto.
  - cbn [plug fill] in H. pose proof (St_cell _ _ _ _ _ _ _ _ _ H) as Hp.
    cbn [successor_loop cpar fptr is_null]. unfold bind.
    rewrite (get_eq _ _ _ _ Hp). cbn [right rp up_from_right].
    rewrite ptr_eqb_refl, (get_eq _ _ _ _ Hp). cbn [parent].
    apply (IH fuel s n p pc pk pv pl (N x c k v l r) H). lia.
Qed.

Lemma predecessor_loop_sim cs : ∀ fuel s n x c k v l r,
  St s (plug cs (N x c k v l r)) n → (length cs < fuel)%nat →
  predecessor_loop fuel (Some x) (cpar None cs) s = Done (fst <$> up_from_left cs) s.
Proof.
  induction cs as [|f cs IH]; intros fuel s n x c k v l r H Hfuel;
    (destruct fuel as [|fuel]; [simpl in Hfuel; lia|]); [done|].
  simpl in Hfuel. destruct f as [p pc pk pv pr|p pc pk pv pl].
  - cbn [plug fill] in H. pose proof (St_cell _ _ _ _ _ _ _ _ _ H) as Hp.
    cbn [predecessor_loop cpar fptr is_null]. unfold bind.
    rewrite (get_eq _ _ _ _ Hp). cbn [left rp up_from_left].
    rewrite ptr_eqb_refl, (get_eq _ _ _ _ Hp). cbn [parent].
    apply (IH fuel s n p pc pk pv (N x c k v l r) pr H). lia.
  - cbn [plug fill] in H. pose proof (St_cell _ _ _ _ _ _ _ _ _ H) as Hp.
    cbn [predecessor_loop cpar fptr is_null]. unfold bind.
    rewrite (get_eq _ _ _ _ Hp). cbn [left up_from_left].
    rewrite ptr_eqb_rp_r; [done|].
    apply St_plug in H as (_ & _ & _ & Hnd & _). simpl in Hnd.
    apply NoDup_app_disj in Hnd as [Hnd _].
    apply NoDup_app_disj in Hnd as (_ & Hd & _).
    intros Hin. apply (Hd x Hin). rewrite elem_of_cons, elem_of_app, elem_of_cons. tauto.
Qed.

Lemma maximum_loop_sim t : ∀ cs fuel s n,
  t ≠ E → St s (plug cs t) n → (tree_size t < fuel)%nat →
  maximum_loop fuel (rp t) s = Done (rp (max_ctx t cs).2) s.
Proof.
  induction t as [|p c k v l _ r IHr]; intros cs fuel s n Hne H Hfuel; [done|].
  destruct fuel as [|fuel]; [simpl in Hfuel; lia|].
  cbn [maximum_loop rp]. unfold bind.
  rewrite (get_eq _ _ _ _ (St_cell _ _ _ _ _ _ _ _ _ H)). cbn [right].
  destruct r as [|pr cr kr vr rl rr]; [by destruct l|].
  cbn [rp is_null]. change (rp (max_ctx _ cs).2) with
    (rp (max_ctx (N pr cr kr vr rl rr) (FR p c k v l :: cs)).2).
  apply (IHr (FR p c k v l :: cs) fuel s n); [done|exact H|simpl in *; lia].
Qed.

Lemma rp_node_key t : rp t = fst <$> node_key t.
Proof. by destruct t. Qed.

Lemma successor_sim fuel s n cs x c k v l r :
  St s (plug cs (N x c k v l r)) n → (tree_size (plug cs (N x c k v l r)) < fuel)%nat →
  successor fuel (Some x) s = Done (fst <$> succ_of cs (N x c k v l r)) s.
Proof.
  intros H Hfuel. pose proof (plug_size cs (N x c k v l r)) as Hsz. simpl in Hsz.
  unfold successor. cbn [is_null]. unfold bind.
  rewrite (get_eq _ _ _ _ (St_cell _ _ _ _ _ _ _ _ _ H)). cbn [right].
  destruct r as [|pr cr kr vr rl rr].
  - cbn [rp is_null negb succ_of]. rewrite (get_eq _ _ _ _ (St_cell _ _ _ _ _ _ _ _ _ H)).
    cbn [parent]. eapply successor_loop_sim; [exact H|lia].
  - cbn [rp is_null negb succ_of minimum]. rewrite <- rp_node_key.
    apply (minimum_loop_sim (N pr cr kr vr rl rr) (FR x c k v l :: cs) fuel s n);
      [done|exact H|simpl in *; lia].
Qed.

Lemma predecessor_sim fuel s n cs x c k v l r :
  St s (plug cs (N x c k v l r)) n → (tree_size (plug cs (N x c k v l r)) < fuel)%nat →
  predecessor fuel (Some x) s = Done (fst <$> pred_of cs (N x c k v l r)) s.
Proof.
  intros H Hfuel. pose proof (plug_size cs (N x c k v l r)) as Hsz. simpl in Hsz.
  unfold predecessor. cbn [is_null]. unfold bind.
  rewrite (get_eq _ _ _ _ (St_cell _ _ _ _ _ _ _ _ _ H)). cbn [left].
  destruct l as [|pl cl kl vl ll lr].
  - cbn [rp is_null negb pred_of]. rewrite (get_eq _ _ _ _ (St_cell _ _ _ _ _ _ _ _ _ H)).
    cbn [parent]. eapply predecessor_loop_sim; [exact H|lia].
  - cbn [rp is_null negb pred_of maximum]. rewrite <- rp_node_key.
    apply (maximum_loop_sim (N pl cl kl vl ll lr) (FL x c k v r :: cs) fuel s n);
      [done|exact H|simpl in *; lia].
Qed.

(** The keys and cells of the nodes the two functions return. *)

Lemma up_from_right_spec s n cs t p k :
  St s (plug cs t) n → up_from_right cs = Some (p, k) →
  (∃ nd, heap s !! p = Some nd ∧ key nd = k) ∧ ∃ rest, ctx_after cs = k :: rest.
Proof.
  revert t. induction cs as [|f cs IH]; intros t H; [done|].
  destruct f as [q qc qk qv qr|q qc qk qv ql]; cbn [up_from_right plug fill] in *.
  - intros [= -> ->]. split; [|simpl; eauto].
    eexists. split; [exact (St_cell _ _ _ _ _ _ _ _ _ H)|done].
  - intros Hup. exact (IH _ H Hup).
Qed.

Lemma up_from_right_None cs : up_from_right cs = None → ctx_after cs = [].
Proof. induction cs as [|[] cs IH]; simpl; done. Qed.

Lemma up_from_left_spec s n cs t p k :
  St s (plug cs t) n → up_from_left cs = Some (p, k) →
  (∃ nd, heap s !! p = Some nd ∧ key nd = k) ∧ ∃ rest, ctx_before cs = rest ++ [k].
Proof.
  revert t. induction cs as [|f cs IH]; intros t H; [done|].
  destruct f as [q qc qk qv qr|q qc qk qv ql]; cbn [up_from_left plug fill] in *.
  - intros Hup. exact (IH _ H Hup).
  - intros [= -> ->]. split; [|simpl; rewrite app_assoc; eauto].
    eexists. split; [exact (St_cell _ _ _ _ _ _ _ _ _ H)|done].
Qed.

Lemma up_from_left_None cs : up_from_left cs = None → ctx_before cs = [].
Proof. induction cs as [|[] cs IH]; simpl; done. Qed.

Lemma min_ctx_node t : ∀ cs,
  t ≠ E → ∃ y cy ky vy yr rest,
    (min_ctx t cs).2 = N y cy ky vy E yr ∧ inorder t = ky :: rest
    ∧ plug (min_ctx t cs).1 (min_ctx t cs).2 = plug cs t.
Proof.
  induction t as [|p c k v l IHl r _]; intros cs Hne; [done|].
  destruct l as [|pl cl kl vl ll lr].
  - exists p, c, k, v, r, (inorder r). done.
  - change (min_ctx (N p c k v (N pl cl kl vl ll lr) r) cs)
      with (min_ctx (N pl cl kl vl ll lr) (FL p c k v r :: cs)).
    destruct (IHl (FL p c k v r :: cs)) as (y & cy & ky & vy & yr & rest & H1 & H2 & H3); [done|].
    exists y, cy, ky, vy, yr, (rest ++ k :: inorder r). split; [done|]. split; [|done].
    change (inorder (N p c k v (N pl cl kl vl ll lr) r))
      with (inorder (N pl cl kl vl ll lr) ++ k :: inorder r). by rewrite H2.
Qed.

Lemma max_ctx_node t : ∀ cs,
  t ≠ E → ∃ y cy ky vy yl rest,
    (max_ctx t cs).2 = N y cy ky vy yl E ∧ inorder t = rest ++ [ky]
    ∧ plug (max_ctx t cs).1 (max_ctx t cs).2 = plug cs t.
Proof.
  induction t as [|p c k v l _ r IHr]; intros cs Hne; [done|].
  destruct r as [|pr cr kr vr rl rr].
  - exists p, c, k, v, l, (inorder l). by destruct l.
  - assert (max_ctx (N p c k v l (N pr cr kr vr rl rr)) cs
            = max_ctx (N pr cr kr vr rl rr) (FR p c k v l :: cs)) as -> by by destruct l.
    destruct (IHr (FR p c k v l :: cs)) as (y & cy & ky & vy & yl & rest & H1 & H2 & H3); [done|].
    exists y, cy, ky, vy, yl, (inorder l ++ k :: rest). split; [done|]. split; [|done].
    change (inorder (N p c k v l (N pr cr kr vr rl rr)))
      with (inorder l ++ k :: inorder (N pr cr kr vr rl rr)).
    rewrite H2, <- app_assoc. done.
Qed.

(** [successor] returns the node whose key follows in the in-order sequence. *)
Lemma succ_of_spec s n cs x c k v l r :
  St s (plug cs (N x c k v l r)) n →
  match succ_of cs (N x c k v l r) with
  | Some (y, ky) =>
      (∃ nd, heap s !! y = Some nd ∧ key nd = ky)
      ∧ ∃ l1 l2, inorder (plug cs (N x c k v l r)) = l1 ++ k :: ky :: l2
  | None => ∃ l1, inorder (plug cs (N x c k v l r)) = l1 ++ [k]
  end.
Proof.
  intros H. rewrite inorder_plug. cbn [inorder]. destruct r as [|pr cr kr vr rl rr].
  - cbn [succ_of inorder]. destruct (up_from_right cs) as [[y ky]|] eqn:Hup.
    + destruct (up_from_right_spec _ _ _ _ _ _ H Hup) as [Hy [rest ->]].
      split; [done|]. exists (ctx_before cs ++ inorder l), rest. by rewrite <- !app_assoc.
    + rewrite (up_from_right_None _ Hup). exists (ctx_before cs ++ inorder l).
      by rewrite <- !app_assoc.
  - cbn [succ_of].
    destruct (min_ctx_node (N pr cr kr vr rl rr) (FR x c k v l :: cs))
      as (y & cy & ky & vy & yr & rest & H1 & H2 & H3); [done|].
    rewrite H1 in H3 |- *. cbn [node_key]. cbn [plug fill] in H3. rewrite <- H3 in H.
    split; [eexists; split; [exact (St_cell _ _ _ _ _ _ _ _ _ H)|done]|].
    rewrite H2. exists (ctx_before cs ++ inorder l), (rest ++ ctx_after cs).
    by rewrite <- !app_assoc.
Qed.

Lemma pred_of_spec s n cs x c k v l r :
  St s (plug cs (N x c k v l r)) n →
  match pred_of cs (N x c k v l r) with
  | Some (y, ky) =>
      (∃ nd, heap s !! y = Some nd ∧ key nd = ky)
      ∧ ∃ l1 l2, inorder (plug cs (N x c k v l r)) = l1 ++ ky :: k :: l2
  | None => ∃ l2, inorder (plug cs (N x c k v l r)) = k :: l2
  end.
Proof.
  intros H. rewrite inorder_plug. cbn [inorder]. destruct l as [|pl cl kl vl ll lr].
  - cbn [pred_of inorder app]. destruct (up_from_left cs) as [[y ky]|] eqn:Hup.
    + destruct (up_from_left_spec _ _ _ _ _ _ H Hup) as [Hy [rest ->]].
      split; [done|]. exists rest, (inorder r ++ ctx_after cs). by rewrite <- !app_assoc.
    + rewrite (up_from_left_None _ Hup). by eexists.
  - cbn [pred_of].
    destruct (max_ctx_node (N pl cl kl vl ll lr) (FL x c k v r :: cs))
      as (y & cy & ky & vy & yl & rest & H1 & H2 & H3); [done|].
    rewrite H1 in H3 |- *. cbn [node_key]. cbn [plug fill] in H3. rewrite <- H3 in H.
    split; [eexists; split; [exact (St_cell _ _ _ _ _ _ _ _ _ H)|done]|].
    rewrite H2. exists (ctx_before cs ++ rest), (inorder r ++ ctx_after cs).
    rewrite <- !app_assoc. done.
Qed.

Lemma sorted_next (l1 l2 : list Z) k k' :
  StronglySorted Z.lt (l1 ++ k :: k' :: l2) →
  k < k' ∧ ∀ x, x ∈ l1 ++ k :: k' :: l2 → k < x → k' ≤ x.
Proof.
  rewrite StronglySorted_app, !StronglySorted_cons, !Forall_forall.
  intros (H12 & S1 & Hk & Hk' & S2). split; [apply Hk; by left|].
  intros x. rewrite elem_of_app, !elem_of_cons. intros [Hx|[->|[->|Hx]]] Hlt; try lia.
  - assert (x < k); [|lia]. apply H12; [done|by left].
  - specialize (Hk' x Hx). lia.
Qed.

Lemma sorted_last (l1 : list Z) k :
  StronglySorted Z.lt (l1 ++ [k]) → ∀ x, x ∈ l1 ++ [k] → x ≤ k.
Proof.
  rewrite StronglySorted_app. intros (H12 & _) x.
  rewrite elem_of_app, list_elem_of_singleton. intros [Hx| ->]; [|lia].
  assert (x < k); [|lia]. apply H12; [done|by left].
Qed.

Lemma sorted_prev (l1 l2 : list Z) k k' :
  StronglySorted Z.lt (l1 ++ k' :: k :: l2) →
  k' < k ∧ ∀ x, x ∈ l1 ++ k' :: k :: l2 → x < k → x ≤ k'.
Proof.
  rewrite StronglySorted_app, !StronglySorted_cons, !Forall_forall.
  intros (H12 & S1 & Hk' & Hk & S2). split; [apply Hk'; by left|].
  intros x. rewrite elem_of_app, !elem_of_cons. intros [Hx|[->|[->|Hx]]] Hlt; try lia.
  - assert (x < k'); [|lia]. apply H12; [done|by left].
  - specialize (Hk x Hx). lia.
Qed.

Lemma sorted_first (l2 : list Z) k :
  StronglySorted Z.lt (k :: l2) → ∀ x, x ∈ k :: l2 → k ≤ x.
Proof.
  rewrite StronglySorted_cons, Forall_forall. intros [Hk _] x.
  rewrite elem_of_cons. intros [->|Hx]; [lia|]. specialize (Hk x Hx). lia.
Qed.

Lemma successor_ok fuel s t n x :
  St s t n → ordered t → x ∈ ptrs t → (tree_size t < fuel)%nat →
  ∃ nx res, heap s !! x = Some nx ∧ successor fuel (Some x) s = Done res s
            ∧ is_successor s (inorder t) (key nx) res.
Proof.
  intros H Ho Hx Hfuel. destruct (ptrs_locate x t Hx) as (cs & c & k & v & l & r & ->).
  eexists _, _. split; [exact (St_cell _ _ _ _ _ _ _ _ _ H)|].
  split; [by eapply successor_sim|]. cbn [key].
  apply ordered_sorted in Ho. pose proof (succ_of_spec _ _ _ _ _ _ _ _ _ H) as Hs.
  destruct (succ_of cs (N x c k v l r)) as [[y ky]|]; cbn [fmap option_fmap option_map fst is_successor].
  - destruct Hs as [(nd & Hnd & <-) (l1 & l2 & Heq)]. rewrite Heq in Ho |- *.
    exists nd. split; [done|]. destruct (sorted_next _ _ _ _ Ho) as [H1 H2].
    split; [done|]. split; [|done]. rewrite elem_of_app, !elem_of_cons. tauto.
  - destruct Hs as [l1 Heq]. rewrite Heq in Ho |- *. by apply sorted_last.
Qed.

Lemma predecessor_ok fuel s t n x :
  St s t n → ordered t → x ∈ ptrs t → (tree_size t < fuel)%nat →
  ∃ nx res, heap s !! x = Some nx ∧ predecessor fuel (Some x) s = Done res s
            ∧ is_predecessor s (inorder t) (key nx) res.
Proof.
  intros H Ho Hx Hfuel. destruct (ptrs_locate x t Hx) as (cs & c & k & v & l & r & ->).
  eexists _, _. split; [exact (St_cell _ _ _ _ _ _ _ _ _ H)|].
  split; [by eapply predecessor_sim|]. cbn [key].
  apply ordered_sorted in Ho. pose proof (pred_of_spec _ _ _ _ _ _ _ _ _ H) as Hs.
  destruct (pred_of cs (N x c k v l r)) as [[y ky]|]; cbn [fmap option_fmap option_map fst is_predecessor].
  - destruct Hs as [(nd & Hnd & <-) (l1 & l2 & Heq)]. rewrite Heq in Ho |- *.
    exists nd. split; [done|]. destruct (sorted_prev _ _ _ _ Ho) as [H1 H2].
    split; [done|]. split; [|done]. rewrite elem_of_app, !elem_of_cons. tauto.
  - destruct Hs as [l2 Heq]. rewrite Heq in Ho |- *. by apply sorted_first.
Qed.


(** ** Relations kept by every step of a member function *)

(** ** Steps that keep a relation *)

Section Keeps.
Context (R : RedBlackTree → RedBlackTree → Prop) `{!Quiet R}.

Lemma keeps_ret {A} (a : A) : keeps R (ret a).
Proof. intros s. exact (quiet_refl s). Qed.

Lemma keeps_throw {A} e : keeps R (throw (A:=A) e).
Proof. intros s. exact (quiet_refl s). Qed.

Lemma keeps_out_of_fuel {A} : keeps R (out_of_fuel (A:=A)).
Proof. by intros s. Qed.

Lemma keeps_bind {A B} (m : M A) (k : A → M B) :
  keeps R m → (∀ a, keeps R (k a)) → keeps R (bind m k).
Proof.
  intros Hm Hk s. unfold bind. specialize (Hm s).
  destruct (m s) as [a s1|e s1| |]; simpl in *; try done.
  specialize (Hk a s1). destruct (k a s1); simpl in *; try done;
    by apply (quiet_trans s s1).
Qed.

Lemma keeps_get {A} (f : Node → A) x : keeps R (get f x).
Proof.
  intros s. unfold get. destruct x as [p|]; [|done].
  destruct (heap s !! p); [|done]. exact (quiet_refl s).
Qed.

Lemma keeps_get_root : keeps R get_root.
Proof. intros s. exact (quiet_refl s). Qed.

Lemma keeps_modify f x :
  (∀ n, key (f n) = key n ∧ value (f n) = value n ∧ color (f n) = color n) →
  keeps R (modify f x).
Proof.
  intros Hf s. unfold modify. destruct x as [p|]; [|done].
  destruct (heap s !! p) as [n|] eqn:Hp; [|done]. simpl.
  apply quiet_heap. intros q. destruct (decide (q = p)) as [->|Hne].
  - rewrite Hp, lookup_insert_eq. apply Hf.
  - rewrite lookup_insert_ne by done. by destruct (heap s !! q).
Qed.

Lemma keeps_set_parent x p : keeps R (set_parent x p).
Proof. by apply keeps_modify. Qed.

Lemma keeps_set_left x p : keeps R (set_left x p).
Proof. by apply keeps_modify. Qed.

Lemma keeps_set_right x p : keeps R (set_right x p).
Proof. by apply keeps_modify. Qed.
End Keeps.

#[export] Instance counters_le_quiet : Quiet counters_le.
Proof.
  split; unfold counters_le.
  - lia.
  - lia.
  - intros s h _. simpl. lia.
Qed.

#[export] Instance root_by_primitives_quiet : Quiet root_by_primitives.
Proof.
  split; unfold root_by_primitives, counters_le.
  - intros s. split; [lia|done].
  - intros s1 s2 s3 [H1 H1'] [H2 H2']. split; [lia|]. intros Hne.
    destruct (decide (root s2 = root s1)) as [Heq|Hne'].
    + rewrite <- Heq in Hne. specialize (H2' Hne). lia.
    + specialize (H1' Hne'). lia.
  - intros s h _. simpl. split; [lia|done].
Qed.

#[export] Instance same_data_quiet : Quiet same_data.
Proof.
  split; unfold same_data.
  - intros s p. by destruct (heap s !! p).
  - intros s1 s2 s3 H1 H2 p. specialize (H1 p). specialize (H2 p).
    destruct (heap s1 !! p), (heap s2 !! p), (heap s3 !! p); try done.
    destruct H1 as (? & ? & ?), H2 as (? & ? & ?). repeat split; congruence.
  - intros s h H. done.
Qed.

Create HintDb keeps.
#[export] Hint Resolve keeps_ret keeps_throw keeps_out_of_fuel keeps_get keeps_get_root
  keeps_set_parent keeps_set_left keeps_set_right : keeps.

Ltac keeps_step :=
  lazymatch goal with
  | |- keeps _ (bind _ _) => apply keeps_bind; [try apply _|..|intros]
  | |- keeps _ (match ?x with _ => _ end) => destruct x
  | |- keeps _ (and_then _ _) => unfold and_then
  | |- keeps _ (or_else _ _) => unfold or_else
  | |- keeps _ (color_is _ _) => unfold color_is
  | |- keeps _ (non_null _) => unfold non_null
  | |- keeps _ (null _) => unfold null
  | |- keeps _ (null_or_black _) => unfold null_or_black
  | |- keeps _ (grandparent _) => unfold grandparent
  | |- keeps _ _ => solve [eauto with keeps typeclass_instances]
  end.
Ltac keeps_go := repeat keeps_step.

(** *** The counters *)

Lemma mono_set_root r : keeps counters_le (set_root r).
Proof. intros s. simpl. unfold counters_le. simpl. lia. Qed.

Lemma mono_set_color x c : keeps counters_le (set_color x c).
Proof.
  intros s. unfold set_color, modify. destruct x as [p|]; [|done].
  destruct (heap s !! p); [|done]. simpl. unfold counters_le. simpl. lia.
Qed.

Lemma mono_count_rotation : keeps counters_le count_rotation.
Proof. intros s. simpl. unfold counters_le. simpl. lia. Qed.

Lemma mono_count_transplant : keeps counters_le count_transplant.
Proof. intros s. simpl. unfold counters_le. simpl. lia. Qed.

(** What follows the entry of a primitive may assign the root. *)
Lemma counted_rotation {A} (m : M A) :
  keeps counters_le m → keeps root_by_primitives (count_rotation;; m).
Proof.
  intros Hm s. unfold bind, count_rotation.
  specialize (Hm (mkTree (heap s) (root s) (S (rotations s)) (transplants s))).
  destruct (m _); simpl in *; try done;
    unfold root_by_primitives, counters_le in *; simpl in *; lia.
Qed.

Lemma counted_transplant {A} (m : M A) :
  keeps counters_le m → keeps root_by_primitives (count_transplant;; m).
Proof.
  intros Hm s. unfold bind, count_transplant.
  specialize (Hm (mkTree (heap s) (root s) (rotations s) (S (transplants s)))).
  destruct (m _); simpl in *; try done;
    unfold root_by_primitives, counters_le in *; simpl in *; lia.
Qed.

Lemma pres_leftRotate x : keeps root_by_primitives (leftRotate x).
Proof.
  unfold leftRotate. apply counted_rotation.
  pose proof mono_set_root. keeps_go.
Qed.

Lemma pres_rightRotate x : keeps root_by_primitives (rightRotate x).
Proof.
  unfold rightRotate. apply counted_rotation.
  pose proof mono_set_root. keeps_go.
Qed.

Lemma pres_transplant u v : keeps root_by_primitives (transplant u v).
Proof.
  unfold transplant. apply counted_transplant.
  pose proof mono_set_root. keeps_go.
Qed.

Lemma pres_set_color x c : keeps root_by_primitives (set_color x c).
Proof.
  intros s. unfold set_color, modify. destruct x as [p|]; [|done].
  destruct (heap s !! p); [|done]. simpl.
  unfold root_by_primitives, counters_le. simpl. split; [lia|done].
Qed.

Lemma pres_delete_node x : keeps root_by_primitives (delete_node x).
Proof.
  intros s. unfold delete_node. destruct x as [p|]; [|exact (quiet_refl (R:=root_by_primitives) s)].
  destruct (heap s !! p); [|done]. simpl.
  unfold root_by_primitives, counters_le. simpl. split; [lia|done].
Qed.

#[export] Hint Resolve pres_leftRotate pres_rightRotate pres_transplant pres_set_color
  pres_delete_node : keeps.

Lemma pres_search_loop fuel k : ∀ x, keeps root_by_primitives (search_loop fuel k x).
Proof. induction fuel as [|fuel IH]; intros x; simpl; keeps_go. Qed.

Lemma pres_minimum_loop fuel : ∀ x, keeps root_by_primitives (minimum_loop fuel x).
Proof. induction fuel as [|fuel IH]; intros x; simpl; keeps_go. Qed.

Lemma pres_insert_loop fuel k : ∀ y x, keeps root_by_primitives (insert_loop fuel k y x).
Proof. induction fuel as [|fuel IH]; intros y x; simpl; keeps_go. Qed.

Lemma pres_insertFixup_loop fuel : ∀ z, keeps root_by_primitives (insertFixup_loop fuel z).
Proof. induction fuel as [|fuel IH]; intros z; simpl; keeps_go. Qed.

Lemma pres_deleteFixup_loop fuel : ∀ x p, keeps root_by_primitives (deleteFixup_loop fuel x p).
Proof. induction fuel as [|fuel IH]; intros x p; simpl; keeps_go. Qed.

#[export] Hint Resolve pres_search_loop pres_minimum_loop pres_insert_loop
  pres_insertFixup_loop pres_deleteFixup_loop : keeps.

Lemma pres_remove fuel k : keeps root_by_primitives (remove fuel k).
Proof.
  unfold remove, search, remove_unlink, minimum, deleteFixup. keeps_go.
Qed.

Lemma outcome_impl {A} (r : Res A) (P Q : RedBlackTree → Prop) :
  outcome r P → (∀ s, P s → Q s) → outcome r Q.
Proof. destruct r; simpl; auto. Qed.

(** The descent of [insert] ends on a node unless the tree is empty. *)
Lemma insert_loop_nonnull fuel k : ∀ y x s,
  y ≠ None ∨ x ≠ None →
  match insert_loop fuel k y x s with
  | Done y' s' => y' ≠ None ∧ s' = s
  | Throw _ s' => s' = s
  | _ => True
  end.
Proof.
  induction fuel as [|fuel IH]; intros y x s Hne; simpl; [done|].
  destruct x as [p|]; simpl; [|by destruct Hne].
  unfold bind, get. destruct (heap s !! p) as [n|] eqn:Hp; [|done].
  destruct (k <? key n); [rewrite Hp; apply IH; by left|].
  destruct (k >? key n); [rewrite Hp; apply IH; by left|done].
Qed.

Lemma pres_insert fuel k v s :
  root s ≠ None → outcome (insert fuel k v s) (root_by_primitives s).
Proof.
  intros Hroot. unfold insert. unfold bind at 1. unfold new_node.
  set (p := fresh (dom (heap s))).
  set (s1 := mkTree _ _ _ _). unfold bind at 1. unfold get_root at 1.
  change (root s1) with (root s). unfold bind at 1.
  pose proof (insert_loop_nonnull fuel k None (root s) s1 (or_intror Hroot)) as Hloop.
  destruct (insert_loop fuel k None (root s) s1) as [y s2|e s2| |]; try done.
  - destruct Hloop as [Hy ->]. destruct y as [y|]; [|done]. cbn [is_null].
    assert (keeps root_by_primitives
              (set_parent (Some p) (Some y);;
               (yk ← get key (Some y);
                if k <? yk then set_left (Some y) (Some p)
                else set_right (Some y) (Some p));;
               insertFixup fuel (Some p))) as Hrest.
    { unfold insertFixup. keeps_go. }
    eapply outcome_impl; [exact (Hrest s1)|]. intros s' H. exact H.
  - subst s2. simpl. split; [unfold counters_le; simpl; lia|done].
Qed.

(** *** Keys, values and colours under the primitives *)








(** ** Auxiliary facts for the main theorems *)

Lemma balanced_black_paths t : balanced t → Forall (λ n, n = bh t) (black_paths t).
Proof.
  induction t as [|p c k v l IHl r IHr]; simpl; [by repeat constructor|].
  intros (Heq & Hl & Hr). apply Forall_fmap, Forall_app. split.
  - eapply Forall_impl; [exact (IHl Hl)|]. by intros ? ->.
  - eapply Forall_impl; [exact (IHr Hr)|]. intros ? ->. simpl. by rewrite Heq.
Qed.

Lemma insert_pairs_ok fuel kvs : ∀ s t,
  Inv s t → NoDup kvs.*1 → (∀ k, k ∈ kvs.*1 → k ∉ inorder t) →
  (tree_size t + length kvs < fuel)%nat →
  ∃ s' t', insert_pairs fuel kvs s = Done tt s' ∧ Inv s' t'
           ∧ inorder t' ≡ₚ kvs.*1 ++ inorder t.
Proof.
  induction kvs as [|[k v] kvs IH]; intros s t HI Hnd Hfresh Hfuel.
  - exists s, t. split; [done|]. split; [done|]. done.
  - cbn [fmap list_fmap fst] in Hnd, Hfresh. apply NoDup_cons in Hnd as [Hk Hnd].
    simpl in Hfuel.
    destruct (insert_ok fuel k v s t HI) as (s1 & t1 & Hrun & HI1 & Hp1 & _);
      [apply Hfresh; by left|lia|].
    destruct (IH s1 t1 HI1 Hnd) as (s' & t' & Hrun' & HI' & Hp').
    { intros k' Hk'. rewrite Hp1, not_elem_of_cons. split; [by intros ->|].
      apply Hfresh. by right. }
    { apply Permutation_length in Hp1. simpl in Hp1. rewrite !inorder_length in Hp1. lia. }
    exists s', t'. split; [|split; [done|]].
    + cbn [insert_pairs foldr fst snd]. unfold bind at 1. rewrite Hrun. exact Hrun'.
    + rewrite Hp', Hp1. cbn [fmap list_fmap fst]. solve_Permutation.
Qed.

Lemma Inv_two_nodes : Inv two_nodes two_tree.
Proof.
  split; [exists 0%nat|split].
  - repeat split; try reflexivity. apply (bool_decide_unpack _). reflexivity.
  - repeat split; intros; discriminate.
  - repeat split; repeat constructor.
Qed.



(** ** The run of main.cpp *)

Example main_run_result :
  match main_run empty_tree with
  | Done r _ => r = ([1; 5; 10; 15; 20; 25; 30], Some 15, true, [1; 5; 10; 15; 25; 30])
  | _ => False
  end.
Proof. vm_compute. reflexivity. Qed.

(** * The properties of the specification *)

(** C1. Any finite sequence of [insert] and [remove] calls on an initially
    empty tree runs to its end, operations that throw DuplicateKey or
    KeyNotFound being skipped, and after every operation [validate] returns
    true: the tree object represents a tree whose root is black (or that is
    empty), in which no red node has a red child, and all of whose paths
    from the root to an absent child hold the same number of black nodes. *)
Theorem invariants_preserved (fuel : nat) (ops : list Op) :
  (length ops < fuel)%nat →
  ∃ states, run fuel ops empty_tree = Some states ∧ length states = length ops
    ∧ Forall (λ s, validate fuel s = Done true s
                   ∧ ∃ t n, St s t n ∧ tcol t = BLACK ∧ nrr t
                            ∧ ∃ b, Forall (λ c, c = b) (black_paths t)) states.
Proof.
  intros Hfuel.
  destruct (run_ok fuel ops empty_tree E Inv_empty) as (states & Hrun & Hlen & Hall);
    [simpl; lia|].
  exists states. split; [done|]. split; [done|].
  eapply Forall_impl; [exact Hall|].
  intros s (t & ([n S0] & (Hc & Hn & Hb) & Ho) & Hsz).
  split; [by eapply validate_sim|]. exists t, n. do 3 (split; [done|]).
  exists (bh t). by apply balanced_black_paths.
Qed.

Lemma invariants_preserved_witness :
  (length [Insert 10 1; Insert 20 2; Insert 10 3; Insert 30 4; Remove 5; Remove 10] < 7)%nat
  ∧ ∃ states,
      run 7 [Insert 10 1; Insert 20 2; Insert 10 3; Insert 30 4; Remove 5; Remove 10]
          empty_tree = Some states
      ∧ length states
        = length [Insert 10 1; Insert 20 2; Insert 10 3; Insert 30 4; Remove 5; Remove 10]
      ∧ Forall (λ s, validate 7 s = Done true s
                     ∧ ∃ t n, St s t n ∧ tcol t = BLACK ∧ nrr t
                              ∧ ∃ b, Forall (λ c, c = b) (black_paths t)) states.
Proof.
  split; [simpl; lia|]. apply invariants_preserved. simpl. lia.
Defined.

(** C2. For a tree object representing an ordered tree that holds [k],
    [insert(k, v)] throws DuplicateKey; the root reference, every cell that
    was allocated before the call (so every link, colour and value, also the
    value stored under [k]) and the represented tree are what they were.
    (The heap holds one more cell, which no link reaches: see C9.) *)
Theorem insert_duplicate_rejected (fuel : nat) (k v : Z) (s : RedBlackTree)
    (t : tree) (n : nat) :
  St s t n → ordered t → k ∈ inorder t → (tree_size t < fuel)%nat →
  ∃ s', insert fuel k v s = Throw DuplicateKey s'
        ∧ root s' = root s ∧ St s' t n
        ∧ (∀ p nd, heap s !! p = Some nd → heap s' !! p = Some nd)
        ∧ rotations s' = rotations s ∧ transplants s' = transplants s.
Proof.
  intros S0 Ho Hk Hfuel. apply find_iff in Hk; [|done]. apply descend_find in Hk.
  rewrite (insert_dup fuel k v s t n S0 Hk Hfuel).
  assert (heap s !! fresh (dom (heap s)) = None) as Hp by (apply not_elem_of_dom, is_fresh).
  eexists. split; [done|]. simpl. split; [done|]. split; [by apply St_alloc|].
  split; [|done]. intros p nd Hnd. rewrite lookup_insert_ne; [done|].
  intros <-. congruence.
Qed.

Lemma insert_duplicate_rejected_witness :
  St two_nodes two_tree 0 ∧ ordered two_tree ∧ 20 ∈ inorder two_tree
  ∧ (tree_size two_tree < 3)%nat
  ∧ ∃ s', insert 3 20 7 two_nodes = Throw DuplicateKey s'
          ∧ root s' = root two_nodes ∧ St s' two_tree 0
          ∧ (∀ p nd, heap two_nodes !! p = Some nd → heap s' !! p = Some nd)
          ∧ rotations s' = rotations two_nodes ∧ transplants s' = transplants two_nodes.
Proof.
  assert (St two_nodes two_tree 0) as S0.
  { repeat split; try reflexivity. apply (bool_decide_unpack _). reflexivity. }
  assert (ordered two_tree) as Ho by (repeat split; repeat constructor).
  assert (20 ∈ inorder two_tree) as Hk by (apply (bool_decide_unpack _); reflexivity).
  assert (tree_size two_tree < 3)%nat as Hfuel by (simpl; lia).
  repeat (split; [assumption|]).
  exact (insert_duplicate_rejected 3 20 7 two_nodes two_tree 0 S0 Ho Hk Hfuel).
Defined.

(** C3. For a tree object satisfying the invariants that does not hold [k],
    [remove(k)] throws KeyNotFound and leaves the tree object as it was:
    [validate] returns true on the state it leaves and the in-order sequence
    of keys is the one before the call. *)
Theorem remove_missing_rejected (fuel : nat) (k : Z) (s : RedBlackTree) (t : tree) :
  Inv s t → k ∉ inorder t → (tree_size t < fuel)%nat →
  ∃ s', remove fuel k s = Throw KeyNotFound s' ∧ s' = s
        ∧ validate fuel s' = Done true s'
        ∧ ∃ ks, inOrderKeys fuel s = Done ks s ∧ inOrderKeys fuel s' = Done ks s'.
Proof.
  intros HI Hk Hfuel. exists s. split; [by eapply remove_absent_ok|]. split; [done|].
  destruct HI as ([n S0] & Hrb & Ho). split; [by eapply validate_sim|].
  exists (inorder t). split; by eapply inOrderKeys_sim.
Qed.

Lemma remove_missing_rejected_witness :
  Inv two_nodes two_tree ∧ (15 ∉ inorder two_tree) ∧ (tree_size two_tree < 3)%nat
  ∧ ∃ s', remove 3 15 two_nodes = Throw KeyNotFound s' ∧ s' = two_nodes
          ∧ validate 3 s' = Done true s'
          ∧ ∃ ks, inOrderKeys 3 two_nodes = Done ks two_nodes
                  ∧ inOrderKeys 3 s' = Done ks s'.
Proof.
  assert (15 ∉ inorder two_tree) as Hk by (apply (bool_decide_unpack _); reflexivity).
  assert (tree_size two_tree < 3)%nat as Hfuel by (simpl; lia).
  split; [exact Inv_two_nodes|]. repeat (split; [assumption|]).
  exact (remove_missing_rejected 3 15 two_nodes two_tree Inv_two_nodes Hk Hfuel).
Defined.

(** C4. After every operation of a sequence of [insert] and [remove] calls
    on an initially empty tree, the in-order traversal visits the keys in
    strictly ascending order; equivalently, the represented tree is ordered:
    at every node the keys of the left subtree are smaller and the keys of
    the right subtree are greater. *)
Theorem inorder_ascending (fuel : nat) (ops : list Op) :
  (length ops < fuel)%nat →
  ∃ states, run fuel ops empty_tree = Some states
    ∧ Forall (λ s, ∃ ks, inOrderKeys fuel s = Done ks s ∧ StronglySorted Z.lt ks
                         ∧ ∃ t n, St s t n ∧ ordered t ∧ ks = inorder t) states.
Proof.
  intros Hfuel.
  destruct (run_ok fuel ops empty_tree E Inv_empty) as (states & Hrun & Hlen & Hall);
    [simpl; lia|].
  exists states. split; [done|]. eapply Forall_impl; [exact Hall|].
  intros s (t & ([n S0] & Hrb & Ho) & Hsz). exists (inorder t).
  split; [by eapply inOrderKeys_sim|]. split; [by apply ordered_sorted|]. by exists t, n.
Qed.

Lemma inorder_ascending_witness :
  (length [Insert 3 0; Insert 1 0; Insert 2 0; Remove 3; Insert 0 0] < 6)%nat
  ∧ ∃ states, run 6 [Insert 3 0; Insert 1 0; Insert 2 0; Remove 3; Insert 0 0] empty_tree
              = Some states
    ∧ Forall (λ s, ∃ ks, inOrderKeys 6 s = Done ks s ∧ StronglySorted Z.lt ks
                         ∧ ∃ t n, St s t n ∧ ordered t ∧ ks = inorder t) states.
Proof.
  split; [simpl; lia|]. apply inorder_ascending. simpl. lia.
Defined.

(** C5. After the insertion of pairs with pairwise distinct keys into an
    empty tree, [search] returns a node holding the key for each of these
    keys and the null handle for every other key; and [remove] of one of
    them returns, after which [search] for it returns the null handle and
    [search] still returns a node for each of the other keys. *)
Theorem search_membership (fuel : nat) (kvs : list (Z * Z)) :
  NoDup kvs.*1 → (length kvs < fuel)%nat →
  ∃ s, insert_pairs fuel kvs empty_tree = Done tt s
    ∧ (∀ k, k ∈ kvs.*1 →
         ∃ p nd, search fuel k s = Done (Some p) s ∧ heap s !! p = Some nd ∧ key nd = k)
    ∧ (∀ k, k ∉ kvs.*1 → search fuel k s = Done None s)
    ∧ (∀ k, k ∈ kvs.*1 →
         ∃ s', remove fuel k s = Done tt s' ∧ search fuel k s' = Done None s'
           ∧ ∀ k', k' ∈ kvs.*1 → k' ≠ k →
               ∃ p nd, search fuel k' s' = Done (Some p) s'
                       ∧ heap s' !! p = Some nd ∧ key nd = k').
Proof.
  intros Hnd Hfuel.
  destruct (insert_pairs_ok fuel kvs empty_tree E Inv_empty Hnd) as (s & t & Hrun & HI & Hp).
  { intros k _ Hk. by apply elem_of_nil in Hk. }
  { simpl. lia. }
  rewrite app_nil_r in Hp.
  assert (tree_size t < fuel)%nat as Hsz.
  { apply Permutation_length in Hp. rewrite inorder_length, length_fmap in Hp. lia. }
  exists s. split; [done|]. split; [|split].
  - intros k Hk. apply (search_found fuel k s t); [done| |done]. by rewrite Hp.
  - intros k Hk. apply (search_absent fuel k s t); [done| |done]. by rewrite Hp.
  - intros k Hk. destruct (remove_ok fuel k s t HI) as (s' & t' & Hrm & HI' & Hp');
      [by rewrite Hp|done|].
    assert (tree_size t' < fuel)%nat as Hsz'.
    { apply Permutation_length in Hp'. simpl in Hp'. rewrite !inorder_length in Hp'. lia. }
    rewrite <- Hp, Hp' in Hnd. apply NoDup_cons in Hnd as [Hk' _].
    exists s'. split; [done|]. split; [by apply (search_absent fuel k s' t')|].
    intros k' Hin Hne. apply (search_found fuel k' s' t'); [done| |done].
    rewrite <- Hp, Hp' in Hin. apply elem_of_cons in Hin as [->|Hin]; done.
Qed.

Lemma search_membership_witness :
  NoDup [(10, 1); (20, 2); (30, 3); (15, 4)].*1
  ∧ (length [(10, 1); (20, 2); (30, 3); (15, 4)] < 5)%nat
  ∧ ∃ s, insert_pairs 5 [(10, 1); (20, 2); (30, 3); (15, 4)] empty_tree = Done tt s
    ∧ (∀ k, k ∈ [(10, 1); (20, 2); (30, 3); (15, 4)].*1 →
         ∃ p nd, search 5 k s = Done (Some p) s ∧ heap s !! p = Some nd ∧ key nd = k)
    ∧ (∀ k, k ∉ [(10, 1); (20, 2); (30, 3); (15, 4)].*1 → search 5 k s = Done None s)
    ∧ (∀ k, k ∈ [(10, 1); (20, 2); (30, 3); (15, 4)].*1 →
         ∃ s', remove 5 k s = Done tt s' ∧ search 5 k s' = Done None s'
           ∧ ∀ k', k' ∈ [(10, 1); (20, 2); (30, 3); (15, 4)].*1 → k' ≠ k →
               ∃ p nd, search 5 k' s' = Done (Some p) s'
                       ∧ heap s' !! p = Some nd ∧ key nd = k').
Proof.
  assert (NoDup [(10, 1); (20, 2); (30, 3); (15, 4)].*1) as Hnd
    by (apply (bool_decide_unpack _); reflexivity).
  assert (length [(10, 1); (20, 2); (30, 3); (15, 4)] < 5)%nat as Hfuel by (simpl; lia).
  split; [exact Hnd|]. split; [exact Hfuel|].
  exact (search_membership 5 [(10, 1); (20, 2); (30, 3); (15, 4)] Hnd Hfuel).
Defined.

(** C6. In a tree object representing an ordered tree, for every node [x] of
    the tree, [successor(x)] returns a node holding the smallest key that is
    strictly greater than the key of [x], or the null handle if no key of the
    tree is greater; and [predecessor(x)] returns a node holding the largest
    key that is strictly smaller, or the null handle if no key is smaller.
    (That the result is the leftmost node of the right subtree, or else the
    first ancestor entered from its left subtree, is [successor_sim].) *)
Theorem successor_predecessor_correct (fuel : nat) (s : RedBlackTree) (t : tree)
    (n : nat) (x : ptr) :
  St s t n → ordered t → x ∈ ptrs t → (tree_size t < fuel)%nat →
  ∃ nx, heap s !! x = Some nx
    ∧ (∃ res, successor fuel (Some x) s = Done res s
              ∧ is_successor s (inorder t) (key nx) res)
    ∧ (∃ res, predecessor fuel (Some x) s = Done res s
              ∧ is_predecessor s (inorder t) (key nx) res).
Proof.
  intros H Ho Hx Hfuel.
  destruct (successor_ok fuel s t n x H Ho Hx Hfuel) as (nx & rs & Hnx & Hs & Hs').
  destruct (predecessor_ok fuel s t n x H Ho Hx Hfuel) as (nx' & rp & Hnx' & Hp & Hp').
  assert (nx' = nx) as -> by congruence. exists nx. eauto 10.
Qed.

Lemma successor_predecessor_correct_witness :
  St two_nodes two_tree 0 ∧ ordered two_tree ∧ 1%positive ∈ ptrs two_tree
  ∧ (tree_size two_tree < 3)%nat
  ∧ ∃ nx, heap two_nodes !! 1%positive = Some nx
    ∧ (∃ res, successor 3 (Some 1%positive) two_nodes = Done res two_nodes
              ∧ is_successor two_nodes (inorder two_tree) (key nx) res)
    ∧ (∃ res, predecessor 3 (Some 1%positive) two_nodes = Done res two_nodes
              ∧ is_predecessor two_nodes (inorder two_tree) (key nx) res).
Proof.
  assert (St two_nodes two_tree 0) as S0.
  { repeat split; try reflexivity. apply (bool_decide_unpack _). reflexivity. }
  assert (ordered two_tree) as Ho by (repeat split; repeat constructor).
  assert (1%positive ∈ ptrs two_tree) as Hx by (apply (bool_decide_unpack _); reflexivity).
  assert (tree_size two_tree < 3)%nat as Hfuel by (simpl; lia).
  repeat (split; [assumption|]).
  exact (successor_predecessor_correct 3 two_nodes two_tree 0 1%positive S0 Ho Hx Hfuel).
Defined.

(** C7. For a tree object satisfying the red-black invariants and a key it
    does not hold, [insert] returns (the descent and the fixup loop end
    within the fuel, which only has to exceed the number of nodes) and
    enters [leftRotate] and [rightRotate] at most twice in all; the
    invariants hold again afterwards. *)
Theorem insert_rotation_bound (fuel : nat) (k v : Z) (s : RedBlackTree) (t : tree) :
  Inv s t → k ∉ inorder t → (tree_size t < fuel)%nat →
  ∃ s' t', insert fuel k v s = Done tt s' ∧ Inv s' t'
           ∧ (rotations s' ≤ rotations s + 2)%nat.
Proof.
  intros HI Hk Hfuel.
  destruct (insert_ok fuel k v s t HI Hk Hfuel) as (s' & t' & Hrun & HI' & _ & Hrot).
  by exists s', t'.
Qed.

Lemma insert_rotation_bound_witness :
  Inv two_nodes two_tree ∧ (30 ∉ inorder two_tree) ∧ (tree_size two_tree < 3)%nat
  ∧ ∃ s' t', insert 3 30 30 two_nodes = Done tt s' ∧ Inv s' t'
             ∧ (rotations s' ≤ rotations two_nodes + 2)%nat.
Proof.
  assert (30 ∉ inorder two_tree) as Hk by (apply (bool_decide_unpack _); reflexivity).
  assert (tree_size two_tree < 3)%nat as Hfuel by (simpl; lia).
  split; [exact Inv_two_nodes|]. repeat (split; [assumption|]).
  exact (insert_rotation_bound 3 30 30 two_nodes two_tree Inv_two_nodes Hk Hfuel).
Defined.

(** *** The root reference outside the primitives *)







#[export] Instance same_root_quiet : Quiet same_root.
Proof.
  split; unfold same_root.
  - done.
  - intros s1 s2 s3 H1 H2. congruence.
  - done.
Qed.

Lemma root_set_color x c : keeps same_root (set_color x c).
Proof.
  intros s. unfold set_color, modify. destruct x as [p|]; [|done].
  by destruct (heap s !! p).
Qed.

Lemma root_new_node k v : keeps same_root (new_node k v).
Proof. by intros s. Qed.

Lemma root_delete_node x : keeps same_root (delete_node x).
Proof.
  intros s. unfold delete_node. destruct x as [p|]; [|done].
  by destruct (heap s !! p).
Qed.

#[export] Hint Resolve root_set_color root_new_node root_delete_node : keeps.

Lemma root_search_loop fuel k : ∀ x, keeps same_root (search_loop fuel k x).
Proof. induction fuel as [|fuel IH]; intros x; simpl; keeps_go. Qed.

Lemma root_minimum_loop fuel : ∀ x, keeps same_root (minimum_loop fuel x).
Proof. induction fuel as [|fuel IH]; intros x; simpl; keeps_go. Qed.

#[export] Hint Resolve root_search_loop root_minimum_loop : keeps.

Section Callees_keep_root.
Variable leftRotate' rightRotate' : option ptr → M unit.
Variable transplant' : option ptr → option ptr → M unit.
Hypothesis root_leftRotate' : ∀ x, keeps same_root (leftRotate' x).
Hypothesis root_rightRotate' : ∀ y, keeps same_root (rightRotate' y).
Hypothesis root_transplant' : ∀ u v, keeps same_root (transplant' u v).




End Callees_keep_root.









(** A computation that goes through the primitives changes the root
    reference only if it enters one of them. *)
Lemma through_primitives_counts {A} (m : M A) s :
  through_primitives m s → outcome (m s) (root_by_primitives s).
Proof.
  induction 1 as [A a s|A e s|A s|A f x s|f x s|s|k v s|x s|x s|y s|u v s|A B m f s Hm IHm Hf IHf].
  - exact (quiet_refl s).
  - exact (quiet_refl s).
  - done.
  - apply (keeps_get root_by_primitives).
  - unfold modify. destruct x as [p|]; [|done]. destruct (heap s !! p); [|done]. simpl.
    split; [unfold counters_le; simpl; lia|done].
  - exact (quiet_refl s).
  - simpl. split; [unfold counters_le; simpl; lia|done].
  - apply pres_delete_node.
  - apply pres_leftRotate.
  - apply pres_rightRotate.
  - apply pres_transplant.
  - unfold bind. destruct (m s) as [a s1|e s1| |] eqn:Hms; simpl in *; try done.
    specialize (IHf a s1 eq_refl).
    destruct (f a s1); simpl in *; try done; by apply (quiet_trans s s1).
Qed.

(** An assignment that changes the root reference is not of that kind. *)
Lemma set_root_not_through_primitives r s :
  r ≠ root s → ¬ through_primitives (set_root r) s.
Proof.
  intros Hr H. apply through_primitives_counts in H.
  unfold set_root, outcome, root_by_primitives in H. cbn [root rotations transplants] in H.
  destruct H as [_ H]. destruct (H Hr) as [?|?]; lia.
Qed.




(** C9 fails on the code: [insert] allocates the new node before it looks
    for the key and throws without releasing it.  After [insert(1,1)], the
    call [insert(1,2)] throws DuplicateKey and leaves a second cell
    allocated that no link reaches, so the heap is not as it was; the
    destructor releases the node of the tree only, and the cell of the
    rejected insertion stays allocated. *)
Theorem duplicate_insert_leaks_node :
  insert 3 1 1 empty_tree = Done tt leak_s1
  ∧ insert 3 1 2 leak_s1 = Throw DuplicateKey leak_s2
  ∧ heap leak_s1 !! 2%positive = None
  ∧ heap leak_s2 !! 2%positive = Some (mkNode 1 2 RED None None None)
  ∧ inOrderTraversal 3 leak_s2 = Done [1%positive] leak_s2
  ∧ destructor 3 leak_s2 = Done tt leak_s3
  ∧ heap leak_s3 !! 2%positive = Some (mkNode 1 2 RED None None None).
Proof. repeat split; vm_compute; reflexivity. Qed.

(** C10. [validate] looks at colours and black counts only: the tree object
    [unordered_state] has a black root, no red node with a red child and one
    black node on every path, its keys are out of order (the in-order
    traversal yields 5 before 1), and [validate] returns true on it. *)
Theorem validate_ignores_key_order :
  St unordered_state unordered_tree 0
  ∧ rbt unordered_tree
  ∧ Forall (λ c, c = 1%nat) (black_paths unordered_tree)
  ∧ ¬ ordered unordered_tree
  ∧ inOrderKeys 3 unordered_state = Done [5; 1] unordered_state
  ∧ validate 3 unordered_state = Done true unordered_state.
Proof.
  split.
  { repeat split; try reflexivity. apply (bool_decide_unpack _). reflexivity. }
  split; [repeat split; intros; discriminate|].
  split; [repeat constructor|].
  split; [|split; vm_compute; reflexivity].
  intros (H & _). apply Forall_cons in H as [H _]. lia.
Qed.

(** ** The nodes of a tree, with what they hold *)

Lemma nodes_keys t : (λ x, x.1.2) <$> nodes t = inorder t.
Proof.
  induction t as [|p c k v l IHl r IHr]; [done|].
  simpl. by rewrite fmap_app, fmap_cons, IHl, IHr.
Qed.

Lemma nodes_ptrs t : (λ x, x.1.1) <$> nodes t = ptrs t.
Proof.
  induction t as [|p c k v l IHl r IHr]; [done|].
  simpl. by rewrite fmap_app, fmap_cons, IHl, IHr.
Qed.

Lemma bindings_keys t : (bindings t).*1 = inorder t.
Proof. unfold bindings. rewrite <- list_fmap_compose. apply nodes_keys. Qed.

Lemma nodes_plug cs t :
  nodes (plug cs t) = nodes_before cs ++ nodes t ++ nodes_after cs.
Proof.
  revert t. induction cs as [|f cs IH]; intros t; simpl.
  - by rewrite app_nil_r.
  - rewrite IH. destruct f; simpl; by rewrite <- ?app_assoc.
Qed.

Lemma nodes_blacken t : nodes (blacken t) = nodes t.
Proof. by destruct t. Qed.

Ltac nl_crush :=
  repeat (rewrite ?nodes_plug, ?nodes_blacken; cbn [nodes nodes_before nodes_after app fill];
          rewrite <- ?app_assoc; cbn [app]);
  try done.

Lemma fix_ins_nodes cs : ∀ tz t' m,
  fix_ins cs tz = Some (t', m) → nodes t' = nodes (plug cs tz).
Proof.
  induction cs as [|f|f g cs IH] using ctx_ind2; intros tz t' m.
  - simpl. by intros [= <- <-].
  - destruct f as [? [] ? ? ?|? [] ? ? ?]; simpl; try done; by intros [= <- <-].
  - destruct f as [p [] kp vp s|p [] kp vp s], g as [pg cg kg vg u|pg cg kg vg u];
      cbn [fix_ins]; try (intros [= <- <-]; nl_crush; fail).
    all: destruct (tcol u); try (intros H; apply IH in H; rewrite H; nl_crush; fail).
    all: try (intros [= <- <-]; nl_crush; fail).
    all: destruct tz as [|z cz kz vz a b]; [done|]; intros [= <- <-]; nl_crush.
Qed.

Lemma del_left_nodes p cp kp vp tx w :
  match del_left p cp kp vp tx w with
  | Some (inl t) | Some (inr t) => nodes t = nodes (N p cp kp vp tx w)
  | None => True
  end.
Proof.
  destruct w as [|pw cw kw vw wl wr]; [done|]. cbn [del_left].
  destruct (tcol wl), (tcol wr); try destruct wl; nl_crush.
Qed.

Lemma del_right_nodes p cp kp vp w tx :
  match del_right p cp kp vp w tx with
  | Some (inl t) | Some (inr t) => nodes t = nodes (N p cp kp vp w tx)
  | None => True
  end.
Proof.
  destruct w as [|pw cw kw vw wl wr]; [done|]. cbn [del_right].
  destruct (tcol wl), (tcol wr); try destruct wr; nl_crush.
Qed.

Lemma fix_del_nodes cs : ∀ tx t',
  fix_del cs tx = Some t' → nodes t' = nodes (plug cs tx).
Proof.
  induction cs as [|f cs IH]; intros tx t'.
  - simpl. intros [= <-]. nl_crush.
  - cbn [fix_del]. destruct (tcol tx); [intros [= <-]; destruct f; nl_crush|].
    destruct f as [p cp kp vp w|p cp kp vp w].
    + destruct w as [|pw [] kw vw wl wr].
      * simpl. done.
      * pose proof (del_left_nodes p RED kp vp tx wl) as Hd.
        destruct (del_left p RED kp vp tx wl) as [[t1|t1]|]; [| |done];
          intros [= <-]; nl_crush; rewrite Hd; nl_crush.
      * pose proof (del_left_nodes p cp kp vp tx (N pw BLACK kw vw wl wr)) as Hd.
        destruct (del_left p cp kp vp tx (N pw BLACK kw vw wl wr)) as [[t1|t1]|]; [| |done].
        -- intros H. apply IH in H. rewrite H. nl_crush. rewrite Hd. nl_crush.
        -- intros [= <-]. nl_crush. rewrite Hd. nl_crush.
    + assert (∀ t'',
        match w with
        | N pw RED kw vw wl wr =>
          match del_right p RED kp vp wr tx with
          | Some (inl tx') => Some (plug (FR pw BLACK kw vw wl :: cs) (blacken tx'))
          | Some (inr t') => Some (blacken (plug (FR pw BLACK kw vw wl :: cs) t'))
          | None => None
          end
        | _ =>
          match del_right p cp kp vp w tx with
          | Some (inl tx') => fix_del cs tx'
          | Some (inr t') => Some (blacken (plug cs t'))
          | None => None
          end
        end = Some t'' → nodes t'' = nodes (plug (FR p cp kp vp w :: cs) tx)) as Hgen.
      { intros t''. destruct w as [|pw [] kw vw wl wr].
        * simpl. done.
        * pose proof (del_right_nodes p RED kp vp wr tx) as Hd.
          destruct (del_right p RED kp vp wr tx) as [[t1|t1]|]; [| |done];
            intros [= <-]; nl_crush; rewrite Hd; nl_crush.
        * pose proof (del_right_nodes p cp kp vp (N pw BLACK kw vw wl wr) tx) as Hd.
          destruct (del_right p cp kp vp (N pw BLACK kw vw wl wr) tx) as [[t1|t1]|]; [| |done].
          -- intros H. apply IH in H. rewrite H. nl_crush. rewrite Hd. nl_crush.
          -- intros [= <-]. nl_crush. rewrite Hd. nl_crush. }
      destruct tx as [|x cx kx vx a b]; destruct w as [|pw [] kw vw wl wr];
        try done; apply Hgen.
Qed.

Lemma min_ctx_nodes_before t : ∀ cs, nodes_before (min_ctx t cs).1 = nodes_before cs.
Proof.
  induction t as [|p c k v l IHl r _]; intros cs; [done|].
  destruct l as [|pl cl kl vl ll lr]; [done|].
  change (min_ctx (N p c k v (N pl cl kl vl ll lr) r) cs)
    with (min_ctx (N pl cl kl vl ll lr) (FL p c k v r :: cs)).
  by rewrite IHl.
Qed.

Lemma unlink_nodes cs z cz kz vz l r cx tx c :
  unlink cs (N z cz kz vz l r) = Some (cx, tx, c) →
  nodes (plug cx tx) = nodes_before cs ++ nodes l ++ nodes r ++ nodes_after cs.
Proof.
  destruct l as [|pl cl kl vl ll lr]; [cbn; intros [= <- <- <-]; nl_crush|].
  destruct r as [|pr cr kr vr rl rr].
  { cbn. intros [= <- <- <-]. nl_crush. }
  set (l := N pl cl kl vl ll lr). set (r := N pr cr kr vr rl rr).
  destruct (min_ctx r []) as [csy ty] eqn:Hmin.
  destruct (min_ctx_spec r [] csy ty ltac:(done) Hmin)
    as (csy' & y & cy & ky & vy & yr & Hcs & -> & Hplug & Hlen).
  rewrite app_nil_r in Hcs. subst csy'.
  pose proof (min_ctx_nodes_before r []) as Hb. rewrite Hmin in Hb. simpl in Hb.
  unfold unlink, l. fold r. rewrite Hmin. intros [= <- <- <-].
  rewrite plug_app. cbn [plug fill]. rewrite Hplug.
  rewrite !nodes_plug. cbn [nodes]. rewrite !nodes_plug, Hb. nl_crush.
Qed.

(** What [insert] and [remove] do to the nodes. *)

Lemma ins_tree_nodes p k v t t' m :
  ins_tree p k v t = Some (t', m) →
  ∃ l1 l2, nodes t = l1 ++ l2 ∧ nodes t' = l1 ++ (p, k, v) :: l2.
Proof.
  unfold ins_tree. destruct (descend k t []) as [cs|] eqn:Hd; [|done].
  destruct (fix_ins cs (N p RED k v E E)) as [[t1 m1]|] eqn:Hfix; [|done].
  intros [= <- <-]. apply fix_ins_nodes in Hfix. apply descend_plug in Hd.
  simpl in Hd. exists (nodes_before cs), (nodes_after cs).
  rewrite nodes_blacken, Hfix, <- Hd, !nodes_plug. done.
Qed.

Lemma del_tree_nodes k t t' :
  del_tree k t = Some t' →
  ∃ l1 l2 z v, nodes t = l1 ++ (z, k, v) :: l2 ∧ nodes t' = l1 ++ l2
               ∧ rp (match find k t [] with Some (_, tz) => tz | None => E end) = Some z.
Proof.
  unfold del_tree. destruct (find k t []) as [[cs tz]|] eqn:Hf; [|done].
  destruct (find_plug _ _ _ _ _ Hf) as (Hplug & z & cz & vz & l & r & ->).
  simpl in Hplug. destruct (unlink cs (N z cz k vz l r)) as [[[cx tx] c]|] eqn:Hun; [|done].
  apply unlink_nodes in Hun. intros Ht'.
  assert (nodes t' = nodes (plug cx tx)) as Heq.
  { destruct c; [by injection Ht' as <-|]. by apply fix_del_nodes. }
  exists (nodes_before cs ++ nodes l), (nodes r ++ nodes_after cs), z, vz.
  rewrite Heq, Hun, <- Hplug, nodes_plug. simpl. rewrite <- !app_assoc. done.
Qed.

(** Every node of the represented tree is a cell that holds its key and
    value. *)
Lemma nodes_cell s t n p k v :
  St s t n → (p, k, v) ∈ nodes t →
  ∃ nd, heap s !! p = Some nd ∧ key nd = k ∧ value nd = v.
Proof.
  intros [Hr _]. revert Hr. generalize (@None ptr) as par.
  induction t as [|q c k' v' l IHl r IHr]; intros par Hr Hin; simpl in *.
  - by apply elem_of_nil in Hin.
  - destruct Hr as (Hc & Hl & Hrr).
    apply elem_of_app in Hin as [Hin|Hin]; [by eapply IHl|].
    apply elem_of_cons in Hin as [[= -> -> ->]|Hin]; [eauto|by eapply IHr].
Qed.

(** In an ordered tree a key is held by one node only. *)
Lemma nodes_key_inj t a b :
  ordered t → a ∈ nodes t → b ∈ nodes t → a.1.2 = b.1.2 → a = b.
Proof.
  intros Ho Ha Hb Heq. apply ordered_sorted in Ho. rewrite <- nodes_keys in Ho.
  assert (NoDup ((λ x, x.1.2) <$> nodes t)) as Hnd.
  { clear -Ho. induction Ho as [|x l Hs IH Hall]; constructor; [|done].
    intros Hx. rewrite Forall_forall in Hall. specialize (Hall x Hx). lia. }
  apply list_elem_of_lookup in Ha as [i Hi], Hb as [j Hj].
  assert (i = j) as ->; [|congruence].
  eapply NoDup_lookup; [exact Hnd| |]; rewrite list_lookup_fmap.
  - by rewrite Hi.
  - by rewrite Hj, Heq.
Qed.

Lemma nodes_length t : length (nodes t) = tree_size t.
Proof. by rewrite <- inorder_length, <- nodes_keys, length_fmap. Qed.

Lemma insert_nodes fuel k v s t :
  Inv s t → k ∉ inorder t → (tree_size t < fuel)%nat →
  ∃ s' t' l1 l2, insert fuel k v s = Done tt s' ∧ Inv s' t'
    ∧ nodes t = l1 ++ l2 ∧ nodes t' = l1 ++ (fresh (dom (heap s)), k, v) :: l2.
Proof.
  intros ([n S0] & Hrb & Ho) Hk Hfuel.
  destruct (ins_tree_spec (fresh (dom (heap s))) k v t Hrb Ho Hk)
    as (t' & m & Hins & Hm & Hrb' & Ho' & _).
  destruct (insert_sim fuel k v s t n t' m S0 Hins Hfuel) as ([] & s' & Hrun & S1).
  destruct (ins_tree_nodes _ _ _ _ _ _ Hins) as (l1 & l2 & H1 & H2).
  exists s', t', l1, l2. split; [done|]. split; [by split; eauto|]. done.
Qed.

Lemma search_sim fuel k s t n :
  St s t n → (tree_size t < fuel)%nat →
  search fuel k s
  = Done (rp (match find k t [] with Some (_, tz) => tz | None => E end)) s.
Proof.
  intros S0 Hfuel. pose proof (search_loop_sim k t [] fuel s n S0 Hfuel) as Hs.
  unfold search, bind, get_root. destruct S0 as (_ & -> & _). rewrite Hs.
  by destruct (find k t []) as [[? ?]|].
Qed.

Lemma remove_nodes fuel k s t :
  Inv s t → k ∈ inorder t → (tree_size t < fuel)%nat →
  ∃ s' t' l1 l2 z v, remove fuel k s = Done tt s' ∧ Inv s' t'
    ∧ search fuel k s = Done (Some z) s
    ∧ nodes t = l1 ++ (z, k, v) :: l2 ∧ nodes t' = l1 ++ l2.
Proof.
  intros ([n S0] & Hrb & Ho) Hk Hfuel.
  destruct (del_tree_spec k t Hrb Ho Hk) as (t' & Hdel & Hrb' & Ho' & _).
  destruct (remove_sim fuel k s t n t' S0 Hdel Hfuel) as ([] & s' & Hrun & n' & S1).
  destruct (del_tree_nodes _ _ _ Hdel) as (l1 & l2 & z & v & H1 & H2 & H3).
  exists s', t', l1, l2, z, v. split; [done|]. split; [by split; eauto|].
  split; [|done]. by rewrite (search_sim fuel k s t n S0 Hfuel), H3.
Qed.

Lemma find_nodes k t cs tz :
  find k t [] = Some (cs, tz) →
  ∃ z v, rp tz = Some z ∧ (z, k, v) ∈ nodes t.
Proof.
  intros Hf. destruct (find_plug _ _ _ _ _ Hf) as (Hplug & z & cz & vz & l & r & ->).
  simpl in Hplug. exists z, vz. split; [done|].
  rewrite <- Hplug, nodes_plug. simpl. rewrite !elem_of_app, elem_of_cons. tauto.
Qed.

Lemma nodes_inorder t p k v : (p, k, v) ∈ nodes t → k ∈ inorder t.
Proof.
  intros H. rewrite <- nodes_keys. apply list_elem_of_fmap. by exists (p, k, v).
Qed.

Lemma inorder_nodes t k : k ∈ inorder t → ∃ p v, (p, k, v) ∈ nodes t.
Proof.
  rewrite <- nodes_keys. intros ([[p k'] v] & -> & H)%list_elem_of_fmap. eauto.
Qed.

Lemma nodes_in_ptrs t p k v : (p, k, v) ∈ nodes t → p ∈ ptrs t.
Proof.
  intros H. rewrite <- nodes_ptrs. apply list_elem_of_fmap. by exists (p, k, v).
Qed.

Lemma ptrs_nodes t p : p ∈ ptrs t → ∃ k v, (p, k, v) ∈ nodes t.
Proof.
  rewrite <- nodes_ptrs. intros ([[p' k] v] & -> & H)%list_elem_of_fmap. eauto.
Qed.

(** [search] returns the node that holds the key. *)
Lemma search_node fuel s t p k v :
  Inv s t → (p, k, v) ∈ nodes t → (tree_size t < fuel)%nat →
  search fuel k s = Done (Some p) s.
Proof.
  intros ([n S0] & Hrb & Ho) Hin Hfuel. rewrite (search_sim fuel k s t n S0 Hfuel).
  pose proof (nodes_inorder _ _ _ _ Hin) as Hk.
  apply find_iff in Hk as [[cs tz] Hf]; [|done]. rewrite Hf.
  destruct (find_nodes _ _ _ _ Hf) as (z & vz & Hz & Hin').
  pose proof (nodes_key_inj t _ _ Ho Hin Hin' eq_refl) as [= -> ->]. by rewrite Hz.
Qed.

Lemma value_at_found fuel s t p k v :
  Inv s t → (p, k, v) ∈ nodes t → (tree_size t < fuel)%nat →
  value_at fuel k s = Done (Some v) s.
Proof.
  intros HI Hin Hfuel. unfold value_at, bind.
  rewrite (search_node fuel s t p k v HI Hin Hfuel). cbn [is_null].
  destruct HI as ([n S0] & _). destruct (nodes_cell s t n p k v S0 Hin) as (nd & Hnd & _ & <-).
  by rewrite (get_eq _ _ _ _ Hnd).
Qed.

Lemma value_at_absent fuel s t k :
  Inv s t → k ∉ inorder t → (tree_size t < fuel)%nat →
  value_at fuel k s = Done None s.
Proof.
  intros HI Hk Hfuel. unfold value_at, bind.
  by rewrite (search_absent fuel k s t HI Hk Hfuel).
Qed.

(** [value_at] always returns, in the state it was called in. *)
Lemma value_at_total fuel s t k :
  Inv s t → (tree_size t < fuel)%nat →
  ∃ r, value_at fuel k s = Done r s
       ∧ (∀ v, r = Some v ↔ ∃ p, (p, k, v) ∈ nodes t).
Proof.
  intros HI Hfuel. destruct (elem_of_dec_Z k (inorder t)) as [Hk|Hk].
  - destruct (inorder_nodes _ _ Hk) as (p & v & Hin). exists (Some v).
    split; [by eapply value_at_found|]. intros v'. split.
    + intros [= <-]. eauto.
    + intros [p' Hin']. destruct HI as (_ & _ & Ho).
      by pose proof (nodes_key_inj t _ _ Ho Hin Hin' eq_refl) as [= -> ->].
  - exists None. split; [by eapply value_at_absent|]. intros v. split; [done|].
    intros [p Hin]. by apply nodes_inorder in Hin.
Qed.

(** ** Which cells are allocated *)

#[export] Instance same_dom_quiet : Quiet same_dom.
Proof.
  split; unfold same_dom.
  - done.
  - intros s1 s2 s3 H1 H2. by rewrite H2.
  - intros s h H. simpl. apply set_eq. intros p. rewrite !elem_of_dom.
    specialize (H p). destruct (heap s !! p), (h !! p); try done;
      split; eauto; by intros [? ?].
Qed.

Lemma dom_set_root r : keeps same_dom (set_root r).
Proof. by intros s. Qed.

Lemma dom_count_rotation : keeps same_dom count_rotation.
Proof. by intros s. Qed.

Lemma dom_count_transplant : keeps same_dom count_transplant.
Proof. by intros s. Qed.

Lemma dom_set_color x c : keeps same_dom (set_color x c).
Proof.
  intros s. unfold set_color, modify. destruct x as [p|]; [|done].
  destruct (heap s !! p) as [nd|] eqn:Hp; [|done]. unfold outcome, same_dom. cbn [heap].
  rewrite dom_insert_L. apply elem_of_dom_2 in Hp.
  apply subseteq_union_1_L. by apply singleton_subseteq_l.
Qed.

#[export] Hint Resolve dom_set_root dom_count_rotation dom_count_transplant
  dom_set_color : keeps.

Lemma dom_leftRotate x : keeps same_dom (leftRotate x).
Proof. unfold leftRotate. keeps_go. Qed.

Lemma dom_rightRotate x : keeps same_dom (rightRotate x).
Proof. unfold rightRotate. keeps_go. Qed.

Lemma dom_transplant u v : keeps same_dom (transplant u v).
Proof. unfold transplant. keeps_go. Qed.

#[export] Hint Resolve dom_leftRotate dom_rightRotate dom_transplant : keeps.

Lemma dom_minimum_loop fuel : ∀ x, keeps same_dom (minimum_loop fuel x).
Proof. induction fuel as [|fuel IH]; intros x; simpl; keeps_go. Qed.

Lemma dom_insertFixup_loop fuel : ∀ z, keeps same_dom (insertFixup_loop fuel z).
Proof. induction fuel as [|fuel IH]; intros z; simpl; keeps_go. Qed.

Lemma dom_deleteFixup_loop fuel : ∀ x p, keeps same_dom (deleteFixup_loop fuel x p).
Proof. induction fuel as [|fuel IH]; intros x p; simpl; keeps_go. Qed.

#[export] Hint Resolve dom_minimum_loop dom_insertFixup_loop dom_deleteFixup_loop : keeps.

Lemma dom_insert_loop fuel k : ∀ y x, keeps same_dom (insert_loop fuel k y x).
Proof. induction fuel as [|fuel IH]; intros y x; simpl; keeps_go. Qed.

Lemma dom_remove_unlink fuel z : keeps same_dom (remove_unlink fuel z).
Proof. unfold remove_unlink, minimum. keeps_go. Qed.

Lemma dom_deleteFixup fuel x p : keeps same_dom (deleteFixup fuel x p).
Proof. unfold deleteFixup. keeps_go. Qed.

Lemma dom_insertFixup fuel z : keeps same_dom (insertFixup fuel z).
Proof. unfold insertFixup. keeps_go. Qed.

(** [insert] allocates one cell, whether it returns or throws. *)
Lemma insert_dom fuel k v s :
  outcome (insert fuel k v s)
          (λ s', dom (heap s') = {[fresh (dom (heap s))]} ∪ dom (heap s)).
Proof.
  pose proof dom_insert_loop. pose proof dom_insertFixup.
  assert (∀ p, keeps same_dom
            (x ← get_root;
             y ← insert_loop fuel k None x;
             set_parent p y;;
             (if is_null y then set_root p
              else yk ← get key y;
                   if k <? yk then set_left y p else set_right y p);;
             insertFixup fuel p)) as Hrest by (intros p; keeps_go).
  unfold insert. unfold bind at 1. unfold new_node.
  eapply outcome_impl; [apply Hrest|]. intros s' Hs'. unfold same_dom in Hs'.
  rewrite Hs'. cbn [heap]. by rewrite dom_insert_L.
Qed.

(** Once [search] has found [z], [remove] releases [z] and nothing else. *)
Lemma remove_dom fuel k s z :
  search fuel k s = Done (Some z) s →
  match remove fuel k s with
  | Done _ s' => dom (heap s') = dom (heap s) ∖ {[z]}
  | _ => True
  end.
Proof.
  intros Hs. unfold remove. unfold bind at 1. rewrite Hs. cbn [is_null].
  unfold bind at 1. pose proof (dom_remove_unlink fuel (Some z) s) as H1.
  destruct (remove_unlink fuel (Some z) s) as [[[x fp] c] s1|e s1| |]; simpl in H1 |- *; try done.
  unfold bind at 1. unfold delete_node.
  destruct (heap s1 !! z) as [nz|] eqn:Hz; [|done].
  set (s2 := mkTree _ _ _ _).
  assert (dom (heap s2) = dom (heap s) ∖ {[z]}) as H2.
  { unfold s2. cbn [heap]. rewrite dom_delete_L. unfold same_dom in H1. by rewrite H1. }
  destruct (is_black c); [|by simpl].
  pose proof (dom_deleteFixup fuel x fp s2) as H3.
  destruct (deleteFixup fuel x fp s2); try done. simpl in H3. unfold same_dom in H3.
  by rewrite H3.
Qed.

(** ** Keys and values stay where they are *)

#[export] Instance data_kept_quiet : Quiet data_kept.
Proof.
  split; unfold data_kept.
  - intros s p nd Hp. eauto.
  - intros s1 s2 s3 H1 H2 p nd Hp.
    destruct (H1 p nd Hp) as (nd2 & Hp2 & Hk2 & Hv2).
    destruct (H2 p nd2 Hp2) as (nd3 & Hp3 & Hk3 & Hv3).
    exists nd3. split; [done|]. split; congruence.
  - intros s h H p nd Hp. specialize (H p). rewrite Hp in H. cbn [heap].
    destruct (h !! p) as [nd'|]; [|done]. exists nd'. tauto.
Qed.

Lemma kept_set_root r : keeps data_kept (set_root r).
Proof. intros s p nd Hp. eauto. Qed.

Lemma kept_count_rotation : keeps data_kept count_rotation.
Proof. intros s p nd Hp. eauto. Qed.

Lemma kept_count_transplant : keeps data_kept count_transplant.
Proof. intros s p nd Hp. eauto. Qed.

Lemma kept_set_color x c : keeps data_kept (set_color x c).
Proof.
  intros s. unfold set_color, modify. destruct x as [p|]; [|done].
  destruct (heap s !! p) as [n|] eqn:Hp; [|done]. intros q nd Hq. cbn [heap].
  destruct (decide (q = p)) as [->|Hne].
  - rewrite lookup_insert_eq. eexists. split; [done|]. simpl. split; congruence.
  - rewrite lookup_insert_ne by done. eauto.
Qed.

Lemma kept_new_node k v : keeps data_kept (new_node k v).
Proof.
  intros s q nd Hq. cbn [heap]. rewrite lookup_insert_ne; [eauto|].
  intros <-. pose proof (is_fresh (dom (heap s))) as Hf.
  apply Hf. by apply elem_of_dom_2 in Hq.
Qed.

#[export] Hint Resolve kept_set_root kept_count_rotation kept_count_transplant
  kept_set_color kept_new_node : keeps.

Lemma kept_leftRotate x : keeps data_kept (leftRotate x).
Proof. unfold leftRotate. keeps_go. Qed.

Lemma kept_rightRotate x : keeps data_kept (rightRotate x).
Proof. unfold rightRotate. keeps_go. Qed.

Lemma kept_transplant u v : keeps data_kept (transplant u v).
Proof. unfold transplant. keeps_go. Qed.

#[export] Hint Resolve kept_leftRotate kept_rightRotate kept_transplant : keeps.

Lemma kept_minimum_loop fuel : ∀ x, keeps data_kept (minimum_loop fuel x).
Proof. induction fuel as [|fuel IH]; intros x; simpl; keeps_go. Qed.

Lemma kept_insert_loop fuel k : ∀ y x, keeps data_kept (insert_loop fuel k y x).
Proof. induction fuel as [|fuel IH]; intros y x; simpl; keeps_go. Qed.

Lemma kept_insertFixup_loop fuel : ∀ z, keeps data_kept (insertFixup_loop fuel z).
Proof. induction fuel as [|fuel IH]; intros z; simpl; keeps_go. Qed.

Lemma kept_deleteFixup_loop fuel : ∀ x p, keeps data_kept (deleteFixup_loop fuel x p).
Proof. induction fuel as [|fuel IH]; intros x p; simpl; keeps_go. Qed.

#[export] Hint Resolve kept_minimum_loop kept_insert_loop kept_insertFixup_loop
  kept_deleteFixup_loop : keeps.

Lemma kept_insert fuel k v : keeps data_kept (insert fuel k v).
Proof. unfold insert, insertFixup. keeps_go. Qed.

Lemma kept_remove_unlink fuel z : keeps data_kept (remove_unlink fuel z).
Proof. unfold remove_unlink, minimum. keeps_go. Qed.

Lemma kept_deleteFixup fuel x p : keeps data_kept (deleteFixup fuel x p).
Proof. unfold deleteFixup. keeps_go. Qed.

(** [remove] keeps the key and value of every cell but the one it releases. *)
Lemma remove_kept fuel k s z :
  search fuel k s = Done (Some z) s →
  match remove fuel k s with
  | Done _ s' =>
      ∀ p nd, p ≠ z → heap s !! p = Some nd →
              ∃ nd', heap s' !! p = Some nd' ∧ key nd' = key nd ∧ value nd' = value nd
  | _ => True
  end.
Proof.
  intros Hs. unfold remove. unfold bind at 1. rewrite Hs. cbn [is_null].
  unfold bind at 1. pose proof (kept_remove_unlink fuel (Some z) s) as H1.
  destruct (remove_unlink fuel (Some z) s) as [[[x fp] c] s1|e s1| |]; simpl in H1 |- *; try done.
  unfold bind at 1. unfold delete_node.
  destruct (heap s1 !! z) as [nz|] eqn:Hz; [|done].
  set (s2 := mkTree _ _ _ _).
  assert (∀ p nd, p ≠ z → heap s !! p = Some nd →
            ∃ nd', heap s2 !! p = Some nd' ∧ key nd' = key nd ∧ value nd' = value nd) as H2.
  { intros p nd Hne Hp. unfold s2. cbn [heap]. rewrite lookup_delete_ne by done.
    by apply H1. }
  destruct (is_black c); [|by simpl].
  pose proof (kept_deleteFixup fuel x fp s2) as H3.
  destruct (deleteFixup fuel x fp s2) as [[] s3| | |]; try done. simpl in H3.
  intros p nd Hne Hp. destruct (H2 p nd Hne Hp) as (nd2 & Hp2 & Hk2 & Hv2).
  destruct (H3 p nd2 Hp2) as (nd3 & Hp3 & Hk3 & Hv3). exists nd3.
  split; [done|]. split; congruence.
Qed.

Lemma option_iff_eq (r r' : option Z) : (∀ v, r = Some v ↔ r' = Some v) → r = r'.
Proof.
  intros H. destruct r as [v|], r' as [v'|]; try done.
  - by apply (H v').
  - by pose proof (proj1 (H v) eq_refl).
  - by pose proof (proj2 (H v') eq_refl).
Qed.

Lemma value_at_agree fuel s t s' t' k :
  Inv s t → Inv s' t' → (tree_size t < fuel)%nat → (tree_size t' < fuel)%nat →
  (∀ v, (∃ p, (p, k, v) ∈ nodes t) ↔ ∃ p, (p, k, v) ∈ nodes t') →
  ∃ r, value_at fuel k s = Done r s ∧ value_at fuel k s' = Done r s'.
Proof.
  intros HI HI' Hfuel Hfuel' Hiff.
  destruct (value_at_total fuel s t k HI Hfuel) as (r & Hr & Hspec).
  destruct (value_at_total fuel s' t' k HI' Hfuel') as (r' & Hr' & Hspec').
  exists r. split; [done|]. rewrite Hr'. f_equal. apply option_iff_eq. intros v.
  by rewrite Hspec, Hspec', Hiff.
Qed.

(** * Further properties of the code *)

(** X1. After [insert(k, v)] of a key the tree does not hold, looking [k]
    up (search, then the value of the node found) yields [v], and looking
    any other key up yields what it yielded before. *)
Theorem insert_then_lookup (fuel : nat) (k v : Z) (s : RedBlackTree) (t : tree) :
  Inv s t → k ∉ inorder t → (S (tree_size t) < fuel)%nat →
  ∃ s', insert fuel k v s = Done tt s'
    ∧ value_at fuel k s' = Done (Some v) s'
    ∧ ∀ k', k' ≠ k → ∃ r, value_at fuel k' s = Done r s ∧ value_at fuel k' s' = Done r s'.
Proof.
  intros HI Hk Hfuel.
  destruct (insert_nodes fuel k v s t HI Hk) as (s' & t' & l1 & l2 & Hrun & HI' & H1 & H2);
    [lia|].
  assert (tree_size t' = S (tree_size t)) as Hsz.
  { rewrite <- !nodes_length, H1, H2, !length_app. simpl. lia. }
  exists s'. split; [done|]. split.
  - apply (value_at_found fuel s' t' (fresh (dom (heap s))) k v HI'); [|lia].
    rewrite H2, elem_of_app, elem_of_cons. tauto.
  - intros k' Hne. apply (value_at_agree fuel s t s' t' k' HI HI'); [lia..|].
    intros v'. rewrite H1, H2. setoid_rewrite elem_of_app. setoid_rewrite elem_of_cons.
    split; intros [p Hp]; exists p; [tauto|].
    destruct Hp as [?|[[= _ ? _]|?]]; tauto.
Qed.

Lemma insert_then_lookup_witness :
  Inv two_nodes two_tree ∧ (15 ∉ inorder two_tree) ∧ (S (tree_size two_tree) < 4)%nat
  ∧ ∃ s', insert 4 15 7 two_nodes = Done tt s'
    ∧ value_at 4 15 s' = Done (Some 7) s'
    ∧ ∀ k', k' ≠ 15 →
        ∃ r, value_at 4 k' two_nodes = Done r two_nodes ∧ value_at 4 k' s' = Done r s'.
Proof.
  assert (15 ∉ inorder two_tree) as Hk by (apply (bool_decide_unpack _); reflexivity).
  assert (S (tree_size two_tree) < 4)%nat as Hfuel by (simpl; lia).
  split; [exact Inv_two_nodes|]. repeat (split; [assumption|]).
  exact (insert_then_lookup 4 15 7 two_nodes two_tree Inv_two_nodes Hk Hfuel).
Defined.

(** X2. After [remove(k)] of a key the tree holds, looking [k] up finds
    nothing, and looking any other key up yields what it yielded before. *)
Theorem remove_then_lookup (fuel : nat) (k : Z) (s : RedBlackTree) (t : tree) :
  Inv s t → k ∈ inorder t → (tree_size t < fuel)%nat →
  ∃ s', remove fuel k s = Done tt s'
    ∧ value_at fuel k s' = Done None s'
    ∧ ∀ k', k' ≠ k → ∃ r, value_at fuel k' s = Done r s ∧ value_at fuel k' s' = Done r s'.
Proof.
  intros HI Hk Hfuel.
  destruct (remove_nodes fuel k s t HI Hk Hfuel)
    as (s' & t' & l1 & l2 & z & v & Hrun & HI' & _ & H1 & H2).
  assert (S (tree_size t') = tree_size t) as Hsz.
  { rewrite <- !nodes_length, H1, H2, !length_app. simpl. lia. }
  exists s'. split; [done|]. split.
  - apply (value_at_absent fuel s' t' k HI'); [|lia].
    destruct HI as (_ & _ & Ho). apply ordered_sorted in Ho.
    rewrite <- nodes_keys, H1, fmap_app, fmap_cons in Ho. cbn [fst snd] in Ho.
    rewrite <- nodes_keys, H2, fmap_app.
    apply StronglySorted_app in Ho as (H12 & S1 & S2).
    apply StronglySorted_cons in S2 as [Hall S2]. rewrite Forall_forall in Hall.
    rewrite elem_of_app. intros [Hin|Hin].
    + assert (k < k); [|lia]. apply H12; [done|by left].
    + specialize (Hall k Hin). lia.
  - intros k' Hne. apply (value_at_agree fuel s t s' t' k' HI HI'); [lia..|].
    intros v'. rewrite H1, H2. setoid_rewrite elem_of_app. setoid_rewrite elem_of_cons.
    split; intros [p Hp]; exists p; [|tauto].
    destruct Hp as [?|[[= _ ? _]|?]]; tauto.
Qed.

Lemma remove_then_lookup_witness :
  Inv two_nodes two_tree ∧ 10 ∈ inorder two_tree ∧ (tree_size two_tree < 3)%nat
  ∧ ∃ s', remove 3 10 two_nodes = Done tt s'
    ∧ value_at 3 10 s' = Done None s'
    ∧ ∀ k', k' ≠ 10 →
        ∃ r, value_at 3 k' two_nodes = Done r two_nodes ∧ value_at 3 k' s' = Done r s'.
Proof.
  assert (10 ∈ inorder two_tree) as Hk by (apply (bool_decide_unpack _); reflexivity).
  assert (tree_size two_tree < 3)%nat as Hfuel by (simpl; lia).
  split; [exact Inv_two_nodes|]. repeat (split; [assumption|]).
  exact (remove_then_lookup 3 10 two_nodes two_tree Inv_two_nodes Hk Hfuel).
Defined.

(** X3. A successful [insert(k, v)] allocates exactly one cell, at an
    address that was free; the cell holds [k] and [v] and is the node
    [search(k)] returns afterwards.  Every cell allocated before is still
    allocated and holds the key and value it held: handles obtained earlier
    stay valid. *)
Theorem insert_allocates_one_node (fuel : nat) (k v : Z) (s : RedBlackTree) (t : tree) :
  Inv s t → k ∉ inorder t → (S (tree_size t) < fuel)%nat →
  ∃ s' p nd, insert fuel k v s = Done tt s'
    ∧ heap s !! p = None ∧ heap s' !! p = Some nd ∧ key nd = k ∧ value nd = v
    ∧ search fuel k s' = Done (Some p) s'
    ∧ dom (heap s') = {[p]} ∪ dom (heap s)
    ∧ ∀ q nq, heap s !! q = Some nq →
        ∃ nq', heap s' !! q = Some nq' ∧ key nq' = key nq ∧ value nq' = value nq.
Proof.
  intros HI Hk Hfuel.
  destruct (insert_nodes fuel k v s t HI Hk) as (s' & t' & l1 & l2 & Hrun & HI' & H1 & H2);
    [lia|].
  assert (tree_size t' = S (tree_size t)) as Hsz.
  { rewrite <- !nodes_length, H1, H2, !length_app. simpl. lia. }
  set (p := fresh (dom (heap s))) in *.
  assert ((p, k, v) ∈ nodes t') as Hin by (rewrite H2, elem_of_app, elem_of_cons; tauto).
  pose proof HI' as ([n' S1] & _).
  destruct (nodes_cell s' t' n' p k v S1 Hin) as (nd & Hnd & Hkey & Hval).
  exists s', p, nd. split; [done|].
  split; [apply not_elem_of_dom, is_fresh|]. do 3 (split; [done|]).
  split; [apply (search_node fuel s' t' p k v HI' Hin); lia|].
  pose proof (insert_dom fuel k v s) as Hdom. pose proof (kept_insert fuel k v s) as Hkept.
  rewrite Hrun in Hdom, Hkept. simpl in Hdom, Hkept. split; [done|]. exact Hkept.
Qed.

Lemma insert_allocates_one_node_witness :
  Inv two_nodes two_tree ∧ (15 ∉ inorder two_tree) ∧ (S (tree_size two_tree) < 4)%nat
  ∧ ∃ s' p nd, insert 4 15 7 two_nodes = Done tt s'
    ∧ heap two_nodes !! p = None ∧ heap s' !! p = Some nd ∧ key nd = 15 ∧ value nd = 7
    ∧ search 4 15 s' = Done (Some p) s'
    ∧ dom (heap s') = {[p]} ∪ dom (heap two_nodes)
    ∧ ∀ q nq, heap two_nodes !! q = Some nq →
        ∃ nq', heap s' !! q = Some nq' ∧ key nq' = key nq ∧ value nq' = value nq.
Proof.
  assert (15 ∉ inorder two_tree) as Hk by (apply (bool_decide_unpack _); reflexivity).
  assert (S (tree_size two_tree) < 4)%nat as Hfuel by (simpl; lia).
  split; [exact Inv_two_nodes|]. repeat (split; [assumption|]).
  exact (insert_allocates_one_node 4 15 7 two_nodes two_tree Inv_two_nodes Hk Hfuel).
Defined.

(** X4. A successful [remove(k)] releases exactly one cell, the node that
    [search(k)] finds; every other cell stays allocated with its key and
    value: the successor is relinked in the place of the removed node, its
    key is not copied. *)
Theorem remove_releases_found_node (fuel : nat) (k : Z) (s : RedBlackTree) (t : tree) :
  Inv s t → k ∈ inorder t → (tree_size t < fuel)%nat →
  ∃ s' z nz, remove fuel k s = Done tt s'
    ∧ search fuel k s = Done (Some z) s
    ∧ heap s !! z = Some nz ∧ key nz = k ∧ heap s' !! z = None
    ∧ dom (heap s') = dom (heap s) ∖ {[z]}
    ∧ ∀ q nq, q ≠ z → heap s !! q = Some nq →
        ∃ nq', heap s' !! q = Some nq' ∧ key nq' = key nq ∧ value nq' = value nq.
Proof.
  intros HI Hk Hfuel.
  destruct (remove_nodes fuel k s t HI Hk Hfuel)
    as (s' & t' & l1 & l2 & z & v & Hrun & HI' & Hs & H1 & H2).
  pose proof HI as ([n S0] & _).
  assert ((z, k, v) ∈ nodes t) as Hin by (rewrite H1, elem_of_app, elem_of_cons; tauto).
  destruct (nodes_cell s t n z k v S0 Hin) as (nz & Hnz & Hkey & _).
  pose proof (remove_dom fuel k s z Hs) as Hdom.
  pose proof (remove_kept fuel k s z Hs) as Hkept. rewrite Hrun in Hdom, Hkept.
  exists s', z, nz. do 4 (split; [done|]). split; [|done].
  apply not_elem_of_dom. rewrite Hdom. apply not_elem_of_difference. right.
  by apply elem_of_singleton.
Qed.

Lemma remove_releases_found_node_witness :
  Inv two_nodes two_tree ∧ 10 ∈ inorder two_tree ∧ (tree_size two_tree < 3)%nat
  ∧ ∃ s' z nz, remove 3 10 two_nodes = Done tt s'
    ∧ search 3 10 two_nodes = Done (Some z) two_nodes
    ∧ heap two_nodes !! z = Some nz ∧ key nz = 10 ∧ heap s' !! z = None
    ∧ dom (heap s') = dom (heap two_nodes) ∖ {[z]}
    ∧ ∀ q nq, q ≠ z → heap two_nodes !! q = Some nq →
        ∃ nq', heap s' !! q = Some nq' ∧ key nq' = key nq ∧ value nq' = value nq.
Proof.
  assert (10 ∈ inorder two_tree) as Hk by (apply (bool_decide_unpack _); reflexivity).
  assert (tree_size two_tree < 3)%nat as Hfuel by (simpl; lia).
  split; [exact Inv_two_nodes|]. repeat (split; [assumption|]).
  exact (remove_releases_found_node 3 10 two_nodes two_tree Inv_two_nodes Hk Hfuel).
Defined.

(** ** Teardown *)

Lemma repr_ext h h' par t :
  (∀ q, q ∈ ptrs t → h' !! q = h !! q) → repr h par t → repr h' par t.
Proof.
  revert par. induction t as [|p c k v l IHl r IHr]; intros par Hext; simpl; [done|].
  intros (Hc & Hl & Hr). split; [|split].
  - rewrite Hext; [done|]. simpl. rewrite elem_of_app, elem_of_cons. tauto.
  - apply IHl; [|done]. intros q Hq. apply Hext. simpl. rewrite elem_of_app. tauto.
  - apply IHr; [|done]. intros q Hq. apply Hext. simpl.
    rewrite elem_of_app, elem_of_cons. tauto.
Qed.

Lemma runs_delete_node p s n (Q : unit → RedBlackTree → Prop) :
  heap s !! p = Some n →
  Q tt (mkTree (delete p (heap s)) (root s) (rotations s) (transplants s)) →
  runs (delete_node (Some p)) s Q.
Proof. intros H HQ. eexists _, _. unfold delete_node. rewrite H. eauto. Qed.

Lemma destroy_spec t : ∀ fuel par s,
  repr (heap s) par t → NoDup (ptrs t) → (tree_size t < fuel)%nat →
  runs (destroy fuel (rp t)) s (λ _ s', released (ptrs t) s s').
Proof.
  induction t as [|p c k v l IHl r IHr]; intros fuel par s Hr Hnd Hfuel;
    (destruct fuel as [|fuel]; [simpl in Hfuel; lia|]).
  - apply runs_ret. split; [intros q Hq; by apply elem_of_nil in Hq|by repeat split].
  - destruct Hr as (Hc & Hl & Hrr). simpl in Hfuel, Hnd.
    apply NoDup_app in Hnd as (Hndl & Hlr & Hnd).
    apply NoDup_cons in Hnd as (Hpr & Hndr).
    assert (p ∉ ptrs l) as Hpl.
    { intros Hin. apply (Hlr p Hin). by left. }
    cbn [destroy rp is_null].
    apply runs_bind. eapply runs_get; [exact Hc|]. cbn [left].
    apply runs_bind. eapply runs_conseq; [apply (IHl fuel (Some p)); [done..|lia]|].
    intros [] s1 (H1a & H1b & H1c & H1d & H1e). cbn beta.
    assert (heap s1 !! p = Some (mkNode k v c par (rp l) (rp r))) as Hc1
      by (by rewrite H1b).
    apply runs_bind. eapply runs_get; [exact Hc1|]. cbn [right].
    apply runs_bind. eapply runs_conseq; [apply (IHr fuel (Some p)); [|done|lia]|].
    { eapply repr_ext; [|exact Hrr]. intros q Hq. apply H1b.
      intros Hin. apply (Hlr q Hin). by right. }
    intros [] s2 (H2a & H2b & H2c & H2d & H2e). cbn beta.
    assert (heap s2 !! p = Some (mkNode k v c par (rp l) (rp r))) as Hc2
      by (by rewrite H2b).
    eapply runs_delete_node; [exact Hc2|].
    split; [|split; [|by cbn; repeat split; congruence]]; cbn [heap ptrs].
    + intros q. rewrite elem_of_app, elem_of_cons. intros Hq.
      destruct (decide (q = p)) as [->|Hne]; [by rewrite lookup_delete_eq|].
      rewrite lookup_delete_ne by done.
      destruct (decide (q ∈ ptrs r)) as [Hqr|Hqr]; [by apply H2a|].
      rewrite H2b by done. apply H1a. tauto.
    + intros q. rewrite elem_of_app, elem_of_cons. intros Hq.
      rewrite lookup_delete_ne by (intros ->; tauto).
      rewrite H2b by tauto. apply H1b. tauto.
Qed.

Lemma destructor_spec fuel s t n :
  St s t n → (tree_size t < fuel)%nat →
  ∃ s', destructor fuel s = Done tt s' ∧ released (ptrs t) s s'.
Proof.
  intros (Hr & Hroot & Hnd & _) Hfuel.
  destruct (destroy_spec t fuel None s Hr Hnd Hfuel) as ([] & s' & Hrun & Hrel).
  exists s'. split; [|done]. unfold destructor, bind, get_root. by rewrite Hroot.
Qed.

(** *** Successful operations keep the heap tight *)

Lemma insert_tight fuel k v s t :
  Inv s t → tight s t → k ∉ inorder t → (tree_size t < fuel)%nat →
  ∃ s' t', insert fuel k v s = Done tt s' ∧ Inv s' t' ∧ tight s' t'
           ∧ tree_size t' = S (tree_size t).
Proof.
  intros HI Ht Hk Hfuel.
  destruct (insert_nodes fuel k v s t HI Hk Hfuel)
    as (s' & t' & l1 & l2 & Hrun & HI' & H1 & H2).
  exists s', t'. split; [done|]. split; [done|]. split.
  - pose proof (insert_dom fuel k v s) as Hdom. rewrite Hrun in Hdom. simpl in Hdom.
    set (p := fresh (dom (heap s))) in *. unfold tight in *. rewrite Hdom, Ht, <- !nodes_ptrs, H1, H2.
    rewrite !fmap_app, fmap_cons, !list_to_set_app_L, list_to_set_cons. cbn [fst].
    apply set_eq. intros q.
    rewrite !elem_of_union, !elem_of_list_to_set, !elem_of_singleton. tauto.
  - rewrite <- !nodes_length, H1, H2, !length_app. simpl. lia.
Qed.

Lemma remove_tight fuel k s t :
  Inv s t → tight s t → k ∈ inorder t → (tree_size t < fuel)%nat →
  ∃ s' t', remove fuel k s = Done tt s' ∧ Inv s' t' ∧ tight s' t'
           ∧ S (tree_size t') = tree_size t.
Proof.
  intros HI Ht Hk Hfuel.
  destruct (remove_nodes fuel k s t HI Hk Hfuel)
    as (s' & t' & l1 & l2 & z & v & Hrun & HI' & Hs & H1 & H2).
  exists s', t'. split; [done|]. split; [done|]. split.
  - pose proof (remove_dom fuel k s z Hs) as Hdom. rewrite Hrun in Hdom.
    pose proof HI as ([n (_ & _ & Hnd & _)] & _).
    rewrite <- nodes_ptrs, H1, fmap_app, fmap_cons in Hnd. cbn [fst] in Hnd.
    apply NoDup_app in Hnd as (_ & Hz1 & Hnd). apply NoDup_cons in Hnd as [Hz2 _].
    unfold tight in *. rewrite Hdom, Ht, <- !nodes_ptrs, H1, H2.
    rewrite !fmap_app, fmap_cons, !list_to_set_app_L, list_to_set_cons. cbn [fst].
    apply set_eq. intros q.
    rewrite elem_of_difference, !elem_of_union, !elem_of_list_to_set, !elem_of_singleton.
    split; [tauto|]. intros [Hq|Hq]; (split; [tauto|]); intros ->; [|done].
    apply (Hz1 z Hq). by left.
  - rewrite <- !nodes_length, H1, H2, !length_app. simpl. lia.
Qed.

Lemma run_all_tight fuel ops : ∀ s t s',
  Inv s t → tight s t → (tree_size t + length ops < fuel)%nat →
  run_all fuel ops s = Done tt s' →
  ∃ t', Inv s' t' ∧ tight s' t' ∧ (tree_size t' ≤ tree_size t + length ops)%nat.
Proof.
  induction ops as [|op ops IH]; intros s t s' HI Ht Hfuel Hrun.
  - injection Hrun as <-. exists t. split; [done|]. split; [done|]. simpl. lia.
  - simpl in Hfuel. cbn [run_all] in Hrun. unfold bind in Hrun.
    assert (∃ s1 t1, apply_op fuel op s = Done tt s1 ∧ Inv s1 t1 ∧ tight s1 t1
                     ∧ (tree_size t1 ≤ S (tree_size t))%nat) as (s1 & t1 & Hop & HI1 & Ht1 & Hsz).
    { destruct op as [k v|k]; cbn [apply_op] in *.
      - destruct (elem_of_dec_Z k (inorder t)) as [Hk|Hk].
        + destruct (insert_dup_ok fuel k v s t HI Hk) as (s1 & Hthrow & _); [lia|].
          by rewrite Hthrow in Hrun.
        + destruct (insert_tight fuel k v s t HI Ht Hk) as (s1 & t1 & ? & ? & ? & ?); [lia|].
          exists s1, t1. do 3 (split; [done|]). lia.
      - destruct (elem_of_dec_Z k (inorder t)) as [Hk|Hk].
        + destruct (remove_tight fuel k s t HI Ht Hk) as (s1 & t1 & ? & ? & ? & ?); [lia|].
          exists s1, t1. do 3 (split; [done|]). lia.
        + rewrite (remove_absent_ok fuel k s t HI Hk) in Hrun; [done|lia]. }
    rewrite Hop in Hrun.
    destruct (IH s1 t1 s' HI1 Ht1) as (t' & HI' & Ht' & Hsz'); [lia|done|].
    exists t'. split; [done|]. split; [done|]. simpl. lia.
Qed.

(** X5. The destructor returns for every tree object: it releases each
    node of the tree once (releasing a cell twice would be a fault) and
    leaves every other cell of the heap as it is.  The root reference is
    not reset. *)
Theorem destructor_releases_tree (fuel : nat) (s : RedBlackTree) (t : tree) (n : nat) :
  St s t n → (tree_size t < fuel)%nat →
  ∃ s', destructor fuel s = Done tt s'
    ∧ (∀ q, q ∈ ptrs t → heap s' !! q = None)
    ∧ (∀ q, q ∉ ptrs t → heap s' !! q = heap s !! q)
    ∧ root s' = root s.
Proof.
  intros S0 Hfuel. destruct (destructor_spec fuel s t n S0 Hfuel) as (s' & Hrun & Hrel).
  exists s'. split; [done|]. destruct Hrel as (? & ? & ? & _). done.
Qed.

Lemma destructor_releases_tree_witness :
  St two_nodes two_tree 0 ∧ (tree_size two_tree < 3)%nat
  ∧ ∃ s', destructor 3 two_nodes = Done tt s'
    ∧ (∀ q, q ∈ ptrs two_tree → heap s' !! q = None)
    ∧ (∀ q, q ∉ ptrs two_tree → heap s' !! q = heap two_nodes !! q)
    ∧ root s' = root two_nodes.
Proof.
  assert (St two_nodes two_tree 0) as S0.
  { repeat split; try reflexivity. apply (bool_decide_unpack _). reflexivity. }
  assert (tree_size two_tree < 3)%nat as Hfuel by (simpl; lia).
  repeat (split; [assumption|]).
  exact (destructor_releases_tree 3 two_nodes two_tree 0 S0 Hfuel).
Defined.

(** X6. When every operation of a sequence of [insert] and [remove] calls
    on an initially empty tree returns normally, the destructor run
    afterwards leaves no cell allocated: without a rejected insertion
    nothing leaks. *)
Theorem no_leak_without_failures (fuel : nat) (ops : list Op) (s : RedBlackTree) :
  (length ops < fuel)%nat →
  run_all fuel ops empty_tree = Done tt s →
  ∃ s', destructor fuel s = Done tt s' ∧ heap s' = ∅.
Proof.
  intros Hfuel Hrun.
  destruct (run_all_tight fuel ops empty_tree E s Inv_empty) as (t & HI & Ht & Hsz);
    [done|simpl; lia|done|].
  destruct HI as ([n S0] & _). simpl in Hsz.
  destruct (destructor_spec fuel s t n S0) as (s' & Hd & H1 & H2 & _); [lia|].
  exists s'. split; [done|]. apply map_empty. intros q.
  destruct (decide (q ∈ ptrs t)) as [Hq|Hq]; [by apply H1|].
  rewrite H2 by done. apply not_elem_of_dom. unfold tight in Ht. rewrite Ht.
  by rewrite elem_of_list_to_set.
Qed.

Lemma no_leak_without_failures_witness :
  (length five_ops < 6)%nat
  ∧ ∃ s, run_all 6 five_ops empty_tree = Done tt s
         ∧ ∃ s', destructor 6 s = Done tt s' ∧ heap s' = ∅.
Proof.
  assert (length five_ops < 6)%nat as Hfuel by (simpl; lia).
  split; [exact Hfuel|].
  destruct (run_all 6 five_ops empty_tree) as [[] s| | |] eqn:Hrun.
  - exists s. split; [reflexivity|].
    exact (no_leak_without_failures 6 five_ops s Hfuel Hrun).
  - exfalso. revert Hrun. vm_compute. discriminate.
  - exfalso. revert Hrun. vm_compute. discriminate.
  - exfalso. revert Hrun. vm_compute. discriminate.
Defined.

(** ** Copies *)

Lemma same_shape_inorder t : ∀ t', same_shape t t' → inorder t' = inorder t.
Proof.
  induction t as [|p c k v l IHl r IHr]; intros [|p' c' k' v' l' r']; simpl; try done.
  intros (_ & -> & _ & Hl & Hr). by rewrite (IHl _ Hl), (IHr _ Hr).
Qed.

Lemma same_shape_bindings t : ∀ t', same_shape t t' → bindings t' = bindings t.
Proof.
  unfold bindings.
  induction t as [|p c k v l IHl r IHr]; intros [|p' c' k' v' l' r']; simpl; try done.
  intros (_ & -> & -> & Hl & Hr).
  by rewrite !fmap_app, !fmap_cons, (IHl _ Hl), (IHr _ Hr).
Qed.

Lemma same_shape_size t : ∀ t', same_shape t t' → tree_size t' = tree_size t.
Proof.
  induction t as [|p c k v l IHl r IHr]; intros [|p' c' k' v' l' r']; simpl; try done.
  intros (_ & _ & _ & Hl & Hr). by rewrite (IHl _ Hl), (IHr _ Hr).
Qed.

Lemma same_shape_tcol t t' : same_shape t t' → tcol t' = tcol t.
Proof. destruct t, t'; simpl; try done. by intros (-> & _). Qed.

Lemma same_shape_bh t : ∀ t', same_shape t t' → bh t' = bh t.
Proof.
  induction t as [|p c k v l IHl r IHr]; intros [|p' c' k' v' l' r']; simpl; try done.
  intros (-> & _ & _ & Hl & Hr). by rewrite (IHl _ Hl).
Qed.

Lemma same_shape_nrr t : ∀ t', same_shape t t' → nrr t → nrr t'.
Proof.
  induction t as [|p c k v l IHl r IHr]; intros [|p' c' k' v' l' r']; simpl; try done.
  intros (-> & _ & _ & Hl & Hr) (Hc & Hnl & Hnr).
  rewrite (same_shape_tcol _ _ Hl), (same_shape_tcol _ _ Hr). eauto.
Qed.

Lemma same_shape_balanced t : ∀ t', same_shape t t' → balanced t → balanced t'.
Proof.
  induction t as [|p c k v l IHl r IHr]; intros [|p' c' k' v' l' r']; simpl; try done.
  intros (-> & _ & _ & Hl & Hr) (Hb & Hbl & Hbr).
  rewrite (same_shape_bh _ _ Hl), (same_shape_bh _ _ Hr). eauto.
Qed.

Lemma same_shape_rbt t t' : same_shape t t' → rbt t → rbt t'.
Proof.
  intros Hs (Hc & Hn & Hb). split; [by rewrite (same_shape_tcol _ _ Hs)|].
  split; [by eapply same_shape_nrr|by eapply same_shape_balanced].
Qed.

Lemma same_shape_ordered t t' : same_shape t t' → ordered t → ordered t'.
Proof.
  intros Hs. rewrite !ordered_sorted. by rewrite (same_shape_inorder _ _ Hs).
Qed.

Lemma runs_new_node_at k v c p s (Q : option ptr → RedBlackTree → Prop) :
  Q (Some (fresh (dom (heap s))))
    (mkTree (<[fresh (dom (heap s)) := mkNode k v c p None None]> (heap s))
            (root s) (rotations s) (transplants s)) →
  runs (new_node_at k v c p) s Q.
Proof. intros HQ. by eexists _, _. Qed.

Lemma clone_spec u : ∀ fuel par parent_ s,
  repr (heap s) par u → (tree_size u < fuel)%nat →
  runs (clone fuel (rp u) parent_) s (λ r s',
    ∃ u', r = rp u' ∧ same_shape u u' ∧ repr (heap s') parent_ u' ∧ cloned u' s s').
Proof.
  induction u as [|p c k v l IHl r IHr]; intros fuel par parent_ s Hr Hfuel;
    (destruct fuel as [|fuel]; [simpl in Hfuel; lia|]).
  - apply runs_ret. exists E. repeat split; try done; try constructor.
    intros q Hq. by apply elem_of_nil in Hq.
  - destruct Hr as (Hc & Hl & Hrr). simpl in Hfuel.
    cbn [clone rp is_null].
    apply runs_bind. eapply runs_get; [exact Hc|]. cbn [key].
    apply runs_bind. eapply runs_get; [exact Hc|]. cbn [value].
    apply runs_bind. eapply runs_get; [exact Hc|]. cbn [color].
    apply runs_bind. apply runs_new_node_at.
    set (a := fresh (dom (heap s))).
    assert (heap s !! a = None) as Ha by (apply not_elem_of_dom, is_fresh).
    assert (a ≠ p) as Hap by (intros ->; congruence).
    set (s1 := mkTree _ _ _ _).
    assert (∀ q, q ≠ a → heap s1 !! q = heap s !! q) as H1
      by (intros q Hq; unfold s1; cbn [heap]; by rewrite lookup_insert_ne).
    assert (heap s1 !! a = Some (mkNode k v c parent_ None None)) as Ha1
      by (unfold s1; cbn [heap]; by rewrite lookup_insert_eq).
    apply runs_bind. eapply runs_get; [by rewrite H1|]. cbn [left].
    apply runs_bind. eapply runs_conseq; [apply (IHl fuel (Some p) (Some a) s1); [|lia]|].
    { eapply repr_ext; [|exact Hl]. intros q Hq. apply H1. intros ->.
      destruct (repr_ptrs_alloc _ _ _ _ Hl Hq). congruence. }
    intros rl s2 (l' & -> & Hsl & Hl' & Hndl & Hfl & Hul & Hrt2 & Hro2 & Htr2). cbn beta.
    assert (a ∉ ptrs l') as Hal by (intros Hin; specialize (Hfl a Hin); congruence).
    apply runs_bind. eapply runs_modify; [by rewrite Hul|]. cbn [key value color parent right].
    set (s3 := mkTree _ _ _ _).
    assert (∀ q, q ≠ a → heap s3 !! q = heap s2 !! q) as H3
      by (intros q Hq; unfold s3; cbn [heap]; by rewrite lookup_insert_ne).
    assert (heap s3 !! a = Some (mkNode k v c parent_ (rp l') None)) as Ha3
      by (unfold s3; cbn [heap]; by rewrite lookup_insert_eq).
    assert (∀ q nd, heap s !! q = Some nd → heap s3 !! q = Some nd) as Hold3.
    { intros q nd Hq. assert (q ≠ a) by (intros ->; congruence).
      rewrite H3, Hul, H1; try done. intros Hin. specialize (Hfl q Hin).
      rewrite H1 in Hfl by done. congruence. }
    apply runs_bind. eapply runs_get; [by apply Hold3|]. cbn [right].
    apply runs_bind. eapply runs_conseq; [apply (IHr fuel (Some p) (Some a) s3); [|lia]|].
    { eapply repr_ext; [|exact Hrr]. intros q Hq.
      destruct (repr_ptrs_alloc _ _ _ _ Hrr Hq) as [nd Hnd]. by rewrite Hnd, (Hold3 q nd). }
    intros rr s4 (r' & -> & Hsr & Hr' & Hndr & Hfr & Hur & Hrt4 & Hro4 & Htr4). cbn beta.
    assert (a ∉ ptrs r') as Har by (intros Hin; specialize (Hfr a Hin); congruence).
    assert (∀ q, q ∈ ptrs l' → q ∉ ptrs r') as Hlr.
    { intros q Hq Hin. specialize (Hfr q Hin).
      destruct (repr_ptrs_alloc _ _ _ _ Hl' Hq) as [nd Hnd].
      rewrite H3, Hnd in Hfr; [done|]. by intros ->. }
    apply runs_bind. eapply runs_modify; [by rewrite Hur|]. cbn [key value color parent left].
    apply runs_ret. exists (N a c k v l' r'). split; [done|]. split; [done|].
    set (s5 := mkTree _ _ _ _).
    assert (∀ q, q ≠ a → heap s5 !! q = heap s4 !! q) as H5
      by (intros q Hq; unfold s5; cbn [heap]; by rewrite lookup_insert_ne).
    split; [split; [|split]|].
    + unfold s5. cbn [heap]. by rewrite lookup_insert_eq.
    + eapply repr_ext; [|exact Hl']. intros q Hq.
      assert (q ≠ a) by (by intros ->).
      rewrite H5, Hur, H3; try done. by apply Hlr.
    + eapply repr_ext; [|exact Hr']. intros q Hq.
      assert (q ≠ a) by (by intros ->). by rewrite H5.
    + split; [|split; [|split]].
      * cbn [ptrs]. apply NoDup_app. split; [done|]. split.
        -- intros q Hq. rewrite elem_of_cons. intros [->|Hin]; [done|by apply (Hlr q)].
        -- apply NoDup_cons. by split.
      * intros q. cbn [ptrs]. rewrite elem_of_app, elem_of_cons.
        intros [Hq|[->|Hq]]; [|done|].
        -- specialize (Hfl q Hq). rewrite H1 in Hfl; [done|]. by intros ->.
        -- specialize (Hfr q Hq). assert (q ≠ a) by (by intros ->).
           rewrite H3, Hul, H1 in Hfr; try done. intros Hin. by apply (Hlr q).
      * intros q. cbn [ptrs]. rewrite elem_of_app, elem_of_cons. intros Hq.
        assert (q ≠ a) by tauto.
        rewrite H5, Hur, H3, Hul, H1; try done; tauto.
      * clear -Hrt2 Hro2 Htr2 Hrt4 Hro4 Htr4. subst s1 s3 s5. cbn in *.
        repeat split; congruence.
Qed.

Lemma copy_constructor_spec fuel s t n :
  St s t n → (tree_size t < fuel)%nat →
  ∃ c s' t', copy_constructor fuel s = Done c s' ∧ heap c = heap s'
    ∧ St s' t n ∧ St c t' 0 ∧ same_shape t t' ∧ cloned t' s s'.
Proof.
  intros (Hr & Hroot & Hnd & Hrot) Hfuel.
  destruct (clone_spec t fuel None None s Hr Hfuel)
    as (r' & s' & Hrun & t' & -> & Hss & Hr' & Hcl).
  pose proof Hcl as (Hnd' & Hfresh & Hun & Hrt & Hro & Htr).
  exists (mkTree (heap s') (rp t') 0 0), s', t'.
  split; [unfold copy_constructor, bind, get_root; by rewrite Hroot, Hrun|].
  split; [done|]. split; [|split; [by repeat split|done]].
  split; [|split; [congruence|split; [done|congruence]]].
  eapply repr_ext; [|exact Hr]. intros q Hq. apply Hun. intros Hin.
  destruct (repr_ptrs_alloc _ _ _ _ Hr Hq) as [nd Hnd0]. specialize (Hfresh q Hin). congruence.
Qed.

(** X7. The copy constructor builds a deep copy: the new tree is made of
    cells at addresses that were free, one for each node of the source, it
    has the shape, keys, values and colours of the source, and the source and
    every other cell that was allocated are left as they are. *)
Theorem copy_is_deep (fuel : nat) (s : RedBlackTree) (t : tree) (n : nat) :
  St s t n → (tree_size t < fuel)%nat →
  ∃ c s' t', copy_constructor fuel s = Done c s' ∧ heap c = heap s'
    ∧ St s' t n ∧ St c t' 0 ∧ same_shape t t'
    ∧ (∀ q, q ∈ ptrs t' → heap s !! q = None)
    ∧ (∀ q, q ∉ ptrs t' → heap s' !! q = heap s !! q).
Proof.
  intros S0 Hfuel.
  destruct (copy_constructor_spec fuel s t n S0 Hfuel)
    as (c & s' & t' & Hrun & Hh & S1 & Sc & Hss & _ & Hfresh & Hun & _).
  exists c, s', t'. by repeat (split; [done|]).
Qed.

Lemma copy_is_deep_witness :
  St two_nodes two_tree 0 ∧ (tree_size two_tree < 3)%nat
  ∧ ∃ c s' t', copy_constructor 3 two_nodes = Done c s' ∧ heap c = heap s'
    ∧ St s' two_tree 0 ∧ St c t' 0 ∧ same_shape two_tree t'
    ∧ (∀ q, q ∈ ptrs t' → heap two_nodes !! q = None)
    ∧ (∀ q, q ∉ ptrs t' → heap s' !! q = heap two_nodes !! q).
Proof.
  assert (St two_nodes two_tree 0) as S0.
  { repeat split; try reflexivity. apply (bool_decide_unpack _). reflexivity. }
  assert (tree_size two_tree < 3)%nat as Hfuel by (simpl; lia).
  repeat (split; [assumption|]).
  exact (copy_is_deep 3 two_nodes two_tree 0 S0 Hfuel).
Defined.

(** X8. The copy of a tree object that satisfies the invariants passes
    [validate], its in-order traversal yields the keys of the source, and
    looking a key up in the copy yields what it yields in the source. *)
Theorem copy_behaves_as_source (fuel : nat) (s : RedBlackTree) (t : tree) :
  Inv s t → (tree_size t < fuel)%nat →
  ∃ c s', copy_constructor fuel s = Done c s'
    ∧ validate fuel c = Done true c
    ∧ (∃ ks, inOrderKeys fuel s = Done ks s ∧ inOrderKeys fuel c = Done ks c)
    ∧ ∀ k, ∃ r, value_at fuel k s = Done r s ∧ value_at fuel k c = Done r c.
Proof.
  intros HI Hfuel. pose proof HI as ([n S0] & Hrb & Ho).
  destruct (copy_constructor_spec fuel s t n S0 Hfuel)
    as (c & s' & t' & Hrun & Hh & S1 & Sc & Hss & _).
  assert (tree_size t' < fuel)%nat as Hfuel' by (by rewrite (same_shape_size _ _ Hss)).
  assert (Inv c t') as HI'.
  { split; [by exists 0%nat|]. split; [by eapply same_shape_rbt|by eapply same_shape_ordered]. }
  exists c, s'. split; [done|]. split; [by eapply validate_sim; [|eapply same_shape_rbt|]|].
  split.
  - exists (inorder t). split; [by eapply inOrderKeys_sim|].
    rewrite <- (same_shape_inorder _ _ Hss). by eapply inOrderKeys_sim.
  - intros k. destruct (value_at_total fuel s t k HI Hfuel) as (r & Hr & Hspec).
    destruct (value_at_total fuel c t' k HI' Hfuel') as (r' & Hr' & Hspec').
    exists r. split; [done|]. rewrite Hr'. f_equal. apply option_iff_eq. intros v.
    rewrite Hspec, Hspec'.
    assert (∀ u, (∃ p, (p, k, v) ∈ nodes u) ↔ (k, v) ∈ bindings u) as Hb.
    { intros u. unfold bindings. rewrite list_elem_of_fmap. split.
      - intros [p Hp]. by exists (p, k, v).
      - intros ([[p k'] v'] & [= -> ->] & Hp). eauto. }
    by rewrite !Hb, (same_shape_bindings _ _ Hss).
Qed.

Lemma copy_behaves_as_source_witness :
  Inv two_nodes two_tree ∧ (tree_size two_tree < 3)%nat
  ∧ ∃ c s', copy_constructor 3 two_nodes = Done c s'
    ∧ validate 3 c = Done true c
    ∧ (∃ ks, inOrderKeys 3 two_nodes = Done ks two_nodes ∧ inOrderKeys 3 c = Done ks c)
    ∧ ∀ k, ∃ r, value_at 3 k two_nodes = Done r two_nodes ∧ value_at 3 k c = Done r c.
Proof.
  assert (tree_size two_tree < 3)%nat as Hfuel by (simpl; lia).
  split; [exact Inv_two_nodes|]. split; [exact Hfuel|].
  exact (copy_behaves_as_source 3 two_nodes two_tree Inv_two_nodes Hfuel).
Defined.

(** X9. Copy assignment from a tree rooted at [rp u] in the same heap makes
    the assigned object a deep copy of [u] at fresh addresses and releases
    every node the object had before; this also holds for self-assignment.
    When the argument shares no node with the assigned object, the argument
    is left as it is. *)
Theorem copy_assign_replaces_tree (fuel : nat) (s : RedBlackTree) (t u : tree) (n : nat) :
  St s t n → repr (heap s) None u →
  (tree_size t < fuel)%nat → (tree_size u < fuel)%nat →
  ∃ s' u', copy_assign fuel (rp u) s = Done tt s'
    ∧ St s' u' n ∧ same_shape u u'
    ∧ (∀ q, q ∈ ptrs u' → heap s !! q = None)
    ∧ (∀ q, q ∈ ptrs t → heap s' !! q = None)
    ∧ ((∀ q, q ∈ ptrs t → q ∉ ptrs u) → repr (heap s') None u).
Proof.
  intros (Hr & Hroot & Hnd & Hrot) Hu Hft Hfu.
  destruct (clone_spec u fuel None None s Hu Hfu)
    as (r' & s1 & Hrun & u' & -> & Hss & Hr' & Hcl).
  destruct Hcl as (Hnd' & Hfresh & Hun & Hrt & Hro & Htr).
  set (s2 := mkTree (heap s1) (rp u') (rotations s1) (transplants s1)).
  assert (∀ q, q ∈ ptrs t → q ∉ ptrs u') as Hdisj.
  { intros q Hq Hin. destruct (repr_ptrs_alloc _ _ _ _ Hr Hq) as [nd Hnd0].
    specialize (Hfresh q Hin). congruence. }
  assert (repr (heap s2) None t) as Hr2.
  { eapply repr_ext; [|exact Hr]. intros q Hq. cbn. apply Hun. by apply Hdisj. }
  destruct (destroy_spec t fuel None s2 Hr2 Hnd Hft)
    as ([] & s3 & Hd & Hrel1 & Hrel2 & Hrt3 & Hro3 & Htr3).
  exists s3, u'. split.
  { unfold copy_assign, bind. rewrite Hrun. unfold swap, bind, get_root, set_root, ret.
    rewrite Hrt, Hroot. exact Hd. }
  split.
  { split; [|split; [by rewrite Hrt3|split; [done|]]].
    - eapply repr_ext; [|exact Hr']. intros q Hq. rewrite Hrel2; [done|].
      intros Hin. by apply (Hdisj q).
    - rewrite Hro3. cbn. congruence. }
  do 3 (split; [done|]).
  intros Hdj. eapply repr_ext; [|exact Hu]. intros q Hq.
  assert (q ∉ ptrs u') as Hq'.
  { intros Hin. destruct (repr_ptrs_alloc _ _ _ _ Hu Hq) as [nd Hnd0].
    specialize (Hfresh q Hin). congruence. }
  rewrite Hrel2; [cbn; by apply Hun|]. intros Hin. by apply (Hdj q).
Qed.

Lemma copy_assign_replaces_tree_witness :
  St two_objects (N 1 BLACK 10 10 E E) 0
  ∧ repr (heap two_objects) None (N 2 BLACK 20 20 E E)
  ∧ (tree_size (N 1 BLACK 10 10 E E) < 2)%nat ∧ (tree_size (N 2 BLACK 20 20 E E) < 2)%nat
  ∧ ∃ s' u', copy_assign 2 (rp (N 2 BLACK 20 20 E E)) two_objects = Done tt s'
    ∧ St s' u' 0 ∧ same_shape (N 2 BLACK 20 20 E E) u'
    ∧ (∀ q, q ∈ ptrs u' → heap two_objects !! q = None)
    ∧ (∀ q, q ∈ ptrs (N 1 BLACK 10 10 E E) → heap s' !! q = None)
    ∧ ((∀ q, q ∈ ptrs (N 1 BLACK 10 10 E E) → q ∉ ptrs (N 2 BLACK 20 20 E E)) →
       repr (heap s') None (N 2 BLACK 20 20 E E)).
Proof.
  assert (St two_objects (N 1 BLACK 10 10 E E) 0) as S0.
  { repeat split; try reflexivity. apply (bool_decide_unpack _). reflexivity. }
  assert (repr (heap two_objects) None (N 2 BLACK 20 20 E E)) as Hu
    by (repeat split; reflexivity).
  assert (tree_size (N 1 BLACK 10 10 E E) < 2)%nat as Hft by (simpl; lia).
  assert (tree_size (N 2 BLACK 20 20 E E) < 2)%nat as Hfu by (simpl; lia).
  repeat (split; [assumption|]).
  exact (copy_assign_replaces_tree 2 two_objects _ _ 0 S0 Hu Hft Hfu).
Defined.

(** ** What validate decides *)

Lemma validateHelper_vh t : ∀ fuel par s bc pbc,
  repr (heap s) par t → (tree_size t < fuel)%nat →
  validateHelper fuel (rp t) bc pbc s = Done (vh t bc pbc) s.
Proof.
  induction t as [|p c k v l IHl r IHr]; intros fuel par s bc pbc Hr Hfuel;
    (destruct fuel as [|fuel]; [simpl in Hfuel; lia|]).
  - cbn [validateHelper rp is_null vh]. by destruct (pbc =? -1).
  - destruct Hr as (Hc & Hl & Hrr). simpl in Hfuel.
    apply runs_inv. cbn [validateHelper rp is_null vh]. wpr.
    apply (runs_conseq _ _ (λ b s', b = (is_red c && (not_black l || not_black r)) ∧ s' = s)).
    { destruct c; cbn [is_red Color_eqb andb]; [|by apply runs_ret].
      destruct l as [|pl [] kl vl ll lr], r as [|pr [] kr vr rl rr];
        simpl in Hl, Hrr; destruct_and?; wpr; done. }
    intros b s' [-> ->]. cbn beta.
    destruct (is_red c && (not_black l || not_black r)); [by apply runs_ret|].
    wpr. exists (vh l (if is_black c then bc + 1 else bc) pbc), s.
    split; [apply (IHl fuel (Some p)); [done|lia]|]. cbn beta.
    destruct (vh l (if is_black c then bc + 1 else bc) pbc).1; [|by apply runs_ret].
    wpr. eexists _, s. split; [apply (IHr fuel (Some p)); [done|lia]|done].
Qed.

Lemma vh_true t : ∀ bc pbc,
  0 ≤ bc → (vh t bc pbc).1 = true →
  nrr t ∧ balanced t ∧ (pbc = -1 ∨ pbc = bc + Z.of_nat (bh t))
  ∧ (vh t bc pbc).2 = bc + Z.of_nat (bh t).
Proof.
  induction t as [|p c k v l IHl r IHr]; intros bc pbc Hbc; cbn [vh bh nrr balanced].
  - destruct (pbc =? -1) eqn:Hp; simpl; intros H; (split; [done|]); (split; [done|]); lia.
  - destruct (is_red c && (not_black l || not_black r)) eqn:Hbad; [done|].
    set (bc' := if is_black c then bc + 1 else bc).
    assert (0 ≤ bc') as Hbc' by (unfold bc'; destruct (is_black c); lia).
    assert (bc' = bc + Z.of_nat (black c)) as Hbc'' by (unfold bc'; by destruct c; simpl; lia).
    destruct (vh l bc' pbc) as [bl pl] eqn:Hl. cbn [fst snd].
    destruct bl; [|done]. intros Hr.
    destruct (IHl bc' pbc Hbc') as (Hnl & Hbl & Hpl & Hl2); [by rewrite Hl|].
    rewrite Hl in Hl2. cbn [snd] in Hl2.
    destruct (IHr bc' pl Hbc' Hr) as (Hnr & Hbr & Hpr & Hr2).
    assert (bh l = bh r) as Heq by lia.
    split; [|split; [done|split; lia]].
    split; [|done]. intros ->. cbn in Hbad.
    destruct l as [|? [] ? ? ? ?], r as [|? [] ? ? ? ?]; simpl in *; done.
Qed.

Lemma bh_in_black_paths t : bh t ∈ black_paths t.
Proof.
  induction t as [|p c k v l IHl r IHr]; simpl; [by left|].
  apply (list_elem_of_fmap_2 (λ n, (black c + n)%nat)). rewrite elem_of_app. by left.
Qed.

Lemma black_paths_balanced t m : Forall (λ c, c = m) (black_paths t) → balanced t.
Proof.
  revert m. induction t as [|p c k v l IHl r IHr]; intros m; simpl; [done|].
  intros H. apply Forall_fmap, Forall_app in H as [Hl Hr].
  rewrite Forall_forall in Hl, Hr.
  pose proof (Hl _ (bh_in_black_paths l)) as H1. pose proof (Hr _ (bh_in_black_paths r)) as H2.
  simpl in H1, H2. split; [lia|]. split.
  - apply (IHl (bh l)). apply Forall_forall. intros x Hx. specialize (Hl x Hx). simpl in Hl. lia.
  - apply (IHr (bh r)). apply Forall_forall. intros x Hx. specialize (Hr x Hx). simpl in Hr. lia.
Qed.

(** X10. [validate] decides the colour properties: on every tree object it
    returns, leaves the state as it is, and yields true exactly when the
    root is black (or the tree is empty), no red node has a red child, and
    all paths from the root to an absent child hold the same number of
    black nodes. *)
Theorem validate_decides (fuel : nat) (s : RedBlackTree) (t : tree) (n : nat) :
  St s t n → (tree_size t < fuel)%nat →
  ∃ b, validate fuel s = Done b s
    ∧ (b = true ↔ tcol t = BLACK ∧ nrr t ∧ ∃ m, Forall (λ c, c = m) (black_paths t)).
Proof.
  intros S0 Hfuel.
  assert ((tcol t = BLACK ∧ nrr t ∧ ∃ m, Forall (λ c, c = m) (black_paths t)) ↔ rbt t) as Hiff.
  { unfold rbt. split.
    - intros (? & ? & m & Hm). by eauto using black_paths_balanced.
    - intros (? & ? & ?). by eauto using balanced_black_paths. }
  setoid_rewrite Hiff. clear Hiff.
  pose proof S0 as (Hr & Hroot & _).
  assert (∃ b, validate fuel s = Done b s ∧ (b = true → rbt t)) as (b & Hrun & Hb).
  { unfold validate, bind, get_root. rewrite Hroot.
    destruct t as [|p c k v l r]; [exists true; by repeat split|]. cbn [rp is_null].
    pose proof Hr as (Hc & _). rewrite (get_eq _ _ _ _ Hc). cbn [color].
    destruct c; [by exists false|]. cbn [is_black Color_eqb negb]. rewrite Hroot.
    rewrite (validateHelper_vh _ fuel None s 0 (-1) Hr Hfuel). unfold ret.
    eexists. split; [done|]. cbn [fst]. intros Hv.
    destruct (vh_true _ 0 (-1) ltac:(lia) Hv) as (? & ? & _). by split. }
  exists b. split; [done|]. split; [done|]. intros Hrb.
  rewrite (validate_sim fuel s t n S0 Hrb Hfuel) in Hrun. by injection Hrun as <-.
Qed.

Lemma validate_decides_witness :
  St unordered_state unordered_tree 0 ∧ (tree_size unordered_tree < 3)%nat
  ∧ ∃ b, validate 3 unordered_state = Done b unordered_state
    ∧ (b = true ↔ tcol unordered_tree = BLACK ∧ nrr unordered_tree
                  ∧ ∃ m, Forall (λ c, c = m) (black_paths unordered_tree)).
Proof.
  assert (St unordered_state unordered_tree 0) as S0.
  { repeat split; try reflexivity. apply (bool_decide_unpack _). reflexivity. }
  assert (tree_size unordered_tree < 3)%nat as Hfuel by (simpl; lia).
  repeat (split; [assumption|]).
  exact (validate_decides 3 unordered_state unordered_tree 0 S0 Hfuel).
Defined.

(** ** Pre-order and post-order traversal *)

Lemma preOrderHelper_sim t : ∀ fuel par s,
  repr (heap s) par t → (tree_size t < fuel)%nat →
  preOrderHelper fuel (rp t) s = Done (preorder t) s.
Proof.
  induction t as [|p c k v l IHl r IHr]; intros fuel par s Hr Hfuel;
    (destruct fuel as [|fuel]; [simpl in Hfuel; lia|]); [done|].
  destruct Hr as (Hc & Hl & Hrr). simpl in Hfuel.
  cbn [preOrderHelper rp preorder]. unfold bind.
  rewrite (get_eq _ _ _ _ Hc). cbn [left].
  rewrite (IHl fuel (Some p) s Hl) by lia.
  rewrite (get_eq _ _ _ _ Hc). cbn [right].
  by rewrite (IHr fuel (Some p) s Hrr) by lia.
Qed.

Lemma postOrderHelper_sim t : ∀ fuel par s,
  repr (heap s) par t → (tree_size t < fuel)%nat →
  postOrderHelper fuel (rp t) s = Done (postorder t) s.
Proof.
  induction t as [|p c k v l IHl r IHr]; intros fuel par s Hr Hfuel;
    (destruct fuel as [|fuel]; [simpl in Hfuel; lia|]); [done|].
  destruct Hr as (Hc & Hl & Hrr). simpl in Hfuel.
  cbn [postOrderHelper rp postorder]. unfold bind.
  rewrite (get_eq _ _ _ _ Hc). cbn [left].
  rewrite (IHl fuel (Some p) s Hl) by lia.
  rewrite (get_eq _ _ _ _ Hc). cbn [right].
  by rewrite (IHr fuel (Some p) s Hrr) by lia.
Qed.

Lemma inOrderTraversal_sim fuel s t n :
  St s t n → (tree_size t < fuel)%nat → inOrderTraversal fuel s = Done (ptrs t) s.
Proof.
  intros (Hr & Hroot & _) Hfuel. apply runs_inv. unfold inOrderTraversal.
  apply runs_bind, runs_get_root. rewrite Hroot. by eapply inOrderHelper_sim.
Qed.

Lemma preorder_perm t : preorder t ≡ₚ ptrs t.
Proof.
  induction t as [|p c k v l IHl r IHr]; simpl; [done|].
  rewrite IHl, IHr. by rewrite Permutation_middle.
Qed.

Lemma postorder_perm t : postorder t ≡ₚ ptrs t.
Proof.
  induction t as [|p c k v l IHl r IHr]; simpl; [done|].
  rewrite IHl, IHr. rewrite (Permutation_app_comm (ptrs r) [p]). done.
Qed.

(** X11. The three traversals return on every tree object and leave it as
    it is; each visits every node of the tree exactly once (the sequences
    are permutations of one another and hold no node twice); pre-order
    visits the root first and post-order visits it last. *)
Theorem traversals_visit_each_node_once (fuel : nat) (s : RedBlackTree) (t : tree)
    (n : nat) :
  St s t n → (tree_size t < fuel)%nat →
  ∃ pre ino post,
    preOrderTraversal fuel s = Done pre s
    ∧ inOrderTraversal fuel s = Done ino s
    ∧ postOrderTraversal fuel s = Done post s
    ∧ NoDup ino ∧ length ino = tree_size t ∧ pre ≡ₚ ino ∧ post ≡ₚ ino
    ∧ head pre = root s ∧ last post = root s.
Proof.
  intros S0 Hfuel. pose proof S0 as (Hr & Hroot & Hnd & _).
  exists (preorder t), (ptrs t), (postorder t).
  split; [unfold preOrderTraversal, bind, get_root; rewrite Hroot;
          by eapply preOrderHelper_sim|].
  split; [by eapply inOrderTraversal_sim|].
  split; [unfold postOrderTraversal, bind, get_root; rewrite Hroot;
          by eapply postOrderHelper_sim|].
  split; [done|]. split; [by rewrite <- nodes_ptrs, length_fmap, nodes_length|].
  split; [apply preorder_perm|]. split; [apply postorder_perm|].
  rewrite Hroot. destruct t as [|p c k v l r]; [done|]. simpl. split; [done|].
  by rewrite app_assoc, last_snoc.
Qed.

Lemma traversals_visit_each_node_once_witness :
  St two_nodes two_tree 0 ∧ (tree_size two_tree < 3)%nat
  ∧ ∃ pre ino post,
    preOrderTraversal 3 two_nodes = Done pre two_nodes
    ∧ inOrderTraversal 3 two_nodes = Done ino two_nodes
    ∧ postOrderTraversal 3 two_nodes = Done post two_nodes
    ∧ NoDup ino ∧ length ino = tree_size two_tree ∧ pre ≡ₚ ino ∧ post ≡ₚ ino
    ∧ head pre = root two_nodes ∧ last post = root two_nodes.
Proof.
  assert (St two_nodes two_tree 0) as S0.
  { repeat split; try reflexivity. apply (bool_decide_unpack _). reflexivity. }
  assert (tree_size two_tree < 3)%nat as Hfuel by (simpl; lia).
  repeat (split; [assumption|]).
  exact (traversals_visit_each_node_once 3 two_nodes two_tree 0 S0 Hfuel).
Defined.

(** ** Least and greatest key *)

Lemma maximum_sim_root fuel s t n :
  St s t n → t ≠ E → (tree_size t < fuel)%nat →
  maximum fuel (root s) s = Done (rp (max_ctx t []).2) s.
Proof.
  intros S0 Hne Hfuel. pose proof S0 as (_ & Hroot & _). rewrite Hroot.
  unfold maximum. destruct t as [|p c k v l r]; [done|]. cbn [rp is_null].
  by apply (maximum_loop_sim (N p c k v l r) [] fuel s n).
Qed.

Lemma minimum_sim_root fuel s t n :
  St s t n → t ≠ E → (tree_size t < fuel)%nat →
  minimum fuel (root s) s = Done (rp (min_ctx t []).2) s.
Proof.
  intros S0 Hne Hfuel. pose proof S0 as (_ & Hroot & _). rewrite Hroot.
  unfold minimum. destruct t as [|p c k v l r]; [done|]. cbn [rp is_null].
  by apply (minimum_loop_sim (N p c k v l r) [] fuel s n).
Qed.

(** X12. On a tree object that represents an ordered tree, [minimum(root)]
    returns the node with the least key and [maximum(root)] the node with
    the greatest key; on the empty tree both return the null handle. *)
Theorem minimum_maximum_of_tree (fuel : nat) (s : RedBlackTree) (t : tree) (n : nat) :
  St s t n → ordered t → (tree_size t < fuel)%nat →
  (root s = None →
     minimum fuel (root s) s = Done None s ∧ maximum fuel (root s) s = Done None s)
  ∧ (root s ≠ None →
     ∃ pmin nmin pmax nmax,
       minimum fuel (root s) s = Done (Some pmin) s ∧ heap s !! pmin = Some nmin
       ∧ maximum fuel (root s) s = Done (Some pmax) s ∧ heap s !! pmax = Some nmax
       ∧ key nmin ∈ inorder t ∧ key nmax ∈ inorder t
       ∧ ∀ k, k ∈ inorder t → key nmin ≤ k ≤ key nmax).
Proof.
  intros S0 Ho Hfuel. pose proof S0 as (_ & Hroot & _). split.
  { intros ->. done. }
  intros Hne. assert (t ≠ E) as Hte by (intros ->; by rewrite Hroot in Hne).
  rewrite (minimum_sim_root fuel s t n S0 Hte Hfuel),
          (maximum_sim_root fuel s t n S0 Hte Hfuel).
  destruct (min_ctx_node t [] Hte) as (y & cy & ky & vy & yr & rest & H1 & H2 & H3).
  destruct (max_ctx_node t [] Hte) as (z & cz & kz & vz & zl & rest' & H4 & H5 & H6).
  rewrite H1 in H3 |- *. rewrite H4 in H6 |- *. cbn [plug] in H3, H6.
  pose proof S0 as Sy. rewrite <- H3 in Sy. pose proof S0 as Sz. rewrite <- H6 in Sz.
  apply ordered_sorted in Ho.
  eexists y, _, z, _. split; [done|]. split; [exact (St_cell _ _ _ _ _ _ _ _ _ Sy)|].
  split; [done|]. split; [exact (St_cell _ _ _ _ _ _ _ _ _ Sz)|]. cbn [key].
  split; [rewrite H2; by left|]. split; [rewrite H5, elem_of_app; right; by left|].
  intros k Hk. split.
  - rewrite H2 in Ho, Hk. by apply (sorted_first rest ky).
  - rewrite H5 in Ho, Hk. by apply (sorted_last rest' kz).
Qed.

Lemma minimum_maximum_of_tree_witness :
  St two_nodes two_tree 0 ∧ ordered two_tree ∧ (tree_size two_tree < 3)%nat
  ∧ (root two_nodes = None →
     minimum 3 (root two_nodes) two_nodes = Done None two_nodes
     ∧ maximum 3 (root two_nodes) two_nodes = Done None two_nodes)
  ∧ (root two_nodes ≠ None →
     ∃ pmin nmin pmax nmax,
       minimum 3 (root two_nodes) two_nodes = Done (Some pmin) two_nodes
       ∧ heap two_nodes !! pmin = Some nmin
       ∧ maximum 3 (root two_nodes) two_nodes = Done (Some pmax) two_nodes
       ∧ heap two_nodes !! pmax = Some nmax
       ∧ key nmin ∈ inorder two_tree ∧ key nmax ∈ inorder two_tree
       ∧ ∀ k, k ∈ inorder two_tree → key nmin ≤ k ≤ key nmax).
Proof.
  assert (St two_nodes two_tree 0) as S0.
  { repeat split; try reflexivity. apply (bool_decide_unpack _). reflexivity. }
  assert (ordered two_tree) as Ho by (repeat split; repeat constructor).
  assert (tree_size two_tree < 3)%nat as Hfuel by (simpl; lia).
  repeat (split; [assumption|]).
  exact (minimum_maximum_of_tree 3 two_nodes two_tree 0 S0 Ho Hfuel).
Defined.

(** ** Operations that undo one another *)

Lemma repr_cells_eq h h' par t :
  repr h par t → repr h' par t → ∀ p, p ∈ ptrs t → h' !! p = h !! p.
Proof.
  revert par. induction t as [|q c k v l IHl r IHr]; intros par; simpl.
  - intros _ _ p Hp. by apply elem_of_nil in Hp.
  - intros (Hc & Hl & Hr) (Hc' & Hl' & Hr') p.
    rewrite elem_of_app, elem_of_cons. intros [Hp|[->|Hp]].
    + by eapply IHl.
    + by rewrite Hc, Hc'.
    + by eapply IHr.
Qed.

Lemma split_unique {A B} (f : A → B) (l1 l2 l1' l2' : list A) a a' :
  NoDup (f <$> (l1 ++ a :: l2)) → l1 ++ a :: l2 = l1' ++ a' :: l2' → f a = f a' →
  l1 = l1' ∧ a = a' ∧ l2 = l2'.
Proof.
  intros Hnd Heq Hf.
  assert (length l1 = length l1') as Hlen.
  { eapply NoDup_lookup; [exact Hnd| |]; rewrite list_lookup_fmap.
    - by rewrite list_lookup_middle.
    - by rewrite Heq, list_lookup_middle, Hf. }
  apply app_inj_1 in Heq as [-> [= -> ->]]; done.
Qed.

(** X13. A left rotation at a node [x] of the tree that has a right child
    [y], followed by a right rotation at [y], returns and restores the tree:
    the root reference and every cell of the tree are what they were; the
    same holds for a right rotation at [y] with left child [x] followed by a
    left rotation at [x]. *)
Theorem rotations_are_inverse (s : RedBlackTree) (t : tree) (n : nat) (x y : ptr)
    (nx : Node) :
  St s t n → x ∈ ptrs t → heap s !! x = Some nx →
  (right nx = Some y →
     runs (leftRotate (Some x);; rightRotate (Some y)) s (λ _ s',
       St s' t (n + 2) ∧ root s' = root s
       ∧ ∀ p, p ∈ ptrs t → heap s' !! p = heap s !! p))
  ∧ (left nx = Some y →
     runs (rightRotate (Some x);; leftRotate (Some y)) s (λ _ s',
       St s' t (n + 2) ∧ root s' = root s
       ∧ ∀ p, p ∈ ptrs t → heap s' !! p = heap s !! p)).
Proof.
  intros S0 Hx Hnx. destruct (ptrs_locate x t Hx) as (cs & c & k & v & l & r & ->).
  pose proof (St_cell _ _ _ _ _ _ _ _ _ S0) as Hc. rewrite Hc in Hnx.
  injection Hnx as <-. cbn [right left].
  assert (∀ s', St s' (plug cs (N x c k v l r)) (n + 2) →
     St s' (plug cs (N x c k v l r)) (n + 2) ∧ root s' = root s
     ∧ ∀ p, p ∈ ptrs (plug cs (N x c k v l r)) → heap s' !! p = heap s !! p) as Hfin.
  { intros s' S2. split; [done|]. destruct S0 as (Hr0 & Hroot0 & _).
    destruct S2 as (Hr2 & Hroot2 & _). split; [congruence|]. by eapply repr_cells_eq. }
  split.
  - intros Hy. destruct r as [|y' cy ky vy b d]; [done|]. injection Hy as ->.
    apply runs_bind. eapply runs_conseq; [by apply leftRotate_spec|].
    intros [] s1 S1. cbn beta.
    eapply runs_conseq; [by apply rightRotate_spec|].
    intros [] s2 S2. cbn beta. apply Hfin. eapply St_count; [exact S2|lia].
  - intros Hy. destruct l as [|y' cy ky vy a b]; [done|]. injection Hy as ->.
    apply runs_bind. eapply runs_conseq; [by apply rightRotate_spec|].
    intros [] s1 S1. cbn beta.
    eapply runs_conseq; [by apply leftRotate_spec|].
    intros [] s2 S2. cbn beta. apply Hfin. eapply St_count; [exact S2|lia].
Qed.

Lemma rotations_are_inverse_witness :
  St two_nodes two_tree 0 ∧ 1%positive ∈ ptrs two_tree
  ∧ heap two_nodes !! 1%positive = Some (mkNode 10 10 BLACK None None (Some 2%positive))
  ∧ right (mkNode 10 10 BLACK None None (Some 2%positive)) = Some 2%positive
  ∧ runs (leftRotate (Some 1%positive);; rightRotate (Some 2%positive)) two_nodes (λ _ s',
       St s' two_tree (0 + 2) ∧ root s' = root two_nodes
       ∧ ∀ p, p ∈ ptrs two_tree → heap s' !! p = heap two_nodes !! p).
Proof.
  assert (St two_nodes two_tree 0) as S0.
  { repeat split; try reflexivity. apply (bool_decide_unpack _). reflexivity. }
  assert (1%positive ∈ ptrs two_tree) as Hx by (apply (bool_decide_unpack _); reflexivity).
  assert (heap two_nodes !! 1%positive
          = Some (mkNode 10 10 BLACK None None (Some 2%positive))) as Hnx by reflexivity.
  assert (right (mkNode 10 10 BLACK None None (Some 2%positive)) = Some 2%positive)
    as Hy by reflexivity.
  repeat (split; [assumption|]).
  exact (proj1 (rotations_are_inverse two_nodes two_tree 0 1 2 _ S0 Hx Hnx) Hy).
Defined.

(** X14. Inserting a key the tree does not hold and then removing it gives
    back the contents the tree had: the same cells are allocated, the
    in-order traversal yields the same keys, and every lookup yields what
    it yielded.  (The shape and the colours may differ.) *)
Theorem insert_then_remove (fuel : nat) (k v : Z) (s : RedBlackTree) (t : tree) :
  Inv s t → k ∉ inorder t → (S (tree_size t) < fuel)%nat →
  ∃ s1 s2, insert fuel k v s = Done tt s1 ∧ remove fuel k s1 = Done tt s2
    ∧ dom (heap s2) = dom (heap s)
    ∧ validate fuel s2 = Done true s2
    ∧ (∃ ks, inOrderKeys fuel s = Done ks s ∧ inOrderKeys fuel s2 = Done ks s2)
    ∧ ∀ k', ∃ r, value_at fuel k' s = Done r s ∧ value_at fuel k' s2 = Done r s2.
Proof.
  intros HI Hk Hfuel.
  destruct (insert_nodes fuel k v s t HI Hk) as (s1 & t1 & l1 & l2 & Hins & HI1 & H1 & H2);
    [lia|].
  set (p := fresh (dom (heap s))) in *.
  assert (tree_size t1 = S (tree_size t)) as Hsz1.
  { rewrite <- !nodes_length, H1, H2, !length_app. simpl. lia. }
  assert (k ∈ inorder t1) as Hk1.
  { apply (nodes_inorder t1 p k v). rewrite H2, elem_of_app, elem_of_cons. tauto. }
  destruct (remove_nodes fuel k s1 t1 HI1 Hk1)
    as (s2 & t2 & l1' & l2' & z & v' & Hrm & HI2 & Hs & H3 & H4); [lia|].
  assert (l1 = l1' ∧ (p, k, v) = (z, k, v') ∧ l2 = l2') as (<- & [= <- <-] & <-).
  { apply (split_unique (λ x, x.1.2)); [|congruence|done].
    rewrite <- H2, nodes_keys. destruct HI1 as (_ & _ & Ho1).
    apply ordered_sorted in Ho1. clear -Ho1.
    induction Ho1 as [|x l Hs IH Hall]; constructor; [|done].
    intros Hx. rewrite Forall_forall in Hall. specialize (Hall x Hx). lia. }
  assert (nodes t2 = nodes t) as Hn by congruence.
  assert (tree_size t2 = tree_size t) as Hsz2 by (by rewrite <- !nodes_length, Hn).
  exists s1, s2. split; [done|]. split; [done|]. split.
  { pose proof (insert_dom fuel k v s) as Hd1. rewrite Hins in Hd1. simpl in Hd1.
    pose proof (remove_dom fuel k s1 p Hs) as Hd2. rewrite Hrm in Hd2.
    rewrite Hd2, Hd1. fold p. apply set_eq. intros q.
    rewrite elem_of_difference, elem_of_union, !elem_of_singleton.
    pose proof (is_fresh (dom (heap s))) as Hf. fold p in Hf.
    split; [tauto|]. intros Hq. split; [tauto|]. by intros ->. }
  pose proof HI as ([n S0] & _). pose proof HI2 as ([n2 S2] & Hrb2 & _).
  split; [eapply validate_sim; [done..|lia]|]. split.
  - exists (inorder t). split; [eapply inOrderKeys_sim; [done|lia]|].
    rewrite <- nodes_keys, <- Hn, nodes_keys. eapply inOrderKeys_sim; [done|lia].
  - intros k'. apply (value_at_agree fuel s t s2 t2 k' HI HI2); [lia..|].
    intros v0. by rewrite Hn.
Qed.

Lemma insert_then_remove_witness :
  Inv two_nodes two_tree ∧ (15 ∉ inorder two_tree) ∧ (S (tree_size two_tree) < 4)%nat
  ∧ ∃ s1 s2, insert 4 15 7 two_nodes = Done tt s1 ∧ remove 4 15 s1 = Done tt s2
    ∧ dom (heap s2) = dom (heap two_nodes)
    ∧ validate 4 s2 = Done true s2
    ∧ (∃ ks, inOrderKeys 4 two_nodes = Done ks two_nodes ∧ inOrderKeys 4 s2 = Done ks s2)
    ∧ ∀ k', ∃ r, value_at 4 k' two_nodes = Done r two_nodes ∧ value_at 4 k' s2 = Done r s2.
Proof.
  assert (15 ∉ inorder two_tree) as Hk by (apply (bool_decide_unpack _); reflexivity).
  assert (S (tree_size two_tree) < 4)%nat as Hfuel by (simpl; lia).
  split; [exact Inv_two_nodes|]. repeat (split; [assumption|]).
  exact (insert_then_remove 4 15 7 two_nodes two_tree Inv_two_nodes Hk Hfuel).
Defined.

(** ** successor and predecessor undo one another *)

Lemma up_from_right_nodes cs :
  match up_from_right cs with
  | Some (p, k) => ∃ v rest, nodes_after cs = (p, k, v) :: rest
  | None => nodes_after cs = []
  end.
Proof. induction cs as [|[] cs IH]; simpl; eauto. Qed.

Lemma up_from_left_nodes cs :
  match up_from_left cs with
  | Some (p, k) => ∃ v rest, nodes_before cs = rest ++ [(p, k, v)]
  | None => nodes_before cs = []
  end.
Proof.
  induction cs as [|[] cs IH]; simpl; eauto. eexists _, _. by rewrite app_assoc.
Qed.

Lemma min_ctx_first t : ∀ cs,
  t ≠ E → ∃ y vy rest, node_key (min_ctx t cs).2 = Some (y, (nodes t !!! 0%nat).1.2)
                       ∧ nodes t = (y, (nodes t !!! 0%nat).1.2, vy) :: rest.
Proof.
  induction t as [|p c k v l IHl r _]; intros cs Hne; [done|].
  destruct l as [|pl cl kl vl ll lr].
  - exists p, v, (nodes r). done.
  - change (min_ctx (N p c k v (N pl cl kl vl ll lr) r) cs)
      with (min_ctx (N pl cl kl vl ll lr) (FL p c k v r :: cs)).
    destruct (IHl (FL p c k v r :: cs)) as (y & vy & rest & H1 & H2); [done|].
    change (nodes (N p c k v (N pl cl kl vl ll lr) r))
      with (nodes (N pl cl kl vl ll lr) ++ (p, k, v) :: nodes r).
    rewrite H2 in H1. cbn in H1. rewrite H2. cbn.
    exists y, vy, (rest ++ (p, k, v) :: nodes r). done.
Qed.

Lemma max_ctx_last t : ∀ cs,
  t ≠ E → ∃ y ky vy rest, node_key (max_ctx t cs).2 = Some (y, ky)
                          ∧ nodes t = rest ++ [(y, ky, vy)].
Proof.
  induction t as [|p c k v l _ r IHr]; intros cs Hne; [done|].
  destruct r as [|pr cr kr vr rl rr].
  - exists p, k, v, (nodes l). by destruct l.
  - assert (max_ctx (N p c k v l (N pr cr kr vr rl rr)) cs
            = max_ctx (N pr cr kr vr rl rr) (FR p c k v l :: cs)) as -> by by destruct l.
    destruct (IHr (FR p c k v l :: cs)) as (y & ky & vy & rest & H1 & H2); [done|].
    exists y, ky, vy, (nodes l ++ (p, k, v) :: rest). split; [done|].
    change (nodes (N p c k v l (N pr cr kr vr rl rr)))
      with (nodes l ++ (p, k, v) :: nodes (N pr cr kr vr rl rr)).
    by rewrite H2, <- app_assoc.
Qed.

(** The node [successor] returns is the next one in in-order. *)
Lemma succ_of_nodes cs x c k v l r :
  match succ_of cs (N x c k v l r) with
  | Some (y, ky) =>
      ∃ vy l1 l2, nodes (plug cs (N x c k v l r)) = l1 ++ (x, k, v) :: (y, ky, vy) :: l2
  | None => ∃ l1, nodes (plug cs (N x c k v l r)) = l1 ++ [(x, k, v)]
  end.
Proof.
  rewrite nodes_plug. cbn [nodes]. destruct r as [|pr cr kr vr rl rr].
  - cbn [succ_of nodes]. pose proof (up_from_right_nodes cs) as Hup.
    destruct (up_from_right cs) as [[y ky]|].
    + destruct Hup as (vy & rest & ->).
      exists vy, (nodes_before cs ++ nodes l), rest. by rewrite <- !app_assoc.
    + rewrite Hup. exists (nodes_before cs ++ nodes l). by rewrite <- !app_assoc.
  - cbn [succ_of].
    destruct (min_ctx_first (N pr cr kr vr rl rr) (FR x c k v l :: cs))
      as (y & vy & rest & H1 & H2); [done|].
    rewrite H1, H2. exists vy, (nodes_before cs ++ nodes l), (rest ++ nodes_after cs).
    by rewrite <- !app_assoc.
Qed.

(** The node [predecessor] returns is the previous one in in-order. *)
Lemma pred_of_nodes cs x c k v l r :
  match pred_of cs (N x c k v l r) with
  | Some (y, ky) =>
      ∃ vy l1 l2, nodes (plug cs (N x c k v l r)) = l1 ++ (y, ky, vy) :: (x, k, v) :: l2
  | None => ∃ l2, nodes (plug cs (N x c k v l r)) = (x, k, v) :: l2
  end.
Proof.
  rewrite nodes_plug. cbn [nodes]. destruct l as [|pl cl kl vl ll lr].
  - cbn [pred_of nodes app]. pose proof (up_from_left_nodes cs) as Hup.
    destruct (up_from_left cs) as [[y ky]|].
    + destruct Hup as (vy & rest & ->).
      exists vy, rest, (nodes r ++ nodes_after cs). by rewrite <- !app_assoc.
    + rewrite Hup. by eexists.
  - cbn [pred_of].
    destruct (max_ctx_last (N pl cl kl vl ll lr) (FL x c k v r :: cs))
      as (y & ky & vy & rest & H1 & H2); [done|].
    rewrite H1, H2. exists vy, (nodes_before cs ++ rest), (nodes r ++ nodes_after cs).
    by rewrite <- !app_assoc.
Qed.

Lemma NoDup_nodes_ptrs t : NoDup (ptrs t) → NoDup ((λ x : ptr * Z * Z, x.1.1) <$> nodes t).
Proof. by rewrite nodes_ptrs. Qed.

Lemma successor_then_predecessor fuel s t n x :
  St s t n → x ∈ ptrs t → (tree_size t < fuel)%nat →
  ∃ r, successor fuel (Some x) s = Done r s
       ∧ ∀ y, r = Some y → predecessor fuel (Some y) s = Done (Some x) s.
Proof.
  intros S0 Hx Hfuel. pose proof S0 as (_ & _ & Hnd & _). apply NoDup_nodes_ptrs in Hnd.
  destruct (ptrs_locate x t Hx) as (cs & c & k & v & l & r & Heq).
  pose proof S0 as S1. rewrite Heq in S1, Hfuel.
  eexists. split; [by apply (successor_sim fuel s n cs x c k v l r)|].
  pose proof (succ_of_nodes cs x c k v l r) as Hs.
  destruct (succ_of cs (N x c k v l r)) as [[y ky]|]; [|done].
  intros y' [= <-]. destruct Hs as (vy & l1 & l2 & Hn). rewrite <- Heq in Hn.
  assert (y ∈ ptrs t) as Hy.
  { apply (nodes_in_ptrs t y ky vy). rewrite Hn, elem_of_app, !elem_of_cons. tauto. }
  destruct (ptrs_locate y t Hy) as (cs' & c' & k' & v' & l' & r' & Heq').
  pose proof S0 as S2. rewrite Heq' in S2. rewrite <- Heq, Heq' in Hfuel.
  rewrite (predecessor_sim fuel s n cs' y c' k' v' l' r' S2 Hfuel). f_equal.
  pose proof (pred_of_nodes cs' y c' k' v' l' r') as Hp. rewrite <- Heq' in Hp.
  rewrite Hn in Hnd.
  destruct (pred_of cs' (N y c' k' v' l' r')) as [[x' kx']|].
  - destruct Hp as (vx' & l1' & l2' & Hn').
    rewrite Hn, (cons_middle _ l1), (cons_middle _ l1'), !app_assoc in Hn'.
    rewrite (cons_middle _ l1), app_assoc in Hnd.
    destruct (split_unique (λ x : ptr * Z * Z, x.1.1) _ _ _ _ _ _ Hnd Hn' eq_refl)
      as (H1 & _ & _).
    by apply app_inj_tail in H1 as [_ [= -> _ _]].
  - destruct Hp as (l2' & Hn'). rewrite Hn, (cons_middle _ l1), app_assoc in Hn'.
    rewrite (cons_middle _ l1), app_assoc in Hnd.
    destruct (split_unique (λ x : ptr * Z * Z, x.1.1) _ _ [] _ _ _ Hnd Hn' eq_refl)
      as (H1 & _ & _).
    by destruct l1.
Qed.

Lemma predecessor_then_successor fuel s t n x :
  St s t n → x ∈ ptrs t → (tree_size t < fuel)%nat →
  ∃ r, predecessor fuel (Some x) s = Done r s
       ∧ ∀ y, r = Some y → successor fuel (Some y) s = Done (Some x) s.
Proof.
  intros S0 Hx Hfuel. pose proof S0 as (_ & _ & Hnd & _). apply NoDup_nodes_ptrs in Hnd.
  destruct (ptrs_locate x t Hx) as (cs & c & k & v & l & r & Heq).
  pose proof S0 as S1. rewrite Heq in S1, Hfuel.
  eexists. split; [by apply (predecessor_sim fuel s n cs x c k v l r)|].
  pose proof (pred_of_nodes cs x c k v l r) as Hs.
  destruct (pred_of cs (N x c k v l r)) as [[y ky]|]; [|done].
  intros y' [= <-]. destruct Hs as (vy & l1 & l2 & Hn). rewrite <- Heq in Hn.
  assert (y ∈ ptrs t) as Hy.
  { apply (nodes_in_ptrs t y ky vy). rewrite Hn, elem_of_app, !elem_of_cons. tauto. }
  destruct (ptrs_locate y t Hy) as (cs' & c' & k' & v' & l' & r' & Heq').
  pose proof S0 as S2. rewrite Heq' in S2. rewrite <- Heq, Heq' in Hfuel.
  rewrite (successor_sim fuel s n cs' y c' k' v' l' r' S2 Hfuel). f_equal.
  pose proof (succ_of_nodes cs' y c' k' v' l' r') as Hp. rewrite <- Heq' in Hp.
  rewrite Hn in Hnd.
  destruct (succ_of cs' (N y c' k' v' l' r')) as [[x' kx']|].
  - destruct Hp as (vx' & l1' & l2' & Hn'). rewrite Hn in Hn'.
    destruct (split_unique (λ x : ptr * Z * Z, x.1.1) _ _ _ _ _ _ Hnd Hn' eq_refl)
      as (_ & _ & H1).
    by injection H1 as -> _ _.
  - destruct Hp as (l1' & Hn'). rewrite Hn in Hn'.
    destruct (split_unique (λ x : ptr * Z * Z, x.1.1) _ _ _ _ _ _ Hnd Hn' eq_refl)
      as (_ & _ & H1).
    done.
Qed.

(** X15. For every node [x] of a tree object, [successor(x)] returns, and
    when it returns a node [y], [predecessor(y)] returns [x]; likewise
    [predecessor(x)] returns, and when it returns a node [y],
    [successor(y)] returns [x]. *)
Theorem successor_predecessor_inverse (fuel : nat) (s : RedBlackTree) (t : tree)
    (n : nat) (x : ptr) :
  St s t n → x ∈ ptrs t → (tree_size t < fuel)%nat →
  (∃ r, successor fuel (Some x) s = Done r s
        ∧ ∀ y, r = Some y → predecessor fuel (Some y) s = Done (Some x) s)
  ∧ (∃ r, predecessor fuel (Some x) s = Done r s
          ∧ ∀ y, r = Some y → successor fuel (Some y) s = Done (Some x) s).
Proof.
  intros S0 Hx Hfuel.
  split; [by eapply successor_then_predecessor|by eapply predecessor_then_successor].
Qed.

Lemma successor_predecessor_inverse_witness :
  St two_nodes two_tree 0 ∧ 1%positive ∈ ptrs two_tree ∧ (tree_size two_tree < 3)%nat
  ∧ (∃ r, successor 3 (Some 1%positive) two_nodes = Done r two_nodes
          ∧ ∀ y, r = Some y → predecessor 3 (Some y) two_nodes = Done (Some 1%positive) two_nodes)
  ∧ (∃ r, predecessor 3 (Some 1%positive) two_nodes = Done r two_nodes
          ∧ ∀ y, r = Some y → successor 3 (Some y) two_nodes = Done (Some 1%positive) two_nodes).
Proof.
  assert (St two_nodes two_tree 0) as S0.
  { repeat split; try reflexivity. apply (bool_decide_unpack _). reflexivity. }
  assert (1%positive ∈ ptrs two_tree) as Hx by (apply (bool_decide_unpack _); reflexivity).
  assert (tree_size two_tree < 3)%nat as Hfuel by (simpl; lia).
  repeat (split; [assumption|]).
  exact (successor_predecessor_inverse 3 two_nodes two_tree 0 1 S0 Hx Hfuel).
Defined.

(** ** Logarithmic bounds on the loops *)

Lemma height_bh t :
  nrr t → balanced t →
  (height t ≤ 2 * bh t + match tcol t with RED => 1 | BLACK => 0 end)%nat.
Proof.
  induction t as [|p c k v l IHl r IHr]; simpl; [lia|].
  intros (Hc & Hnl & Hnr) (Hb & Hbl & Hbr).
  specialize (IHl Hnl Hbl). specialize (IHr Hnr Hbr).
  destruct c; simpl.
  - destruct Hc as [Hl Hr]; [done|]. rewrite Hl in IHl. rewrite Hr in IHr. lia.
  - destruct (tcol l), (tcol r); lia.
Qed.

Lemma size_bh t : balanced t → (2 ^ bh t ≤ tree_size t + 1)%nat.
Proof.
  induction t as [|p c k v l IHl r IHr]; simpl; [lia|].
  intros (Hb & Hbl & Hbr). specialize (IHl Hbl). specialize (IHr Hbr).
  rewrite <- Hb in IHr. destruct c; simpl; lia.
Qed.

Lemma rbt_height_log t : rbt t → (height t ≤ 2 * Nat.log2 (tree_size t + 1))%nat.
Proof.
  intros (Hc & Hn & Hb). pose proof (height_bh t Hn Hb) as H1. rewrite Hc in H1.
  pose proof (size_bh t Hb) as H2.
  assert (bh t ≤ Nat.log2 (tree_size t + 1))%nat; [|lia].
  rewrite <- (Nat.log2_pow2 (bh t)) by lia. by apply Nat.log2_le_mono.
Qed.

Lemma plug_height cs : ∀ t, (length cs + height t ≤ height (plug cs t))%nat.
Proof.
  induction cs as [|f cs IH]; intros t; simpl; [lia|].
  specialize (IH (fill f t)). destruct f; simpl in *; lia.
Qed.

Lemma search_loop_sim_h k t : ∀ cs fuel s n,
  St s (plug cs t) n → (height t < fuel)%nat →
  search_loop fuel k (rp t) s =
    Done (match find k t cs with Some (_, tz) => rp tz | None => None end) s.
Proof.
  induction t as [|p c k' v l IHl r IHr]; intros cs fuel s n H Hfuel;
    (destruct fuel as [|fuel]; [simpl in Hfuel; lia|]).
  - done.
  - cbn [search_loop find rp is_null]. unfold bind at 1.
    rewrite (get_eq _ _ _ _ (St_cell _ _ _ _ _ _ _ _ _ H)). cbn [key].
    simpl in Hfuel. destruct (k <? k').
    + unfold bind. rewrite (get_eq _ _ _ _ (St_cell _ _ _ _ _ _ _ _ _ H)). cbn [left].
      apply (IHl (FL p c k' v r :: cs) fuel s n H). lia.
    + destruct (k >? k'); [|done].
      unfold bind. rewrite (get_eq _ _ _ _ (St_cell _ _ _ _ _ _ _ _ _ H)). cbn [right].
      apply (IHr (FR p c k' v l :: cs) fuel s n H). lia.
Qed.

Lemma insert_loop_sim_h k t : ∀ cs fuel s n,
  St s (plug cs t) n → (height t < fuel)%nat →
  insert_loop fuel k (cpar None cs) (rp t) s =
    match descend k t cs with
    | Some cs' => Done (cpar None cs') s
    | None => Throw DuplicateKey s
    end.
Proof.
  induction t as [|p c k' v l IHl r IHr]; intros cs fuel s n H Hfuel;
    (destruct fuel as [|fuel]; [simpl in Hfuel; lia|]).
  - done.
  - cbn [insert_loop descend rp is_null]. unfold bind at 1.
    rewrite (get_eq _ _ _ _ (St_cell _ _ _ _ _ _ _ _ _ H)). cbn [key].
    simpl in Hfuel. destruct (k <? k').
    + unfold bind. rewrite (get_eq _ _ _ _ (St_cell _ _ _ _ _ _ _ _ _ H)). cbn [left].
      apply (IHl (FL p c k' v r :: cs) fuel s n H). lia.
    + destruct (k >? k'); [|done].
      unfold bind. rewrite (get_eq _ _ _ _ (St_cell _ _ _ _ _ _ _ _ _ H)). cbn [right].
      apply (IHr (FR p c k' v l :: cs) fuel s n H). lia.
Qed.

Lemma minimum_loop_sim_h t : ∀ cs fuel s n,
  t ≠ E → St s (plug cs t) n → (height t < fuel)%nat →
  minimum_loop fuel (rp t) s = Done (rp (min_ctx t cs).2) s.
Proof.
  induction t as [|p c k v l IHl r _]; intros cs fuel s n Hne H Hfuel; [done|].
  destruct fuel as [|fuel]; [simpl in Hfuel; lia|].
  cbn [minimum_loop rp]. unfold bind.
  rewrite (get_eq _ _ _ _ (St_cell _ _ _ _ _ _ _ _ _ H)). cbn [left].
  destruct l as [|pl cl kl vl ll lr]; [done|].
  cbn [rp is_null]. change (rp (min_ctx _ cs).2) with
    (rp (min_ctx (N pl cl kl vl ll lr) (FL p c k v r :: cs)).2).
  apply (IHl (FL p c k v r :: cs) fuel s n); [done|exact H|simpl in *; lia].
Qed.

Lemma descend_length_h k t : ∀ cs cs',
  descend k t cs = Some cs' → (length cs' ≤ height t + length cs)%nat.
Proof.
  induction t as [|p c k' v l IHl r IHr]; intros cs cs'; simpl.
  - intros [= <-]. lia.
  - destruct (k <? k'); [intros H; apply IHl in H; simpl in H; lia|].
    destruct (k >? k'); [|done]. intros H; apply IHr in H; simpl in H; lia.
Qed.

Lemma insert_sim_h fuel k v s t n t' m :
  St s t n →
  ins_tree (fresh (dom (heap s))) k v t = Some (t', m) →
  (height t < fuel)%nat →
  runs (insert fuel k v) s (λ _ s', St s' t' (n + m)).
Proof.
  intros S0 Hins Hfuel. unfold ins_tree in Hins.
  destruct (descend k t []) as [cs|] eqn:Hd; [|done].
  set (p := fresh (dom (heap s))) in *.
  destruct (fix_ins cs (N p RED k v E E)) as [[t1 m1]|] eqn:Hfix; [|done].
  injection Hins as <- <-.
  assert (heap s !! p = None) as Hp.
  { apply not_elem_of_dom. apply is_fresh. }
  unfold insert. apply runs_bind. unfold new_node at 1. eexists _, _. split; [reflexivity|].
  fold p. apply (St_alloc _ _ _ p (mkNode k v RED None None None)) in S0 as S1; [|done].
  set (s1 := mkTree _ _ _ _) in *.
  apply runs_bind, runs_get_root. apply runs_bind.
  pose proof (insert_loop_sim_h k t [] fuel s1 n S1 Hfuel) as Hloop.
  rewrite Hd in Hloop. cbn [cpar] in Hloop.
  pose proof S1 as (? & Hroot & ?). rewrite Hroot.
  eexists _, _. split; [exact Hloop|].
  pose proof (descend_plug _ _ _ _ Hd) as Hplug. simpl in Hplug.
  assert (St s1 (plug cs E) n) as S2 by (rewrite Hplug; done).
  rewrite <- Hplug in *.
  cbn beta. apply (link_spec _ _ _ _ n _ _ v); [done| | | |].
  - subst s1. cbn. by rewrite lookup_insert_eq.
  - intros Hin. eapply (St_ptrs_alloc s) in Hin as [? Hin]; [|eassumption].
    congruence.
  - by eapply descend_side.
  - intros s3 S3. eapply insertFixup_sim; [done..|].
    apply descend_length_h in Hd. simpl in Hd. lia.
Qed.

Lemma insert_dup_h fuel k v s t n :
  St s t n → descend k t [] = None → (height t < fuel)%nat →
  ∃ s', insert fuel k v s = Throw DuplicateKey s'.
Proof.
  intros S0 Hd Hfuel.
  set (p := fresh (dom (heap s))).
  assert (heap s !! p = None) as Hp by (apply not_elem_of_dom, is_fresh).
  apply (St_alloc _ _ _ p (mkNode k v RED None None None)) in S0 as S1; [|done].
  pose proof (insert_loop_sim_h k t [] fuel _ n S1 Hfuel) as Hloop.
  rewrite Hd in Hloop. cbn [cpar] in Hloop.
  eexists. unfold insert, bind, new_node, get_root. cbv zeta. fold p. cbn [root].
  destruct S1 as (_ & Hroot & _). cbn [root] in Hroot. rewrite Hroot in Hloop |- *.
  by rewrite Hloop.
Qed.

(** The fuel of [remove_unlink] only matters to its call of [minimum]. *)
Lemma remove_unlink_fuel f1 f2 z nz s :
  heap s !! z = Some nz →
  minimum f1 (right nz) s = minimum f2 (right nz) s →
  remove_unlink f1 (Some z) s = remove_unlink f2 (Some z) s.
Proof.
  intros Hz Hmin. unfold remove_unlink, bind, get. rewrite Hz. lazy beta iota.
  rewrite Hz. lazy beta iota.
  destruct (is_null (left nz)); [reflexivity|]. rewrite Hz. lazy beta iota.
  destruct (is_null (right nz)); [reflexivity|]. rewrite Hz. lazy beta iota.
  rewrite Hmin. reflexivity.
Qed.

Lemma find_length_h k t : ∀ cs cs' tz,
  find k t cs = Some (cs', tz) → (length cs' + height tz ≤ length cs + height t)%nat.
Proof.
  induction t as [|p c k' v l IHl r IHr]; intros cs cs' tz; simpl; [done|].
  destruct (k <? k') eqn:H1; [intros H; apply IHl in H; simpl in H; lia|].
  destruct (k >? k') eqn:H2; [intros H; apply IHr in H; simpl in H; lia|].
  intros [= <- <-]. simpl. lia.
Qed.

Lemma unlink_length_h cs z cz kz vz l r cx tx c :
  unlink cs (N z cz kz vz l r) = Some (cx, tx, c) →
  (length cx + 1 ≤ length cs + height (N z cz kz vz l r))%nat.
Proof.
  destruct l as [|pl cl kl vl ll lr]; [cbn; intros [= <- <- <-]; lia|].
  destruct r as [|pr cr kr vr rl rr]; [cbn; intros [= <- <- <-]; lia|].
  set (l := N pl cl kl vl ll lr). set (r := N pr cr kr vr rl rr).
  destruct (min_ctx r []) as [csy ty] eqn:Hmin.
  destruct (min_ctx_spec r [] csy ty ltac:(done) Hmin)
    as (csy' & y & cy & ky & vy & yr & Hcs & -> & Hplug & Hlen).
  rewrite app_nil_r in Hcs. subst csy'.
  unfold unlink, l. fold r. rewrite Hmin. intros [= <- <- <-].
  pose proof (plug_height csy (N y cy ky vy E yr)) as Hh. rewrite <- Hplug in Hh.
  rewrite length_app. cbn [length height] in *. lia.
Qed.

Lemma remove_sim_h fuel k s t n t' :
  St s t n →
  del_tree k t = Some t' →
  (height t < fuel)%nat →
  runs (remove fuel k) s (λ _ s', ∃ n', St s' t' n').
Proof.
  intros S0 Hdel Hfuel. unfold del_tree in Hdel.
  destruct (find k t []) as [[cs tz]|] eqn:Hfind; [|done].
  destruct (find_plug _ _ _ _ _ Hfind) as (Hplug & z & cz & vz & l & r & ->).
  pose proof (find_length_h _ _ _ _ _ Hfind) as Hlen. simpl in Hplug. cbn [length] in Hlen.
  destruct (unlink cs (N z cz k vz l r)) as [[[cx tx] c]|] eqn:Hun; [|done].
  pose proof (unlink_length_h _ _ _ _ _ _ _ _ _ _ Hun) as Hlen'.
  unfold remove, search. apply runs_bind, runs_bind, runs_get_root.
  pose proof (search_loop_sim_h k t [] fuel s n S0 Hfuel) as Hs.
  rewrite Hfind in Hs. cbn [rp] in Hs.
  pose proof S0 as (? & Hroot & ?). rewrite Hroot.
  eapply runs_eq; [exact Hs|]. cbn [is_null].
  assert (St s (plug cs (N z cz k vz l r)) n) as S1 by (by rewrite Hplug).
  assert (remove_unlink fuel (Some z) s = remove_unlink (S (tree_size r)) (Some z) s) as Hfu.
  { apply (remove_unlink_fuel _ _ _ _ _ (St_cell _ _ _ _ _ _ _ _ _ S1)). cbn [right].
    destruct r as [|pr cr kr vr rl rr]; [done|]. unfold minimum. cbn [rp is_null].
    assert (height (N pr cr kr vr rl rr) < fuel)%nat as Hhr by (cbn [height] in *; lia).
    pose proof (minimum_loop_sim_h (N pr cr kr vr rl rr) (FR z cz k vz l :: cs) fuel s n
                  ltac:(done) S1 Hhr) as H1.
    pose proof (minimum_loop_sim (N pr cr kr vr rl rr) (FR z cz k vz l :: cs)
                  (S (tree_size (N pr cr kr vr rl rr))) s n ltac:(done) S1 ltac:(lia)) as H2.
    cbn [rp] in H1, H2. by rewrite H1, H2. }
  apply runs_bind. unfold runs at 1. rewrite Hfu. eapply runs_conseq.
  { eapply unlink_sim; [exact S1|exact Hun|lia]. }
  cbn beta. intros res s1 (-> & [nz Hz] & S2). cbv beta iota.
  apply runs_bind. unfold delete_node at 1. exists tt. eexists. rewrite Hz. split; [done|].
  destruct c.
  - apply runs_ret. injection Hdel as <-. eauto.
  - cbn [is_black Color_eqb]. eapply deleteFixup_sim; [exact S2|exact Hdel|]. lia.
Qed.

(** X16. Every call of [search], [insert] and [remove] on a tree object
    that satisfies the invariants and has [n] nodes finishes when each of
    its loops may run 2 log2 (n + 1) + 1 times: the operations are
    logarithmic in the number of nodes. *)
Theorem operations_are_logarithmic (fuel : nat) (k v : Z) (s : RedBlackTree) (t : tree) :
  Inv s t → (2 * Nat.log2 (tree_size t + 1) < fuel)%nat →
  (∃ r, search fuel k s = Done r s ∧ (r = None ↔ k ∉ inorder t))
  ∧ (k ∉ inorder t →
       (∃ s' t', insert fuel k v s = Done tt s' ∧ Inv s' t')
       ∧ remove fuel k s = Throw KeyNotFound s)
  ∧ (k ∈ inorder t →
       (∃ s' t', remove fuel k s = Done tt s' ∧ Inv s' t')
       ∧ ∃ s', insert fuel k v s = Throw DuplicateKey s').
Proof.
  intros HI Hfuel. pose proof HI as ([n S0] & Hrb & Ho).
  pose proof (rbt_height_log t Hrb) as Hh.
  assert (height t < fuel)%nat as Hf by lia.
  pose proof (search_loop_sim_h k t [] fuel s n S0 Hf) as Hs.
  assert (search fuel k s
          = Done (match find k t [] with Some (_, tz) => rp tz | None => None end) s) as Hs'.
  { unfold search, bind, get_root. destruct S0 as (_ & -> & _). exact Hs. }
  split; [|split].
  - eexists. split; [exact Hs'|]. destruct (find k t []) as [[cs tz]|] eqn:Hfind.
    + destruct (find_plug _ _ _ _ _ Hfind) as (_ & z & cz & vz & l & r & ->). cbn [rp].
      split; [done|]. intros Hk. exfalso. apply Hk. eapply find_elem_of. by rewrite Hfind.
    + split; [|done]. intros _. by eapply find_None.
  - intros Hk. split.
    + destruct (ins_tree_spec (fresh (dom (heap s))) k v t Hrb Ho Hk)
        as (t' & m & Hins & Hm & Hrb' & Ho' & _).
      destruct (insert_sim_h fuel k v s t n t' m S0 Hins Hf) as ([] & s' & Hrun & S1).
      exists s', t'. split; [done|]. split; [eauto|done].
    + unfold remove, bind. rewrite Hs'.
      destruct (find k t []) as [[cs tz]|] eqn:Hfind; [|done].
      exfalso. apply Hk. eapply find_elem_of. by rewrite Hfind.
  - intros Hk. split.
    + destruct (del_tree_spec k t Hrb Ho Hk) as (t' & Hdel & Hrb' & Ho' & _).
      destruct (remove_sim_h fuel k s t n t' S0 Hdel Hf) as ([] & s' & Hrun & n' & S1).
      exists s', t'. split; [done|]. split; [eauto|done].
    + apply find_iff in Hk; [|done]. apply descend_find in Hk.
      by eapply insert_dup_h.
Qed.

Lemma operations_are_logarithmic_witness :
  Inv two_nodes two_tree ∧ (2 * Nat.log2 (tree_size two_tree + 1) < 3)%nat
  ∧ (∃ r, search 3 20 two_nodes = Done r two_nodes ∧ (r = None ↔ 20 ∉ inorder two_tree))
  ∧ (20 ∉ inorder two_tree →
       (∃ s' t', insert 3 20 7 two_nodes = Done tt s' ∧ Inv s' t')
       ∧ remove 3 20 two_nodes = Throw KeyNotFound two_nodes)
  ∧ (20 ∈ inorder two_tree →
       (∃ s' t', remove 3 20 two_nodes = Done tt s' ∧ Inv s' t')
       ∧ ∃ s', insert 3 20 7 two_nodes = Throw DuplicateKey s').
Proof.
  assert (2 * Nat.log2 (tree_size two_tree + 1) < 3)%nat as Hfuel
    by (vm_compute; lia).
  split; [exact Inv_two_nodes|]. split; [exact Hfuel|].
  exact (operations_are_logarithmic 3 20 7 two_nodes two_tree Inv_two_nodes Hfuel).
Defined.

(** ** The tree as a finite map *)

Lemma agrees_absent t m k : agrees t m → (k ∉ inorder t ↔ m !! k = None).
Proof.
  intros Ha. split.
  - intros Hk. destruct (m !! k) as [v|] eqn:Hm; [|done].
    apply Ha in Hm as [p Hp]. by apply nodes_inorder in Hp.
  - intros Hm Hk. destruct (inorder_nodes _ _ Hk) as (p & v & Hp).
    assert (m !! k = Some v) by (apply Ha; eauto). congruence.
Qed.

Lemma apply_op_agrees fuel op s t m :
  Inv s t → agrees t m → (tree_size t < fuel)%nat →
  ∃ s' t', (apply_op fuel op s = Done tt s' ∨ ∃ e, apply_op fuel op s = Throw e s')
           ∧ Inv s' t' ∧ agrees t' (apply_model m op)
           ∧ (tree_size t' ≤ S (tree_size t))%nat.
Proof.
  intros HI Ha Hfuel. pose proof (agrees_absent t m) as Habs.
  destruct op as [k v|k]; cbn [apply_op apply_model].
  - destruct (elem_of_dec_Z k (inorder t)) as [Hk|Hk].
    + destruct (insert_dup_ok fuel k v s t HI Hk Hfuel) as (s' & Hrun & HI' & _).
      exists s', t. split; [right; eauto|]. split; [done|]. split; [|lia].
      destruct (m !! k) eqn:Hm; [done|]. by apply Habs in Hm.
    + destruct (insert_nodes fuel k v s t HI Hk Hfuel)
        as (s' & t' & l1 & l2 & Hrun & HI' & H1 & H2).
      exists s', t'. split; [by left|]. split; [done|]. split.
      * pose proof Hk as Hm. apply Habs in Hm; [|done]. rewrite Hm.
        intros k' v'. rewrite H2. setoid_rewrite elem_of_app. setoid_rewrite elem_of_cons.
        destruct (decide (k' = k)) as [->|Hne].
        -- rewrite lookup_insert_eq. split.
           ++ intros [p [Hp|[[= _ ->]|Hp]]]; [|done|]; exfalso; apply Hk;
                apply (nodes_inorder t p k v'); rewrite H1, elem_of_app; tauto.
           ++ intros [= ->]. eexists. right. by left.
        -- rewrite lookup_insert_ne by done. rewrite <- (Ha k' v'), H1.
           setoid_rewrite elem_of_app.
           split; intros [p Hp]; exists p; [|tauto].
           destruct Hp as [?|[[= _ ? _]|?]]; tauto.
      * rewrite <- !nodes_length, H1, H2, !length_app. simpl. lia.
  - destruct (elem_of_dec_Z k (inorder t)) as [Hk|Hk].
    + destruct (remove_nodes fuel k s t HI Hk Hfuel)
        as (s' & t' & l1 & l2 & z & v & Hrun & HI' & _ & H1 & H2).
      exists s', t'. split; [by left|]. split; [done|]. split.
      * assert (k ∉ inorder t') as Hk'.
        { destruct HI as (_ & _ & Ho). apply ordered_sorted in Ho.
          rewrite <- nodes_keys, H1, fmap_app, fmap_cons in Ho. cbn [fst snd] in Ho.
          rewrite <- nodes_keys, H2, fmap_app.
          apply StronglySorted_app in Ho as (H12 & S1 & S2).
          apply StronglySorted_cons in S2 as [Hall S2]. rewrite Forall_forall in Hall.
          rewrite elem_of_app. intros [Hin|Hin].
          - assert (k < k); [|lia]. apply H12; [done|by left].
          - specialize (Hall k Hin). lia. }
        intros k' v'. destruct (decide (k' = k)) as [->|Hne].
        -- rewrite lookup_delete_eq. split; [|done]. intros [p Hp].
           by apply nodes_inorder in Hp.
        -- rewrite lookup_delete_ne by done. rewrite <- (Ha k' v'), H1, H2.
           setoid_rewrite elem_of_app. setoid_rewrite elem_of_cons.
           split; intros [p Hp]; exists p; [tauto|].
           destruct Hp as [?|[[= _ ? _]|?]]; tauto.
      * rewrite <- !nodes_length, H1, H2, !length_app. simpl. lia.
    + rewrite (remove_absent_ok fuel k s t HI Hk Hfuel).
      exists s, t. split; [right; eauto|]. split; [done|]. split; [|lia].
      intros k' v'. destruct (decide (k' = k)) as [->|Hne].
      * rewrite lookup_delete_eq. split; [|done]. intros [p Hp].
        by apply nodes_inorder in Hp.
      * rewrite lookup_delete_ne by done. apply Ha.
Qed.

Lemma run_agrees fuel ops : ∀ s t m,
  Inv s t → agrees t m → (tree_size t + length ops < fuel)%nat →
  ∃ states t', run fuel ops s = Some states
    ∧ Inv (default s (last states)) t' ∧ agrees t' (foldl apply_model m ops)
    ∧ (tree_size t' < fuel)%nat.
Proof.
  induction ops as [|op ops IH]; intros s t m HI Ha Hfuel.
  - exists [], t. simpl in *. split; [done|]. split; [done|]. split; [done|]. lia.
  - simpl in Hfuel.
    destruct (apply_op_agrees fuel op s t m HI Ha) as (s' & t' & Hrun & HI' & Ha' & Hsz);
      [lia|].
    destruct (IH s' t' (apply_model m op) HI' Ha') as (states & t'' & Hst & HI'' & Ha'' & Hsz');
      [lia|].
    exists (s' :: states), t''. split.
    { simpl. destruct Hrun as [-> | [e ->]]; by rewrite Hst. }
    split; [|done]. destruct states as [|s0 states]; [done|].
    rewrite last_cons_cons. destruct (last (s0 :: states)) eqn:Hl; [done|].
    by apply last_None in Hl.
Qed.

(** X17. The tree object is a finite map from keys to values: after any
    sequence of [insert] and [remove] calls on an initially empty tree
    (calls that throw are skipped and leave the contents as they are),
    looking a key up yields the value bound to it in the map obtained by
    applying the operations to the empty map, where [insert] adds a binding
    only if the key is unbound and [remove] deletes the binding of the
    key. *)
Theorem tree_refines_finite_map (fuel : nat) (ops : list Op) :
  (length ops < fuel)%nat →
  ∃ states, run fuel ops empty_tree = Some states
    ∧ ∀ k, value_at fuel k (default empty_tree (last states))
           = Done (foldl apply_model ∅ ops !! k) (default empty_tree (last states)).
Proof.
  intros Hfuel.
  destruct (run_agrees fuel ops empty_tree E ∅ Inv_empty)
    as (states & t & Hrun & HI & Ha & Hsz); [|simpl; lia|].
  { intros k v. rewrite lookup_empty. split; [|done]. intros [p Hp].
    by apply elem_of_nil in Hp. }
  exists states. split; [done|]. intros k.
  destruct (value_at_total fuel _ t k HI Hsz) as (r & Hr & Hspec).
  rewrite Hr. f_equal. apply option_iff_eq. intros v. rewrite Hspec. apply Ha.
Qed.

Lemma tree_refines_finite_map_witness :
  (length [Insert 10 1; Insert 20 2; Insert 10 3; Remove 20; Remove 7] < 6)%nat
  ∧ ∃ states, run 6 [Insert 10 1; Insert 20 2; Insert 10 3; Remove 20; Remove 7] empty_tree
              = Some states
    ∧ ∀ k, value_at 6 k (default empty_tree (last states))
           = Done (foldl apply_model ∅
                     [Insert 10 1; Insert 20 2; Insert 10 3; Remove 20; Remove 7] !! k)
                  (default empty_tree (last states)).
Proof.
  split; [simpl; lia|]. apply tree_refines_finite_map. simpl. lia.
Defined.

(** ** successor and predecessor step through the in-order sequence *)

Lemma NoDup_index (l l1 l2 : list ptr) x i :
  NoDup l → l = l1 ++ x :: l2 → l !! i = Some x → i = length l1.
Proof.
  intros Hnd -> Hi. eapply NoDup_lookup; [exact Hnd|exact Hi|].
  by rewrite list_lookup_middle.
Qed.

Lemma successor_index fuel s t n x i :
  St s t n → (tree_size t < fuel)%nat → ptrs t !! i = Some x →
  successor fuel (Some x) s = Done (ptrs t !! S i) s.
Proof.
  intros S0 Hfuel Hi. pose proof S0 as (_ & _ & Hnd & _).
  assert (x ∈ ptrs t) as Hx by (by eapply list_elem_of_lookup_2).
  destruct (ptrs_locate x t Hx) as (cs & c & k & v & l & r & Heq).
  pose proof S0 as S1. rewrite Heq in S1. pose proof Hfuel as Hfuel'. rewrite Heq in Hfuel'.
  rewrite (successor_sim fuel s n cs x c k v l r S1 Hfuel'). f_equal.
  pose proof (succ_of_nodes cs x c k v l r) as Hs. rewrite <- Heq in Hs.
  destruct (succ_of cs (N x c k v l r)) as [[y ky]|].
  - destruct Hs as (vy & l1 & l2 & Hn).
    assert (ptrs t = ((λ a : ptr * Z * Z, a.1.1) <$> l1) ++ x
                       :: y :: ((λ a : ptr * Z * Z, a.1.1) <$> l2)) as Hp
      by (by rewrite <- nodes_ptrs, Hn, fmap_app).
    rewrite (NoDup_index _ _ _ _ _ Hnd Hp Hi), Hp.
    rewrite (cons_middle x), app_assoc.
    rewrite list_lookup_middle; [done|]. rewrite length_app. simpl. lia.
  - destruct Hs as (l1 & Hn).
    assert (ptrs t = ((λ a : ptr * Z * Z, a.1.1) <$> l1) ++ x :: []) as Hp
      by (by rewrite <- nodes_ptrs, Hn, fmap_app).
    rewrite (NoDup_index _ _ _ _ _ Hnd Hp Hi). cbn [fmap option_fmap option_map].
    symmetry. apply lookup_ge_None. rewrite Hp, length_app. simpl. lia.
Qed.

Lemma predecessor_index fuel s t n x i :
  St s t n → (tree_size t < fuel)%nat → ptrs t !! i = Some x →
  predecessor fuel (Some x) s
  = Done (match i with O => None | S j => ptrs t !! j end) s.
Proof.
  intros S0 Hfuel Hi. pose proof S0 as (_ & _ & Hnd & _).
  assert (x ∈ ptrs t) as Hx by (by eapply list_elem_of_lookup_2).
  destruct (ptrs_locate x t Hx) as (cs & c & k & v & l & r & Heq).
  pose proof S0 as S1. rewrite Heq in S1. pose proof Hfuel as Hfuel'. rewrite Heq in Hfuel'.
  rewrite (predecessor_sim fuel s n cs x c k v l r S1 Hfuel'). f_equal.
  pose proof (pred_of_nodes cs x c k v l r) as Hs. rewrite <- Heq in Hs.
  destruct (pred_of cs (N x c k v l r)) as [[y ky]|].
  - destruct Hs as (vy & l1 & l2 & Hn).
    assert (ptrs t = (((λ a : ptr * Z * Z, a.1.1) <$> l1) ++ [y]) ++ x
                       :: ((λ a : ptr * Z * Z, a.1.1) <$> l2)) as Hp
      by (by rewrite <- nodes_ptrs, Hn, fmap_app, <- app_assoc).
    rewrite (NoDup_index _ _ _ _ _ Hnd Hp Hi), length_app, Nat.add_1_r.
    rewrite Hp, <- app_assoc. cbn [fmap option_fmap option_map fst app].
    by rewrite list_lookup_middle.
  - destruct Hs as (l2 & Hn).
    assert (ptrs t = [] ++ x :: ((λ a : ptr * Z * Z, a.1.1) <$> l2)) as Hp
      by (by rewrite <- nodes_ptrs, Hn).
    by rewrite (NoDup_index _ _ _ _ _ Hnd Hp Hi).
Qed.

(** X18. [successor] and [predecessor] step through the sequence of nodes
    that the in-order traversal visits: for the node at position [i] of
    that sequence, [successor] returns the node at position [i + 1], or the
    null handle if there is none, and [predecessor] returns the node at
    position [i - 1], or the null handle at position 0.  No order of the
    keys is assumed. *)
Theorem successor_steps_in_order (fuel : nat) (s : RedBlackTree) (t : tree) (n : nat) :
  St s t n → (tree_size t < fuel)%nat →
  ∃ ps, inOrderTraversal fuel s = Done ps s
    ∧ ∀ i x, ps !! i = Some x →
        successor fuel (Some x) s = Done (ps !! S i) s
        ∧ predecessor fuel (Some x) s
          = Done (match i with O => None | S j => ps !! j end) s.
Proof.
  intros S0 Hfuel. exists (ptrs t). split; [by eapply inOrderTraversal_sim|].
  intros i x Hi. split; [by eapply successor_index|by eapply predecessor_index].
Qed.

Lemma successor_steps_in_order_witness :
  St two_nodes two_tree 0 ∧ (tree_size two_tree < 3)%nat
  ∧ ∃ ps, inOrderTraversal 3 two_nodes = Done ps two_nodes
    ∧ ∀ i x, ps !! i = Some x →
        successor 3 (Some x) two_nodes = Done (ps !! S i) two_nodes
        ∧ predecessor 3 (Some x) two_nodes
          = Done (match i with O => None | S j => ps !! j end) two_nodes.
Proof.
  assert (St two_nodes two_tree 0) as S0.
  { repeat split; try reflexivity. apply (bool_decide_unpack _). reflexivity. }
  assert (tree_size two_tree < 3)%nat as Hfuel by (simpl; lia).
  repeat (split; [assumption|]).
  exact (successor_steps_in_order 3 two_nodes two_tree 0 S0 Hfuel).
Defined.

(** X19. After any sequence of [insert] and [remove] calls on an initially
    empty tree, the in-order traversal yields, in strictly ascending order,
    exactly the keys that are bound in the map obtained by applying the
    operations to the empty map. *)
Theorem inorder_lists_domain (fuel : nat) (ops : list Op) :
  (length ops < fuel)%nat →
  ∃ states ks, run fuel ops empty_tree = Some states
    ∧ inOrderKeys fuel (default empty_tree (last states))
      = Done ks (default empty_tree (last states))
    ∧ StronglySorted Z.lt ks
    ∧ ∀ k, k ∈ ks ↔ is_Some (foldl apply_model ∅ ops !! k).
Proof.
  intros Hfuel.
  destruct (run_agrees fuel ops empty_tree E ∅ Inv_empty)
    as (states & t & Hrun & HI & Ha & Hsz); [|simpl; lia|].
  { intros k v. rewrite lookup_empty. split; [|done]. intros [p Hp].
    by apply elem_of_nil in Hp. }
  pose proof HI as ([n S0] & _ & Ho).
  exists states, (inorder t). split; [done|]. split; [by eapply inOrderKeys_sim|].
  split; [by apply ordered_sorted|]. intros k. split.
  - intros Hk. destruct (inorder_nodes _ _ Hk) as (p & v & Hp). exists v. apply Ha. eauto.
  - intros [v Hv]. apply Ha in Hv as [p Hp]. by eapply nodes_inorder.
Qed.

Lemma inorder_lists_domain_witness :
  (length [Insert 10 1; Insert 20 2; Insert 10 3; Remove 20; Remove 7] < 6)%nat
  ∧ ∃ states ks,
      run 6 [Insert 10 1; Insert 20 2; Insert 10 3; Remove 20; Remove 7] empty_tree
      = Some states
    ∧ inOrderKeys 6 (default empty_tree (last states))
      = Done ks (default empty_tree (last states))
    ∧ StronglySorted Z.lt ks
    ∧ ∀ k, k ∈ ks ↔ is_Some (foldl apply_model ∅
                       [Insert 10 1; Insert 20 2; Insert 10 3; Remove 20; Remove 7] !! k).
Proof.
  split; [simpl; lia|]. apply inorder_lists_domain. simpl. lia.
Defined.

(** X20. A copy owns its nodes: running the destructor of the copy leaves
    the source tree as it is, and running the destructor of the source
    leaves the copy as it is; no node is released by both. *)
Theorem copy_owns_its_nodes (fuel : nat) (s : RedBlackTree) (t : tree) (n : nat) :
  St s t n → (tree_size t < fuel)%nat →
  ∃ c s' t', copy_constructor fuel s = Done c s' ∧ same_shape t t'
    ∧ (∃ c', destructor fuel c = Done tt c'
             ∧ St (mkTree (heap c') (root s') (rotations s') (transplants s')) t n
             ∧ ∀ q, q ∈ ptrs t' → heap c' !! q = None)
    ∧ (∃ s'', destructor fuel s' = Done tt s''
              ∧ St (mkTree (heap s'') (root c) (rotations c) (transplants c)) t' 0
              ∧ ∀ q, q ∈ ptrs t → heap s'' !! q = None).
Proof.
  intros S0 Hfuel.
  destruct (copy_constructor_spec fuel s t n S0 Hfuel)
    as (c & s' & t' & Hrun & Hh & S1 & Sc & Hss & Hnd' & Hfresh & Hun & _).
  assert (∀ q, q ∈ ptrs t → q ∉ ptrs t') as Hdisj.
  { intros q Hq Hin. destruct (St_ptrs_alloc s t n q S0 Hq) as [nd Hnd].
    specialize (Hfresh q Hin). congruence. }
  exists c, s', t'. split; [done|]. split; [done|]. split.
  - destruct (destructor_spec fuel c t' 0 Sc) as (c' & Hd & Hr1 & Hr2 & _);
      [by rewrite (same_shape_size _ _ Hss)|].
    exists c'. split; [done|]. split; [|done].
    destruct S1 as (Hr & Hroot & Hnd & Hrot). split; [|by repeat split].
    cbn [heap]. eapply repr_ext; [|exact Hr]. intros q Hq.
    rewrite Hr2, Hh; [done|]. by apply Hdisj.
  - destruct (destructor_spec fuel s' t n S1 Hfuel) as (s'' & Hd & Hr1 & Hr2 & _).
    exists s''. split; [done|]. split; [|done].
    destruct Sc as (Hr & Hroot & Hnd & Hrot). split; [|by repeat split].
    cbn [heap]. eapply repr_ext; [|exact Hr]. intros q Hq.
    rewrite Hr2, Hh; [done|]. intros Hin. by apply (Hdisj q).
Qed.

Lemma copy_owns_its_nodes_witness :
  St two_nodes two_tree 0 ∧ (tree_size two_tree < 3)%nat
  ∧ ∃ c s' t', copy_constructor 3 two_nodes = Done c s' ∧ same_shape two_tree t'
    ∧ (∃ c', destructor 3 c = Done tt c'
             ∧ St (mkTree (heap c') (root s') (rotations s') (transplants s')) two_tree 0
             ∧ ∀ q, q ∈ ptrs t' → heap c' !! q = None)
    ∧ (∃ s'', destructor 3 s' = Done tt s''
              ∧ St (mkTree (heap s'') (root c) (rotations c) (transplants c)) t' 0
              ∧ ∀ q, q ∈ ptrs two_tree → heap s'' !! q = None).
Proof.
  assert (St two_nodes two_tree 0) as S0.
  { repeat split; try reflexivity. apply (bool_decide_unpack _). reflexivity. }
  assert (tree_size two_tree < 3)%nat as Hfuel by (simpl; lia).
  repeat (split; [assumption|]).
  exact (copy_owns_its_nodes 3 two_nodes two_tree 0 S0 Hfuel).
Defined.

(** * RBTree.h *)

Lemma rb_leftRotate_spec cs x cx kx vx a y cy ky vy b c s n :
  St s (plug cs (N x cx kx vx a (N y cy ky vy b c))) n →
  runs (RBTree.leftRotate (Some x)) s (λ _ s',
    St s' (plug cs (N y cy ky vy (N x cx kx vx a b) c)) n).
Proof.
  destruct s as [h r nr nt]. intros H. unfold RBTree.leftRotate.
  destruct b as [|pb cb kb vb bl br]; destruct cs as [|[pp cp kp vp sp|pp cp kp vp sp] cs];
    st_elim H; subst; wp; st_intro.
Qed.

Lemma rb_rightRotate_spec cs x cx kx vx a y cy ky vy b c s n :
  St s (plug cs (N y cy ky vy (N x cx kx vx a b) c)) n →
  runs (RBTree.rightRotate (Some y)) s (λ _ s',
    St s' (plug cs (N x cx kx vx a (N y cy ky vy b c))) n).
Proof.
  destruct s as [h r nr nt]. intros H. unfold RBTree.rightRotate.
  destruct b as [|pb cb kb vb bl br]; destruct cs as [|[pp cp kp vp sp|pp cp kp vp sp] cs];
    st_elim H; subst; wp; st_intro.
Qed.

Ltac rb_loop IH cs H :=
  eapply (IH cs); [exact H | first [eassumption | reflexivity] | simpl in *; lia].

Lemma rb_insertFixup_loop_sim fuel : ∀ cs z cz kz vz a b s n t' m,
  St s (plug cs (N z cz kz vz a b)) n →
  fix_ins cs (N z cz kz vz a b) = Some (t', m) →
  (length cs < fuel)%nat →
  runs (RBTree.insertFixup_loop fuel (Some z)) s (λ _ s', St s' t' n).
Proof.
  induction fuel as [|fuel IH]; intros cs z cz kz vz a b s n t' m S0 Hfix Hfuel; [lia|].
  cbn [RBTree.insertFixup_loop].
  destruct cs as [|f cs].
  { simpl in Hfix. injection Hfix as <- <-. cells S0. wpr. done. }
  destruct f as [p [] kp vp sb|p [] kp vp sb].
  - destruct cs as [|[g cg kg vg u|g cg kg vg u] cs]; [done|..].
    + destruct u as [|pu [] ku vu ul ur].
      * simpl in Hfix. injection Hfix as <- <-. cells S0. wpr.
        wp_apply (set_color_spec (FL g cg kg vg E :: cs)) using S0 as S1. cells S1. wpr.
        wp_apply (set_color_spec cs) using S1 as S2. cells S2. wpr.
        wp_apply (rb_rightRotate_spec cs) using S2 as S3.
        rb_loop IH (FL p BLACK kp vp (N g RED kg vg sb E) :: cs) S3.
      * cbn [fix_ins tcol blacken] in Hfix. cells S0. wpr.
        wp_apply (set_color_spec (FL g cg kg vg _ :: cs)) using S0 as S1. cells S1. wpr.
        wp_apply (set_color_spec (FR g cg kg vg _ :: cs)) using S1 as S2. cells S2. wpr.
        wp_apply (set_color_spec cs) using S2 as S3. cells S3. wpr.
        rb_loop IH cs S3.
      * simpl in Hfix. injection Hfix as <- <-. cells S0. wpr.
        wp_apply (set_color_spec (FL g cg kg vg _ :: cs)) using S0 as S1. cells S1. wpr.
        wp_apply (set_color_spec cs) using S1 as S2. cells S2. wpr.
        wp_apply (rb_rightRotate_spec cs) using S2 as S3.
        rb_loop IH (FL p BLACK kp vp (N g RED kg vg sb (N pu BLACK ku vu ul ur)) :: cs) S3.
    + destruct u as [|pu [] ku vu ul ur].
      * simpl in Hfix. injection Hfix as <- <-. cells S0. wpr.
        wp_apply (rb_rightRotate_spec (FR g cg kg vg _ :: cs)) using S0 as S1. cells S1. wpr.
        wp_apply (set_color_spec (FR g cg kg vg _ :: cs)) using S1 as S2. cells S2. wpr.
        wp_apply (set_color_spec cs) using S2 as S3. cells S3. wpr.
        wp_apply (rb_leftRotate_spec cs) using S3 as S4.
        rb_loop IH (FR z BLACK kz vz (N g RED kg vg E a) :: cs) S4.
      * cbn [fix_ins tcol blacken] in Hfix. cells S0. wpr.
        wp_apply (set_color_spec (FR g cg kg vg _ :: cs)) using S0 as S1. cells S1. wpr.
        wp_apply (set_color_spec (FL g cg kg vg _ :: cs)) using S1 as S2. cells S2. wpr.
        wp_apply (set_color_spec cs) using S2 as S3. cells S3. wpr.
        rb_loop IH cs S3.
      * simpl in Hfix. injection Hfix as <- <-. cells S0. wpr.
        wp_apply (rb_rightRotate_spec (FR g cg kg vg _ :: cs)) using S0 as S1. cells S1. wpr.
        wp_apply (set_color_spec (FR g cg kg vg _ :: cs)) using S1 as S2. cells S2. wpr.
        wp_apply (set_color_spec cs) using S2 as S3. cells S3. wpr.
        wp_apply (rb_leftRotate_spec cs) using S3 as S4.
        rb_loop IH (FR z BLACK kz vz (N g RED kg vg (N pu BLACK ku vu ul ur) a) :: cs) S4.
  - cbn [fix_ins] in Hfix. injection Hfix as <- <-.
    destruct cs as [|f cs]; cells S0; wpr; done.
  - destruct cs as [|[g cg kg vg u|g cg kg vg u] cs]; [done|..].
    + destruct u as [|pu [] ku vu ul ur].
      * simpl in Hfix. injection Hfix as <- <-. cells S0. wpr.
        wp_apply (rb_leftRotate_spec (FL g cg kg vg _ :: cs)) using S0 as S1. cells S1. wpr.
        wp_apply (set_color_spec (FL g cg kg vg _ :: cs)) using S1 as S2. cells S2. wpr.
        wp_apply (set_color_spec cs) using S2 as S3. cells S3. wpr.
        wp_apply (rb_rightRotate_spec cs) using S3 as S4.
        rb_loop IH (FL z BLACK kz vz (N g RED kg vg b E) :: cs) S4.
      * cbn [fix_ins tcol blacken] in Hfix. cells S0. wpr.
        wp_apply (set_color_spec (FL g cg kg vg _ :: cs)) using S0 as S1. cells S1. wpr.
        wp_apply (set_color_spec (FR g cg kg vg _ :: cs)) using S1 as S2. cells S2. wpr.
        wp_apply (set_color_spec cs) using S2 as S3. cells S3. wpr.
        rb_loop IH cs S3.
      * simpl in Hfix. injection Hfix as <- <-. cells S0. wpr.
        wp_apply (rb_leftRotate_spec (FL g cg kg vg _ :: cs)) using S0 as S1. cells S1. wpr.
        wp_apply (set_color_spec (FL g cg kg vg _ :: cs)) using S1 as S2. cells S2. wpr.
        wp_apply (set_color_spec cs) using S2 as S3. cells S3. wpr.
        wp_apply (rb_rightRotate_spec cs) using S3 as S4.
        rb_loop IH (FL z BLACK kz vz (N g RED kg vg b (N pu BLACK ku vu ul ur)) :: cs) S4.
    + destruct u as [|pu [] ku vu ul ur].
      * simpl in Hfix. injection Hfix as <- <-. cells S0. wpr.
        wp_apply (set_color_spec (FR g cg kg vg _ :: cs)) using S0 as S1. cells S1. wpr.
        wp_apply (set_color_spec cs) using S1 as S2. cells S2. wpr.
        wp_apply (rb_leftRotate_spec cs) using S2 as S3.
        rb_loop IH (FR p BLACK kp vp (N g RED kg vg E sb) :: cs) S3.
      * cbn [fix_ins tcol blacken] in Hfix. cells S0. wpr.
        wp_apply (set_color_spec (FR g cg kg vg _ :: cs)) using S0 as S1. cells S1. wpr.
        wp_apply (set_color_spec (FL g cg kg vg _ :: cs)) using S1 as S2. cells S2. wpr.
        wp_apply (set_color_spec cs) using S2 as S3. cells S3. wpr.
        rb_loop IH cs S3.
      * simpl in Hfix. injection Hfix as <- <-. cells S0. wpr.
        wp_apply (set_color_spec (FR g cg kg vg _ :: cs)) using S0 as S1. cells S1. wpr.
        wp_apply (set_color_spec cs) using S1 as S2. cells S2. wpr.
        wp_apply (rb_leftRotate_spec cs) using S2 as S3.
        rb_loop IH (FR p BLACK kp vp (N g RED kg vg (N pu BLACK ku vu ul ur) sb) :: cs) S3.
  - cbn [fix_ins] in Hfix. injection Hfix as <- <-.
    destruct cs as [|f cs]; cells S0; wpr; done.
Qed.

(** ** insertFixup and insert *)


Lemma rb_insertFixup_sim fuel cs z cz kz vz a b s n t' m :
  St s (plug cs (N z cz kz vz a b)) n →
  fix_ins cs (N z cz kz vz a b) = Some (t', m) →
  (length cs < fuel)%nat →
  runs (RBTree.insertFixup fuel (Some z)) s (λ _ s', St s' (blacken t') n).
Proof.
  intros S0 Hfix Hfuel. unfold RBTree.insertFixup. apply runs_bind.
  eapply runs_conseq; [by eapply rb_insertFixup_loop_sim|]. cbn beta. intros [] s1 S1.
  pose proof (fix_ins_nonempty _ _ _ _ _ _ _ _ _ Hfix) as Hne.
  destruct t' as [|r cr kr vr tl tr]; [done|]. clear Hne.
  pose proof S1 as C1. destruct C1 as (_ & Hroot & _). cbn in Hroot.
  wpr. wp_apply (set_color_spec []) using S1 as S2. done.
Qed.

Lemma rb_insert_loop_sim z k nz t : ∀ cs fuel s n,
  St s (plug cs t) n → heap s !! z = Some nz → key nz = k →
  (tree_size t < fuel)%nat →
  RBTree.insert_loop fuel (Some z) (cpar None cs) (rp t) s =
    Done (cpar None (RBTree.descend k t cs)) s.
Proof.
  intros cs fuel s n H Hz Hk. revert cs fuel H.
  induction t as [|p c k' v l IHl r IHr]; intros cs fuel H Hfuel;
    (destruct fuel as [|fuel]; [simpl in Hfuel; lia|]).
  - done.
  - cbn [RBTree.insert_loop RBTree.descend rp is_null]. unfold bind at 1.
    rewrite (get_eq _ _ _ _ Hz), Hk. unfold bind at 1.
    rewrite (get_eq _ _ _ _ (St_cell _ _ _ _ _ _ _ _ _ H)). cbn [key].
    simpl in Hfuel. destruct (k <? k').
    + unfold bind. rewrite (get_eq _ _ _ _ (St_cell _ _ _ _ _ _ _ _ _ H)). cbn [left].
      apply (IHl (FL p c k' v r :: cs) fuel H). lia.
    + unfold bind. rewrite (get_eq _ _ _ _ (St_cell _ _ _ _ _ _ _ _ _ H)). cbn [right].
      apply (IHr (FR p c k' v l :: cs) fuel H). lia.
Qed.

Lemma rb_descend_side k t : ∀ cs, side_ok k cs → side_ok k (RBTree.descend k t cs).
Proof.
  induction t as [|p c k' v l IHl r IHr]; intros cs; simpl; [done|].
  destruct (k <? k') eqn:Hlt; intros _; [by apply IHl|by apply IHr].
Qed.

Lemma rb_descend_length k t : ∀ cs,
  (length (RBTree.descend k t cs) ≤ tree_size t + length cs)%nat.
Proof.
  induction t as [|p c k' v l IHl r IHr]; intros cs; simpl; [lia|].
  destruct (k <? k'); [specialize (IHl (FL p c k' v r :: cs))
                      |specialize (IHr (FR p c k' v l :: cs))]; simpl in *; lia.
Qed.

Lemma rb_descend_plug k t : ∀ cs, plug (RBTree.descend k t cs) E = plug cs t.
Proof.
  induction t as [|p c k' v l IHl r IHr]; intros cs; simpl; [done|].
  destruct (k <? k'); [by rewrite IHl|by rewrite IHr].
Qed.

Lemma rb_link_spec {B} (K : M B) Q s cs n p k v :
  St s (plug cs E) n →
  heap s !! p = Some (mkNode k v RED None None None) →
  p ∉ ptrs (plug cs E) → side_ok k cs →
  (∀ s', St s' (plug cs (N p RED k v E E)) n → runs K s' Q) →
  runs (set_parent (Some p) (cpar None cs);;
        (if is_null (cpar None cs) then set_root (Some p)
         else zd ← get key (Some p);
              yd ← get key (cpar None cs);
              if zd <? yd then set_left (cpar None cs) (Some p)
              else set_right (cpar None cs) (Some p));;
        K) s Q.
Proof.
  destruct s as [h rt nr nt]. intros H Hp Hnotin Hside HK.
  rewrite ptrs_plug in Hnotin. cbn [heap] in Hp.
  destruct cs as [|[pp cp kp vp sp|pp cp kp vp sp] cs]; cbn in Hside, Hnotin;
    pose proof (Hnotin : kept _) as Hni;
    st_elim H; nd_split; subst; wp; try rewrite Hside; wp; apply HK; st_intro.
  all: unfold kept in *; simpl in *; by apply NoDup_cons.
Qed.

Lemma rb_insert_sim fuel k s t n t' :
  St s t n →
  RBTree.ins_tree (fresh (dom (heap s))) k t = Some t' →
  (tree_size t < fuel)%nat →
  runs (RBTree.insert fuel k) s (λ _ s', St s' t' n).
Proof.
  intros S0 Hins Hfuel. unfold RBTree.ins_tree in Hins.
  set (cs := RBTree.descend k t []) in *.
  set (p := fresh (dom (heap s))) in *.
  destruct (fix_ins cs (N p RED k k E E)) as [[t1 m1]|] eqn:Hfix; [|done].
  injection Hins as <-.
  assert (heap s !! p = None) as Hp.
  { apply not_elem_of_dom. apply is_fresh. }
  unfold RBTree.insert. apply runs_bind. unfold new_node at 1. eexists _, _. split; [reflexivity|].
  fold p. apply (St_alloc _ _ _ p (mkNode k k RED None None None)) in S0 as S1; [|done].
  set (s1 := mkTree _ _ _ _) in *.
  apply runs_bind, runs_get_root. apply runs_bind.
  assert (heap s1 !! p = Some (mkNode k k RED None None None)) as Hp1.
  { subst s1. cbn. by rewrite lookup_insert_eq. }
  pose proof (rb_insert_loop_sim p k _ t [] fuel s1 n S1 Hp1 eq_refl Hfuel) as Hloop.
  fold cs in Hloop. cbn [cpar] in Hloop.
  pose proof S1 as (? & Hroot & ?). rewrite Hroot.
  eexists _, _. split; [exact Hloop|].
  pose proof (rb_descend_plug k t []) as Hplug. fold cs in Hplug. simpl in Hplug.
  assert (St s1 (plug cs E) n) as S2 by (rewrite Hplug; done).
  rewrite <- Hplug in *.
  cbn beta. apply (rb_link_spec _ _ _ _ n p k k); [done|done| | |].
  - intros Hin. eapply (St_ptrs_alloc s) in Hin as [? Hin]; [|eassumption].
    congruence.
  - by apply rb_descend_side.
  - intros s3 S3. eapply rb_insertFixup_sim; [done..|].
    pose proof (rb_descend_length k t []) as Hd. fold cs in Hd. simpl in Hd.
    rewrite Hplug in Hfuel. lia.
Qed.


(** ** search and the loop of remove *)

Lemma rb_search_loop_sim k t : ∀ cs fuel s n,
  St s (plug cs t) n → (tree_size t < fuel)%nat →
  RBTree.search_loop fuel k (rp t) s =
    Done (match find k t cs with Some (_, tz) => rp tz | None => None end) s.
Proof.
  induction t as [|p c k' v l IHl r IHr]; intros cs fuel s n H Hfuel;
    (destruct fuel as [|fuel]; [simpl in Hfuel; lia|]).
  - done.
  - cbn [RBTree.search_loop find rp]. unfold and_then, non_null, bind at 1 2.
    cbn [is_null negb ret]. unfold bind at 1.
    rewrite (get_eq _ _ _ _ (St_cell _ _ _ _ _ _ _ _ _ H)). cbn [key ret].
    simpl in Hfuel. destruct (k' =? k) eqn:Heq; cbn [negb].
    { assert ((k <? k') = false) as -> by lia. assert ((k >? k') = false) as -> by lia. done. }
    unfold bind at 1.
    rewrite (get_eq _ _ _ _ (St_cell _ _ _ _ _ _ _ _ _ H)). cbn [key].
    destruct (k <? k') eqn:Hlt.
    + unfold bind. rewrite (get_eq _ _ _ _ (St_cell _ _ _ _ _ _ _ _ _ H)). cbn [left].
      apply (IHl (FL p c k' v r :: cs) fuel s n H). lia.
    + assert ((k >? k') = true) as -> by lia.
      unfold bind. rewrite (get_eq _ _ _ _ (St_cell _ _ _ _ _ _ _ _ _ H)). cbn [right].
      apply (IHr (FR p c k' v l :: cs) fuel s n H). lia.
Qed.

Lemma rb_remove_loop_sim k t : ∀ cs fuel s n,
  St s (plug cs t) n → (tree_size t < fuel)%nat →
  match find k t cs with
  | None => RBTree.remove_loop fuel k (rp t) s = Done tt s
  | Some (_, tz) =>
    ∃ fuel', (tree_size tz < fuel')%nat ∧
      RBTree.remove_loop fuel k (rp t) s = RBTree.remove_node fuel' (rp tz) s
  end.
Proof.
  induction t as [|p c k' v l IHl r IHr]; intros cs fuel s n H Hfuel;
    (destruct fuel as [|fuel]; [simpl in Hfuel; lia|]).
  - done.
  - pose proof (get_eq key _ _ _ (St_cell _ _ _ _ _ _ _ _ _ H)) as Hk.
    pose proof (get_eq left _ _ _ (St_cell _ _ _ _ _ _ _ _ _ H)) as Hl.
    pose proof (get_eq right _ _ _ (St_cell _ _ _ _ _ _ _ _ _ H)) as Hr.
    cbn [key left right] in Hk, Hl, Hr.
    cbn [RBTree.remove_loop find rp is_null]. unfold bind. rewrite Hk.
    simpl in Hfuel. destruct (k' =? k) eqn:Heq.
    { assert ((k <? k') = false) as -> by lia. assert ((k >? k') = false) as -> by lia.
      exists (S fuel). split; [simpl; lia|done]. }
    destruct (k <? k') eqn:Hlt.
    + rewrite Hl. apply (IHl (FL p c k' v r :: cs) fuel s n H). lia.
    + assert ((k >? k') = true) as -> by lia.
      rewrite Hr. apply (IHr (FR p c k' v l :: cs) fuel s n H). lia.
Qed.

Lemma rb_minimum_sim t : ∀ cs fuel s n,
  t ≠ E → St s (plug cs t) n → (tree_size t < fuel)%nat →
  RBTree.minimum fuel (rp t) s = Done (rp (min_ctx t cs).2) s.
Proof.
  induction t as [|p c k v l IHl r _]; intros cs fuel s n Hne H Hfuel; [done|].
  destruct fuel as [|fuel]; [simpl in Hfuel; lia|].
  cbn [RBTree.minimum rp]. unfold bind.
  rewrite (get_eq _ _ _ _ (St_cell _ _ _ _ _ _ _ _ _ H)). cbn [left].
  destruct l as [|pl cl kl vl ll lr]; [done|].
  cbn [rp is_null]. change (rp (min_ctx _ cs).2) with
    (rp (min_ctx (N pl cl kl vl ll lr) (FL p c k v r :: cs)).2).
  apply (IHl (FL p c k v r :: cs) fuel s n); [done|exact H|simpl in *; lia].
Qed.

(** ** Unlinking a node *)

Lemma rb_splice_spec cs u cu ku vu ur s n :
  St s (plug cs (N u cu ku vu E ur)) n →
  runs (RBTree.transplant (Some u) (rp ur)) s (λ _ s',
    heap s' !! u = Some (mkNode ku vu cu (cpar None cs) None (rp ur))
    ∧ St (mkTree (delete u (heap s')) (root s') (rotations s') (transplants s'))
         (plug cs ur) n).
Proof.
  destruct s as [h rt nr nt]. intros H. unfold RBTree.transplant.
  destruct ur as [|pr cr kr vr rl rr]; destruct cs as [|[pp cp kp vp sp|pp cp kp vp sp] cs];
    st_elim H; subst; wp; (split; [hlookup|]); st_intro.
Qed.

Ltac rbd_step :=
  first [ wp_step
        | wp_read_step
        | lazymatch goal with
          | |- runs (RBTree.transplant _ _) _ _ => unfold RBTree.transplant
          end ].
Ltac rbd := wp_simpl2; repeat (rbd_step; wp_simpl2).

Lemma rb_unlink_node_sim fuel cs z cz kz vz l r s n cx tx c :
  St s (plug cs (N z cz kz vz l r)) n →
  unlink cs (N z cz kz vz l r) = Some (cx, tx, c) →
  (tree_size r < fuel)%nat →
  runs (RBTree.unlink_node fuel (Some z)) s (λ res s',
    res = (rp tx, c) ∧
    St (mkTree (delete z (heap s')) (root s') (rotations s') (transplants s'))
       (plug cx tx) n).
Proof.
  intros S0 Hun Hfuel. unfold RBTree.unlink_node.
  destruct l as [|pl cl kl vl ll lr].
  { (* no left child *)
    cbn in Hun. injection Hun as <- <- <-. destruct s as [h rt nr nt].
    destruct r as [|pr cr kr vr rl rr]; destruct cs as [|[pp cp kp vp sp|pp cp kp vp sp] cs];
      st_elim S0; subst; rbd; (split; [done|]); st_intro. }
  destruct r as [|pr cr kr vr rl rr].
  { (* no right child *)
    cbn in Hun. injection Hun as <- <- <-. destruct s as [h rt nr nt].
    destruct cs as [|[pp cp kp vp sp|pp cp kp vp sp] cs];
      st_elim S0; subst; rbd; (split; [done|]); st_intro. }
  (* two children: the successor y takes the place of z *)
  set (l := N pl cl kl vl ll lr) in *. set (r := N pr cr kr vr rl rr) in *.
  assert (r ≠ E) as Hr by done.
  destruct (min_ctx r []) as [csy ty] eqn:Hmin.
  destruct (min_ctx_spec r [] csy ty Hr Hmin)
    as (csy' & y & cy & ky & vy & yr & Hcs & -> & Hplug & Hlen).
  rewrite app_nil_r in Hcs. subst csy'.
  assert (unlink cs (N z cz kz vz l r) = Some (csy ++ FR y cz ky vy l :: cs, yr, cy)) as Hun'.
  { unfold unlink, l. fold r. by rewrite Hmin. }
  rewrite Hun' in Hun. injection Hun as <- <- <-. clear Hun'.
  pose proof (rb_minimum_sim r (FR z cz kz vz l :: cs) fuel s n Hr S0 Hfuel) as Hmin_run.
  rewrite min_ctx_app, Hmin in Hmin_run. cbn [fst snd rp] in Hmin_run.
  pose proof (St_cell _ _ _ _ _ _ _ _ _ S0) as Hz.
  assert (St s (plug (csy ++ FR z cz kz vz l :: cs) (N y cy ky vy E yr)) n) as S0'.
  { rewrite plug_app. cbn [plug fill]. by rewrite <- Hplug. }
  pose proof (St_cell _ _ _ _ _ _ _ _ _ S0') as Hy.
  subst l r. cbn [rp] in *. wpr.
  eexists _, _. split; [exact Hmin_run|]. wpr.
  destruct csy as [|f csy].
  - (* y is the right child of z *)
    cbn in Hplug. injection Hplug as -> -> -> -> -> ->.
    cbn [app cpar fptr] in *. wpr. clear S0' Hy Hz Hmin_run.
    destruct s as [h rt nr nt].
    destruct yr as [|px cx kx vx xl xr];
    destruct cs as [|[pp cp kp vp sp|pp cp kp vp sp] cs];
      st_elim S0; subst; rbd; (split; [done|]); st_intro.
  - (* y lies deeper: it is spliced out first *)
    cbn [app cpar] in *.
    assert (z ≠ y ∧ fptr f ≠ z) as [Hzy Hfz].
    { destruct S0' as (_ & _ & Hnd & _). rewrite ptrs_plug in Hnd.
      simpl in Hnd. rewrite ctx_ptrs_app in Hnd. simpl in Hnd. nd_split. done. }
    wpr. clear Hmin_run.
    wp_apply (rb_splice_spec (f :: csy ++ FR z cz kz vz _ :: cs)) using S0' as S1.
    destruct S1 as [Hy1 S1]. destruct s' as [h1 r1 nr1 nt1]. cbn [heap root rotations transplants] in *.
    apply St_delete_inv in S1 as [S1 Hy_notin].
    change (f :: csy ++ FR z cz kz vz (N pl cl kl vl ll lr) :: cs)
      with ((f :: csy) ++ FR z cz kz vz (N pl cl kl vl ll lr) :: cs) in *.
    rewrite !plug_app in *. destruct (plug_cons_N f csy yr) as (q & cq & kq & vq & ql & qr & Hq).
    rewrite Hq in *. cbn [plug fill] in *.
    rewrite ptrs_plug in Hy_notin. cbn [ptrs] in Hy_notin.
    assert (kept (NoDup (y :: ptrs (N z cz kz vz (N pl cl kl vl ll lr) (N q cq kq vq ql qr))
                           ++ ctx_ptrs cs))) as Hk.
    { apply NoDup_cons. split; [done|]. destruct S1 as (_ & _ & Hnd & _).
      by rewrite ptrs_plug in Hnd. }
    clear S0 S0' Hy Hz Hplug Hlen Hfuel.
    destruct cs as [|[pp cp kp vp sp|pp cp kp vp sp] cs];
      cbn [ctx_ptrs fptr fsib ptrs] in Hy_notin;
      st_elim S1; nd_split; subst; rbd; (split; [done|]);
      rewrite plug_app; cbn [plug fill]; rewrite Hq; st_intro.
Qed.


(** ** removeFixup where its loop does not run, and where it cannot *)

Lemma rb_removeFixup_root fuel tx s n :
  St s tx n →
  runs (RBTree.removeFixup (S fuel) (rp tx)) s (λ _ s', St s' (blacken tx) n).
Proof.
  intros S0. unfold RBTree.removeFixup. cbn [RBTree.removeFixup_loop].
  pose proof S0 as (_ & Hroot & _).
  destruct tx as [|x cx kx vx l r]; cbn [rp] in *.
  - wpr. done.
  - wpr. wp_apply (set_color_spec []) using S0 as S1. done.
Qed.

Lemma rb_removeFixup_red fuel f cs x kx vx l r s n :
  St s (plug (f :: cs) (N x RED kx vx l r)) n →
  runs (RBTree.removeFixup (S fuel) (Some x)) s (λ _ s',
    St s' (plug (f :: cs) (N x BLACK kx vx l r)) n).
Proof.
  intros S0. unfold RBTree.removeFixup. cbn [RBTree.removeFixup_loop].
  cells S0. wpr.
  wp_apply (set_color_spec (f :: cs)) using S0 as S1. done.
Qed.

Lemma rb_removeFixup_null fuel f cs s n :
  St s (plug (f :: cs) E) n → RBTree.removeFixup (S fuel) None s = Fault.
Proof.
  intros (_ & Hroot & _). rewrite rp_plug in Hroot. simpl in Hroot.
  unfold RBTree.removeFixup. cbn [RBTree.removeFixup_loop].
  unfold bind, get_root, and_then, null_or_black, or_else, null, bind, ret.
  rewrite Hroot. destruct (croot cs (Some (fptr f))) as [q|] eqn:Hq.
  - rewrite ptr_eqb_None_Some. done.
  - exfalso. clear -Hq. revert Hq. generalize (fptr f). induction cs as [|g cs IH]; intros p; simpl; [done|].
    apply IH.
Qed.


(** ** Ascending order with equal keys *)

Lemma rb_sorted_node p c k v l r :
  RBTree.sorted (N p c k v l r) ↔
  Forall (λ x, x ≤ k) (inorder l) ∧ Forall (λ x, k ≤ x) (inorder r)
  ∧ RBTree.sorted l ∧ RBTree.sorted r.
Proof.
  unfold RBTree.sorted. simpl.
  rewrite StronglySorted_app, StronglySorted_cons, !Forall_forall. split.
  - intros (Hlr & Sl & Hr & Sr). repeat split; try done.
    intros x Hx. apply Hlr; [done|]. by left.
  - intros (Hl & Hr & Sl & Sr). repeat split; try done.
    intros x y Hx Hy. apply elem_of_cons in Hy as [->|Hy]; [by apply Hl|].
    specialize (Hl x Hx). specialize (Hr y Hy). lia.
Qed.

Lemma rb_find_None k t : ∀ cs, RBTree.sorted t → find k t cs = None → k ∉ inorder t.
Proof.
  induction t as [|p c k' v l IHl r IHr]; intros cs; simpl; [set_solver|].
  rewrite rb_sorted_node. intros (Hl & Hr & Ol & Or). rewrite Forall_forall in Hl, Hr.
  rewrite elem_of_app, elem_of_cons.
  destruct (k <? k') eqn:H1.
  { intros H [?|[?|Hk]]; [by eapply IHl|lia|]. apply Hr in Hk. lia. }
  destruct (k >? k') eqn:H2; [|done].
  intros H [Hk|[?|?]]; [|lia|by eapply IHr]. apply Hl in Hk. lia.
Qed.

Lemma rb_descend_bounded k t : ∀ cs,
  RBTree.sorted t →
  Forall (λ x, x ≤ k) (ctx_before cs) → Forall (λ x, k ≤ x) (ctx_after cs) →
  Forall (λ x, x ≤ k) (ctx_before (RBTree.descend k t cs))
  ∧ Forall (λ x, k ≤ x) (ctx_after (RBTree.descend k t cs)).
Proof.
  induction t as [|p c k' v l IHl r IHr]; intros cs; simpl; [done|].
  rewrite rb_sorted_node. intros (Hl & Hr & Ol & Or) Hb Ha. destruct (k <? k') eqn:H1.
  - apply IHl; [done|done|]. simpl. constructor; [lia|]. apply Forall_app. split; [|done].
    eapply Forall_impl; [exact Hr|]. simpl. lia.
  - apply IHr; [done| |done]. simpl.
    rewrite !Forall_app. repeat split; [done| |constructor; [lia|done]].
    eapply Forall_impl; [exact Hl|]. simpl. lia.
Qed.

Lemma rb_sorted_insert (l1 l2 : list Z) k :
  StronglySorted Z.le (l1 ++ l2) → Forall (λ x, x ≤ k) l1 → Forall (λ x, k ≤ x) l2 →
  StronglySorted Z.le (l1 ++ k :: l2).
Proof.
  rewrite !StronglySorted_app, StronglySorted_cons, !Forall_forall.
  intros (H12 & S1 & S2) H1 H2. repeat split; try done.
  intros x y Hx Hy. apply elem_of_cons in Hy as [->|Hy]; [by apply H1|by apply H12].
Qed.

Lemma rb_sorted_app3 (l1 l2 l3 : list Z) :
  StronglySorted Z.le (l1 ++ l2 ++ l3) → StronglySorted Z.le (l1 ++ l3).
Proof.
  rewrite !StronglySorted_app. intros (H1 & S1 & H2 & S2 & S3).
  repeat split; try done. intros x y Hx Hy. apply H1; [done|]. set_solver.
Qed.

Lemma rb_ins_tree_spec p k t :
  rbt t → RBTree.sorted t →
  ∃ t', RBTree.ins_tree p k t = Some t' ∧ rbt t' ∧ RBTree.sorted t'
        ∧ inorder t' ≡ₚ k :: inorder t.
Proof.
  intros Hrb Ho. unfold RBTree.ins_tree.
  pose proof (rb_descend_plug k t []) as Hplug. simpl in Hplug.
  destruct (rb_descend_bounded k t [] Ho) as [Hb Ha]; [constructor..|].
  set (cs := RBTree.descend k t []) in *.
  rewrite <- Hplug in Hrb, Ho |- *. apply rbt_plug_iff in Hrb as (Htop & (_ & Hcn) & (_ & Hcb)).
  destruct (fix_ins_rbt cs p k k E E) as (t1 & m & Hfix & Hm & Hrb1).
  { by simpl. } { by simpl. } { by split. }
  rewrite Hfix. exists (blacken t1). split; [done|]. split; [done|].
  apply fix_ins_inorder in Hfix. unfold RBTree.sorted in *.
  rewrite inorder_blacken, Hfix. rewrite !inorder_plug in *. simpl in *.
  split; [by apply rb_sorted_insert|]. by rewrite Permutation_middle.
Qed.

Lemma rb_unlink_bh cs z cz kz vz l r cx tx c :
  rbt (plug cs (N z cz kz vz l r)) →
  unlink cs (N z cz kz vz l r) = Some (cx, tx, c) → bh tx = 0%nat.
Proof.
  rewrite rbt_plug_iff. intros (_ & _ & (Hb & _)). simpl in Hb.
  destruct Hb as (Heq & Hbl & Hbr).
  destruct l as [|pl cl kl vl ll lr]; [cbn; intros [= <- <- <-]; by simpl in Heq|].
  destruct r as [|pr cr kr vr rl rr]; [cbn; by intros [= <- <- <-]|].
  set (l := N pl cl kl vl ll lr) in *. set (r := N pr cr kr vr rl rr) in *.
  destruct (min_ctx r []) as [csy ty] eqn:Hmin.
  destruct (min_ctx_spec r [] csy ty ltac:(done) Hmin)
    as (csy' & y & cy & ky & vy & yr & Hcs & -> & Hplug & Hlen).
  unfold unlink, l. fold r. rewrite Hmin. intros [= <- <- <-].
  rewrite Hplug in Hbr. apply balanced_plug in Hbr as [(Hy & _) _]. by simpl in Hy.
Qed.

Lemma rb_unlink_spec cs z cz k vz l r cx tx c :
  rbt (plug cs (N z cz k vz l r)) → RBTree.sorted (plug cs (N z cz k vz l r)) →
  unlink cs (N z cz k vz l r) = Some (cx, tx, c) →
  (c = RED ∨ tx ≠ E ∨ cx = []) →
  ∃ t', (match c with
         | RED => t' = plug cx tx
         | BLACK => match cx with [] => t' = blacken tx | _ => t' = plug cx (blacken tx) end
         end)
        ∧ (c = BLACK → cx ≠ [] → tcol tx = RED)
        ∧ rbt t' ∧ RBTree.sorted t'
        ∧ inorder (plug cs (N z cz k vz l r)) ≡ₚ k :: inorder t'.
Proof.
  intros Hrb Ho Hun Hcase.
  destruct (unlink_rbt _ _ _ _ _ _ _ Hrb) as (cx' & tx' & c' & Hun' & Hc).
  rewrite Hun in Hun'. injection Hun' as <- <- <-.
  apply unlink_inorder in Hun as Hio.
  assert (RBTree.sorted (plug cx tx) ∧
          inorder (plug cs (N z cz k vz l r)) ≡ₚ k :: inorder (plug cx tx)) as [Hs Hp].
  { unfold RBTree.sorted in *. rewrite Hio. rewrite inorder_plug in Ho |- *. simpl in *.
    rewrite <- !app_assoc in *. simpl in *. split; [|solve_Permutation].
    replace (ctx_before cs ++ inorder l ++ k :: inorder r ++ ctx_after cs)
      with ((ctx_before cs ++ inorder l) ++ [k] ++ (inorder r ++ ctx_after cs)) in Ho
      by (by rewrite <- !app_assoc).
    apply rb_sorted_app3 in Ho. by rewrite <- app_assoc in Ho. }
  destruct c.
  { exists (plug cx tx). done. }
  destruct Hc as (Hb & Hn & Hv).
  destruct (fix_del_rbt cx tx Hb Hn Hv) as (t' & Hfix & Hrb').
  apply fix_del_inorder in Hfix as Hio'.
  assert (cx ≠ [] → tcol tx = RED) as Hred.
  { intros Hne. destruct tx as [|x [] kx vx xl xr]; [|done|].
    - destruct Hcase as [?|[?|?]]; done.
    - by apply rb_unlink_bh in Hun. }
  exists t'. split.
  { destruct cx as [|f cx]; simpl in Hfix; [by injection Hfix as <-|].
    rewrite Hred in Hfix by done. by injection Hfix as <-. }
  split; [by intros _|]. split; [done|]. unfold RBTree.sorted. rewrite Hio'. done.
Qed.


(** ** The operations of RBTree on a red-black tree *)

Lemma rb_Inv_four_nodes : RBTree.Inv RBTree.four_nodes RBTree.four_tree.
Proof.
  split; [exists 0%nat|split].
  - repeat split; try reflexivity. apply (bool_decide_unpack _). reflexivity.
  - repeat split; intros; discriminate.
  - unfold RBTree.sorted. simpl. repeat constructor; lia.
Qed.

Lemma rb_four_nodes_built :
  (RBTree.insert 5 1;; RBTree.insert 5 2;; RBTree.insert 5 3;; RBTree.insert 5 4) empty_tree
  = Done tt RBTree.four_nodes.
Proof. vm_compute. reflexivity. Qed.

Lemma rb_search_sim fuel k s t n :
  St s t n → (tree_size t < fuel)%nat →
  RBTree.search fuel k s =
    Done (match find k t [] with Some (_, tz) => rp tz | None => None end) s.
Proof.
  intros S0 Hfuel. unfold RBTree.search, bind, get_root.
  pose proof S0 as (_ & -> & _). by apply (rb_search_loop_sim k t [] fuel s n).
Qed.

Lemma rb_remove_sim fuel k s t n cs tz cx tx c :
  St s t n → find k t [] = Some (cs, tz) → unlink cs tz = Some (cx, tx, c) →
  (tree_size t < fuel)%nat →
  ∃ fuel' s1, St s1 (plug cx tx) n ∧
    RBTree.remove fuel k s =
      (if is_black c then RBTree.removeFixup (S fuel') (rp tx) else ret tt) s1.
Proof.
  intros S0 Hfind Hun Hfuel.
  destruct (find_plug _ _ _ _ _ Hfind) as (Hplug & z & cz & vz & l & r & ->).
  simpl in Hplug.
  pose proof (rb_remove_loop_sim k t [] fuel s n S0 Hfuel) as Hloop.
  rewrite Hfind in Hloop. destruct Hloop as (fuel' & Hfuel' & Hloop).
  destruct fuel' as [|fuel']; [lia|].
  assert (St s (plug cs (N z cz k vz l r)) n) as S1 by (by rewrite Hplug).
  destruct (rb_unlink_node_sim (S fuel') cs z cz k vz l r s n cx tx c S1 Hun)
    as (res & s1 & Hrun & -> & S2); [simpl in Hfuel'; lia|].
  destruct s1 as [h1 r1 nr1 nt1]. apply St_delete_inv in S2 as [S2 _].
  exists fuel', (mkTree h1 r1 nr1 nt1). split; [done|].
  unfold RBTree.remove, bind at 1, get_root. pose proof S0 as (_ & -> & _).
  rewrite Hloop. unfold RBTree.remove_node, bind. cbn [rp]. by rewrite Hrun.
Qed.

Lemma rb_insert_ok fuel data s t n :
  St s t n → rbt t → RBTree.sorted t → (tree_size t < fuel)%nat →
  ∃ s' t', RBTree.insert fuel data s = Done tt s' ∧ St s' t' n
    ∧ RBTree.ins_tree (fresh (dom (heap s))) data t = Some t'
    ∧ rbt t' ∧ RBTree.sorted t' ∧ inorder t' ≡ₚ data :: inorder t.
Proof.
  intros S0 Hrb Ho Hfuel.
  destruct (rb_ins_tree_spec (fresh (dom (heap s))) data t Hrb Ho)
    as (t' & Hins & Hrb' & Ho' & Hperm).
  destruct (rb_insert_sim fuel data s t n t' S0 Hins Hfuel) as ([] & s' & Hrun & S1).
  by exists s', t'.
Qed.

Lemma rb_search_present fuel data s t n :
  St s t n → is_Some (find data t []) → (tree_size t < fuel)%nat →
  ∃ p nd, RBTree.search fuel data s = Done (Some p) s ∧ heap s !! p = Some nd ∧ key nd = data.
Proof.
  intros S0 [[cs tz] Hf] Hfuel. rewrite (rb_search_sim fuel data s t n S0 Hfuel), Hf.
  destruct (find_plug _ _ _ _ _ Hf) as (Hplug & z & cz & vz & l & r & ->). simpl in Hplug.
  rewrite <- Hplug in S0. exists z. eexists. split; [done|].
  split; [exact (St_cell _ _ _ _ _ _ _ _ _ S0)|done].
Qed.

Lemma rb_search_absent fuel data s t n :
  St s t n → find data t [] = None → (tree_size t < fuel)%nat →
  RBTree.search fuel data s = Done None s.
Proof. intros S0 Hf Hfuel. by rewrite (rb_search_sim fuel data s t n S0 Hfuel), Hf. Qed.

Lemma rb_remove_absent fuel data s t n :
  St s t n → find data t [] = None → (tree_size t < fuel)%nat →
  RBTree.remove fuel data s = Done tt s.
Proof.
  intros S0 Hf Hfuel.
  pose proof (rb_remove_loop_sim data t [] fuel s n S0 Hfuel) as Hloop. rewrite Hf in Hloop.
  unfold RBTree.remove, bind, get_root. by pose proof S0 as (_ & -> & _).
Qed.

Lemma rb_remove_ok fuel data s t n cs cx tz tx c :
  St s t n → rbt t → RBTree.sorted t →
  find data t [] = Some (cs, tz) → unlink cs tz = Some (cx, tx, c) →
  (c = RED ∨ tx ≠ E ∨ cx = []) → (tree_size t < fuel)%nat →
  ∃ s' t', RBTree.remove fuel data s = Done tt s' ∧ St s' t' n
    ∧ del_tree data t = Some t'
    ∧ rbt t' ∧ RBTree.sorted t' ∧ inorder t ≡ₚ data :: inorder t'.
Proof.
  intros S0 Hrb Ho Hfind Hun Hcase Hfuel.
  destruct (rb_remove_sim fuel data s t n cs tz cx tx c S0 Hfind Hun Hfuel)
    as (fuel' & s1 & S1 & ->).
  unfold del_tree. rewrite Hfind, Hun.
  destruct (find_plug _ _ _ _ _ Hfind) as (Hplug & z & cz & vz & l & r & ->).
  simpl in Hplug. rewrite <- Hplug in Hrb, Ho |- *.
  destruct (rb_unlink_spec _ _ _ _ _ _ _ _ _ _ Hrb Ho Hun Hcase)
    as (t' & Ht' & Hred & Hrb' & Ho' & Hperm).
  destruct c; cbn [is_black Color_eqb].
  - subst t'. by exists s1, (plug cx tx).
  - destruct cx as [|f cx].
    + subst t'. destruct (rb_removeFixup_root fuel' tx s1 n S1) as ([] & s2 & Hrun & S2).
      by exists s2, (blacken tx).
    + subst t'. specialize (Hred eq_refl ltac:(done)).
      destruct tx as [|x [] kx vx xl xr]; try done.
      destruct (rb_removeFixup_red fuel' f cx x kx vx xl xr s1 n S1) as ([] & s2 & Hrun & S2).
      by exists s2, (plug (f :: cx) (N x BLACK kx vx xl xr)).
Qed.

Lemma rb_remove_cases (cx : list frame) (tx : tree) (c : Color) :
  (c = RED ∨ tx ≠ E ∨ cx = []) ∨ (c = BLACK ∧ tx = E ∧ cx ≠ []).
Proof.
  destruct c; [by left; left|]. destruct tx; [|by left; right; left].
  destruct cx; [by left; right; right|by right].
Qed.

Lemma rb_perm_size t t' k : inorder t' ≡ₚ k :: inorder t → tree_size t' = S (tree_size t).
Proof. intros H. apply Permutation_length in H. by rewrite <- !inorder_length. Qed.

Lemma rb_sorted_lt_NoDup (l : list Z) : StronglySorted Z.lt l → NoDup l.
Proof.
  induction 1 as [|x l Hs IH Hall]; constructor; [|done].
  rewrite Forall_forall in Hall. intros Hx. specialize (Hall x Hx). lia.
Qed.

Lemma rb_ordered_sorted t : ordered t → RBTree.sorted t.
Proof.
  rewrite ordered_sorted. unfold RBTree.sorted. generalize (inorder t).
  induction 1 as [|x l Hs IH Hall]; constructor; [done|].
  eapply Forall_impl; [exact Hall|]. simpl. lia.
Qed.

(** X21. [RBTree::insert(data)] refuses no key: on a red-black tree whose
    in-order sequence ascends it returns normally, the tree is again such a
    tree, and its keys are the old ones and [data] once more, also when [data]
    was there already. *)
Theorem rbtree_insert_keeps_duplicates (fuel : nat) (data : Z) (s : RedBlackTree) (t : tree) :
  RBTree.Inv s t → (tree_size t < fuel)%nat →
  ∃ s' t', RBTree.insert fuel data s = Done tt s' ∧ RBTree.Inv s' t'
           ∧ inorder t' ≡ₚ data :: inorder t.
Proof.
  intros ([n S0] & Hrb & Ho) Hfuel.
  destruct (rb_insert_ok fuel data s t n S0 Hrb Ho Hfuel)
    as (s' & t' & Hrun & S1 & _ & Hrb' & Ho' & Hperm).
  exists s', t'. split; [done|]. split; [|done].
  split; [by exists n|]. by split.
Qed.

Lemma rbtree_insert_keeps_duplicates_witness :
  RBTree.Inv RBTree.four_nodes RBTree.four_tree ∧ (tree_size RBTree.four_tree < 5)%nat
  ∧ ∃ s' t', RBTree.insert 5 3 RBTree.four_nodes = Done tt s' ∧ RBTree.Inv s' t'
             ∧ inorder t' ≡ₚ 3 :: inorder RBTree.four_tree.
Proof.
  assert (tree_size RBTree.four_tree < 5)%nat as Hfuel by (simpl; lia).
  split; [exact rb_Inv_four_nodes|]. split; [assumption|].
  exact (rbtree_insert_keeps_duplicates 5 3 _ _ rb_Inv_four_nodes Hfuel).
Defined.

(** X22. [RBTree::search(data)] changes nothing; it returns a node that
    holds [data] when the tree has that key, and the null pointer when it has
    not. *)
Theorem rbtree_search_finds (fuel : nat) (data : Z) (s : RedBlackTree) (t : tree) :
  RBTree.Inv s t → (tree_size t < fuel)%nat →
  ∃ res, RBTree.search fuel data s = Done res s
    ∧ match res with
      | Some p => data ∈ inorder t ∧ ∃ nd, heap s !! p = Some nd ∧ key nd = data
      | None => data ∉ inorder t
      end.
Proof.
  intros ([n S0] & Hrb & Ho) Hfuel.
  destruct (find data t []) as [[cs tz]|] eqn:Hf.
  - destruct (rb_search_present fuel data s t n S0) as (p & nd & Hrun & Hnd & Hk);
      [by rewrite Hf|done|].
    exists (Some p). split; [done|]. split; [|by exists nd].
    eapply find_elem_of. by rewrite Hf.
  - exists None. split; [by eapply rb_search_absent|]. by eapply rb_find_None.
Qed.

Lemma rbtree_search_finds_witness :
  RBTree.Inv RBTree.four_nodes RBTree.four_tree ∧ (tree_size RBTree.four_tree < 5)%nat
  ∧ ∃ res, RBTree.search 5 3 RBTree.four_nodes = Done res RBTree.four_nodes
    ∧ match res with
      | Some p => 3 ∈ inorder RBTree.four_tree
                  ∧ ∃ nd, heap RBTree.four_nodes !! p = Some nd ∧ key nd = 3
      | None => 3 ∉ inorder RBTree.four_tree
      end.
Proof.
  assert (tree_size RBTree.four_tree < 5)%nat as Hfuel by (simpl; lia).
  split; [exact rb_Inv_four_nodes|]. split; [assumption|].
  exact (rbtree_search_finds 5 3 _ _ rb_Inv_four_nodes Hfuel).
Defined.

(** X23. [RBTree::remove(data)] of a key the tree does not hold returns
    normally and leaves the tree object as it was: a missing key is not
    reported. *)
Theorem rbtree_remove_absent_is_silent (fuel : nat) (data : Z) (s : RedBlackTree) (t : tree) :
  RBTree.Inv s t → data ∉ inorder t → (tree_size t < fuel)%nat →
  RBTree.remove fuel data s = Done tt s.
Proof.
  intros ([n S0] & Hrb & Ho) Hk Hfuel.
  apply (rb_remove_absent fuel data s t n S0); [|done].
  destruct (find data t []) as [[cs tz]|] eqn:Hf; [|done].
  exfalso. apply Hk. eapply find_elem_of. by rewrite Hf.
Qed.

Lemma rbtree_remove_absent_is_silent_witness :
  RBTree.Inv RBTree.four_nodes RBTree.four_tree ∧ (9 ∉ inorder RBTree.four_tree)
  ∧ (tree_size RBTree.four_tree < 5)%nat
  ∧ RBTree.remove 5 9 RBTree.four_nodes = Done tt RBTree.four_nodes.
Proof.
  assert (9 ∉ inorder RBTree.four_tree) as Hk by (apply (bool_decide_unpack _); reflexivity).
  assert (tree_size RBTree.four_tree < 5)%nat as Hfuel by (simpl; lia).
  split; [exact rb_Inv_four_nodes|]. repeat (split; [assumption|]).
  exact (rbtree_remove_absent_is_silent 5 9 _ _ rb_Inv_four_nodes Hk Hfuel).
Defined.

(** X24. [RBTree::remove(data)] dereferences a null pointer when the node it
    takes out of the tree (the node [search] reaches for [data], or the
    leftmost node of its right subtree when it has two children) is black,
    has no child and is not the root: [removeFixup] is then called with a
    null [x] and reads [x->parent]. *)
Theorem rbtree_remove_black_leaf_faults (fuel : nat) (data : Z) (s : RedBlackTree)
    (t : tree) (n : nat) (cs cx : list frame) (tz : tree) :
  St s t n → find data t [] = Some (cs, tz) → unlink cs tz = Some (cx, E, BLACK) →
  cx ≠ [] → (tree_size t < fuel)%nat →
  RBTree.remove fuel data s = Fault.
Proof.
  intros S0 Hfind Hun Hne Hfuel.
  destruct (rb_remove_sim fuel data s t n cs tz cx E BLACK S0 Hfind Hun Hfuel)
    as (fuel' & s1 & S1 & ->).
  destruct cx as [|f cx]; [done|]. cbn [is_black Color_eqb rp].
  by eapply rb_removeFixup_null.
Qed.

Lemma rbtree_remove_black_leaf_faults_witness :
  St RBTree.four_nodes RBTree.four_tree 0
  ∧ find 1 RBTree.four_tree [] = Some ([FL 2 BLACK 2 2 (N 3 BLACK 3 3 E (N 4 RED 4 4 E E))],
                                       N 1 BLACK 1 1 E E)
  ∧ unlink [FL 2 BLACK 2 2 (N 3 BLACK 3 3 E (N 4 RED 4 4 E E))] (N 1 BLACK 1 1 E E)
    = Some ([FL 2 BLACK 2 2 (N 3 BLACK 3 3 E (N 4 RED 4 4 E E))], E, BLACK)
  ∧ [FL 2 BLACK 2 2 (N 3 BLACK 3 3 E (N 4 RED 4 4 E E))] ≠ []
  ∧ (tree_size RBTree.four_tree < 5)%nat
  ∧ RBTree.remove 5 1 RBTree.four_nodes = Fault.
Proof.
  assert (St RBTree.four_nodes RBTree.four_tree 0) as S0.
  { repeat split; try reflexivity. apply (bool_decide_unpack _). reflexivity. }
  assert (find 1 RBTree.four_tree []
          = Some ([FL 2 BLACK 2 2 (N 3 BLACK 3 3 E (N 4 RED 4 4 E E))], N 1 BLACK 1 1 E E))
    as Hfind by reflexivity.
  assert (unlink [FL 2 BLACK 2 2 (N 3 BLACK 3 3 E (N 4 RED 4 4 E E))] (N 1 BLACK 1 1 E E)
          = Some ([FL 2 BLACK 2 2 (N 3 BLACK 3 3 E (N 4 RED 4 4 E E))], E, BLACK))
    as Hun by reflexivity.
  assert ([FL 2 BLACK 2 2 (N 3 BLACK 3 3 E (N 4 RED 4 4 E E))] ≠ []) as Hne by discriminate.
  assert (tree_size RBTree.four_tree < 5)%nat as Hfuel by (simpl; lia).
  repeat (split; [assumption|]).
  exact (rbtree_remove_black_leaf_faults 5 1 _ _ 0 _ _ _ S0 Hfind Hun Hne Hfuel).
Defined.

(** X25. In every other case [RBTree::remove(data)] of a key the tree holds
    returns normally: when the node taken out is red, has a child, or is the
    root.  The tree is again a red-black tree with an ascending in-order
    sequence, and it has lost one occurrence of [data]. *)
Theorem rbtree_remove_takes_one_key (fuel : nat) (data : Z) (s : RedBlackTree)
    (t : tree) (cs cx : list frame) (tz tx : tree) (c : Color) :
  RBTree.Inv s t → find data t [] = Some (cs, tz) → unlink cs tz = Some (cx, tx, c) →
  (c = RED ∨ tx ≠ E ∨ cx = []) → (tree_size t < fuel)%nat →
  ∃ s' t', RBTree.remove fuel data s = Done tt s' ∧ RBTree.Inv s' t'
           ∧ inorder t ≡ₚ data :: inorder t'.
Proof.
  intros ([n S0] & Hrb & Ho) Hfind Hun Hcase Hfuel.
  destruct (rb_remove_ok fuel data s t n cs cx tz tx c S0 Hrb Ho Hfind Hun Hcase Hfuel)
    as (s' & t' & Hrun & S1 & _ & Hrb' & Ho' & Hperm).
  exists s', t'. split; [done|]. split; [|done].
  split; [by exists n|]. by split.
Qed.

Lemma rbtree_remove_takes_one_key_witness :
  RBTree.Inv RBTree.four_nodes RBTree.four_tree
  ∧ find 3 RBTree.four_tree [] = Some ([FR 2 BLACK 2 2 (N 1 BLACK 1 1 E E)],
                                       N 3 BLACK 3 3 E (N 4 RED 4 4 E E))
  ∧ unlink [FR 2 BLACK 2 2 (N 1 BLACK 1 1 E E)] (N 3 BLACK 3 3 E (N 4 RED 4 4 E E))
    = Some ([FR 2 BLACK 2 2 (N 1 BLACK 1 1 E E)], N 4 RED 4 4 E E, BLACK)
  ∧ (BLACK = RED ∨ N 4 RED 4 4 E E ≠ E ∨ [FR 2 BLACK 2 2 (N 1 BLACK 1 1 E E)] = [])
  ∧ (tree_size RBTree.four_tree < 5)%nat
  ∧ ∃ s' t', RBTree.remove 5 3 RBTree.four_nodes = Done tt s' ∧ RBTree.Inv s' t'
             ∧ inorder RBTree.four_tree ≡ₚ 3 :: inorder t'.
Proof.
  assert (find 3 RBTree.four_tree []
          = Some ([FR 2 BLACK 2 2 (N 1 BLACK 1 1 E E)], N 3 BLACK 3 3 E (N 4 RED 4 4 E E)))
    as Hfind by reflexivity.
  assert (unlink [FR 2 BLACK 2 2 (N 1 BLACK 1 1 E E)] (N 3 BLACK 3 3 E (N 4 RED 4 4 E E))
          = Some ([FR 2 BLACK 2 2 (N 1 BLACK 1 1 E E)], N 4 RED 4 4 E E, BLACK))
    as Hun by reflexivity.
  assert (BLACK = RED ∨ N 4 RED 4 4 E E ≠ E ∨ [FR 2 BLACK 2 2 (N 1 BLACK 1 1 E E)] = [])
    as Hcase by (right; left; discriminate).
  assert (tree_size RBTree.four_tree < 5)%nat as Hfuel by (simpl; lia).
  split; [exact rb_Inv_four_nodes|]. repeat (split; [assumption|]).
  exact (rbtree_remove_takes_one_key 5 3 _ _ _ _ _ _ _ rb_Inv_four_nodes Hfind Hun Hcase Hfuel).
Defined.

(** X26. What [RBTree::insert(data)] has put into the tree, [search(data)]
    finds: it returns a node, and the node holds [data]. *)
Theorem rbtree_insert_then_search (fuel : nat) (data : Z) (s : RedBlackTree) (t : tree) :
  RBTree.Inv s t → (S (tree_size t) < fuel)%nat →
  ∃ s' p nd, RBTree.insert fuel data s = Done tt s'
    ∧ RBTree.search fuel data s' = Done (Some p) s'
    ∧ heap s' !! p = Some nd ∧ key nd = data.
Proof.
  intros ([n S0] & Hrb & Ho) Hfuel.
  destruct (rb_insert_ok fuel data s t n S0 Hrb Ho)
    as (s' & t' & Hrun & S1 & _ & Hrb' & Ho' & Hperm); [lia|].
  pose proof (rb_perm_size _ _ _ Hperm) as Hsz.
  destruct (rb_search_present fuel data s' t' n S1) as (p & nd & Hs & Hnd & Hk); [|lia|].
  - destruct (find data t' []) eqn:Hf; [done|]. exfalso.
    apply (rb_find_None data t' [] Ho' Hf). rewrite Hperm. by left.
  - by exists s', p, nd.
Qed.

Lemma rbtree_insert_then_search_witness :
  RBTree.Inv RBTree.four_nodes RBTree.four_tree ∧ (S (tree_size RBTree.four_tree) < 6)%nat
  ∧ ∃ s' p nd, RBTree.insert 6 7 RBTree.four_nodes = Done tt s'
      ∧ RBTree.search 6 7 s' = Done (Some p) s'
      ∧ heap s' !! p = Some nd ∧ key nd = 7.
Proof.
  assert (S (tree_size RBTree.four_tree) < 6)%nat as Hfuel by (simpl; lia).
  split; [exact rb_Inv_four_nodes|]. split; [assumption|].
  exact (rbtree_insert_then_search 6 7 _ _ rb_Inv_four_nodes Hfuel).
Defined.

(** X27. On a red-black search tree without equal keys, whenever
    [RBTree::remove(data)] returns, [search(data)] finds nothing
    afterwards. *)
Theorem rbtree_remove_then_search (fuel : nat) (data : Z) (s s' : RedBlackTree) (t : tree) :
  (∃ n, St s t n) → rbt t → ordered t → (tree_size t < fuel)%nat →
  RBTree.remove fuel data s = Done tt s' →
  RBTree.search fuel data s' = Done None s'.
Proof.
  intros [n S0] Hrb Ho Hfuel Hrun. pose proof (rb_ordered_sorted t Ho) as Hs.
  destruct (find data t []) as [[cs tz]|] eqn:Hfind.
  2:{ rewrite (rb_remove_absent fuel data s t n S0 Hfind Hfuel) in Hrun.
      injection Hrun as <-. by eapply rb_search_absent. }
  destruct (find_plug _ _ _ _ _ Hfind) as (Hplug & z & cz & vz & l & r & ->).
  simpl in Hplug.
  destruct (unlink_rbt cs z cz data vz l r) as (cx & tx & c & Hun & _); [by rewrite Hplug|].
  destruct (rb_remove_cases cx tx c) as [Hcase|(-> & -> & Hne)].
  - destruct (rb_remove_ok fuel data s t n cs cx _ tx c S0 Hrb Hs Hfind Hun Hcase Hfuel)
      as (s2 & t' & Hrun' & S1 & _ & Hrb' & Hs' & Hperm).
    rewrite Hrun' in Hrun. injection Hrun as <-.
    apply (rb_search_absent fuel data s2 t' n S1).
    + destruct (find data t' []) as [[cs' tz']|] eqn:Hf; [|done]. exfalso.
      assert (data ∈ inorder t') as Hin by (eapply find_elem_of; by rewrite Hf).
      apply ordered_sorted, rb_sorted_lt_NoDup in Ho. rewrite Hperm in Ho.
      by apply NoDup_cons in Ho as [? _].
    + apply Permutation_length in Hperm. rewrite <- !inorder_length in *. simpl in Hperm. lia.
  - destruct (rb_remove_sim fuel data s t n cs _ cx E BLACK S0 Hfind Hun Hfuel)
      as (fuel' & s1 & S1 & Heq).
    destruct cx as [|f cx]; [done|]. cbn [is_black Color_eqb rp] in Heq.
    rewrite (rb_removeFixup_null fuel' f cx s1 n S1) in Heq. congruence.
Qed.

Lemma rbtree_remove_then_search_witness :
  (∃ n, St RBTree.four_nodes RBTree.four_tree n) ∧ rbt RBTree.four_tree
  ∧ ordered RBTree.four_tree ∧ (tree_size RBTree.four_tree < 5)%nat
  ∧ ∃ s', RBTree.remove 5 3 RBTree.four_nodes = Done tt s'
      ∧ RBTree.search 5 3 s' = Done None s'.
Proof.
  assert (∃ n, St RBTree.four_nodes RBTree.four_tree n) as HS by apply rb_Inv_four_nodes.
  assert (rbt RBTree.four_tree) as Hrb by apply rb_Inv_four_nodes.
  assert (ordered RBTree.four_tree) as Ho by (simpl; repeat split; repeat constructor; lia).
  assert (tree_size RBTree.four_tree < 5)%nat as Hfuel by (simpl; lia).
  repeat (split; [assumption|]).
  destruct (RBTree.remove 5 3 RBTree.four_nodes) as [[] s'| | |] eqn:Hrun.
  - exists s'. split; [reflexivity|].
    exact (rbtree_remove_then_search 5 3 _ s' _ HS Hrb Ho Hfuel Hrun).
  - exfalso. revert Hrun. vm_compute. discriminate.
  - exfalso. revert Hrun. vm_compute. discriminate.
  - exfalso. revert Hrun. vm_compute. discriminate.
Defined.

(** X28. Insertions compose: from the empty tree, [insert] of the keys of
    any list, one after the other, returns normally every time and leaves a
    red-black tree whose in-order sequence is the list in ascending order,
    equal keys included. *)
Theorem rbtree_inserts_sort (fuel : nat) (ks : list Z) :
  (length ks < fuel)%nat →
  ∃ s' t', RBTree.insert_all fuel ks empty_tree = Done tt s' ∧ RBTree.Inv s' t'
           ∧ inorder t' ≡ₚ ks.
Proof.
  intros Hfuel.
  assert (∀ s t n, St s t n → rbt t → RBTree.sorted t →
    (tree_size t + length ks < fuel)%nat →
    ∃ s' t', RBTree.insert_all fuel ks s = Done tt s' ∧ RBTree.Inv s' t'
             ∧ inorder t' ≡ₚ rev ks ++ inorder t) as Hgen.
  { clear Hfuel. induction ks as [|k ks IH]; intros s t n S0 Hrb Ho Hf.
    - exists s, t. split; [done|]. split; [|done]. split; [by exists n|done].
    - simpl in Hf. cbn [RBTree.insert_all foldr].
      destruct (rb_insert_ok fuel k s t n S0 Hrb Ho)
        as (s1 & t1 & Hrun & S1 & _ & Hrb1 & Ho1 & Hperm); [lia|].
      pose proof (rb_perm_size _ _ _ Hperm) as Hsz.
      destruct (IH s1 t1 n S1 Hrb1 Ho1) as (s' & t' & Hrun' & HI' & Hperm'); [lia|].
      exists s', t'. split; [|split; [done|]].
      + unfold bind. rewrite Hrun. exact Hrun'.
      + rewrite Hperm', Hperm. simpl. rewrite <- app_assoc. simpl. done. }
  destruct (Hgen empty_tree E 0%nat) as (s' & t' & Hrun & HI' & Hperm).
  - repeat split; constructor.
  - by repeat split.
  - constructor.
  - simpl. lia.
  - exists s', t'. split; [done|]. split; [done|].
    rewrite Hperm. simpl. rewrite app_nil_r. symmetry. apply Permutation_rev.
Qed.

Lemma rbtree_inserts_sort_witness :
  (length [10; 20; 30; 15; 25; 5; 1] < 8)%nat
  ∧ ∃ s' t', RBTree.insert_all 8 [10; 20; 30; 15; 25; 5; 1] empty_tree = Done tt s'
      ∧ RBTree.Inv s' t' ∧ inorder t' ≡ₚ [10; 20; 30; 15; 25; 5; 1].
Proof.
  assert (length [10; 20; 30; 15; 25; 5; 1] < 8)%nat as Hfuel by (simpl; lia).
  split; [assumption|].
  exact (rbtree_inserts_sort 8 [10; 20; 30; 15; 25; 5; 1] Hfuel).
Defined.

(** X29. [RBTree::remove(data)] on a red-black tree with an ascending
    in-order sequence has two outcomes only.  Either it returns normally, and
    then the tree is again such a tree: the same tree object when [data] was
    not in it, a tree with one occurrence of [data] less when it was.  Or it
    dereferences a null pointer, which happens only for a key that is in the
    tree.  It throws nothing, and it never returns with a damaged tree. *)
Theorem rbtree_remove_works_or_faults (fuel : nat) (data : Z) (s : RedBlackTree) (t : tree) :
  RBTree.Inv s t → (tree_size t < fuel)%nat →
  (∃ s' t', RBTree.remove fuel data s = Done tt s' ∧ RBTree.Inv s' t'
      ∧ (data ∉ inorder t → s' = s ∧ t' = t)
      ∧ (data ∈ inorder t → inorder t ≡ₚ data :: inorder t'))
  ∨ (RBTree.remove fuel data s = Fault ∧ data ∈ inorder t).
Proof.
  intros HI Hfuel. pose proof HI as ([n S0] & Hrb & Ho).
  destruct (find data t []) as [[cs tz]|] eqn:Hfind.
  2:{ left. assert (data ∉ inorder t) as Hk by (by eapply rb_find_None).
      exists s, t. rewrite (rb_remove_absent fuel data s t n S0 Hfind Hfuel). done. }
  assert (data ∈ inorder t) as Hk by (eapply find_elem_of; by rewrite Hfind).
  destruct (find_plug _ _ _ _ _ Hfind) as (Hplug & z & cz & vz & l & r & ->).
  simpl in Hplug.
  destruct (unlink_rbt cs z cz data vz l r) as (cx & tx & c & Hun & _); [by rewrite Hplug|].
  destruct (rb_remove_cases cx tx c) as [Hcase|(-> & -> & Hne)].
  - left. destruct (rb_remove_ok fuel data s t n cs cx _ tx c S0 Hrb Ho Hfind Hun Hcase Hfuel)
      as (s' & t' & Hrun & S1 & _ & Hrb' & Ho' & Hperm).
    exists s', t'. split; [done|]. split; [by split; [exists n|]|]. done.
  - right. split; [|done].
    destruct (rb_remove_sim fuel data s t n cs _ cx E BLACK S0 Hfind Hun Hfuel)
      as (fuel' & s1 & S1 & ->).
    destruct cx as [|f cx]; [done|]. cbn [is_black Color_eqb rp].
    by eapply rb_removeFixup_null.
Qed.

Lemma rbtree_remove_works_or_faults_witness :
  RBTree.Inv RBTree.four_nodes RBTree.four_tree ∧ (tree_size RBTree.four_tree < 5)%nat
  ∧ ((∃ s' t', RBTree.remove 5 4 RBTree.four_nodes = Done tt s' ∧ RBTree.Inv s' t'
        ∧ (4 ∉ inorder RBTree.four_tree → s' = RBTree.four_nodes ∧ t' = RBTree.four_tree)
        ∧ (4 ∈ inorder RBTree.four_tree → inorder RBTree.four_tree ≡ₚ 4 :: inorder t'))
     ∨ (RBTree.remove 5 4 RBTree.four_nodes = Fault ∧ 4 ∈ inorder RBTree.four_tree)).
Proof.
  assert (tree_size RBTree.four_tree < 5)%nat as Hfuel by (simpl; lia).
  split; [exact rb_Inv_four_nodes|]. split; [assumption|].
  exact (rbtree_remove_works_or_faults 5 4 _ _ rb_Inv_four_nodes Hfuel).
Defined.


Lemma rb_descend_eq k t : ∀ cs cs', descend k t cs = Some cs' → RBTree.descend k t cs = cs'.
Proof.
  induction t as [|p c k' v l IHl r IHr]; intros cs cs'; simpl; [by intros [= <-]|].
  destruct (k <? k'); [apply IHl|]. destruct (k >? k'); [apply IHr|done].
Qed.

(** X30. On a red-black search tree without equal keys the two classes do
    the same to the tree.  [RedBlackTree::insert(data, data)] and
    [RBTree::insert(data)] of a new key both return and build the same tree,
    node for node; and whenever [RBTree::remove(data)] of a key in the tree
    returns, [RedBlackTree::remove(data)] returns too and both leave the same
    tree. *)
Theorem implementations_agree (fuel : nat) (data : Z) (s : RedBlackTree) (t : tree) :
  Inv s t → (tree_size t < fuel)%nat →
  (data ∉ inorder t →
     ∃ s1 s2 t', insert fuel data data s = Done tt s1 ∧ RBTree.insert fuel data s = Done tt s2
       ∧ Inv s1 t' ∧ RBTree.Inv s2 t')
  ∧ (data ∈ inorder t → ∀ s2, RBTree.remove fuel data s = Done tt s2 →
       ∃ s1 t', remove fuel data s = Done tt s1 ∧ Inv s1 t' ∧ RBTree.Inv s2 t').
Proof.
  intros ([n S0] & Hrb & Ho) Hfuel. pose proof (rb_ordered_sorted t Ho) as Hs. split.
  - intros Hk.
    destruct (ins_tree_spec (fresh (dom (heap s))) data data t Hrb Ho Hk)
      as (t' & m & Hins & Hm & Hrb' & Ho' & _).
    destruct (insert_sim fuel data data s t n t' m S0 Hins Hfuel) as ([] & s1 & Hrun1 & S1).
    destruct (rb_insert_ok fuel data s t n S0 Hrb Hs Hfuel)
      as (s2 & t2 & Hrun2 & S2 & Hins2 & _ & Hs2 & _).
    assert (t2 = t') as ->.
    { unfold ins_tree in Hins. unfold RBTree.ins_tree in Hins2.
      destruct (descend data t []) as [cs|] eqn:Hd; [|done].
      rewrite (rb_descend_eq _ _ _ _ Hd) in Hins2.
      destruct (fix_ins cs (N (fresh (dom (heap s))) RED data data E E)) as [[t1 m1]|]; [|done].
      congruence. }
    exists s1, s2, t'. split; [done|]. split; [done|].
    split; (split; [by eexists|by split]).
  - intros Hk s2 Hrun2.
    destruct (del_tree_spec data t Hrb Ho Hk) as (t' & Hdel & Hrb' & Ho' & _).
    destruct (remove_sim fuel data s t n t' S0 Hdel Hfuel) as ([] & s1 & Hrun1 & n' & S1).
    exists s1, t'. split; [done|]. split; [split; [by eexists|by split]|].
    apply find_iff in Hk as [[cs tz] Hfind]; [|done].
    destruct (find_plug _ _ _ _ _ Hfind) as (Hplug & z & cz & vz & l & r & ->).
    simpl in Hplug.
    destruct (unlink_rbt cs z cz data vz l r) as (cx & tx & c & Hun & _); [by rewrite Hplug|].
    destruct (rb_remove_cases cx tx c) as [Hcase|(-> & -> & Hne)].
    + destruct (rb_remove_ok fuel data s t n cs cx _ tx c S0 Hrb Hs Hfind Hun Hcase Hfuel)
        as (s2' & t2 & Hrun2' & S2 & Hdel2 & _ & Hs2 & _).
      assert (t2 = t') as -> by congruence. assert (s2' = s2) as -> by congruence.
      split; [by eexists|by split].
    + exfalso.
      destruct (rb_remove_sim fuel data s t n cs _ cx E BLACK S0 Hfind Hun Hfuel)
        as (fuel' & s1' & S1' & Heq).
      destruct cx as [|f cx]; [done|]. cbn [is_black Color_eqb rp] in Heq.
      rewrite (rb_removeFixup_null fuel' f cx s1' n S1') in Heq. congruence.
Qed.

Lemma implementations_agree_witness :
  Inv two_nodes two_tree ∧ (tree_size two_tree < 3)%nat
  ∧ ((15 ∉ inorder two_tree →
       ∃ s1 s2 t', insert 3 15 15 two_nodes = Done tt s1
         ∧ RBTree.insert 3 15 two_nodes = Done tt s2 ∧ Inv s1 t' ∧ RBTree.Inv s2 t')
     ∧ (15 ∈ inorder two_tree → ∀ s2, RBTree.remove 3 15 two_nodes = Done tt s2 →
       ∃ s1 t', remove 3 15 two_nodes = Done tt s1 ∧ Inv s1 t' ∧ RBTree.Inv s2 t')).
Proof.
  assert (tree_size two_tree < 3)%nat as Hfuel by (simpl; lia).
  split; [exact Inv_two_nodes|]. split; [assumption|].
  exact (implementations_agree 3 15 _ _ Inv_two_nodes Hfuel).
Defined.
